(** * CEX: a shallow embedding of the AEAD, tree-hash, stream-cipher and
    key-container code, with the properties checked against it.

  Layout: part I holds the embedding (one module per source class),
  part II the lemmas and theorems. *)

From stdpp Require Import base numbers list strings.
From Stdlib Require Import ZArith Lia.

Open Scope Z_scope.

(* ===================================================================== *)
(** * Part I: the embedding                                               *)
(* ===================================================================== *)

(** ** Outcomes of a call

  The library reports precondition failures by throwing one of its
  exception classes. Hot paths use the [CEXASSERT] macro instead, and
  an access outside a [std::vector] or through a null pointer has no
  defined behaviour: both get an outcome of their own. A call that
  throws is abandoned: the embedding does not follow the half-updated
  object any further. *)

Inductive exn : Type :=
| CryptoCipherModeException (origin message : string)
| CryptoSymmetricCipherException (origin message : string)
| CryptoDigestException (origin message : string)
| CryptoProcessingException (origin message : string).

Inductive result (A : Type) : Type :=
| Ok (a : A)
| Throw (e : exn)
| AssertFail (message : string)
| Fault.

Arguments Ok {A} a.
Arguments Throw {A} e.
Arguments AssertFail {A} message.
Arguments Fault {A}.

Definition result_bind {A B} (f : A → result B) (m : result A) : result B :=
match m with
| Ok a => f a
| Throw e => Throw e
| AssertFail msg => AssertFail msg
| Fault => Fault
end.

#[global] Instance result_mret : MRet result := @Ok.
#[global] Instance result_mbind : MBind result := @result_bind.

Definition is_Ok {A} (r : result A) : bool :=
match r with Ok _ => true | _ => false end.

Definition is_Throw {A} (r : result A) : bool :=
match r with Throw _ => true | _ => false end.

Definition is_CipherMode {A} (r : result A) : bool :=
match r with Throw (CryptoCipherModeException _ _) => true | _ => false end.

(** [if (c) throw e;] *)
Definition throw_if (c : bool) (e : exn) : result unit :=
if c then Throw e else Ok ().

(** The build the library is compiled in. *)
Inductive build : Type := Debug | Release.

(** Modelled from the spec: the [CEXASSERT(expression, message)] macro
  comes from the library's configuration header, which is not among the
  sources; it is an [assert], compiled in for debug builds and compiled
  out of release builds. *)
Definition CEXASSERT (b : build) (expression : bool) (message : string) : result unit :=
match b with
| Debug => if expression then Ok () else AssertFail message
| Release => Ok ()
end.

(** ** Machine integers *)

Abbreviation byte := Z.

Definition size_t (z : Z) : Z := z mod 2 ^ 64.
Definition ulong (z : Z) : Z := z mod 2 ^ 64.
Definition uint (z : Z) : Z := z mod 2 ^ 32.
Definition ushort (z : Z) : Z := z mod 2 ^ 16.
Definition uchar (z : Z) : Z := z mod 2 ^ 8.
(** two's complement reading of a 16-bit pattern *)
Definition short (z : Z) : Z :=
let u := ushort z in if u <? 2 ^ 15 then u else u - 2 ^ 16.

(** [std::vector::size()] *)
Definition size {A} (v : list A) : Z := Z.of_nat (length v).

(** ** Vectors accessed by offset and length

  [vec_range v off len] is the [len] elements of [v] from [off] on;
  touching an element past the end is a [Fault]. [vec_write] stores a
  run of elements at an offset the same way. *)

Definition vec_range {A} (v : list A) (off len : Z) : result (list A) :=
if bool_decide (0 ≤ off ∧ 0 ≤ len ∧ off + len ≤ size v)
then Ok (take (Z.to_nat len) (drop (Z.to_nat off) v))
else Fault.

Definition vec_write {A} (v : list A) (off : Z) (data : list A) : result (list A) :=
if bool_decide (0 ≤ off ∧ off + size data ≤ size v)
then Ok (list_inserts (Z.to_nat off) data v)
else Fault.

Definition vec_get {A} (v : list A) (i : Z) : result A :=
if bool_decide (0 ≤ i)
then match v !! Z.to_nat i with Some x => Ok x | None => Fault end
else Fault.

Definition vec_set {A} (v : list A) (i : Z) (x : A) : result (list A) :=
if bool_decide (0 ≤ i ∧ i < size v) then Ok (<[Z.to_nat i := x]> v) else Fault.

(** ** MemUtils and IntUtils *)

Module MemUtils.

(** Modelled from the spec: [MemUtils::Copy] (MemUtils.h is not among the
  sources) copies [Length] elements from [Input] at [InOffset] to
  [Output] at [OutOffset]. *)
Definition Copy {A} (Input : list A) (InOffset : Z) (Output : list A)
  (OutOffset Length : Z) : result (list A) :=
data ← vec_range Input InOffset Length;
vec_write Output OutOffset data.

(** Modelled from the spec: [MemUtils::Clear] zeroes [Length] bytes of
  [Output] from [Offset] on. *)
Definition Clear (Output : list byte) (Offset Length : Z) : result (list byte) :=
if bool_decide (0 ≤ Length)
then vec_write Output Offset (replicate (Z.to_nat Length) 0)
else Fault.

Definition xor_bytes (a b : list byte) : list byte := zip_with Z.lxor a b.

(** Modelled from the spec: [MemUtils::XorBlock] is
  [Output[OutOffset + i] ^= Input[InOffset + i]] for [i < Length]. *)
Definition XorBlock (Input : list byte) (InOffset : Z) (Output : list byte)
  (OutOffset Length : Z) : result (list byte) :=
a ← vec_range Input InOffset Length;
b ← vec_range Output OutOffset Length;
vec_write Output OutOffset (xor_bytes b a).

End MemUtils.

Module IntUtils.

Definition Min (a b : Z) : Z := if a <? b then a else b.

(** the little-endian bytes of a [w]-byte word, and the word of a run of
  little-endian bytes *)
Fixpoint le_bytes (w : nat) (z : Z) : list byte :=
match w with
| O => []
| S w' => z mod 256 :: le_bytes w' (z / 256)
end.

Fixpoint le_value (bs : list byte) : Z :=
match bs with
| [] => 0
| b :: bs' => b + 256 * le_value bs'
end.

Definition be_bytes (w : nat) (z : Z) : list byte := reverse (le_bytes w z).
Definition be_value (bs : list byte) : Z := le_value (reverse bs).

(** Modelled from the spec: [IntUtils::LeBytesTo32] (IntUtils.h is not
  among the sources) reads four bytes at [InOffset] as a little-endian
  word. *)
Definition LeBytesTo32 (Input : list byte) (InOffset : Z) : result Z :=
bs ← vec_range Input InOffset 4; Ok (le_value bs).

(** Modelled from the spec: [IntUtils::BeBytesTo64] reads eight bytes at
  [InOffset] as a big-endian word. *)
Definition BeBytesTo64 (Input : list byte) (InOffset : Z) : result Z :=
bs ← vec_range Input InOffset 8; Ok (be_value bs).

(** Modelled from the spec: [IntUtils::LeULL512ToBlock] stores eight
  64-bit words of [Input] from [InOffset] on as 64 little-endian bytes
  of [Output] at [OutOffset]. *)
Definition LeULL512ToBlock (Input : list Z) (InOffset : Z)
  (Output : list byte) (OutOffset : Z) : result (list byte) :=
ws ← vec_range Input InOffset 8;
vec_write Output OutOffset (concat (le_bytes 8 <$> ws)).

(** Modelled from the spec: [IntUtils::Compare] is the constant-time
  comparison of [Length] bytes of [A] at [AOffset] with [B] at
  [BOffset]: the differences of all positions are or-ed together before
  the one test. *)
Definition Compare (A : list byte) (AOffset : Z) (B : list byte)
  (BOffset Length : Z) : result bool :=
a ← vec_range A AOffset Length;
b ← vec_range B BOffset Length;
Ok (foldr Z.lor 0 (zip_with Z.lxor a b) =? 0).

Fixpoint le_increment (bs : list byte) : list byte :=
match bs with
| [] => []
| b :: bs' => if uchar (b + 1) =? 0 then 0 :: le_increment bs'
              else uchar (b + 1) :: bs'
end.

(** Modelled from the spec: [IntUtils::BeIncrement8] adds one to a byte
  array read as a big-endian number, wrapping at its width. *)
Definition BeIncrement8 (Output : list byte) : list byte :=
reverse (le_increment (reverse Output)).

End IntUtils.

(** ** ParallelOptions *)
Module ParallelOptions.

(** Modelled from the spec: the [ParallelOptions] class is not among the
  sources; it is the record of the properties its users read. *)
Record ParallelOptions : Type := {
IsParallel : bool;
ParallelBlockSize : Z;
ParallelMinimumSize : Z;
ParallelMaximumSize : Z;
ParallelMaxDegree : Z;
ProcessorCount : Z
}.

(** Modelled from the spec: [ParallelOptions::SetMaxDegree] is not among
  the sources. The spec has it that a parallel degree must be even and
  at most the number of processor cores, and that an invalid degree
  fails; the header of the tree digest says the same of its setter. So
  the setter refuses an odd degree and one above the processor count,
  and stores any other. Which exception class it throws is not known
  from the sources; no theorem below depends on the class. *)
Definition SetMaxDegree (Degree : Z) (p : ParallelOptions) : result ParallelOptions :=
_ ← throw_if (negb (Degree mod 2 =? 0) || (ProcessorCount p <? Degree))
      (CryptoProcessingException "ParallelOptions:SetMaxDegree"
         "The parallel degree is invalid!");
Ok {| IsParallel := IsParallel p;
      ParallelBlockSize := ParallelBlockSize p;
      ParallelMinimumSize := ParallelMinimumSize p;
      ParallelMaximumSize := ParallelMaximumSize p;
      ParallelMaxDegree := Degree;
      ProcessorCount := ProcessorCount p |}.

(** [IsParallel() = b] *)
Definition set_IsParallel (b : bool) (p : ParallelOptions) : ParallelOptions :=
{| IsParallel := b;
   ParallelBlockSize := ParallelBlockSize p;
   ParallelMinimumSize := ParallelMinimumSize p;
   ParallelMaximumSize := ParallelMaximumSize p;
   ParallelMaxDegree := ParallelMaxDegree p;
   ProcessorCount := ProcessorCount p |}.

End ParallelOptions.

(** [a % b] on [size_t]; the remainder by zero has no defined behaviour *)
Definition size_t_rem (a b : Z) : result Z :=
if b =? 0 then Fault else Ok (a mod b).

(** The two parallel-profile tests at the head of the [Initialize] of
  Salsa20 and of GCM. [&&] binds tighter than [||], and the remainder is
  only taken for a parallel profile. *)
Definition check_profile (origin : string) (p : ParallelOptions.ParallelOptions)
  : result unit :=
_ ← throw_if ((ParallelOptions.IsParallel p
               && (ParallelOptions.ParallelBlockSize p <? ParallelOptions.ParallelMinimumSize p))
              || (ParallelOptions.ParallelMaximumSize p <? ParallelOptions.ParallelBlockSize p))
      (CryptoSymmetricCipherException origin "The parallel block size is out of bounds!");
if ParallelOptions.IsParallel p then
  r ← size_t_rem (ParallelOptions.ParallelBlockSize p) (ParallelOptions.ParallelMinimumSize p);
  throw_if (negb (r =? 0))
    (CryptoSymmetricCipherException origin
       "The parallel block size must be evenly aligned to the ParallelMinimumSize!")
else Ok ().

(** the bytes of a string constant *)
Definition bytes_of_string (s : string) : list byte :=
(λ c, Z.of_nat (Ascii.nat_of_ascii c)) <$> String.list_ascii_of_string s.

(** [for (size_t i = 0; i < n; ++i) body(i)], and the sequential reading
  of [ParallelFor(0, n, body)]: the workers of a parallel phase own
  disjoint leaves and buffer regions, so the order of their runs does
  not show in the result. *)
Fixpoint for_loop {S} (n : nat) (body : Z → S → result S) (s : S) : result S :=
match n with
| O => Ok s
| S n' => s' ← for_loop n' body s; body (Z.of_nat n') s'
end.

(** ** BlakeB512.h *)
Module BlakeB512.

Inductive Digests : Type := Digests_BlakeB512 | Digests_BlakeBP512.

(** the one field the two properties below read *)
Record BlakeB512 : Type := { m_isParallel : bool }.

Definition Name (d : BlakeB512) : string :=
  if m_isParallel d then "BlakeBP512" else "BlakeBP512".

Definition Enumeral (d : BlakeB512) : Digests :=
  if m_isParallel d then Digests_BlakeBP512 else Digests_BlakeB512.

End BlakeB512.

(** ** MemoryStream, StreamWriter, StreamReader *)
Module IO.

(** Modelled from the spec: [MemoryStream] (MemoryStream.h is not among
  the sources) is a byte array with a position. *)
Record MemoryStream : Type := {
m_streamData : list byte;
m_streamPosition : Z
}.

(** [Seek(0, SeekOrigin::Begin)] *)
Definition Seek_Begin (Offset : Z) (strm : MemoryStream) : MemoryStream :=
{| m_streamData := m_streamData strm; m_streamPosition := Offset |}.

(** Modelled from the spec: [StreamWriter] (StreamWriter.h is not among
  the sources) collects what is written, in order; the length it is
  created with only reserves room. *)
Record StreamWriter : Type := { w_streamData : list byte }.

Definition StreamWriter_new (Length : Z) : StreamWriter :=
{| w_streamData := [] |}.

(** Modelled from the spec: [Write(ushort)] stores the two bytes of a
  16-bit value, low byte first. *)
Definition Write_ushort (Value : Z) (w : StreamWriter) : StreamWriter :=
{| w_streamData := w_streamData w ++ IntUtils.le_bytes 2 (ushort Value) |}.

(** Modelled from the spec: [Write(Input, Offset, Length)] stores a byte
  range as it is. *)
Definition Write_bytes (Input : list byte) (Offset Length : Z) (w : StreamWriter)
  : result StreamWriter :=
data ← vec_range Input Offset Length;
Ok {| w_streamData := w_streamData w ++ data |}.

Definition GetStream (w : StreamWriter) : MemoryStream :=
{| m_streamData := w_streamData w;
   m_streamPosition := size (w_streamData w) |}.

(** Modelled from the spec: [StreamReader] (StreamReader.h is not among
  the sources) reads a stream front to back, and throws when the stream
  holds less than what is asked of it. *)
Record StreamReader : Type := { r_stream : MemoryStream }.

Definition StreamReader_new (strm : MemoryStream) : StreamReader :=
{| r_stream := strm |}.

Definition ReadBytes (Length : Z) (r : StreamReader)
  : result (list byte * StreamReader) :=
let strm := r_stream r in
let pos := m_streamPosition strm in
_ ← throw_if (size (m_streamData strm) <? pos + Length)
      (CryptoProcessingException "StreamReader:ReadBytes" "The array is too short!");
data ← vec_range (m_streamData strm) pos Length;
Ok (data, {| r_stream := Seek_Begin (pos + Length) strm |}).

(** Modelled from the spec: [ReadInt<short>] reads two bytes, low byte
  first, as a signed 16-bit value. *)
Definition ReadInt_short (r : StreamReader) : result (Z * StreamReader) :=
'(bs, r') ← ReadBytes 2 r;
Ok (short (IntUtils.le_value bs), r').

End IO.

(** ** SymmetricKey.h, SymmetricKey.cpp *)

(** Modelled from the spec: [SymmetricKeySize] (SymmetricKeySize.h is not
  among the sources) holds the byte sizes of a key, a nonce and an
  info. *)
Record SymmetricKeySize : Type := {
KeySize : Z;
NonceSize : Z;
InfoSize : Z
}.

(** Modelled from the spec: [SymmetricKeySize::Contains] tells whether a
  key length is one of the legal sizes. *)
Definition Contains (sizes : list SymmetricKeySize) (KeyLength : Z) : bool :=
existsb (λ ks, KeySize ks =? KeyLength) sizes.

Module SymmetricKey.

Record SymmetricKey : Type := {
m_info : list byte;
m_isDestroyed : bool;
m_key : list byte;
m_keySizes : SymmetricKeySize;
m_nonce : list byte
}.

Definition Info (k : SymmetricKey) : list byte := m_info k.
Definition Key (k : SymmetricKey) : list byte := m_key k.
Definition KeySizes (k : SymmetricKey) : SymmetricKeySize := m_keySizes k.
Definition Nonce (k : SymmetricKey) : list byte := m_nonce k.

(** [SymmetricKey()] *)
Definition SymmetricKey0 : SymmetricKey :=
{| m_info := [];
   m_isDestroyed := false;
   m_key := [];
   m_keySizes := {| KeySize := 0; NonceSize := 0; InfoSize := 0 |};
   m_nonce := [] |}.

(** [SymmetricKey(Key)] *)
Definition SymmetricKey1 (Key : list byte) : result SymmetricKey :=
_ ← throw_if (size Key =? 0)
      (CryptoProcessingException "SymmetricKey:Ctor" "The key can not be zero sized!");
Ok {| m_info := [];
      m_isDestroyed := false;
      m_key := Key;
      m_keySizes := {| KeySize := size Key; NonceSize := 0; InfoSize := 0 |};
      m_nonce := [] |}.

(** [SymmetricKey(Key, Nonce)] *)
Definition SymmetricKey2 (Key Nonce : list byte) : result SymmetricKey :=
_ ← throw_if ((size Key =? 0) && (size Nonce =? 0))
      (CryptoProcessingException "SymmetricKey:Ctor"
         "The key and nonce can not both be be zero sized!");
Ok {| m_info := [];
      m_isDestroyed := false;
      m_key := Key;
      m_keySizes := {| KeySize := size Key; NonceSize := size Nonce; InfoSize := 0 |};
      m_nonce := Nonce |}.

(** [SymmetricKey(Key, Nonce, Info)] *)
Definition SymmetricKey3 (Key Nonce Info : list byte) : result SymmetricKey :=
_ ← throw_if ((size Key =? 0) && (size Nonce =? 0) && (size Info =? 0))
      (CryptoProcessingException "SymmetricKey:Ctor"
         "The key, nonce, and info can not all be be zero sized!");
Ok {| m_info := Info;
      m_isDestroyed := false;
      m_key := Key;
      m_keySizes := {| KeySize := size Key; NonceSize := size Nonce;
                       InfoSize := size Info |};
      m_nonce := Nonce |}.

Definition DeSerialize (KeyStream : IO.MemoryStream) : result SymmetricKey :=
let reader := IO.StreamReader_new KeyStream in
'(kLen, reader) ← IO.ReadInt_short reader;
'(nLen, reader) ← IO.ReadInt_short reader;
'(iLen, reader) ← IO.ReadInt_short reader;
'(key, reader) ← (if 0 <? kLen then IO.ReadBytes kLen reader else Ok ([], reader));
'(nonce, reader) ← (if 0 <? nLen then IO.ReadBytes nLen reader else Ok ([], reader));
'(info, reader) ← (if 0 <? iLen then IO.ReadBytes iLen reader else Ok ([], reader));
SymmetricKey3 key nonce info.

Definition Equals (Obj this : SymmetricKey) : bool :=
bool_decide (Key Obj = Key this) && bool_decide (Nonce Obj = Nonce this)
&& bool_decide (Info Obj = Info this).

Definition Serialize (KeyObj : SymmetricKey) : result IO.MemoryStream :=
let kLen := size_t (size (Key KeyObj)) in
let nLen := size_t (size (Nonce KeyObj)) in
let iLen := size_t (size (Info KeyObj)) in
let tLen := size_t (6 + kLen + nLen + iLen) in
let writer := IO.StreamWriter_new tLen in
let writer := IO.Write_ushort (ushort kLen) writer in
let writer := IO.Write_ushort (ushort nLen) writer in
let writer := IO.Write_ushort (ushort iLen) writer in
writer ← (if negb (kLen =? 0) then IO.Write_bytes (Key KeyObj) 0 kLen writer else Ok writer);
writer ← (if negb (nLen =? 0) then IO.Write_bytes (Nonce KeyObj) 0 nLen writer else Ok writer);
writer ← (if negb (iLen =? 0) then IO.Write_bytes (Info KeyObj) 0 iLen writer else Ok writer);
let strm := IO.GetStream writer in
Ok (IO.Seek_Begin 0 strm).

(** [Clone()]: [new SymmetricKey(m_key, m_nonce, m_info)] *)
Definition Clone (this : SymmetricKey) : result SymmetricKey :=
SymmetricKey3 (m_key this) (m_nonce this) (m_info this).

End SymmetricKey.

(** ** Salsa20.cpp *)
Module Salsa20.

Import SymmetricKey.

Definition SIGMA_INFO : string := "expand 32-byte k".
Definition TAU_INFO : string := "expand 16-byte k".

Definition BLOCK_SIZE : Z := 64.
Definition MIN_ROUNDS : Z := 8.
Definition MAX_ROUNDS : Z := 30.

Record Salsa20 : Type := {
m_ctrVector : list Z;
m_dstCode : list byte;
m_isDestroyed : bool;
m_isInitialized : bool;
m_legalKeySizes : list SymmetricKeySize;
m_legalRounds : list Z;
m_parallelProfile : ParallelOptions.ParallelOptions;
m_rndCount : Z;
m_wrkState : list Z
}.

Definition Scope (s : Salsa20) : Salsa20 :=
{| m_ctrVector := m_ctrVector s;
   m_dstCode := m_dstCode s;
   m_isDestroyed := m_isDestroyed s;
   m_isInitialized := m_isInitialized s;
   m_legalKeySizes :=
     [ {| KeySize := 16; NonceSize := 8; InfoSize := 0 |};
       {| KeySize := 32; NonceSize := 8; InfoSize := 0 |} ];
   m_legalRounds := [8; 10; 12; 14; 16; 18; 20; 22; 24; 26; 28; 30];
   m_parallelProfile := m_parallelProfile s;
   m_rndCount := m_rndCount s;
   m_wrkState := m_wrkState s |}.

(** [Salsa20(Rounds)]; the parallel profile the constructor computes from
  the machine is an argument. *)
Definition Salsa20_new (profile : ParallelOptions.ParallelOptions) (Rounds : Z) : result Salsa20 :=
_ ← throw_if ((Rounds =? 0) || negb (Z.land Rounds 1 =? 0))
      (CryptoSymmetricCipherException "Salsa20:Ctor"
         "Rounds must be a positive even number!");
_ ← throw_if ((Rounds <? MIN_ROUNDS) || (MAX_ROUNDS <? Rounds))
      (CryptoSymmetricCipherException "Salsa20:Ctor" "Rounds must be between 8 and 30!");
Ok (Scope {| m_ctrVector := replicate 2 0;
             m_dstCode := [];
             m_isDestroyed := false;
             m_isInitialized := false;
             m_legalKeySizes := [];
             m_legalRounds := [];
             m_parallelProfile := profile;
             m_rndCount := Rounds;
             m_wrkState := replicate 14 0 |}).

Definition Reset (s : Salsa20) : result Salsa20 :=
ctr ← vec_set (m_ctrVector s) 0 0;
ctr ← vec_set ctr 1 0;
Ok {| m_ctrVector := ctr;
      m_dstCode := m_dstCode s;
      m_isDestroyed := m_isDestroyed s;
      m_isInitialized := m_isInitialized s;
      m_legalKeySizes := m_legalKeySizes s;
      m_legalRounds := m_legalRounds s;
      m_parallelProfile := m_parallelProfile s;
      m_rndCount := m_rndCount s;
      m_wrkState := m_wrkState s |}.

(** [m_wrkState[i] = IntUtils::LeBytesTo32(Input, InOffset)] *)
Definition load32 (i : Z) (Input : list byte) (InOffset : Z) (w : list Z)
  : result (list Z) :=
x ← IntUtils.LeBytesTo32 Input InOffset;
vec_set w i x.

Definition Expand (Key Iv : list byte) (s : Salsa20) : result Salsa20 :=
let c := m_dstCode s in
w ← (if size Key =? 32 then
       w ← load32 0 c 0 (m_wrkState s);
       w ← load32 1 Key 0 w;
       w ← load32 2 Key 4 w;
       w ← load32 3 Key 8 w;
       w ← load32 4 Key 12 w;
       w ← load32 5 c 4 w;
       w ← load32 6 Iv 0 w;
       w ← load32 7 Iv 4 w;
       w ← load32 8 c 8 w;
       w ← load32 9 Key 16 w;
       w ← load32 10 Key 20 w;
       w ← load32 11 Key 24 w;
       w ← load32 12 Key 28 w;
       load32 13 c 12 w
     else
       w ← load32 0 c 0 (m_wrkState s);
       w ← load32 1 Key 0 w;
       w ← load32 2 Key 4 w;
       w ← load32 3 Key 8 w;
       w ← load32 4 Key 12 w;
       w ← load32 5 c 4 w;
       w ← load32 6 Iv 0 w;
       w ← load32 7 Iv 4 w;
       w ← load32 8 c 8 w;
       w ← load32 9 Key 0 w;
       w ← load32 10 Key 4 w;
       w ← load32 11 Key 8 w;
       w ← load32 12 Key 12 w;
       load32 13 c 12 w);
Ok {| m_ctrVector := m_ctrVector s;
      m_dstCode := m_dstCode s;
      m_isDestroyed := m_isDestroyed s;
      m_isInitialized := m_isInitialized s;
      m_legalKeySizes := m_legalKeySizes s;
      m_legalRounds := m_legalRounds s;
      m_parallelProfile := m_parallelProfile s;
      m_rndCount := m_rndCount s;
      m_wrkState := w |}.

Definition Initialize (KeyParams : SymmetricKey) (s : Salsa20) : result Salsa20 :=
let s := Scope s in
_ ← throw_if (negb (size (Nonce KeyParams) =? 8))
      (CryptoSymmetricCipherException "Salsa20:Initialize"
         "Requires exactly 8 bytes of Nonce!");
_ ← throw_if (negb (size (Key KeyParams) =? 16) && negb (size (Key KeyParams) =? 32))
      (CryptoSymmetricCipherException "Salsa20:Initialize" "Key must be 16 or 32 bytes!");
_ ← check_profile "Salsa20:Initialize" (m_parallelProfile s);
let dstCode :=
  if negb (size (Info KeyParams) =? 0) then Info KeyParams
  else if size (Key KeyParams) =? 32 then bytes_of_string SIGMA_INFO
  else bytes_of_string TAU_INFO in
let s := {| m_ctrVector := m_ctrVector s;
            m_dstCode := dstCode;
            m_isDestroyed := m_isDestroyed s;
            m_isInitialized := m_isInitialized s;
            m_legalKeySizes := m_legalKeySizes s;
            m_legalRounds := m_legalRounds s;
            m_parallelProfile := m_parallelProfile s;
            m_rndCount := m_rndCount s;
            m_wrkState := m_wrkState s |} in
s ← Reset s;
s ← Expand (Key KeyParams) (Nonce KeyParams) s;
Ok {| m_ctrVector := m_ctrVector s;
      m_dstCode := m_dstCode s;
      m_isDestroyed := m_isDestroyed s;
      m_isInitialized := true;
      m_legalKeySizes := m_legalKeySizes s;
      m_legalRounds := m_legalRounds s;
      m_parallelProfile := m_parallelProfile s;
      m_rndCount := m_rndCount s;
      m_wrkState := m_wrkState s |}.

Definition ParallelMaxDegree (Degree : Z) (s : Salsa20) : result Salsa20 :=
_ ← throw_if (Degree =? 0)
      (CryptoSymmetricCipherException "Salsa20::ParallelMaxDegree"
         "Parallel degree can not be zero!");
_ ← throw_if (negb (Degree mod 2 =? 0))
      (CryptoSymmetricCipherException "Salsa20::ParallelMaxDegree"
         "Parallel degree must be an even number!");
_ ← throw_if (ParallelOptions.ProcessorCount (m_parallelProfile s) <? Degree)
      (CryptoSymmetricCipherException "Salsa20::ParallelMaxDegree"
         "Parallel degree can not exceed processor count!");
parallelProfile ← ParallelOptions.SetMaxDegree Degree (m_parallelProfile s);
Ok {| m_ctrVector := m_ctrVector s;
      m_dstCode := m_dstCode s;
      m_isDestroyed := m_isDestroyed s;
      m_isInitialized := m_isInitialized s;
      m_legalKeySizes := m_legalKeySizes s;
      m_legalRounds := m_legalRounds s;
      m_parallelProfile := parallelProfile;
      m_rndCount := m_rndCount s;
      m_wrkState := m_wrkState s |}.

End Salsa20.

(** ** Keccak512.h, Keccak512.cpp *)
Module Keccak512.

Definition BLOCK_SIZE : Z := 72.
Definition DEF_PRLDEGREE : Z := 8.
Definition DIGEST_SIZE : Z := 64.
Definition STATE_SIZE : Z := 25.
Definition MAX_ULL : Z := 0xFFFFFFFFFFFFFFFF.

(** Modelled from the spec: [KeccakParams] (KeccakParams.h is not among
  the sources) holds the tree parameters the spec lists; [NodeOffset()]
  hands out a reference to the one field [Reset] assigns. *)
Record KeccakParams : Type := {
DigestLength : Z;
KeyLength : Z;
FanOut : Z;
TreeDepth : Z;
LeafLength : Z;
NodeOffset : Z;
NodeDepth : Z;
InnerLength : Z;
ThreadCount : Z
}.

Definition set_NodeOffset (i : Z) (p : KeccakParams) : KeccakParams :=
{| DigestLength := DigestLength p;
   KeyLength := KeyLength p;
   FanOut := FanOut p;
   TreeDepth := TreeDepth p;
   LeafLength := LeafLength p;
   NodeOffset := i;
   NodeDepth := NodeDepth p;
   InnerLength := InnerLength p;
   ThreadCount := ThreadCount p |}.

(** Modelled from the spec: the constructor
  [KeccakParams(OutputSize, LeafSize, Fanout)]. *)
Definition KeccakParams_new (OutputSize LeafSize Fanout : Z) : KeccakParams :=
{| DigestLength := OutputSize;
   KeyLength := 0;
   FanOut := Fanout;
   TreeDepth := 0;
   LeafLength := LeafSize;
   NodeOffset := 0;
   NodeDepth := 0;
   InnerLength := 0;
   ThreadCount := Fanout |}.

(** Modelled from the spec: [Keccak::Permute] (Keccak.h is not among the
  sources) absorbs one block into the 25 lanes of a state and runs
  Keccak-f[1600] over them, in place; [KeccakParams::ToBytes] lays the
  tree parameters out as the block a leaf absorbs first. Both are fixed
  by their standards and are parameters here. *)
Class KeccakPrimitives : Type := {
Permute : list byte → list Z → list Z;
Permute_length : ∀ blk st, length (Permute blk st) = length st;
ToBytes : KeccakParams → list byte
}.

Record Keccak512State : Type := {
H : list Z;
T : Z
}.

(** [Keccak512State::Reset()]. [H] is created with 25 lanes and never
  resized, so the six lanes assigned are in range; on a shorter list the
  assignment would leave the source's defined behaviour, and stdpp's
  insert leaves the list as it is. *)
Definition State_Reset (st : Keccak512State) : Keccak512State :=
{| H := <[20%nat := MAX_ULL]> (<[17%nat := MAX_ULL]> (<[12%nat := MAX_ULL]>
        (<[8%nat := MAX_ULL]> (<[2%nat := MAX_ULL]> (<[1%nat := MAX_ULL]>
        ((λ _, 0) <$> H st))))));
   T := 0 |}.

(** [Keccak512State()] *)
Definition State_new : Keccak512State :=
State_Reset {| H := replicate 25 0; T := 0 |}.

Record Keccak512 : Type := {
m_treeParams : KeccakParams;
m_dgtState : list Keccak512State;
m_isDestroyed : bool;
m_msgBuffer : list byte;
m_msgLength : Z;
m_parallelProfile : ParallelOptions.ParallelOptions
}.

Definition set_treeParams (p : KeccakParams) (s : Keccak512) : Keccak512 :=
{| m_treeParams := p;
   m_dgtState := m_dgtState s;
   m_isDestroyed := m_isDestroyed s;
   m_msgBuffer := m_msgBuffer s;
   m_msgLength := m_msgLength s;
   m_parallelProfile := m_parallelProfile s |}.

Definition set_dgtState (ds : list Keccak512State) (s : Keccak512) : Keccak512 :=
{| m_treeParams := m_treeParams s;
   m_dgtState := ds;
   m_isDestroyed := m_isDestroyed s;
   m_msgBuffer := m_msgBuffer s;
   m_msgLength := m_msgLength s;
   m_parallelProfile := m_parallelProfile s |}.

Definition set_msgBuffer (buf : list byte) (s : Keccak512) : Keccak512 :=
{| m_treeParams := m_treeParams s;
   m_dgtState := m_dgtState s;
   m_isDestroyed := m_isDestroyed s;
   m_msgBuffer := buf;
   m_msgLength := m_msgLength s;
   m_parallelProfile := m_parallelProfile s |}.

Definition set_msgLength (n : Z) (s : Keccak512) : Keccak512 :=
{| m_treeParams := m_treeParams s;
   m_dgtState := m_dgtState s;
   m_isDestroyed := m_isDestroyed s;
   m_msgBuffer := m_msgBuffer s;
   m_msgLength := n;
   m_parallelProfile := m_parallelProfile s |}.

Definition set_parallelProfile (p : ParallelOptions.ParallelOptions) (s : Keccak512) : Keccak512 :=
{| m_treeParams := m_treeParams s;
   m_dgtState := m_dgtState s;
   m_isDestroyed := m_isDestroyed s;
   m_msgBuffer := m_msgBuffer s;
   m_msgLength := m_msgLength s;
   m_parallelProfile := p |}.

(** [~x] on a 64-bit lane *)
Definition not64 (x : Z) : Z := ulong (Z.lnot x).

Section Keccak512.

Context `{KeccakPrimitives}.
Variable bld : build.

Definition Compress (Input : list byte) (InOffset : Z) (State : Keccak512State)
  : result Keccak512State :=
blk ← vec_range Input InOffset BLOCK_SIZE;
Ok {| H := Permute blk (H State); T := T State |}.

(** [Compress(Input, InOffset, m_dgtState[i])] *)
Definition Compress_leaf (Input : list byte) (InOffset i : Z) (s : Keccak512)
  : result Keccak512 :=
st ← vec_get (m_dgtState s) i;
st ← Compress Input InOffset st;
ds ← vec_set (m_dgtState s) i st;
Ok (set_dgtState ds s).

Definition HashFinal (Input : list byte) (InOffset Length : Z) (State : Keccak512State)
  : result (list byte * Keccak512State) :=
Input ← vec_set Input (size_t (InOffset + Length)) 1;
b ← vec_get Input (size_t (InOffset + BLOCK_SIZE - 1));
Input ← vec_set Input (size_t (InOffset + BLOCK_SIZE - 1)) (Z.lor b 128);
State ← Compress Input InOffset State;
Ok (Input,
    {| H := alter not64 17%nat (alter not64 12%nat (alter not64 8%nat
            (alter not64 2%nat (alter not64 1%nat (H State)))));
       T := T State |}).

(** the [do ... while (Length > 0)] of [ProcessLeaf]; [Length] is a
  [ulong]. Every pass reads a block inside [Input], so a run that neither
  leaves the loop nor leaves [Input] within the fuel given by
  [ProcessLeaf] never does: it has no result. *)
Fixpoint ProcessLeaf_loop (fuel : nat) (step : Z) (Input : list byte) (InOffset : Z)
  (State : Keccak512State) (Length : Z) : result Keccak512State :=
match fuel with
| O => Fault
| S fuel' =>
  State ← Compress Input InOffset State;
  let InOffset := size_t (InOffset + step) in
  let Length := ulong (Length - step) in
  if 0 <? Length then ProcessLeaf_loop fuel' step Input InOffset State Length
  else Ok State
end.

(** [ProcessLeaf(Input, InOffset, m_dgtState[i], Length)] *)
Definition ProcessLeaf (Input : list byte) (InOffset i Length : Z) (s : Keccak512)
  : result Keccak512 :=
st ← vec_get (m_dgtState s) i;
st ← ProcessLeaf_loop (S (length Input)) (ParallelOptions.ParallelMinimumSize (m_parallelProfile s))
       Input InOffset st Length;
ds ← vec_set (m_dgtState s) i st;
Ok (set_dgtState ds s).

Definition Reset (s : Keccak512) : result Keccak512 :=
buf ← MemUtils.Clear (m_msgBuffer s) 0 (size (m_msgBuffer s));
let s := set_msgLength 0 (set_msgBuffer buf s) in
for_loop (length (m_dgtState s))
  (λ i s,
     st ← vec_get (m_dgtState s) i;
     let st := State_Reset st in
     if ParallelOptions.IsParallel (m_parallelProfile s) then
       let s := set_treeParams (set_NodeOffset (uint i) (m_treeParams s)) s in
       st ← Compress (ToBytes (m_treeParams s)) 0 st;
       ds ← vec_set (m_dgtState s) i st;
       Ok (set_dgtState ds s)
     else
       ds ← vec_set (m_dgtState s) i st;
       Ok (set_dgtState ds s))
  s.

(** [Keccak512(bool Parallel)]; the profile that the [ParallelOptions]
  constructor computes from the machine is an argument. *)
Definition Keccak512_new (profile : ParallelOptions.ParallelOptions) (Parallel : bool)
  : result Keccak512 :=
let profile := if ParallelOptions.IsParallel profile then ParallelOptions.set_IsParallel Parallel profile else profile in
Reset {| m_treeParams := KeccakParams_new DIGEST_SIZE (uint BLOCK_SIZE) DEF_PRLDEGREE;
         m_dgtState := replicate (Z.to_nat (if Parallel then DEF_PRLDEGREE else 1)) State_new;
         m_isDestroyed := false;
         m_msgBuffer :=
           replicate (Z.to_nat (if Parallel then DEF_PRLDEGREE * BLOCK_SIZE else BLOCK_SIZE)) 0;
         m_msgLength := 0;
         m_parallelProfile := profile |}.

Definition ParallelMaxDegree (Degree : Z) (s : Keccak512) : result Keccak512 :=
_ ← throw_if (Degree =? 0)
      (CryptoDigestException "Skein256:ParallelMaxDegree" "Parallel degree can not be zero!");
_ ← throw_if (254 <? Degree)
      (CryptoDigestException "Skein256:ParallelMaxDegree" "Parallel degree can not exceed 254!");
_ ← throw_if (negb (Degree mod 2 =? 0))
      (CryptoDigestException "Skein256:ParallelMaxDegree"
         "Parallel degree must be an even number!");
parallelProfile ← ParallelOptions.SetMaxDegree Degree (m_parallelProfile s);
Reset (set_parallelProfile parallelProfile s).

(** the [while (Length >= BLOCK_SIZE)] of the sequential [Update] *)
Fixpoint Update_blocks (fuel : nat) (Input : list byte) (InOffset Length : Z)
  (s : Keccak512) : result (Z * Z * Keccak512) :=
if Length <? BLOCK_SIZE then Ok (InOffset, Length, s)
else match fuel with
     | O => Fault
     | S fuel' =>
       s ← Compress_leaf Input InOffset 0 s;
       Update_blocks fuel' Input (size_t (InOffset + BLOCK_SIZE))
         (size_t (Length - BLOCK_SIZE)) s
     end.

Definition Update_sequential (Input : list byte) (InOffset Length : Z) (s : Keccak512)
  : result (Z * Z * Keccak512) :=
'(InOffset, Length, s) ←
  (if negb (m_msgLength s =? 0) && (BLOCK_SIZE <=? size_t (m_msgLength s + Length)) then
     let RMDLEN := size_t (BLOCK_SIZE - m_msgLength s) in
     buf ← (if negb (RMDLEN =? 0)
            then MemUtils.Copy Input InOffset (m_msgBuffer s) (m_msgLength s) RMDLEN
            else Ok (m_msgBuffer s));
     let s := set_msgBuffer buf s in
     s ← Compress_leaf (m_msgBuffer s) 0 0 s;
     Ok (size_t (InOffset + RMDLEN), size_t (Length - RMDLEN), set_msgLength 0 s)
   else Ok (InOffset, Length, s));
Update_blocks (Z.to_nat (Length / BLOCK_SIZE)) Input InOffset Length s.

(** one of the two [ParallelFor] phases over whole leaves: the run of
  [Length] that is a multiple of [unit] goes to [ProcessLeaf], leaf [i]
  starting [i] blocks in *)
Definition Update_leaves (unit : Z) (Input : list byte) (InOffset Length : Z)
  (s : Keccak512) : result (Z * Z * Keccak512) :=
if unit <=? Length then
  r ← (if unit =? 0 then Fault else Ok (Length mod unit));
  let PRCLEN := size_t (Length - r) in
  s ← for_loop (Z.to_nat (ParallelOptions.ParallelMaxDegree (m_parallelProfile s)))
        (λ i s, ProcessLeaf Input (size_t (InOffset + size_t (i * BLOCK_SIZE))) i PRCLEN s) s;
  Ok (size_t (InOffset + PRCLEN), size_t (Length - PRCLEN), s)
else Ok (InOffset, Length, s).

Definition Update_parallel (Input : list byte) (InOffset Length : Z) (s : Keccak512)
  : result (Z * Z * Keccak512) :=
'(InOffset, Length, s) ←
  (if negb (m_msgLength s =? 0)
      && (size (m_msgBuffer s) <=? size_t (Length + m_msgLength s)) then
     let RMDLEN := size_t (size (m_msgBuffer s) - m_msgLength s) in
     buf ← (if negb (RMDLEN =? 0)
            then MemUtils.Copy Input InOffset (m_msgBuffer s) (m_msgLength s) RMDLEN
            else Ok (m_msgBuffer s));
     let s := set_msgBuffer buf s in
     s ← for_loop (Z.to_nat (ParallelOptions.ParallelMaxDegree (m_parallelProfile s)))
           (λ i s, Compress_leaf (m_msgBuffer s) (size_t (i * BLOCK_SIZE)) i s) s;
     Ok (size_t (InOffset + RMDLEN), size_t (Length - RMDLEN), set_msgLength 0 s)
   else Ok (InOffset, Length, s));
'(InOffset, Length, s) ←
  Update_leaves (ParallelOptions.ParallelBlockSize (m_parallelProfile s)) Input InOffset Length s;
Update_leaves (ParallelOptions.ParallelMinimumSize (m_parallelProfile s)) Input InOffset Length s.

Definition Update (Input : list byte) (InOffset Length : Z) (s : Keccak512)
  : result Keccak512 :=
_ ← CEXASSERT bld (Length <=? size_t (size Input - InOffset))
      "The Output buffer is too short!";
if Length =? 0 then Ok s
else
  '(InOffset, Length, s) ←
    (if ParallelOptions.IsParallel (m_parallelProfile s)
     then Update_parallel Input InOffset Length s
     else Update_sequential Input InOffset Length s);
  if negb (Length =? 0) then
    buf ← MemUtils.Copy Input InOffset (m_msgBuffer s) (m_msgLength s) Length;
    Ok (set_msgLength (size_t (m_msgLength s + Length)) (set_msgBuffer buf s))
  else Ok s.

(** the [while (m_msgLength != 0)] of the parallel [Finalize] *)
Fixpoint Finalize_leaves (fuel : nat) (blkCtr : Z) (s : Keccak512) : result Keccak512 :=
if m_msgLength s =? 0 then Ok s
else match fuel with
     | O => Fault
     | S fuel' =>
       let MSGRMD := if BLOCK_SIZE <=? m_msgLength s then BLOCK_SIZE else m_msgLength s in
       st ← vec_get (m_dgtState s) blkCtr;
       '(buf, st) ← HashFinal (m_msgBuffer s) (size_t (blkCtr * BLOCK_SIZE)) MSGRMD st;
       ds ← vec_set (m_dgtState s) blkCtr st;
       let s := set_msgLength (size_t (m_msgLength s - MSGRMD))
                  (set_dgtState ds (set_msgBuffer buf s)) in
       Finalize_leaves fuel' (size_t (blkCtr + 1)) s
     end.

(** the parallel branch of [Finalize], up to the digest *)
Definition Finalize_parallel (Output : list byte) (OutOffset : Z) (s : Keccak512)
  : result (list byte * Keccak512) :=
buf ← (if m_msgLength s <? size (m_msgBuffer s)
       then MemUtils.Clear (m_msgBuffer s) (m_msgLength s)
              (size_t (size (m_msgBuffer s) - m_msgLength s))
       else Ok (m_msgBuffer s));
let s := set_msgBuffer buf s in
s ← (if negb (m_msgLength s =? 0)
     then Finalize_leaves (Z.to_nat (m_msgLength s)) 0 s
     else Ok s);
let rootState := State_new in
s ← for_loop (length (m_dgtState s))
      (λ i s,
         st ← vec_get (m_dgtState s) i;
         buf ← IntUtils.LeULL512ToBlock (H st) 0 (m_msgBuffer s) (size_t (i * BLOCK_SIZE));
         Ok (set_msgLength (size_t (m_msgLength s + DIGEST_SIZE)) (set_msgBuffer buf s)))
      s;
'(blkOff, rootState, s) ←
  (if BLOCK_SIZE <? m_msgLength s then
     let BLKRMD := size_t (m_msgLength s - m_msgLength s mod BLOCK_SIZE) in
     rootState ← for_loop (Z.to_nat (BLKRMD / BLOCK_SIZE))
                   (λ i st, Compress (m_msgBuffer s) (size_t (i * BLOCK_SIZE)) st) rootState;
     Ok (BLKRMD, rootState, set_msgLength (size_t (m_msgLength s - BLKRMD)) s)
   else Ok (0, rootState, s));
'(buf, rootState) ← HashFinal (m_msgBuffer s) blkOff (m_msgLength s) rootState;
let s := set_msgBuffer buf s in
Output ← IntUtils.LeULL512ToBlock (H rootState) 0 Output OutOffset;
Ok (Output, s).

(** the sequential branch of [Finalize], up to the digest *)
Definition Finalize_sequential (Output : list byte) (OutOffset : Z) (s : Keccak512)
  : result (list byte * Keccak512) :=
buf ← (if negb (m_msgLength s =? size (m_msgBuffer s))
       then MemUtils.Clear (m_msgBuffer s) (m_msgLength s)
              (size_t (size (m_msgBuffer s) - m_msgLength s))
       else Ok (m_msgBuffer s));
let s := set_msgBuffer buf s in
st ← vec_get (m_dgtState s) 0;
'(buf, st) ← HashFinal (m_msgBuffer s) 0 (m_msgLength s) st;
ds ← vec_set (m_dgtState s) 0 st;
let s := set_dgtState ds (set_msgBuffer buf s) in
Output ← IntUtils.LeULL512ToBlock (H st) 0 Output OutOffset;
Ok (Output, s).

Definition Finalize (Output : list byte) (OutOffset : Z) (s : Keccak512)
  : result (Z * list byte * Keccak512) :=
_ ← CEXASSERT bld (DIGEST_SIZE <=? size_t (size Output - OutOffset))
      "The Output buffer is too short!";
'(Output, s) ←
  (if ParallelOptions.IsParallel (m_parallelProfile s)
   then Finalize_parallel Output OutOffset s
   else Finalize_sequential Output OutOffset s);
s ← Reset s;
Ok (DIGEST_SIZE, Output, s).

(** [Compute(Input, Output)]: [Output.resize(DIGEST_SIZE)], then
  [Update] over all of [Input] and [Finalize] at offset 0 *)
Definition Compute (Input Output : list byte) (s : Keccak512)
  : result (list byte * Keccak512) :=
let Output := resize (Z.to_nat DIGEST_SIZE) 0 Output in
s ← Update Input 0 (size Input) s;
'(_, Output, s) ← Finalize Output 0 s;
Ok (Output, s).

End Keccak512.

End Keccak512.

(** ** The collaborators of GCM: block cipher, CTR, GHASH *)

(** [*p] on a pointer that may be null *)
Definition deref {A} (p : option A) : result A :=
match p with
| Some x => Ok x
| None => Fault
end.

(** Modelled from the spec: [IBlockCipher] (the block ciphers are not
  among the sources) is a keyed permutation of 16-byte blocks with a
  list of legal key sizes; the round function is fixed by its standard
  and is a parameter here. *)
Class IBlockCipher : Type := {
Engine_LegalKeySizes : list SymmetricKeySize;
Engine_Transform : list byte → list byte → list byte;
Engine_Transform_length : ∀ key blk, length (Engine_Transform key blk) = 16%nat
}.

Module CTR.

Import SymmetricKey.

(** Modelled from the spec: the [CTR] mode (CTR.h is not among the
  sources) keeps the key of its engine and a 128-bit big-endian
  counter. *)
Record CTR : Type := {
m_engineKey : list byte;
m_ctrVector : list byte;
m_isInitialized : bool
}.

Definition CTR_new : CTR :=
{| m_engineKey := []; m_ctrVector := []; m_isInitialized := false |}.

Definition IsInitialized (c : CTR) : bool := m_isInitialized c.

(** [Engine()->Initialize(true, KeyParams)] *)
Definition Engine_Initialize (KeyParams : SymmetricKey) (c : CTR) : CTR :=
{| m_engineKey := Key KeyParams;
   m_ctrVector := m_ctrVector c;
   m_isInitialized := m_isInitialized c |}.

(** Modelled from the spec: [CTR::Initialize] keys the engine and loads
  the nonce as the counter. *)
Definition Initialize (Encryption : bool) (KeyParams : SymmetricKey) (c : CTR) : CTR :=
{| m_engineKey := Key KeyParams;
   m_ctrVector := Nonce KeyParams;
   m_isInitialized := true |}.

Section CTR.

Context `{IBlockCipher}.

(** [n] blocks of key stream, block [i] being the encryption of
  [counter + i], and the counter after them *)
Fixpoint keystream (n : nat) (key ctr : list byte) : list byte * list byte :=
match n with
| O => ([], ctr)
| S n' =>
  let '(ks, ctr') := keystream n' key (IntUtils.BeIncrement8 ctr) in
  (Engine_Transform key ctr ++ ks, ctr')
end.

(** Modelled from the spec: [CTR::Transform] is
  [out = in XOR E_K(counter); counter++] block by block; a tail shorter
  than a block takes the front of one more block of key stream. The
  parallel path of the mode gives the same bytes and is not told
  apart. *)
Definition Transform (Input : list byte) (InOffset : Z) (Output : list byte)
  (OutOffset Length : Z) (c : CTR) : result (CTR * list byte) :=
data ← vec_range Input InOffset Length;
let '(ks, ctr') := keystream (Z.to_nat ((Length + 15) / 16)) (m_engineKey c) (m_ctrVector c) in
out ← vec_write Output OutOffset (MemUtils.xor_bytes data ks);
Ok ({| m_engineKey := m_engineKey c;
       m_ctrVector := ctr';
       m_isInitialized := m_isInitialized c |}, out).

(** Modelled from the spec: [CTR::EncryptBlock] is the transform of the
  one block at the two offsets. *)
Definition EncryptBlock (Input : list byte) (InOffset : Z) (Output : list byte)
  (OutOffset : Z) (c : CTR) : result (CTR * list byte) :=
Transform Input InOffset Output OutOffset 16 c.

End CTR.

End CTR.

Module GHASH.

(** Modelled from the spec: [GHASH] (GHASH.h is not among the sources) is
  the streaming authenticator keyed by H. An instance has a state of its
  own beside the checksum array its caller owns; [Update],
  [ProcessSegment] and [FinalizeBlock] work on that array in place, so a
  16-byte checksum stays 16 bytes long. *)
Class Impl : Type := {
t : Type;
create : list Z → t;
update_bytes : list byte → list byte → t → t * list byte;
segment_bytes : list byte → list byte → t → t * list byte;
finalize_block : list byte → Z → Z → t → t * list byte;
Reset : t → t;
update_length : ∀ data cs g, length cs = 16%nat → length (update_bytes data cs g).2 = 16%nat;
segment_length : ∀ data cs g, length cs = 16%nat → length (segment_bytes data cs g).2 = 16%nat;
finalize_length : ∀ cs a m g, length cs = 16%nat → length (finalize_block cs a m g).2 = 16%nat
}.

Section GHASH.

Context `{Impl}.

(** [Update(Input, InOffset, Output, Length)]; [Output] is the checksum *)
Definition Update (Input : list byte) (InOffset : Z) (Output : list byte) (Length : Z)
  (g : t) : result (t * list byte) :=
data ← vec_range Input InOffset Length;
Ok (update_bytes data Output g).

(** [ProcessSegment(Input, InOffset, Output, Length)] *)
Definition ProcessSegment (Input : list byte) (InOffset : Z) (Output : list byte)
  (Length : Z) (g : t) : result (t * list byte) :=
data ← vec_range Input InOffset Length;
Ok (segment_bytes data Output g).

(** [FinalizeBlock(Output, AdSize, TextSize)] *)
Definition FinalizeBlock (Output : list byte) (AdSize TextSize : Z) (g : t)
  : t * list byte :=
finalize_block Output AdSize TextSize g.

End GHASH.

End GHASH.

(** ** GCM.h, GCM.cpp *)
Module GCM.

Import SymmetricKey.

Definition BLOCK_SIZE : Z := 16.
Definition MAX_PRLALLOC : Z := 100000000.
Definition MIN_TAGSIZE : Z := 12.

(** The two array arguments of a transform: two vectors, or one vector
  handed in as both (a transform in place). *)
Inductive buffers : Type :=
| Distinct (Input Output : list byte)
| InPlace (InOut : list byte).

Definition Input_of (io : buffers) : list byte :=
match io with
| Distinct Input _ => Input
| InPlace v => v
end.

Definition Output_of (io : buffers) : list byte :=
match io with
| Distinct _ Output => Output
| InPlace v => v
end.

(** a store to [Output]; in place it shows through [Input] as well *)
Definition with_Output (out : list byte) (io : buffers) : buffers :=
match io with
| Distinct Input _ => Distinct Input out
| InPlace _ => InPlace out
end.

Section GCM.

Context `{IBlockCipher} `{GHASH.Impl}.
Variable bld : build.

(** The fields the modelled functions read or write; [m_cipherType],
  [m_destroyEngine] and [m_isDestroyed] belong to the constructors and
  to [Destroy] alone. *)
Record GCM : Type := {
m_aadData : list byte;
m_aadLoaded : bool;
m_aadPreserve : bool;
m_aadSize : Z;
m_autoIncrement : bool;
m_checkSum : list byte;
m_cipherMode : CTR.CTR;
m_gcmHash : option GHASH.t;
m_gcmKey : list byte;
m_gcmNonce : list byte;
m_gcmVector : list byte;
m_isEncryption : bool;
m_isFinalized : bool;
m_isInitialized : bool;
m_legalKeySizes : list SymmetricKeySize;
m_msgSize : Z;
m_msgTag : list byte;
m_parallelProfile : ParallelOptions.ParallelOptions
}.

(** [Scope()]; the recalculation of the profile of the CTR mode does not
  show in the modelled CTR. *)
Definition Scope (s : GCM) : GCM :=
{| m_aadData := m_aadData s;
   m_aadLoaded := m_aadLoaded s;
   m_aadPreserve := m_aadPreserve s;
   m_aadSize := m_aadSize s;
   m_autoIncrement := m_autoIncrement s;
   m_checkSum := m_checkSum s;
   m_cipherMode := m_cipherMode s;
   m_gcmHash := m_gcmHash s;
   m_gcmKey := m_gcmKey s;
   m_gcmNonce := m_gcmNonce s;
   m_gcmVector := m_gcmVector s;
   m_isEncryption := m_isEncryption s;
   m_isFinalized := m_isFinalized s;
   m_isInitialized := m_isInitialized s;
   m_legalKeySizes :=
     if size (m_legalKeySizes s) =? 0 then Engine_LegalKeySizes else m_legalKeySizes s;
   m_msgSize := m_msgSize s;
   m_msgTag := m_msgTag s;
   m_parallelProfile := m_parallelProfile s |}.

(** [GCM(Cipher)]; the parallel profile the constructor takes over from
  the CTR mode is an argument. *)
Definition GCM_new (profile : ParallelOptions.ParallelOptions) : GCM :=
Scope {| m_aadData := [];
         m_aadLoaded := false;
         m_aadPreserve := false;
         m_aadSize := 0;
         m_autoIncrement := false;
         m_checkSum := replicate (Z.to_nat BLOCK_SIZE) 0;
         m_cipherMode := CTR.CTR_new;
         m_gcmHash := None;
         m_gcmKey := [];
         m_gcmNonce := [];
         m_gcmVector := [];
         m_isEncryption := false;
         m_isFinalized := false;
         m_isInitialized := false;
         m_legalKeySizes := [];
         m_msgSize := 0;
         m_msgTag := replicate (Z.to_nat BLOCK_SIZE) 0;
         m_parallelProfile := profile |}.

(** [AutoIncrement() = b] and [PreserveAD() = b] *)
Definition set_AutoIncrement (b : bool) (s : GCM) : GCM :=
{| m_aadData := m_aadData s;
   m_aadLoaded := m_aadLoaded s;
   m_aadPreserve := m_aadPreserve s;
   m_aadSize := m_aadSize s;
   m_autoIncrement := b;
   m_checkSum := m_checkSum s;
   m_cipherMode := m_cipherMode s;
   m_gcmHash := m_gcmHash s;
   m_gcmKey := m_gcmKey s;
   m_gcmNonce := m_gcmNonce s;
   m_gcmVector := m_gcmVector s;
   m_isEncryption := m_isEncryption s;
   m_isFinalized := m_isFinalized s;
   m_isInitialized := m_isInitialized s;
   m_legalKeySizes := m_legalKeySizes s;
   m_msgSize := m_msgSize s;
   m_msgTag := m_msgTag s;
   m_parallelProfile := m_parallelProfile s |}.

Definition set_PreserveAD (b : bool) (s : GCM) : GCM :=
{| m_aadData := m_aadData s;
   m_aadLoaded := m_aadLoaded s;
   m_aadPreserve := b;
   m_aadSize := m_aadSize s;
   m_autoIncrement := m_autoIncrement s;
   m_checkSum := m_checkSum s;
   m_cipherMode := m_cipherMode s;
   m_gcmHash := m_gcmHash s;
   m_gcmKey := m_gcmKey s;
   m_gcmNonce := m_gcmNonce s;
   m_gcmVector := m_gcmVector s;
   m_isEncryption := m_isEncryption s;
   m_isFinalized := m_isFinalized s;
   m_isInitialized := m_isInitialized s;
   m_legalKeySizes := m_legalKeySizes s;
   m_msgSize := m_msgSize s;
   m_msgTag := m_msgTag s;
   m_parallelProfile := m_parallelProfile s |}.

(** the branch of [Initialize] that keys the cipher and makes the hash
  key, or keeps both when the key of [KeyParams] is empty *)
Definition Initialize_key (KeyParams : SymmetricKey) (s : GCM)
  : result (CTR.CTR * option GHASH.t * list byte) :=
if size (Key KeyParams) =? 0 then
  _ ← throw_if (bool_decide (Nonce KeyParams = m_gcmNonce s))
        (CryptoSymmetricCipherException "GCM:Initialize"
           "The nonce can not be zeroised or repeating!");
  _ ← throw_if (negb (CTR.IsInitialized (m_cipherMode s)))
        (CryptoSymmetricCipherException "GCM:Initialize"
           "First initialization requires a key and nonce!");
  Ok (m_cipherMode s, m_gcmHash s, m_gcmKey s)
else
  _ ← throw_if (negb (Contains (m_legalKeySizes s) (size (Key KeyParams))))
        (CryptoSymmetricCipherException "GCM:Initialize"
           "Invalid key size! Key must be one of the LegalKeySizes() in length.");
  let cm := CTR.Engine_Initialize KeyParams (m_cipherMode s) in
  let ZEROES := replicate (Z.to_nat BLOCK_SIZE) 0 in
  let tmpH := Engine_Transform (CTR.m_engineKey cm) ZEROES in
  w0 ← IntUtils.BeBytesTo64 tmpH 0;
  w1 ← IntUtils.BeBytesTo64 tmpH 8;
  Ok (cm, Some (GHASH.create [w0; w1]), Key KeyParams).

(** the branch of [Initialize] that turns the nonce into the first
  counter block *)
Definition Initialize_vector (gcmNonce : list byte) (gcmHash : option GHASH.t)
  : result (option GHASH.t * list byte) :=
if size gcmNonce =? 12 then
  Ok (gcmHash, <[15%nat := 1]> (resize 16 0 gcmNonce))
else
  let tmpN := replicate (Z.to_nat BLOCK_SIZE) 0 in
  g ← deref gcmHash;
  '(g, tmpN) ← GHASH.ProcessSegment gcmNonce 0 tmpN (size gcmNonce) g;
  let '(g, tmpN) := GHASH.FinalizeBlock tmpN 0 (size gcmNonce) g in
  Ok (Some g, tmpN).

Definition Initialize (Encryption : bool) (KeyParams : SymmetricKey) (s : GCM)
  : result GCM :=
let s := Scope s in
_ ← throw_if (size (Nonce KeyParams) <? 8)
      (CryptoSymmetricCipherException "GCM:Initialize"
         "Requires a nonce of minimum 10 bytes in length!");
_ ← check_profile "GCM:Initialize" (m_parallelProfile s);
'(cm, gcmHash, gcmKey) ← Initialize_key KeyParams s;
let gcmNonce := Nonce KeyParams in
'(gcmHash, gcmVector) ← Initialize_vector gcmNonce gcmHash;
ctrKey ← SymmetricKey2 gcmKey gcmVector;
let cm := CTR.Initialize true ctrKey cm in
let tmpN := replicate (Z.to_nat BLOCK_SIZE) 0 in
'(cm, gcmVector) ← CTR.Transform tmpN 0 gcmVector 0 BLOCK_SIZE cm;
msgTag ← (if m_isFinalized s
          then MemUtils.Clear (m_msgTag s) 0 (size (m_msgTag s))
          else Ok (m_msgTag s));
Ok {| m_aadData := m_aadData s;
      m_aadLoaded := m_aadLoaded s;
      m_aadPreserve := m_aadPreserve s;
      m_aadSize := m_aadSize s;
      m_autoIncrement := m_autoIncrement s;
      m_checkSum := m_checkSum s;
      m_cipherMode := cm;
      m_gcmHash := gcmHash;
      m_gcmKey := gcmKey;
      m_gcmNonce := gcmNonce;
      m_gcmVector := gcmVector;
      m_isEncryption := Encryption;
      m_isFinalized := false;
      m_isInitialized := true;
      m_legalKeySizes := m_legalKeySizes s;
      m_msgSize := m_msgSize s;
      m_msgTag := msgTag;
      m_parallelProfile := m_parallelProfile s |}.

Definition ParallelMaxDegree (Degree : Z) (s : GCM) : result GCM :=
_ ← throw_if (Degree =? 0)
      (CryptoCipherModeException "GCM:ParallelMaxDegree" "Parallel degree can not be zero!");
_ ← throw_if (negb (Degree mod 2 =? 0))
      (CryptoCipherModeException "GCM:ParallelMaxDegree"
         "Parallel degree must be an even number!");
_ ← throw_if (ParallelOptions.ProcessorCount (m_parallelProfile s) <? Degree)
      (CryptoCipherModeException "GCM:ParallelMaxDegree"
         "Parallel degree can not exceed processor count!");
parallelProfile ← ParallelOptions.SetMaxDegree Degree (m_parallelProfile s);
Ok {| m_aadData := m_aadData s;
      m_aadLoaded := m_aadLoaded s;
      m_aadPreserve := m_aadPreserve s;
      m_aadSize := m_aadSize s;
      m_autoIncrement := m_autoIncrement s;
      m_checkSum := m_checkSum s;
      m_cipherMode := m_cipherMode s;
      m_gcmHash := m_gcmHash s;
      m_gcmKey := m_gcmKey s;
      m_gcmNonce := m_gcmNonce s;
      m_gcmVector := m_gcmVector s;
      m_isEncryption := m_isEncryption s;
      m_isFinalized := m_isFinalized s;
      m_isInitialized := m_isInitialized s;
      m_legalKeySizes := m_legalKeySizes s;
      m_msgSize := m_msgSize s;
      m_msgTag := m_msgTag s;
      m_parallelProfile := parallelProfile |}.

Definition SetAssociatedData (Input : list byte) (Offset Length : Z) (s : GCM)
  : result GCM :=
_ ← throw_if (negb (m_isInitialized s))
      (CryptoSymmetricCipherException "GCM:SetAssociatedData"
         "The cipher has not been initialized!");
_ ← throw_if (m_aadLoaded s)
      (CryptoSymmetricCipherException "GCM:SetAssociatedData"
         "The associated data has already been set!");
let aadData := resize (Z.to_nat Length) 0 (m_aadData s) in
aadData ← MemUtils.Copy Input Offset aadData 0 Length;
g ← deref (m_gcmHash s);
'(g, checkSum) ← GHASH.ProcessSegment Input Offset (m_checkSum s) Length g;
Ok {| m_aadData := aadData;
      m_aadLoaded := true;
      m_aadPreserve := m_aadPreserve s;
      m_aadSize := Length;
      m_autoIncrement := m_autoIncrement s;
      m_checkSum := checkSum;
      m_cipherMode := m_cipherMode s;
      m_gcmHash := Some g;
      m_gcmKey := m_gcmKey s;
      m_gcmNonce := m_gcmNonce s;
      m_gcmVector := m_gcmVector s;
      m_isEncryption := m_isEncryption s;
      m_isFinalized := m_isFinalized s;
      m_isInitialized := m_isInitialized s;
      m_legalKeySizes := m_legalKeySizes s;
      m_msgSize := m_msgSize s;
      m_msgTag := m_msgTag s;
      m_parallelProfile := m_parallelProfile s |}.

(** the state after the two collaborators of [Transform] have run *)
Definition transformed (cm : CTR.CTR) (g : GHASH.t) (checkSum : list byte) (Length : Z)
  (s : GCM) : GCM :=
{| m_aadData := m_aadData s;
   m_aadLoaded := m_aadLoaded s;
   m_aadPreserve := m_aadPreserve s;
   m_aadSize := m_aadSize s;
   m_autoIncrement := m_autoIncrement s;
   m_checkSum := checkSum;
   m_cipherMode := cm;
   m_gcmHash := Some g;
   m_gcmKey := m_gcmKey s;
   m_gcmNonce := m_gcmNonce s;
   m_gcmVector := m_gcmVector s;
   m_isEncryption := m_isEncryption s;
   m_isFinalized := m_isFinalized s;
   m_isInitialized := m_isInitialized s;
   m_legalKeySizes := m_legalKeySizes s;
   m_msgSize := size_t (m_msgSize s + Length);
   m_msgTag := m_msgTag s;
   m_parallelProfile := m_parallelProfile s |}.

Definition Transform (io : buffers) (InOffset OutOffset Length : Z) (s : GCM)
  : result (GCM * buffers) :=
_ ← CEXASSERT bld (m_isInitialized s) "The cipher mode has not been initialized!";
_ ← CEXASSERT bld
      (Length <=? IntUtils.Min (size_t (size (Input_of io) - InOffset))
                               (size_t (size (Output_of io) - OutOffset)))
      "The data arrays are smaller than the the block-size!";
if m_isEncryption s then
  '(cm, out) ← CTR.Transform (Input_of io) InOffset (Output_of io) OutOffset Length
                 (m_cipherMode s);
  let io := with_Output out io in
  g ← deref (m_gcmHash s);
  '(g, checkSum) ← GHASH.Update (Output_of io) OutOffset (m_checkSum s) Length g;
  Ok (transformed cm g checkSum Length s, io)
else
  g ← deref (m_gcmHash s);
  '(g, checkSum) ← GHASH.Update (Input_of io) InOffset (m_checkSum s) Length g;
  '(cm, out) ← CTR.Transform (Input_of io) InOffset (Output_of io) OutOffset Length
                 (m_cipherMode s);
  let io := with_Output out io in
  Ok (transformed cm g checkSum Length s, io).

Definition Reset (s : GCM) : result GCM :=
aadData ← (if negb (m_aadPreserve s) && negb (m_aadSize s =? 0)
           then MemUtils.Clear (m_aadData s) 0 (size (m_aadData s))
           else Ok (m_aadData s));
g ← deref (m_gcmHash s);
let g := GHASH.Reset g in
gcmVector ← MemUtils.Clear (m_gcmVector s) 0 (size (m_gcmVector s));
checkSum ← MemUtils.Clear (m_checkSum s) 0 (size (m_checkSum s));
Ok {| m_aadData := aadData;
      m_aadLoaded := if negb (m_aadPreserve s) then false else m_aadLoaded s;
      m_aadPreserve := m_aadPreserve s;
      m_aadSize := if negb (m_aadPreserve s) then 0 else m_aadSize s;
      m_autoIncrement := m_autoIncrement s;
      m_checkSum := checkSum;
      m_cipherMode := m_cipherMode s;
      m_gcmHash := Some g;
      m_gcmKey := m_gcmKey s;
      m_gcmNonce := m_gcmNonce s;
      m_gcmVector := gcmVector;
      m_isEncryption := m_isEncryption s;
      m_isFinalized := m_isFinalized s;
      m_isInitialized := false;
      m_legalKeySizes := m_legalKeySizes s;
      m_msgSize := 0;
      m_msgTag := m_msgTag s;
      m_parallelProfile := m_parallelProfile s |}.

(** the first three statements of [CalculateMac]: the tag *)
Definition CalculateMac_tag (s : GCM) : result GCM :=
g ← deref (m_gcmHash s);
let '(g, checkSum) := GHASH.FinalizeBlock (m_checkSum s) (m_aadSize s) (m_msgSize s) g in
checkSum ← MemUtils.XorBlock (m_gcmVector s) 0 checkSum 0 BLOCK_SIZE;
msgTag ← MemUtils.Copy checkSum 0 (m_msgTag s) 0 16;
Ok {| m_aadData := m_aadData s;
      m_aadLoaded := m_aadLoaded s;
      m_aadPreserve := m_aadPreserve s;
      m_aadSize := m_aadSize s;
      m_autoIncrement := m_autoIncrement s;
      m_checkSum := checkSum;
      m_cipherMode := m_cipherMode s;
      m_gcmHash := Some g;
      m_gcmKey := m_gcmKey s;
      m_gcmNonce := m_gcmNonce s;
      m_gcmVector := m_gcmVector s;
      m_isEncryption := m_isEncryption s;
      m_isFinalized := m_isFinalized s;
      m_isInitialized := m_isInitialized s;
      m_legalKeySizes := m_legalKeySizes s;
      m_msgSize := m_msgSize s;
      m_msgTag := msgTag;
      m_parallelProfile := m_parallelProfile s |}.

(** [m_gcmHash->ProcessSegment(m_aadData, 0, m_checkSum, m_aadData.size())] *)
Definition reabsorb_aad (s : GCM) : result GCM :=
g ← deref (m_gcmHash s);
'(g, checkSum) ← GHASH.ProcessSegment (m_aadData s) 0 (m_checkSum s)
                   (size (m_aadData s)) g;
Ok {| m_aadData := m_aadData s;
      m_aadLoaded := m_aadLoaded s;
      m_aadPreserve := m_aadPreserve s;
      m_aadSize := m_aadSize s;
      m_autoIncrement := m_autoIncrement s;
      m_checkSum := checkSum;
      m_cipherMode := m_cipherMode s;
      m_gcmHash := Some g;
      m_gcmKey := m_gcmKey s;
      m_gcmNonce := m_gcmNonce s;
      m_gcmVector := m_gcmVector s;
      m_isEncryption := m_isEncryption s;
      m_isFinalized := m_isFinalized s;
      m_isInitialized := m_isInitialized s;
      m_legalKeySizes := m_legalKeySizes s;
      m_msgSize := m_msgSize s;
      m_msgTag := m_msgTag s;
      m_parallelProfile := m_parallelProfile s |}.

(** [m_isFinalized = true] *)
Definition finalized (s : GCM) : GCM :=
{| m_aadData := m_aadData s;
   m_aadLoaded := m_aadLoaded s;
   m_aadPreserve := m_aadPreserve s;
   m_aadSize := m_aadSize s;
   m_autoIncrement := m_autoIncrement s;
   m_checkSum := m_checkSum s;
   m_cipherMode := m_cipherMode s;
   m_gcmHash := m_gcmHash s;
   m_gcmKey := m_gcmKey s;
   m_gcmNonce := m_gcmNonce s;
   m_gcmVector := m_gcmVector s;
   m_isEncryption := m_isEncryption s;
   m_isFinalized := true;
   m_isInitialized := m_isInitialized s;
   m_legalKeySizes := m_legalKeySizes s;
   m_msgSize := m_msgSize s;
   m_msgTag := m_msgTag s;
   m_parallelProfile := m_parallelProfile s |}.

Definition CalculateMac (s : GCM) : result GCM :=
s ← CalculateMac_tag s;
s ← Reset s;
s ← (if m_autoIncrement s then
       let tmpN := IntUtils.BeIncrement8 (m_gcmNonce s) in
       let zero := [] in
       KeyParams ← SymmetricKey2 zero tmpN;
       s ← Initialize (m_isEncryption s) KeyParams s;
       if m_aadPreserve s then reabsorb_aad s else Ok s
     else Ok s);
Ok (finalized s).

Definition Finalize (Output : list byte) (Offset Length : Z) (s : GCM)
  : result (GCM * list byte) :=
_ ← throw_if (negb (m_isInitialized s))
      (CryptoCipherModeException "GCM:Finalize" "The cipher mode has not been initialized!");
_ ← throw_if ((Length <? MIN_TAGSIZE) || (BLOCK_SIZE <? Length))
      (CryptoCipherModeException "GCM:Finalize"
         "The length must be minimum of 12 and maximum of MAC code size!");
s ← CalculateMac s;
Output ← MemUtils.Copy (m_msgTag s) 0 Output Offset Length;
Ok (s, Output).

Definition Verify (Input : list byte) (Offset Length : Z) (s : GCM)
  : result (GCM * bool) :=
_ ← throw_if (m_isEncryption s)
      (CryptoCipherModeException "GCM:Verify"
         "The cipher mode has not been initialized for decryption!");
_ ← throw_if (negb (m_isInitialized s) && negb (m_isFinalized s))
      (CryptoCipherModeException "GCM:Verify" "The cipher mode has not been initialized!");
_ ← throw_if ((Length <? MIN_TAGSIZE) || (BLOCK_SIZE <? Length))
      (CryptoCipherModeException "GCM:Verify"
         "The length must be minimum of 12 and maximum of MAC code size!");
s ← (if negb (m_isFinalized s) then CalculateMac s else Ok s);
b ← IntUtils.Compare (m_msgTag s) 0 Input Offset Length;
Ok (s, b).

(** [Tag()] *)
Definition Tag (s : GCM) : result (list byte) :=
_ ← throw_if (negb (m_isFinalized s))
      (CryptoCipherModeException "GCM:Tag" "The cipher mode has not been finalized!");
Ok (m_msgTag s).

Definition Decrypt128 (io : buffers) (InOffset OutOffset : Z) (s : GCM)
  : result (GCM * buffers) :=
_ ← CEXASSERT bld (m_isInitialized s) "The cipher mode has not been initialized!";
_ ← CEXASSERT bld
      (BLOCK_SIZE <=? IntUtils.Min (size_t (size (Input_of io) - InOffset))
                                   (size_t (size (Output_of io) - OutOffset)))
      "The data arrays are smaller than the the block-size!";
g ← deref (m_gcmHash s);
'(g, checkSum) ← GHASH.Update (Input_of io) InOffset (m_checkSum s) BLOCK_SIZE g;
'(cm, out) ← CTR.EncryptBlock (Input_of io) InOffset (Output_of io) OutOffset
               (m_cipherMode s);
let io := with_Output out io in
Ok (transformed cm g checkSum BLOCK_SIZE s, io).

Definition Encrypt128 (io : buffers) (InOffset OutOffset : Z) (s : GCM)
  : result (GCM * buffers) :=
_ ← CEXASSERT bld (m_isInitialized s) "The cipher mode has not been initialized!";
_ ← CEXASSERT bld
      (BLOCK_SIZE <=? IntUtils.Min (size_t (size (Input_of io) - InOffset))
                                   (size_t (size (Output_of io) - OutOffset)))
      "The data arrays are smaller than the the block-size!";
'(cm, out) ← CTR.EncryptBlock (Input_of io) InOffset (Output_of io) OutOffset
               (m_cipherMode s);
let io := with_Output out io in
g ← deref (m_gcmHash s);
'(g, checkSum) ← GHASH.Update (Input_of io) InOffset (m_checkSum s) BLOCK_SIZE g;
Ok (transformed cm g checkSum BLOCK_SIZE s, io).

(** [DecryptBlock(Input, Output)] and [DecryptBlock(Input, InOffset,
  Output, OutOffset)]; [EncryptBlock] likewise *)
Definition DecryptBlock (io : buffers) (s : GCM) : result (GCM * buffers) :=
Decrypt128 io 0 0 s.

Definition DecryptBlock_at (io : buffers) (InOffset OutOffset : Z) (s : GCM)
  : result (GCM * buffers) :=
Decrypt128 io InOffset OutOffset s.

Definition EncryptBlock (io : buffers) (s : GCM) : result (GCM * buffers) :=
Encrypt128 io 0 0 s.

Definition EncryptBlock_at (io : buffers) (InOffset OutOffset : Z) (s : GCM)
  : result (GCM * buffers) :=
Encrypt128 io InOffset OutOffset s.

End GCM.

End GCM.

(** ** GCM.cpp: Destroy *)
Module GCM_Destroy.

Import GCM.

(** Modelled from the spec: the enumeration [BlockCiphers]
  (BlockCiphers.h is not among the sources); [Destroy] names its member
  [None] only. *)
Inductive BlockCiphers : Type :=
| BlockCiphers_None
| BlockCiphers_Other (id : Z).

(** Modelled from the spec: what [Destroy] calls to wipe its members is
  not among the sources: [ParallelOptions::Reset], [IntUtils::ClearVector]
  (it wipes a vector) and [CTR::Destroy]. They are parameters here, and
  each of them may complete, throw or fail in its own way. *)
Class Wipe : Type := {
ParallelOptions_Reset : ParallelOptions.ParallelOptions → result ParallelOptions.ParallelOptions;
ClearVector : ∀ {A : Type}, list A → result (list A);
CTR_Destroy : CTR.CTR → result CTR.CTR
}.

(** [try { body } catch (std::exception& ex) { throw e; }]: what the
  body throws is thrown again as [e]; a failed assertion and an access
  without defined behaviour are not exceptions and pass. *)
Definition try_catch {A} (body : result A) (e : exn) : result A :=
match body with
| Throw _ => Throw e
| r => r
end.

Section Destroy.

Context `{BC : IBlockCipher} `{GH : GHASH.Impl} `{W : Wipe}.

(** the three members that only the constructors and [Destroy] touch *)
Record Lifetime : Type := {
m_cipherType : BlockCiphers;
m_destroyEngine : bool;
m_isDestroyed : bool
}.

(** [Destroy()]. The flags are cleared and the profile is reset before
  the [try]; the hash pointer is the first thing used inside it. The
  exception of the handler carries the text of the one caught as a third
  argument, which is not kept here. *)
Definition Destroy (s : GCM) (l : Lifetime) : result (GCM * Lifetime) :=
parallelProfile ← ParallelOptions_Reset (m_parallelProfile s);
try_catch
  (g ← deref (m_gcmHash s);
   let g := GHASH.Reset g in
   aadData ← ClearVector (m_aadData s);
   gcmNonce ← ClearVector (m_gcmNonce s);
   gcmVector ← ClearVector (m_gcmVector s);
   legalKeySizes ← ClearVector (m_legalKeySizes s);
   msgTag ← ClearVector (m_msgTag s);
   checkSum ← ClearVector (m_checkSum s);
   cipherMode ← (if m_destroyEngine l && CTR.m_isInitialized (m_cipherMode s)
                 then CTR_Destroy (m_cipherMode s) else Ok (m_cipherMode s));
   Ok ({| m_aadData := aadData;
          m_aadLoaded := false;
          m_aadPreserve := false;
          m_aadSize := 0;
          m_autoIncrement := false;
          m_checkSum := checkSum;
          m_cipherMode := cipherMode;
          m_gcmHash := Some g;
          m_gcmKey := m_gcmKey s;
          m_gcmNonce := gcmNonce;
          m_gcmVector := gcmVector;
          m_isEncryption := false;
          m_isFinalized := false;
          m_isInitialized := false;
          m_legalKeySizes := legalKeySizes;
          m_msgSize := 0;
          m_msgTag := msgTag;
          m_parallelProfile := parallelProfile |},
       {| m_cipherType := BlockCiphers_None;
          m_destroyEngine := if m_destroyEngine l then false else m_destroyEngine l;
          m_isDestroyed := true |}))
  (CryptoCipherModeException "GCM:Destroy" "Could not clear all variables!").

End Destroy.

End GCM_Destroy.

(** ** Salsa20.cpp: Generate, Process and the transforms *)
Module Salsa20_Process.

Import Salsa20.

(** Modelled from the spec: [IntUtils::LeIncrement32] (IntUtils.h is not
  among the sources) adds one to an array of 32-bit words read as a
  little-endian number, wrapping at its width. *)
Fixpoint LeIncrement32 (Counter : list Z) : list Z :=
match Counter with
| [] => []
| w :: rest => if uint (w + 1) =? 0 then 0 :: LeIncrement32 rest
               else uint (w + 1) :: rest
end.

(** Modelled from the spec: [Salsa::SalsaTransform512] (Salsa.h is not
  among the sources) is the Salsa20 block function: from the counter,
  the 14 words of the working state and the number of rounds it makes
  the 64 bytes of one key-stream block. It is fixed by its standard and
  a parameter here; so is the parallel branch of [Process], which rests
  on [ParallelUtils], [IntUtils::LeIncrease32] and the constant
  [CTR_SIZE] of Salsa20.h, none of them among the sources. *)
Class SalsaCore : Type := {
SalsaBlock : list Z → list Z → Z → list byte;
SalsaBlock_length : ∀ Counter State Rounds, length (SalsaBlock Counter State Rounds) = 64%nat;
Process_parallel : GCM.buffers → Z → Z → Z → Salsa20 → result (Salsa20 * GCM.buffers)
}.

Section Process.

Context `{SalsaCore}.

(** [Salsa::SalsaTransform512(Output, OutOffset, Counter, State, Rounds)] *)
Definition SalsaTransform512 (Output : list byte) (OutOffset : Z) (Counter State : list Z)
  (Rounds : Z) : result (list byte) :=
vec_write Output OutOffset (SalsaBlock Counter State Rounds).

Definition set_ctrVector (ctr : list Z) (s : Salsa20) : Salsa20 :=
{| m_ctrVector := ctr;
   m_dstCode := m_dstCode s;
   m_isDestroyed := m_isDestroyed s;
   m_isInitialized := m_isInitialized s;
   m_legalKeySizes := m_legalKeySizes s;
   m_legalRounds := m_legalRounds s;
   m_parallelProfile := m_parallelProfile s;
   m_rndCount := m_rndCount s;
   m_wrkState := m_wrkState s |}.

(** the [while (ctr != ALNSZE)] of [Generate], the build without AVX *)
Fixpoint Generate_blocks (fuel : nat) (Output : list byte) (OutOffset : Z)
  (Counter : list Z) (ctr ALNSZE : Z) (s : Salsa20) : result (list byte * list Z * Z) :=
if ctr =? ALNSZE then Ok (Output, Counter, ctr)
else match fuel with
     | O => Fault
     | S fuel' =>
       Output ← SalsaTransform512 Output (size_t (OutOffset + ctr)) Counter
                  (m_wrkState s) (m_rndCount s);
       let Counter := LeIncrement32 Counter in
       Generate_blocks fuel' Output OutOffset Counter (size_t (ctr + BLOCK_SIZE)) ALNSZE s
     end.

(** [Generate(Output, OutOffset, Counter, Length)]: the key stream goes
  to [Output], and [Counter] moves on by one for every block drawn *)
Definition Generate (Output : list byte) (OutOffset : Z) (Counter : list Z) (Length : Z)
  (s : Salsa20) : result (list byte * list Z) :=
let ALNSZE := size_t (Length - Length mod BLOCK_SIZE) in
'(Output, Counter, ctr) ←
  Generate_blocks (Z.to_nat (ALNSZE / BLOCK_SIZE)) Output OutOffset Counter 0 ALNSZE s;
if negb (ctr =? Length) then
  let outputBlock := replicate (Z.to_nat BLOCK_SIZE) 0 in
  outputBlock ← SalsaTransform512 outputBlock 0 Counter (m_wrkState s) (m_rndCount s);
  let FNLSZE := Length mod BLOCK_SIZE in
  Output ← MemUtils.Copy outputBlock 0 Output
             (size_t (OutOffset + size_t (Length - FNLSZE))) FNLSZE;
  Ok (Output, LeIncrement32 Counter)
else Ok (Output, Counter).

(** the [for (i = ALNSZE; i < PRCSZE; ++i)] of [Process]:
  [Output[i + OutOffset] ^= Input[i + InOffset]] *)
Definition xor_tail (io : GCM.buffers) (InOffset OutOffset ALNSZE PRCSZE : Z) : result GCM.buffers :=
for_loop (Z.to_nat (PRCSZE - ALNSZE))
  (λ j io,
     let i := size_t (ALNSZE + j) in
     a ← vec_get (GCM.Input_of io) (size_t (i + InOffset));
     b ← vec_get (GCM.Output_of io) (size_t (i + OutOffset));
     out ← vec_set (GCM.Output_of io) (size_t (i + OutOffset)) (Z.lxor b a);
     Ok (GCM.with_Output out io))
  io.

Definition Process (io : GCM.buffers) (InOffset OutOffset Length : Z) (s : Salsa20)
  : result (Salsa20 * GCM.buffers) :=
let inRoom := size_t (size (GCM.Input_of io) - InOffset) in
let outRoom := size_t (size (GCM.Output_of io) - OutOffset) in
let PRCSZE := if (inRoom <=? Length) && (outRoom <=? Length)
              then IntUtils.Min inRoom outRoom else Length in
if negb (ParallelOptions.IsParallel (m_parallelProfile s))
   || (PRCSZE <? ParallelOptions.ParallelMinimumSize (m_parallelProfile s)) then
  '(out, ctr) ← Generate (GCM.Output_of io) OutOffset (m_ctrVector s) PRCSZE s;
  let s := set_ctrVector ctr s in
  let io := GCM.with_Output out io in
  let ALNSZE := size_t (PRCSZE - PRCSZE mod BLOCK_SIZE) in
  out ← (if negb (ALNSZE =? 0)
         then MemUtils.XorBlock (GCM.Input_of io) InOffset (GCM.Output_of io) OutOffset ALNSZE
         else Ok (GCM.Output_of io));
  let io := GCM.with_Output out io in
  io ← (if negb (ALNSZE =? PRCSZE)
        then xor_tail io InOffset OutOffset ALNSZE PRCSZE
        else Ok io);
  Ok (s, io)
else Process_parallel io InOffset OutOffset PRCSZE s.

(** [Transform(Input, InOffset, Output, OutOffset, Length)] *)
Definition Transform (io : GCM.buffers) (InOffset OutOffset Length : Z) (s : Salsa20)
  : result (Salsa20 * GCM.buffers) :=
Process io InOffset OutOffset Length s.

(** [TransformBlock(Input, Output)] and
  [TransformBlock(Input, InOffset, Output, OutOffset)] *)
Definition TransformBlock (io : GCM.buffers) (s : Salsa20) : result (Salsa20 * GCM.buffers) :=
Process io 0 0 BLOCK_SIZE s.

Definition TransformBlock_at (io : GCM.buffers) (InOffset OutOffset : Z) (s : Salsa20)
  : result (Salsa20 * GCM.buffers) :=
Process io InOffset OutOffset BLOCK_SIZE s.

End Process.

End Salsa20_Process.

(** ** HCR.cpp: the random generator behind a buffer *)
Module HCR.

(** Modelled from the spec: the generator that fills the buffer ([HCG];
  HCG.h is not among the sources) is a deterministic byte generator, and
  [Generate(Output)] overwrites the whole of [Output] with its next
  bytes. *)
Class IDrbg : Type := {
drbg : Type;
Generate : drbg → Z → drbg * list byte;
Generate_size : ∀ g n, 0 ≤ n → size (Generate g n).2 = n;
Generate_bytes : ∀ g n, Forall (λ b, 0 ≤ b < 256) (Generate g n).2
}.

(** The exception of the random generators, which the outcomes of
  [result] do not list: a call returns, or throws it. *)
Inductive outcome (A : Type) : Type :=
| Returns (a : A)
| CryptoRandomException (origin message : string).

Arguments Returns {A} a.
Arguments CryptoRandomException {A} origin message.

(** Modelled from the spec: [IntUtils::LeBytesTo64] (IntUtils.h is not
  among the sources) reads eight bytes at [InOffset] as a little-endian
  word. *)
Definition LeBytesTo64 (Input : list byte) (InOffset : Z) : result Z :=
bs ← vec_range Input InOffset 8; Ok (IntUtils.le_value bs).

(** the rest of a call after one that may have thrown *)
Definition and_then {A B} (m : result (outcome A)) (k : A → result (outcome B))
  : result (outcome B) :=
r ← m;
match r with
| Returns a => k a
| CryptoRandomException origin message => Ok (CryptoRandomException origin message)
end.

Section HCR.

Context `{IDrbg}.
Variable bld : build.

(** The fields the modelled functions read or write; the digest and
  provider types and the seed belong to the constructors and [Reset]. *)
Record HCR : Type := {
m_bufferIndex : Z;
m_bufferSize : Z;
m_isDestroyed : bool;
m_rngBuffer : list byte;
m_rngGenerator : drbg
}.

Definition set_bufferIndex (i : Z) (s : HCR) : HCR :=
{| m_bufferIndex := i;
   m_bufferSize := m_bufferSize s;
   m_isDestroyed := m_isDestroyed s;
   m_rngBuffer := m_rngBuffer s;
   m_rngGenerator := m_rngGenerator s |}.

(** [m_rngGenerator->Generate(m_rngBuffer)] *)
Definition fill_buffer (s : HCR) : HCR :=
let r := Generate (m_rngGenerator s) (size (m_rngBuffer s)) in
{| m_bufferIndex := m_bufferIndex s;
   m_bufferSize := m_bufferSize s;
   m_isDestroyed := m_isDestroyed s;
   m_rngBuffer := r.2;
   m_rngGenerator := r.1 |}.

(** the [while (rmd > 0)] of [GetBytes]. With an empty buffer the loop
  of the source never ends; the embedding gives up on it when [fuel],
  one round for every byte wanted, is used up. *)
Fixpoint refill (fuel : nat) (Output : list byte) (bufSize rmd : Z) (s : HCR)
  : result (list byte * HCR) :=
if 0 <? rmd then
  match fuel with
  | O => Fault
  | S fuel' =>
    let s := fill_buffer s in
    if size (m_rngBuffer s) <? rmd then
      Output ← MemUtils.Copy (m_rngBuffer s) 0 Output bufSize (size (m_rngBuffer s));
      refill fuel' Output (size_t (bufSize + size (m_rngBuffer s)))
        (size_t (rmd - size (m_rngBuffer s))) s
    else
      Output ← MemUtils.Copy (m_rngBuffer s) 0 Output bufSize rmd;
      refill fuel' Output bufSize 0 (set_bufferIndex rmd s)
  end
else Ok (Output, s).

(** [GetBytes(Output)] *)
Definition GetBytes (Output : list byte) (s : HCR) : result (outcome (list byte * HCR)) :=
if size Output =? 0 then
  Ok (CryptoRandomException "BCR:GetBytes" "Buffer size must be at least 1 byte!")
else
  r ← (if size_t (size (m_rngBuffer s) - m_bufferIndex s) <? size Output then
         let bufSize := size_t (size (m_rngBuffer s) - m_bufferIndex s) in
         Output ← (if negb (bufSize =? 0)
                   then MemUtils.Copy (m_rngBuffer s) (m_bufferIndex s) Output 0 bufSize
                   else Ok Output);
         let rmd := size_t (size Output - bufSize) in
         refill (Z.to_nat rmd) Output bufSize rmd s
       else
         Output ← MemUtils.Copy (m_rngBuffer s) (m_bufferIndex s) Output 0 (size Output);
         Ok (Output, set_bufferIndex (size_t (m_bufferIndex s + size Output)) s));
  Ok (Returns r).

(** [GetBytes(Size)] *)
Definition GetBytes_Size (Size : Z) (s : HCR) : result (outcome (list byte * HCR)) :=
GetBytes (replicate (Z.to_nat Size) 0) s.

(** the [while (val > Maximum && bits != 0) { val >>= 1; bits--; }] of
  [GetBits] *)
Fixpoint shift_down (bits : nat) (val Maximum : Z) : Z :=
match bits with
| O => val
| S bits' => if Maximum <? val then shift_down bits' (Z.shiftr val 1) Maximum else val
end.

(** [GetBits(Data, Maximum)]. Modelled from the spec: the two
  [MemUtils::Copy] between a byte array and a [ulong] are copies of
  memory, on the little-endian machines the library is built for. *)
Definition GetBits (Data : list byte) (Maximum : Z) : list byte :=
let val := ulong (IntUtils.le_value Data) in
let bits := ulong (size Data * 8) in
IntUtils.le_bytes 8 (shift_down (Z.to_nat bits) val Maximum).

(** [GetByteRange(Maximum)] *)
Definition GetByteRange (Maximum : Z) (s : HCR) : result (outcome (list byte * HCR)) :=
and_then
  (if Maximum <? 256 then GetBytes_Size 1 s
   else if Maximum <? 65536 then GetBytes_Size 2 s
   else if Maximum <? 16777216 then GetBytes_Size 3 s
   else if Maximum <? 4294967296 then GetBytes_Size 4 s
   else if Maximum <? 1099511627776 then GetBytes_Size 5 s
   else if Maximum <? 281474976710656 then GetBytes_Size 6 s
   else if Maximum <? 72057594037927936 then GetBytes_Size 7 s
   else GetBytes_Size 8 s)
  (λ '(data, s), Ok (Returns (GetBits data Maximum, s))).

(** the [do { ... } while (num > Maximum)] of [Next(Maximum)]; how often
  it runs is up to the generator, so it has [fuel] *)
Fixpoint Next_draw (fuel : nat) (Maximum : Z) (s : HCR) : result (outcome (Z * HCR)) :=
match fuel with
| O => Fault
| S fuel' =>
  and_then (GetByteRange Maximum s)
    (λ '(rand, s),
       num ← IntUtils.LeBytesTo32 rand 0;
       if Maximum <? uint num then Next_draw fuel' Maximum s
       else Ok (Returns (uint num, s)))
end.

(** [Next(Maximum)] *)
Definition Next (fuel : nat) (Maximum : Z) (s : HCR) : result (outcome (Z * HCR)) :=
_ ← CEXASSERT bld (negb (Maximum =? 0)) "maximum can not be zero";
Next_draw fuel Maximum s.

(** [NextULong(Maximum)] *)
Fixpoint NextULong_draw (fuel : nat) (Maximum : Z) (s : HCR)
  : result (outcome (Z * HCR)) :=
match fuel with
| O => Fault
| S fuel' =>
  and_then (GetByteRange Maximum s)
    (λ '(rand, s),
       num ← LeBytesTo64 rand 0;
       if Maximum <? ulong num then NextULong_draw fuel' Maximum s
       else Ok (Returns (ulong num, s)))
end.

Definition NextULong (fuel : nat) (Maximum : Z) (s : HCR) : result (outcome (Z * HCR)) :=
_ ← CEXASSERT bld (negb (Maximum =? 0)) "maximum can not be zero";
NextULong_draw fuel Maximum s.

End HCR.

End HCR.

(* ===================================================================== *)
(** * Part II: lemmas and theorems                                        *)
(* ===================================================================== *)

(** ** Vectors, outcomes and words *)

Lemma size_nonneg {A} (v : list A) : 0 ≤ size v.
Proof. unfold size. lia. Qed.

Lemma size_app {A} (u v : list A) : size (u ++ v) = size u + size v.
Proof. unfold size. rewrite length_app. lia. Qed.

Lemma size_replicate {A} (n : nat) (x : A) : size (replicate n x) = Z.of_nat n.
Proof. unfold size. rewrite length_replicate. reflexivity. Qed.

Lemma size_nil_inv {A} (v : list A) : size v = 0 → v = [].
Proof. unfold size. destruct v; simpl; [reflexivity | lia]. Qed.

Lemma size_t_small z : 0 ≤ z < 2 ^ 64 → size_t z = z.
Proof. intros Hz. unfold size_t. apply Z.mod_small. exact Hz. Qed.

Lemma vec_range_Ok {A} (v : list A) off len :
  0 ≤ off → 0 ≤ len → off + len ≤ size v →
  vec_range v off len = Ok (take (Z.to_nat len) (drop (Z.to_nat off) v)).
Proof.
intros H1 H2 H3. unfold vec_range. rewrite bool_decide_eq_true_2 by auto.
reflexivity.
Qed.

Lemma vec_range_all {A} (v : list A) : vec_range v 0 (size v) = Ok v.
Proof.
rewrite vec_range_Ok by (pose proof (size_nonneg v); lia).
unfold size. rewrite Nat2Z.id. simpl. rewrite firstn_all. reflexivity.
Qed.

Lemma vec_range_inv {A} (v : list A) off len r :
  vec_range v off len = Ok r →
  0 ≤ off ∧ 0 ≤ len ∧ off + len ≤ size v ∧ r = take (Z.to_nat len) (drop (Z.to_nat off) v).
Proof.
unfold vec_range. case_bool_decide as Hb; [|discriminate].
intros [= <-]. tauto.
Qed.

Lemma vec_range_length {A} (v : list A) off len r :
  vec_range v off len = Ok r → size r = len.
Proof.
intros Hr. apply vec_range_inv in Hr as (H1 & H2 & H3 & ->).
unfold size in *. rewrite length_take, length_drop. lia.
Qed.

Lemma vec_write_Ok {A} (v : list A) off data :
  0 ≤ off → off + size data ≤ size v →
  vec_write v off data = Ok (list_inserts (Z.to_nat off) data v).
Proof.
intros H1 H2. unfold vec_write. rewrite bool_decide_eq_true_2 by auto.
reflexivity.
Qed.

Lemma vec_write_inv {A} (v : list A) off data r :
  vec_write v off data = Ok r →
  0 ≤ off ∧ off + size data ≤ size v ∧ r = list_inserts (Z.to_nat off) data v.
Proof.
unfold vec_write. case_bool_decide as Hb; [|discriminate].
intros [= <-]. tauto.
Qed.

Lemma vec_write_length {A} (v : list A) off data r :
  vec_write v off data = Ok r → length r = length v.
Proof.
intros Hr. apply vec_write_inv in Hr as (_ & _ & ->). apply length_inserts.
Qed.

Lemma vec_set_inv {A} (v : list A) i x r :
  vec_set v i x = Ok r → 0 ≤ i < size v ∧ r = <[Z.to_nat i := x]> v.
Proof.
unfold vec_set. case_bool_decide as Hb; [|discriminate].
intros [= <-]. tauto.
Qed.

Lemma vec_set_length {A} (v : list A) i x r :
  vec_set v i x = Ok r → length r = length v.
Proof.
intros Hr. apply vec_set_inv in Hr as (_ & ->). apply length_insert.
Qed.

Lemma vec_set_Ok {A} (v : list A) i x :
  0 ≤ i < size v → vec_set v i x = Ok (<[Z.to_nat i := x]> v).
Proof. intros Hi. unfold vec_set. rewrite bool_decide_eq_true_2 by auto. reflexivity. Qed.

Lemma vec_get_inv {A} (v : list A) i x :
  vec_get v i = Ok x → 0 ≤ i < size v ∧ v !! Z.to_nat i = Some x.
Proof.
unfold vec_get. case_bool_decide as Hb; [|discriminate].
destruct (v !! Z.to_nat i) as [y|] eqn:Hy; [|discriminate].
intros [= <-]. apply lookup_lt_Some in Hy as Hlt. unfold size. split; [lia | reflexivity].
Qed.

Lemma vec_get_Ok {A} (v : list A) i :
  0 ≤ i < size v → ∃ x, vec_get v i = Ok x ∧ v !! Z.to_nat i = Some x.
Proof.
intros Hi. unfold vec_get. rewrite bool_decide_eq_true_2 by lia.
destruct (lookup_lt_is_Some_2 v (Z.to_nat i)) as [x Hx]; [unfold size in Hi; lia|].
rewrite Hx. eauto.
Qed.

(** a bind that came back [Ok] ran both halves *)
Lemma bind_Ok {A B} (m : result A) (f : A → result B) (b : B) :
  (m ≫= f) = Ok b → ∃ a, m = Ok a ∧ f a = Ok b.
Proof. destruct m as [a| | |]; simpl; intros Hb; try discriminate. eauto. Qed.

(** the value of an outcome, for runs on concrete inputs *)
Definition result_get {A} (default : A) (r : result A) : A :=
match r with
| Ok a => a
| _ => default
end.

Lemma bind_ret {A B} (a : A) (f : A → result B) : (Ok a ≫= f) = f a.
Proof. reflexivity. Qed.

Lemma throw_if_Ok c e : throw_if c e = Ok () → c = false.
Proof. destruct c; simpl; [discriminate | reflexivity]. Qed.

(** split every bind of a hypothesis [_ = Ok _] *)
Ltac bind_inv H :=
  cbv beta in H;
  repeat match type of H with
  | (_ ≫= _) = Ok _ =>
      let a := fresh "a" in let Ha := fresh "Ha" in
      apply bind_Ok in H as (a & Ha & H)
  end.

Lemma le_value_le_bytes (w : nat) (z : Z) :
  0 ≤ z → IntUtils.le_value (IntUtils.le_bytes w z) = z mod 256 ^ Z.of_nat w.
Proof.
revert z. induction w as [|w IH]; intros z Hz.
- simpl. rewrite Z.mod_1_r. reflexivity.
- cbn [IntUtils.le_bytes IntUtils.le_value].
  rewrite IH by (apply Z.div_pos; lia).
  rewrite Nat2Z.inj_succ, Z.pow_succ_r by lia.
  rewrite Z.rem_mul_r by lia. lia.
Qed.

Lemma le_bytes_length w z : length (IntUtils.le_bytes w z) = w.
Proof.
revert z. induction w as [|w IH]; intros z; simpl; [reflexivity|].
rewrite IH. reflexivity.
Qed.

Lemma be_bytes_length w z : length (IntUtils.be_bytes w z) = w.
Proof. unfold IntUtils.be_bytes. rewrite length_reverse. apply le_bytes_length. Qed.

Lemma xor_bytes_length a b :
  length a = length b → length (MemUtils.xor_bytes a b) = length a.
Proof. intros Hab. unfold MemUtils.xor_bytes. rewrite length_zip_with. lia. Qed.

Lemma xor_bytes_length' a b :
  (length a ≤ length b)%nat → length (MemUtils.xor_bytes a b) = length a.
Proof. intros Hab. unfold MemUtils.xor_bytes. rewrite length_zip_with. lia. Qed.

(** XOR with the same key stream twice gives the data back *)
Lemma xor_bytes_involutive (data ks : list byte) :
  (length data ≤ length ks)%nat →
  MemUtils.xor_bytes (MemUtils.xor_bytes data ks) ks = data.
Proof.
unfold MemUtils.xor_bytes. revert ks.
induction data as [|d data IH]; intros [|k ks] Hlen; simpl in *; try lia.
- reflexivity.
- reflexivity.
- rewrite IH by lia. rewrite Z.lxor_assoc, Z.lxor_nilpotent, Z.lxor_0_r. reflexivity.
Qed.

(** ** Instances to run the embedding on *)
Module Instances.

(** A stand-in block cipher: sixteen byte-wise sums of block and key. It
  has the shape of a block cipher and none of its strength. *)
Definition toy_block (key blk : list byte) : list byte :=
zip_with (λ b k, (b + k + 1) mod 256) (resize 16 0 blk) (resize 16 0 key).

Lemma toy_block_length key blk : length (toy_block key blk) = 16%nat.
Proof.
unfold toy_block. rewrite length_zip_with, !length_resize. reflexivity.
Qed.

#[global] Instance toy_cipher : IBlockCipher := {|
Engine_LegalKeySizes :=
  [ {| KeySize := 16; NonceSize := 16; InfoSize := 0 |};
    {| KeySize := 32; NonceSize := 16; InfoSize := 0 |} ];
Engine_Transform := toy_block;
Engine_Transform_length := toy_block_length
|}.

(** Modelled from the spec: multiplication in GF(2^128), the right-shift
  variant with the reduction polynomial x^128 + x^7 + x^2 + x + 1, on
  blocks read big-endian. *)
Fixpoint gf_mul_loop (n : nat) (i : Z) (x v z : Z) : Z :=
match n with
| O => z
| S n' =>
  let z' := if Z.testbit x (127 - i) then Z.lxor z v else z in
  let v' := if Z.testbit v 0
            then Z.lxor (Z.shiftr v 1) (Z.shiftl 0xe1 120)
            else Z.shiftr v 1 in
  gf_mul_loop n' (i + 1) x v' z'
end.

Definition gf_mul (x h : Z) : Z := gf_mul_loop 128 0 x h 0.

(** XOR-into-checksum, then multiply-by-H *)
Definition ghash_block (h : Z) (checksum blk : list byte) : list byte :=
IntUtils.be_bytes 16
  (gf_mul (Z.lxor (IntUtils.be_value checksum) (IntUtils.be_value (resize 16 0 blk))) h).

(** the blocks of a run of bytes, the last one as short as it comes *)
Fixpoint blocks_of (n : nat) (data : list byte) : list (list byte) :=
match n with
| O => []
| S n' => take 16 data :: blocks_of n' (drop 16 data)
end.

(** Modelled from the spec: absorbing arbitrary-length data, the final
  partial block zero-padded. *)
Definition ghash_bytes (h : Z) (checksum data : list byte) : list byte :=
foldl (ghash_block h) checksum (blocks_of ((length data + 15) / 16)%nat data).

(** Modelled from the spec: the 128-bit length block
  [aad_len_bits || msg_len_bits], big-endian, and the last multiply. *)
Definition ghash_final (h : Z) (checksum : list byte) (AdSize TextSize : Z) : list byte :=
ghash_block h checksum
  (IntUtils.be_bytes 8 (ulong (8 * AdSize)) ++ IntUtils.be_bytes 8 (ulong (8 * TextSize))).

Lemma ghash_bytes_length h cs data :
  length cs = 16%nat → length (ghash_bytes h cs data) = 16%nat.
Proof.
unfold ghash_bytes.
generalize (blocks_of ((length data + 15) / 16)%nat data) as bs.
intros bs. revert cs. induction bs as [|b bs IH]; intros cs Hcs; simpl.
- exact Hcs.
- apply IH. unfold ghash_block. apply be_bytes_length.
Qed.

(** Modelled from the spec: a GHASH that keeps H and nothing else; the
  checksum lives with the caller, and [Reset] retains H. *)
#[global] Instance spec_ghash : GHASH.Impl := {|
GHASH.t := Z;
GHASH.create := λ gKey, foldl (λ acc w, acc * 2 ^ 64 + w) 0 gKey;
GHASH.update_bytes := λ data cs h, (h, ghash_bytes h cs data);
GHASH.segment_bytes := λ data cs h, (h, ghash_bytes h cs data);
GHASH.finalize_block := λ cs a m h, (h, ghash_final h cs a m);
GHASH.Reset := λ h, h;
GHASH.update_length := λ data cs h, ghash_bytes_length h cs data;
GHASH.segment_length := λ data cs h, ghash_bytes_length h cs data;
GHASH.finalize_length := λ cs a m h _, be_bytes_length 16 _
|}.

(** A stand-in for Keccak-f and the parameter block: the state takes the
  block in lane by lane. *)
Definition toy_permute (blk : list byte) (st : list Z) : list Z :=
imap (λ i x, ulong (x * 31 + foldr Z.add 0 blk + Z.of_nat i + 1)) st.

Lemma toy_permute_length blk st : length (toy_permute blk st) = length st.
Proof. unfold toy_permute. apply length_imap. Qed.

Definition toy_params_block (p : Keccak512.KeccakParams) : list byte :=
[Keccak512.DigestLength p; Keccak512.KeyLength p; Keccak512.FanOut p;
 Keccak512.TreeDepth p; Keccak512.LeafLength p; Keccak512.NodeOffset p;
 Keccak512.NodeDepth p; Keccak512.InnerLength p; Keccak512.ThreadCount p]
++ replicate 63 0.

#[global] Instance toy_keccak : Keccak512.KeccakPrimitives := {|
Keccak512.Permute := toy_permute;
Keccak512.Permute_length := toy_permute_length;
Keccak512.ToBytes := toy_params_block
|}.

(** a machine with four cores and the parallel paths switched off *)
Definition sequential_profile : ParallelOptions.ParallelOptions :=
{| ParallelOptions.IsParallel := false;
   ParallelOptions.ParallelBlockSize := 64000;
   ParallelOptions.ParallelMinimumSize := 256;
   ParallelOptions.ParallelMaximumSize := 100000000;
   ParallelOptions.ParallelMaxDegree := 4;
   ParallelOptions.ProcessorCount := 4 |}.

(** the tree-hash profile of degree 8: 8 leaves of 72 bytes *)
Definition tree_profile : ParallelOptions.ParallelOptions :=
{| ParallelOptions.IsParallel := true;
   ParallelOptions.ParallelBlockSize := 1152;
   ParallelOptions.ParallelMinimumSize := 576;
   ParallelOptions.ParallelMaximumSize := 100000000;
   ParallelOptions.ParallelMaxDegree := 8;
   ParallelOptions.ProcessorCount := 4 |}.

End Instances.

(** ** BlakeB512: the name of the digest *)
Module BlakeB512_Name.

Import BlakeB512.

(** The type name does tell the two variants apart. *)
Lemma Enumeral_distinct :
  Enumeral {| m_isParallel := true |} ≠ Enumeral {| m_isParallel := false |}.
Proof. simpl. discriminate. Qed.

(** C9 (the code departs from the claim): [Name()] gives the parallel
  and the sequential digest one and the same string, "BlakeBP512"; both
  branches of its conditional return that literal. *)
Theorem Name_same_in_both_modes :
  Name {| m_isParallel := false |} = "BlakeBP512"
  ∧ Name {| m_isParallel := true |} = Name {| m_isParallel := false |}.
Proof. split; reflexivity. Qed.

End BlakeB512_Name.

(** ** SymmetricKey: serialization *)
Module SymmetricKey_Serial.

Import SymmetricKey.

(** the layout the spec gives: three 16-bit little-endian lengths, then
  the three byte ranges *)
Definition layout (k : SymmetricKey) : list byte :=
IntUtils.le_bytes 2 (size (Key k)) ++ IntUtils.le_bytes 2 (size (Nonce k))
++ IntUtils.le_bytes 2 (size (Info k)) ++ Key k ++ Nonce k ++ Info k.

Lemma Write_bytes_all v w :
  IO.Write_bytes v 0 (size v) w = Ok {| IO.w_streamData := IO.w_streamData w ++ v |}.
Proof. unfold IO.Write_bytes. rewrite vec_range_all. reflexivity. Qed.

Lemma write_range (v : list byte) (w : IO.StreamWriter) :
  size v < 2 ^ 64 →
  (if negb (size_t (size v) =? 0)
   then IO.Write_bytes v 0 (size_t (size v)) w else Ok w)
  = Ok {| IO.w_streamData := IO.w_streamData w ++ v |}.
Proof.
intros Hv. pose proof (size_nonneg v).
rewrite size_t_small by lia.
destruct (size v =? 0) eqn:Hz; simpl.
- apply Z.eqb_eq in Hz. apply size_nil_inv in Hz. subst v.
  rewrite app_nil_r. destruct w. reflexivity.
- apply Write_bytes_all.
Qed.

(** [Serialize] writes the layout of the spec and rewinds the stream,
  for lengths that fit the 16-bit prefixes. *)
Lemma Serialize_layout (k : SymmetricKey) :
  size (Key k) < 2 ^ 16 → size (Nonce k) < 2 ^ 16 → size (Info k) < 2 ^ 16 →
  Serialize k = Ok {| IO.m_streamData := layout k; IO.m_streamPosition := 0 |}.
Proof.
intros Hk Hn Hi. unfold Serialize.
pose proof (size_nonneg (Key k)). pose proof (size_nonneg (Nonce k)).
pose proof (size_nonneg (Info k)).
cbv zeta.
rewrite write_range, bind_ret by lia.
rewrite write_range, bind_ret by lia.
rewrite write_range, bind_ret by lia.
unfold IO.GetStream, IO.Seek_Begin, IO.Write_ushort, IO.StreamWriter_new, layout.
cbn [IO.w_streamData IO.m_streamData].
rewrite !(size_t_small (size _)) by lia.
unfold ushort. rewrite !Zmod_mod. rewrite !(Z.mod_small (size _) (2 ^ 16)) by lia.
rewrite <- !app_assoc. reflexivity.
Qed.

Lemma ReadBytes_Ok data pos len :
  0 ≤ pos → 0 ≤ len → pos + len ≤ size data →
  IO.ReadBytes len {| IO.r_stream := {| IO.m_streamData := data; IO.m_streamPosition := pos |} |}
  = Ok (take (Z.to_nat len) (drop (Z.to_nat pos) data),
        {| IO.r_stream := {| IO.m_streamData := data; IO.m_streamPosition := pos + len |} |}).
Proof.
intros H1 H2 H3. unfold IO.ReadBytes. simpl.
replace (size data <? pos + len) with false by (symmetry; apply Z.ltb_ge; lia).
simpl. rewrite vec_range_Ok by lia. reflexivity.
Qed.

Lemma short_small z : 0 ≤ z < 2 ^ 15 → short z = z.
Proof.
intros Hz. unfold short, ushort. rewrite Z.mod_small by lia.
replace (z <? 2 ^ 15) with true by (symmetry; apply Z.ltb_lt; lia). reflexivity.
Qed.

(** a 16-bit length of 2^15 or more reads back negative *)
Lemma short_large z : 2 ^ 15 ≤ z < 2 ^ 16 → short z = z - 2 ^ 16.
Proof.
intros Hz. unfold short, ushort. rewrite Z.mod_small by lia.
replace (z <? 2 ^ 15) with false by (symmetry; apply Z.ltb_ge; lia). reflexivity.
Qed.

Lemma take_drop_app3 {A} (a b c : list A) :
  take (length b) (drop (length a) (a ++ b ++ c)) = b.
Proof. rewrite drop_app_length. apply take_app_length. Qed.

(** reading a range that sits at the position of the stream *)
Lemma read_at (d pre v post : list byte) (pos len : Z) :
  d = pre ++ v ++ post → pos = size pre → len = size v →
  (if 0 <? len
   then IO.ReadBytes len
          {| IO.r_stream := {| IO.m_streamData := d; IO.m_streamPosition := pos |} |}
   else Ok ([], {| IO.r_stream := {| IO.m_streamData := d; IO.m_streamPosition := pos |} |}))
  = Ok (v, {| IO.r_stream := {| IO.m_streamData := d; IO.m_streamPosition := pos + len |} |}).
Proof.
intros -> -> ->. pose proof (size_nonneg pre). pose proof (size_nonneg v).
destruct (0 <? size v) eqn:Hpos.
- rewrite ReadBytes_Ok; [| lia | lia | rewrite !size_app; pose proof (size_nonneg post); lia].
  unfold size at 1 2. rewrite !Nat2Z.id, take_drop_app3. reflexivity.
- apply Z.ltb_ge in Hpos. assert (v = []) as -> by (apply size_nil_inv; lia).
  simpl. rewrite Z.add_0_r. reflexivity.
Qed.

Lemma ReadInt_short_at (d pre post : list byte) (pos z : Z) :
  d = pre ++ IntUtils.le_bytes 2 z ++ post → pos = size pre → 0 ≤ z < 2 ^ 15 →
  IO.ReadInt_short
    {| IO.r_stream := {| IO.m_streamData := d; IO.m_streamPosition := pos |} |}
  = Ok (z, {| IO.r_stream := {| IO.m_streamData := d; IO.m_streamPosition := pos + 2 |} |}).
Proof.
intros Hd Hpos Hz. unfold IO.ReadInt_short.
pose proof (read_at d pre (IntUtils.le_bytes 2 z) post pos 2 Hd Hpos eq_refl) as R.
change (0 <? 2) with true in R. cbv iota in R.
rewrite R, bind_ret.
rewrite le_value_le_bytes by lia.
change (256 ^ Z.of_nat 2) with (2 ^ 16). rewrite Z.mod_small by lia.
rewrite short_small by lia. reflexivity.
Qed.

(** C8 (as amended): for every container whose key, nonce and info are
  each shorter than 2^15 bytes and are not all three empty, [Serialize]
  writes three 16-bit little-endian lengths followed by the three byte
  ranges, and [DeSerialize] of that stream gives a container with the
  same key, nonce and info. *)
Theorem Serialize_DeSerialize (k : SymmetricKey) :
  size (Key k) < 2 ^ 15 → size (Nonce k) < 2 ^ 15 → size (Info k) < 2 ^ 15 →
  ¬ (Key k = [] ∧ Nonce k = [] ∧ Info k = []) →
  ∃ strm k',
    Serialize k = Ok strm
    ∧ IO.m_streamData strm = layout k
    ∧ IO.m_streamPosition strm = 0
    ∧ DeSerialize strm = Ok k'
    ∧ Key k' = Key k ∧ Nonce k' = Nonce k ∧ Info k' = Info k.
Proof.
intros Hk Hn Hi Hne.
pose proof (size_nonneg (Key k)) as Hk0. pose proof (size_nonneg (Nonce k)) as Hn0.
pose proof (size_nonneg (Info k)) as Hi0.
eexists _, _. split; [apply Serialize_layout; lia|].
split; [reflexivity|]. split; [reflexivity|].
unfold DeSerialize, IO.StreamReader_new.
assert (Hlen : ∀ z, size (IntUtils.le_bytes 2 z) = 2)
  by (intros z; unfold size; rewrite le_bytes_length; reflexivity).
set (lk := IntUtils.le_bytes 2 (size (Key k))).
set (ln := IntUtils.le_bytes 2 (size (Nonce k))).
set (li := IntUtils.le_bytes 2 (size (Info k))).
assert (Hd : layout k = lk ++ ln ++ li ++ Key k ++ Nonce k ++ Info k) by reflexivity.
assert (Hlk : size lk = 2) by apply Hlen.
assert (Hln : size ln = 2) by apply Hlen.
assert (Hli : size li = 2) by apply Hlen.
erewrite (ReadInt_short_at (layout k) [] _ _ (size (Key k)));
  [| exact Hd | reflexivity | lia].
rewrite bind_ret. cbv beta iota.
erewrite (ReadInt_short_at (layout k) lk _ _ (size (Nonce k)));
  [| exact Hd | rewrite Hlk; reflexivity | lia].
rewrite bind_ret. cbv beta iota.
erewrite (ReadInt_short_at (layout k) (lk ++ ln) _ _ (size (Info k)));
  [| rewrite Hd, <- !app_assoc; reflexivity | rewrite size_app, Hlk, Hln; reflexivity | lia].
rewrite bind_ret. cbv beta iota.
erewrite (read_at (layout k) (lk ++ ln ++ li) (Key k) (Nonce k ++ Info k));
  [| rewrite Hd, <- !app_assoc; reflexivity
   | rewrite !size_app, Hlk, Hln, Hli; reflexivity | reflexivity].
rewrite bind_ret. cbv beta iota.
erewrite (read_at (layout k) (lk ++ ln ++ li ++ Key k) (Nonce k) (Info k));
  [| rewrite Hd, <- !app_assoc; reflexivity
   | rewrite !size_app, Hlk, Hln, Hli; lia | reflexivity].
rewrite bind_ret. cbv beta iota.
erewrite (read_at (layout k) (lk ++ ln ++ li ++ Key k ++ Nonce k) (Info k) []);
  [| rewrite Hd, <- !app_assoc, app_nil_r; reflexivity
   | rewrite !size_app, Hlk, Hln, Hli; lia | reflexivity].
rewrite bind_ret. cbv beta iota.
unfold SymmetricKey3.
replace ((size (Key k) =? 0) && (size (Nonce k) =? 0) && (size (Info k) =? 0)) with false.
- simpl. repeat split; reflexivity.
- symmetry. apply not_true_is_false. intros Hall.
  apply andb_true_iff in Hall as [Hall H3]. apply andb_true_iff in Hall as [H1 H2].
  apply Z.eqb_eq in H1, H2, H3. apply Hne.
  repeat split; apply size_nil_inv; assumption.
Qed.

(** a key of 32 bytes, a nonce of 16 and an info of 64, as in the
  serialization test of the library *)
Definition test_key : SymmetricKey :=
{| m_info := replicate 64 7;
   m_isDestroyed := false;
   m_key := replicate 32 5;
   m_keySizes := {| KeySize := 32; NonceSize := 16; InfoSize := 64 |};
   m_nonce := replicate 16 6 |}.

Lemma Serialize_DeSerialize_witness :
  ∃ strm k',
    Serialize test_key = Ok strm
    ∧ IO.m_streamData strm = layout test_key
    ∧ IO.m_streamPosition strm = 0
    ∧ DeSerialize strm = Ok k'
    ∧ Key k' = Key test_key ∧ Nonce k' = Nonce test_key ∧ Info k' = Info test_key.
Proof.
apply (Serialize_DeSerialize test_key);
  [reflexivity | reflexivity | reflexivity | intros (Hk & _); discriminate Hk].
Defined.

(** C8 (counterexample to the claim as stated): the empty container, the
  one the default constructor makes, has three lengths that fit 16
  bits; its stream is the six zero bytes of the prefixes, and
  [DeSerialize] of that stream throws, the three-argument constructor
  refusing three empty arrays. *)
Lemma DeSerialize_empty_throws :
  size (Key SymmetricKey0) < 2 ^ 16 ∧ size (Nonce SymmetricKey0) < 2 ^ 16
  ∧ size (Info SymmetricKey0) < 2 ^ 16
  ∧ ∃ strm,
      Serialize SymmetricKey0 = Ok strm
      ∧ IO.m_streamData strm = [0; 0; 0; 0; 0; 0]
      ∧ DeSerialize strm
        = Throw (CryptoProcessingException "SymmetricKey:Ctor"
                   "The key, nonce, and info can not all be be zero sized!").
Proof.
repeat split; try reflexivity.
eexists. repeat split; reflexivity.
Qed.

(** Beside the claim: the lengths are written as [ushort] and read back
  as [short], so a range of 2^15 bytes or more is not read back at all;
  here the nonce that comes back is the first byte of the key. *)
Lemma DeSerialize_reads_long_key_as_empty :
  match
    strm ← Serialize {| m_info := []; m_isDestroyed := false;
                        m_key := replicate (Z.to_nat 32768) 1;
                        m_keySizes := {| KeySize := 32768; NonceSize := 1; InfoSize := 0 |};
                        m_nonce := [9] |};
    DeSerialize strm
  with
  | Ok k' => Key k' = [] ∧ Nonce k' = [1]
  | _ => False
  end.
Proof. vm_compute. split; reflexivity. Qed.

End SymmetricKey_Serial.

(** ** SymmetricKey: copies, and lengths beyond a signed 16-bit value *)
Module SymmetricKey_More.

Import SymmetricKey SymmetricKey_Serial.

(** X25. [Clone] goes through the three-argument constructor. It throws
  exactly when key, nonce and info are all empty, as they are in the
  container the default constructor makes; otherwise the copy has the
  same key, nonce and info ([Equals] holds both ways), is not marked
  destroyed, has its sizes taken from the arrays, and serializes to the
  same stream. *)
Theorem Clone_copies (k : SymmetricKey) :
  (is_Throw (Clone k) = true ↔ Key k = [] ∧ Nonce k = [] ∧ Info k = [])
  ∧ Clone SymmetricKey0
    = Throw (CryptoProcessingException "SymmetricKey:Ctor"
               "The key, nonce, and info can not all be be zero sized!")
  ∧ (¬ (Key k = [] ∧ Nonce k = [] ∧ Info k = []) →
     ∃ k', Clone k = Ok k'
           ∧ Equals k' k = true ∧ Equals k k' = true
           ∧ m_isDestroyed k' = false
           ∧ KeySizes k'
             = {| KeySize := size (Key k); NonceSize := size (Nonce k);
                  InfoSize := size (Info k) |}
           ∧ Serialize k' = Serialize k).
Proof.
assert (Hall : (size (m_key k) =? 0) && (size (m_nonce k) =? 0) && (size (m_info k) =? 0)
               = true ↔ Key k = [] ∧ Nonce k = [] ∧ Info k = []).
{ unfold Key, Nonce, Info. rewrite !andb_true_iff, !Z.eqb_eq. split.
  - intros [[H1 H2] H3]. repeat split; apply size_nil_inv; assumption.
  - intros (-> & -> & ->). repeat split. }
split; [|split].
- unfold Clone, SymmetricKey3. rewrite <- Hall.
  destruct ((size (m_key k) =? 0) && (size (m_nonce k) =? 0) && (size (m_info k) =? 0));
    simpl; split; congruence.
- reflexivity.
- intros Hne. unfold Clone, SymmetricKey3.
  destruct ((size (m_key k) =? 0) && (size (m_nonce k) =? 0) && (size (m_info k) =? 0))
    eqn:E; [exfalso; apply Hne, Hall; reflexivity|].
  cbn [throw_if]. rewrite bind_ret. eexists. split; [reflexivity|].
  unfold Equals, Key, Nonce, Info, KeySizes. cbn [m_key m_nonce m_info m_keySizes m_isDestroyed].
  rewrite !bool_decide_eq_true_2 by reflexivity. repeat split.
Qed.

Lemma Clone_copies_witness :
  ∃ k', Clone test_key = Ok k'
        ∧ Equals k' test_key = true ∧ Equals test_key k' = true
        ∧ m_isDestroyed k' = false
        ∧ KeySizes k'
          = {| KeySize := size (Key test_key); NonceSize := size (Nonce test_key);
               InfoSize := size (Info test_key) |}
        ∧ Serialize k' = Serialize test_key.
Proof.
apply (proj2 (proj2 (Clone_copies test_key))). intros (Hk & _). discriminate Hk.
Defined.

Lemma ReadInt_short_large (d pre post : list byte) (pos z : Z) :
  d = pre ++ IntUtils.le_bytes 2 z ++ post → pos = size pre → 2 ^ 15 ≤ z < 2 ^ 16 →
  IO.ReadInt_short
    {| IO.r_stream := {| IO.m_streamData := d; IO.m_streamPosition := pos |} |}
  = Ok (z - 2 ^ 16,
        {| IO.r_stream := {| IO.m_streamData := d; IO.m_streamPosition := pos + 2 |} |}).
Proof.
intros Hd Hpos Hz. unfold IO.ReadInt_short.
pose proof (read_at d pre (IntUtils.le_bytes 2 z) post pos 2 Hd Hpos eq_refl) as R.
change (0 <? 2) with true in R. cbv iota in R.
rewrite R, bind_ret.
rewrite le_value_le_bytes by lia.
change (256 ^ Z.of_nat 2) with (2 ^ 16). rewrite Z.mod_small by lia.
rewrite short_large by lia. reflexivity.
Qed.

(** X26. The lengths go out as unsigned and come back as signed 16-bit
  values. A container with a key of 2^15 bytes or more (and less than
  2^16), nonce and info shorter than 2^15, serializes without an error,
  and [DeSerialize] of the stream reads the key length as negative: it
  takes no key, and reads nonce and info from where the key bytes start.
  What comes back, if anything, has an empty key and is not [Equals] to
  the container. *)
Theorem DeSerialize_long_key (k : SymmetricKey) :
  2 ^ 15 ≤ size (Key k) < 2 ^ 16 → size (Nonce k) < 2 ^ 15 → size (Info k) < 2 ^ 15 →
  ∃ strm,
    Serialize k = Ok strm
    ∧ DeSerialize strm
      = SymmetricKey3 []
          (take (length (Nonce k)) (Key k))
          (take (length (Info k)) (drop (length (Nonce k)) (Key k ++ Nonce k ++ Info k)))
    ∧ ∀ k', DeSerialize strm = Ok k' → Key k' = [] ∧ Equals k' k = false.
Proof.
intros Hk Hn Hi.
pose proof (size_nonneg (Nonce k)) as Hn0. pose proof (size_nonneg (Info k)) as Hi0.
eexists. split; [apply Serialize_layout; lia|].
assert (HD : DeSerialize {| IO.m_streamData := layout k; IO.m_streamPosition := 0 |}
             = SymmetricKey3 []
                 (take (length (Nonce k)) (Key k))
                 (take (length (Info k))
                    (drop (length (Nonce k)) (Key k ++ Nonce k ++ Info k)))).
{ unfold DeSerialize, IO.StreamReader_new.
  assert (Hlen : ∀ z, size (IntUtils.le_bytes 2 z) = 2)
    by (intros z; unfold size; rewrite le_bytes_length; reflexivity).
  set (lk := IntUtils.le_bytes 2 (size (Key k))).
  set (ln := IntUtils.le_bytes 2 (size (Nonce k))).
  set (li := IntUtils.le_bytes 2 (size (Info k))).
  set (P := Key k ++ Nonce k ++ Info k).
  assert (Hd : layout k = lk ++ ln ++ li ++ P) by reflexivity.
  assert (Hlk : size lk = 2) by apply Hlen.
  assert (Hln : size ln = 2) by apply Hlen.
  assert (Hli : size li = 2) by apply Hlen.
  assert (HP : size P = size (Key k) + size (Nonce k) + size (Info k)).
  { unfold P. rewrite !size_app. lia. }
  erewrite (ReadInt_short_large (layout k) [] _ _ (size (Key k)));
    [| exact Hd | reflexivity | lia].
  rewrite bind_ret. cbv beta iota.
  erewrite (ReadInt_short_at (layout k) lk _ _ (size (Nonce k)));
    [| exact Hd | rewrite Hlk; reflexivity | lia].
  rewrite bind_ret. cbv beta iota.
  erewrite (ReadInt_short_at (layout k) (lk ++ ln) _ _ (size (Info k)));
    [| rewrite Hd, <- !app_assoc; reflexivity | rewrite size_app, Hlk, Hln; reflexivity | lia].
  rewrite bind_ret. cbv beta iota.
  replace (0 <? size (Key k) - 2 ^ 16) with false by (symmetry; apply Z.ltb_ge; lia).
  rewrite bind_ret. cbv beta iota.
  change (0 + 2 + 2 + 2) with 6.
  erewrite (read_at (layout k) (lk ++ ln ++ li) (take (length (Nonce k)) P)
              (drop (length (Nonce k)) P) 6 (size (Nonce k)));
    [| rewrite Hd, <- !app_assoc, take_drop; reflexivity
     | rewrite !size_app, Hlk, Hln, Hli; reflexivity
     | unfold size in *; rewrite length_take; lia].
  rewrite bind_ret. cbv beta iota.
  erewrite (read_at (layout k) (lk ++ ln ++ li ++ take (length (Nonce k)) P)
              (take (length (Info k)) (drop (length (Nonce k)) P))
              (drop (length (Info k)) (drop (length (Nonce k)) P))
              (6 + size (Nonce k)) (size (Info k)));
    [| rewrite Hd, <- !app_assoc, !take_drop; reflexivity
     | rewrite !size_app, Hlk, Hln, Hli; unfold size in *; rewrite length_take; lia
     | unfold size in *; rewrite length_take, length_drop; lia].
  rewrite bind_ret. cbv beta iota.
  f_equal. unfold P. apply take_app_le. unfold size in *. lia. }
split; [exact HD|].
intros k' Hk'. rewrite HD in Hk'. unfold SymmetricKey3 in Hk'.
destruct (throw_if _ _) in Hk'; try discriminate Hk'.
rewrite bind_ret in Hk'. injection Hk' as <-.
split; [reflexivity|].
unfold Equals, Key. cbn [m_key].
rewrite (bool_decide_eq_false_2 ([] = m_key k)); [reflexivity|].
intros Hnil. unfold Key in Hk. rewrite <- Hnil in Hk. unfold size in Hk. simpl in Hk. lia.
Qed.

(** a key of 2^15 bytes, a nonce of two bytes and no info *)
Definition long_key : SymmetricKey :=
{| m_info := [];
   m_isDestroyed := false;
   m_key := replicate (Z.to_nat 32768) 1;
   m_keySizes := {| KeySize := 32768; NonceSize := 2; InfoSize := 0 |};
   m_nonce := [8; 9] |}.

Lemma long_key_sizes :
  2 ^ 15 ≤ size (Key long_key) < 2 ^ 16 ∧ size (Nonce long_key) < 2 ^ 15
  ∧ size (Info long_key) < 2 ^ 15.
Proof. vm_compute. repeat split; discriminate. Qed.

Lemma DeSerialize_long_key_witness :
  ∃ strm,
    Serialize long_key = Ok strm
    ∧ DeSerialize strm
      = SymmetricKey3 []
          (take (length (Nonce long_key)) (Key long_key))
          (take (length (Info long_key))
             (drop (length (Nonce long_key))
                (Key long_key ++ Nonce long_key ++ Info long_key)))
    ∧ ∀ k', DeSerialize strm = Ok k' → Key k' = [] ∧ Equals k' long_key = false.
Proof.
exact (DeSerialize_long_key long_key (proj1 long_key_sizes)
         (proj1 (proj2 long_key_sizes)) (proj2 (proj2 long_key_sizes))).
Defined.

End SymmetricKey_More.

(** ** Salsa20: the info of the key container *)
Module Salsa20_Info.

Import SymmetricKey Salsa20.

Lemma size_insert {A} (v : list A) (i : nat) (x : A) : size (<[i := x]> v) = size v.
Proof. unfold size. rewrite length_insert. reflexivity. Qed.

(** the four bytes of [Input] at [off], as a little-endian word *)
Definition word_at (Input : list byte) (off : Z) : Z :=
IntUtils.le_value (take 4 (drop (Z.to_nat off) Input)).

Lemma load32_Ok (i : Z) (Input : list byte) (off : Z) (w : list Z) :
  0 ≤ i < size w → 0 ≤ off → off + 4 ≤ size Input →
  load32 i Input off w = Ok (<[Z.to_nat i := word_at Input off]> w).
Proof.
intros Hi Hoff Hin. unfold load32, IntUtils.LeBytesTo32.
rewrite vec_range_Ok by lia. rewrite !bind_ret.
apply vec_set_Ok. exact Hi.
Qed.

(** the constants of the working state are the four words of the
  distribution code *)
Definition code_words (w : list Z) (c : list byte) : Prop :=
  w !! 0%nat = Some (word_at c 0) ∧ w !! 5%nat = Some (word_at c 4)
  ∧ w !! 8%nat = Some (word_at c 8) ∧ w !! 13%nat = Some (word_at c 12).

Ltac load_step :=
  rewrite load32_Ok; [rewrite bind_ret | rewrite ?size_insert; lia | lia | lia].

Lemma Expand_Ok (Key Iv : list byte) (s : Salsa20) :
  size Key = 16 ∨ size Key = 32 → size Iv = 8 →
  16 ≤ size (m_dstCode s) → size (m_wrkState s) = 14 →
  ∃ s', Expand Key Iv s = Ok s'
        ∧ m_dstCode s' = m_dstCode s ∧ m_ctrVector s' = m_ctrVector s
        ∧ code_words (m_wrkState s') (m_dstCode s).
Proof.
intros Hkey Hiv Hc Hw. unfold Expand. cbv zeta.
destruct (size Key =? 32) eqn:H32.
- apply Z.eqb_eq in H32.
  do 13 load_step.
  rewrite load32_Ok; [rewrite bind_ret | rewrite ?size_insert; lia | lia | lia].
  eexists. split; [reflexivity|]. cbn [m_dstCode m_ctrVector m_wrkState].
  split; [reflexivity|]. split; [reflexivity|].
  assert (Hlen : length (m_wrkState s) = 14%nat) by (unfold size in Hw; lia).
  unfold code_words. change (Z.to_nat 13) with 13%nat.
  repeat split.
  + repeat (rewrite list_lookup_insert_ne by (simpl; lia)).
    apply list_lookup_insert_eq. rewrite Hlen. simpl. lia.
  + repeat (rewrite list_lookup_insert_ne by (simpl; lia)).
    apply list_lookup_insert_eq. rewrite ?length_insert, Hlen. simpl. lia.
  + repeat (rewrite list_lookup_insert_ne by (simpl; lia)).
    apply list_lookup_insert_eq. rewrite ?length_insert, Hlen. simpl. lia.
  + apply list_lookup_insert_eq. rewrite ?length_insert, Hlen. lia.
- apply Z.eqb_neq in H32. assert (size Key = 16) as H16 by lia.
  do 13 load_step.
  rewrite load32_Ok; [rewrite bind_ret | rewrite ?size_insert; lia | lia | lia].
  eexists. split; [reflexivity|]. cbn [m_dstCode m_ctrVector m_wrkState].
  split; [reflexivity|]. split; [reflexivity|].
  assert (Hlen : length (m_wrkState s) = 14%nat) by (unfold size in Hw; lia).
  unfold code_words. change (Z.to_nat 13) with 13%nat.
  repeat split.
  + repeat (rewrite list_lookup_insert_ne by (simpl; lia)).
    apply list_lookup_insert_eq. rewrite Hlen. simpl. lia.
  + repeat (rewrite list_lookup_insert_ne by (simpl; lia)).
    apply list_lookup_insert_eq. rewrite ?length_insert, Hlen. simpl. lia.
  + repeat (rewrite list_lookup_insert_ne by (simpl; lia)).
    apply list_lookup_insert_eq. rewrite ?length_insert, Hlen. simpl. lia.
  + apply list_lookup_insert_eq. rewrite ?length_insert, Hlen. lia.
Qed.

(** the distribution code [Initialize] settles on *)
Definition code_of (KeyParams : SymmetricKey) : list byte :=
if size (Info KeyParams) =? 0
then (if size (Key KeyParams) =? 32 then bytes_of_string SIGMA_INFO
      else bytes_of_string TAU_INFO)
else Info KeyParams.

(** C6 (as amended): [Initialize] makes no check of the length of the
  info. A key container with an 8-byte nonce, a key of 16 or 32 bytes
  and an info that is empty or at least 16 bytes long (17 bytes, say) is
  accepted; a non-empty info takes the place of the expansion constants,
  its first 16 bytes being the four constant words of the state, and an
  empty info selects sigma for a 32-byte key and tau for a 16-byte
  key. *)
Theorem Initialize_takes_any_info (KeyParams : SymmetricKey) (s : Salsa20) :
  size (Nonce KeyParams) = 8 →
  size (Key KeyParams) = 16 ∨ size (Key KeyParams) = 32 →
  size (Info KeyParams) = 0 ∨ 16 ≤ size (Info KeyParams) →
  check_profile "Salsa20:Initialize" (m_parallelProfile s) = Ok () →
  size (m_ctrVector s) = 2 → size (m_wrkState s) = 14 →
  ∃ s', Initialize KeyParams s = Ok s'
        ∧ m_isInitialized s' = true
        ∧ m_dstCode s' = code_of KeyParams
        ∧ code_words (m_wrkState s') (code_of KeyParams).
Proof.
intros Hn Hk Hi Hp Hctr Hw. unfold Initialize. cbv zeta.
replace (negb (size (Nonce KeyParams) =? 8)) with false
  by (symmetry; apply negb_false_iff, Z.eqb_eq; exact Hn).
cbn [throw_if]. rewrite bind_ret.
replace (negb (size (Key KeyParams) =? 16) && negb (size (Key KeyParams) =? 32))
  with false by (destruct Hk as [-> | ->]; reflexivity).
cbn [throw_if]. rewrite bind_ret.
cbn [Scope m_parallelProfile]. rewrite Hp, bind_ret.
unfold Reset. cbn [Scope m_ctrVector m_dstCode m_wrkState m_isDestroyed m_isInitialized
                   m_legalKeySizes m_legalRounds m_parallelProfile m_rndCount].
rewrite vec_set_Ok by lia. rewrite bind_ret.
rewrite vec_set_Ok by (rewrite size_insert; lia). rewrite !bind_ret.
set (c := if negb (size (Info KeyParams) =? 0) then _ else _).
assert (Hc : c = code_of KeyParams).
{ unfold c, code_of. destruct (size (Info KeyParams) =? 0); reflexivity. }
match goal with
| |- context [Expand ?K ?N ?st] =>
    destruct (Expand_Ok K N st) as (s' & -> & Hd & _ & Hcw)
end.
- exact Hk.
- exact Hn.
- cbn [m_dstCode]. rewrite Hc. unfold code_of.
  destruct (size (Info KeyParams) =? 0) eqn:Hz.
  + destruct (size (Key KeyParams) =? 32); vm_compute; discriminate.
  + apply Z.eqb_neq in Hz. lia.
- cbn [m_wrkState]. exact Hw.
- rewrite bind_ret. eexists. split; [reflexivity|].
  cbn [m_isInitialized m_dstCode m_wrkState] in *.
  rewrite Hd, <- Hc. repeat split; try reflexivity; apply Hcw.
Qed.

(** a 32-byte key, an 8-byte nonce and an info of 17 bytes *)
Definition key_with_long_info : SymmetricKey :=
{| SymmetricKey.m_info := [1; 2; 3; 4; 5; 6; 7; 8; 9; 10; 11; 12; 13; 14; 15; 16; 17];
   SymmetricKey.m_isDestroyed := false;
   SymmetricKey.m_key := replicate 32 7;
   SymmetricKey.m_keySizes := {| KeySize := 32; NonceSize := 8; InfoSize := 17 |};
   SymmetricKey.m_nonce := replicate 8 3 |}.

(** the 20-round cipher on a machine without parallel paths *)
Definition salsa20 : Salsa20 :=
Scope {| m_ctrVector := replicate 2 0;
         m_dstCode := [];
         m_isDestroyed := false;
         m_isInitialized := false;
         m_legalKeySizes := [];
         m_legalRounds := [];
         m_parallelProfile := Instances.sequential_profile;
         m_rndCount := 20;
         m_wrkState := replicate 14 0 |}.

Lemma salsa20_constructed : Salsa20_new Instances.sequential_profile 20 = Ok salsa20.
Proof. reflexivity. Qed.

Lemma Initialize_takes_any_info_witness :
  ∃ s', Initialize key_with_long_info salsa20 = Ok s'
        ∧ m_isInitialized s' = true
        ∧ m_dstCode s' = code_of key_with_long_info
        ∧ code_words (m_wrkState s') (code_of key_with_long_info).
Proof.
apply (Initialize_takes_any_info key_with_long_info salsa20);
  [reflexivity | right; reflexivity | right; vm_compute; discriminate
  | reflexivity | reflexivity | reflexivity].
Defined.

(** C6 (counterexample to the claim as stated): an info of 17 bytes is
  neither empty nor 16 bytes long, and [Initialize] does not refuse it:
  it returns normally with that info as the distribution code. *)
Lemma Initialize_accepts_17_byte_info :
  size (Info key_with_long_info) = 17
  ∧ ∃ s', Initialize key_with_long_info salsa20 = Ok s'
          ∧ m_isInitialized s' = true
          ∧ m_dstCode s' = Info key_with_long_info.
Proof.
split; [reflexivity|]. eexists. split; [vm_compute; reflexivity|].
split; reflexivity.
Qed.

End Salsa20_Info.

(** ** HCR: the bytes drawn, one after the other *)
Module HCR_Stream.

Import HCR.

Section Stream.

Context `{IDrbg}.

(** an instance as the constructors leave it and [GetBytes] keeps it *)
Definition valid (s : HCR) : Prop :=
0 < size (m_rngBuffer s) ∧ 0 ≤ m_bufferIndex s ≤ size (m_rngBuffer s)
∧ size (m_rngBuffer s) < 2 ^ 64.

(** the next byte of the stream: the one at the index, or the first of
  a new buffer when the index is at the end *)
Definition next1 (s : HCR) : byte * HCR :=
if m_bufferIndex s <? size (m_rngBuffer s)
then (default 0 (m_rngBuffer s !! Z.to_nat (m_bufferIndex s)),
      set_bufferIndex (m_bufferIndex s + 1) s)
else (default 0 (m_rngBuffer (fill_buffer s) !! 0%nat),
      set_bufferIndex 1 (fill_buffer s)).

Fixpoint nextn (n : nat) (s : HCR) : list byte * HCR :=
match n with
| O => ([], s)
| S n' => let r := nextn n' (next1 s).2 in ((next1 s).1 :: r.1, r.2)
end.

Lemma nextn_add n m s :
  nextn (n + m) s = ((nextn n s).1 ++ (nextn m (nextn n s).2).1, (nextn m (nextn n s).2).2).
Proof.
revert s. induction n as [|n IH]; intros s.
- simpl. destruct (nextn m s); reflexivity.
- cbn [Nat.add nextn]. rewrite IH. reflexivity.
Qed.

Lemma nextn_length n s : length (nextn n s).1 = n.
Proof. revert s. induction n as [|n IH]; intros s; simpl; [|rewrite IH]; reflexivity. Qed.

Lemma fill_buffer_size s : size (m_rngBuffer (fill_buffer s)) = size (m_rngBuffer s).
Proof. unfold fill_buffer. cbn [m_rngBuffer]. apply Generate_size, size_nonneg. Qed.

Lemma next1_valid s : valid s → valid (next1 s).2.
Proof.
intros (HL & Hi & Hm). unfold next1, valid.
destruct (m_bufferIndex s <? size (m_rngBuffer s)) eqn:E.
- apply Z.ltb_lt in E. cbn. lia.
- cbn [snd set_bufferIndex m_rngBuffer m_bufferIndex].
  change (size (fill_buffer s).(m_rngBuffer)) with (size (m_rngBuffer (fill_buffer s))).
  fold (fill_buffer s). rewrite ?fill_buffer_size.
  pose proof (fill_buffer_size s) as Hs. unfold fill_buffer in Hs. cbn in Hs.
  cbn. rewrite ?Hs. lia.
Qed.

Lemma nextn_valid n s : valid s → valid (nextn n s).2.
Proof.
revert s. induction n as [|n IH]; intros s Hv; [exact Hv|].
cbn [nextn snd]. apply IH, next1_valid, Hv.
Qed.

Lemma set_bufferIndex_twice a b s :
  set_bufferIndex a (set_bufferIndex b s) = set_bufferIndex a s.
Proof. reflexivity. Qed.

(** bytes still in the buffer come out of it, in order *)
Lemma nextn_inside (k : nat) : ∀ s,
  0 ≤ m_bufferIndex s → m_bufferIndex s + Z.of_nat k ≤ size (m_rngBuffer s) →
  nextn k s
  = (take k (drop (Z.to_nat (m_bufferIndex s)) (m_rngBuffer s)),
     set_bufferIndex (m_bufferIndex s + Z.of_nat k) s).
Proof.
induction k as [|k IH]; intros s H0 Hk.
- simpl. rewrite Z.add_0_r. destruct s; reflexivity.
- cbn [nextn]. unfold next1 at 1 2 3.
  replace (m_bufferIndex s <? size (m_rngBuffer s)) with true
    by (symmetry; apply Z.ltb_lt; lia).
  cbn [fst snd]. rewrite IH; cbn [set_bufferIndex m_bufferIndex m_rngBuffer]; [|lia..].
  cbn [fst snd]. f_equal.
  + destruct (lookup_lt_is_Some_2 (m_rngBuffer s) (Z.to_nat (m_bufferIndex s))) as [x Hx];
      [unfold size in *; lia|].
    rewrite Hx. cbn [default].
    rewrite (drop_S _ x (Z.to_nat (m_bufferIndex s))) by exact Hx.
    replace (Z.to_nat (m_bufferIndex s + 1)) with (S (Z.to_nat (m_bufferIndex s))) by lia.
    reflexivity.
  + rewrite set_bufferIndex_twice. f_equal. lia.
Qed.

(** with the buffer used up, the next bytes are the front of a new one *)
Lemma nextn_refilled (k : nat) s :
  m_bufferIndex s = size (m_rngBuffer s) → (0 < k)%nat →
  Z.of_nat k ≤ size (m_rngBuffer s) →
  nextn k s
  = (take k (m_rngBuffer (fill_buffer s)), set_bufferIndex (Z.of_nat k) (fill_buffer s)).
Proof.
intros Hi Hk HL. destruct k as [|k]; [lia|].
cbn [nextn]. unfold next1 at 1 2 3.
replace (m_bufferIndex s <? size (m_rngBuffer s)) with false
  by (symmetry; apply Z.ltb_ge; lia).
cbn [fst snd].
pose proof (fill_buffer_size s) as Hs.
rewrite nextn_inside; cbn [set_bufferIndex m_bufferIndex m_rngBuffer]; [|lia..].
cbn [fst snd]. f_equal.
- destruct (lookup_lt_is_Some_2 (m_rngBuffer (fill_buffer s)) 0) as [x Hx];
    [unfold size in *; lia|].
  rewrite Hx. cbn [default].
  destruct (m_rngBuffer (fill_buffer s)) as [|y l]; [discriminate Hx|].
  injection Hx as ->. reflexivity.
- rewrite set_bufferIndex_twice. f_equal. lia.
Qed.

Lemma set_bufferIndex_same s : set_bufferIndex (m_bufferIndex s) s = s.
Proof. destruct s; reflexivity. Qed.

(** the state with its buffer used up *)
Definition used_up (s : HCR) : HCR := set_bufferIndex (size (m_rngBuffer s)) s.

Lemma refill_done fuel Output bufSize s : refill fuel Output bufSize 0 s = Ok (Output, s).
Proof. destruct fuel; reflexivity. Qed.

Lemma Copy_front (buf Output : list byte) (off len : Z) :
  0 ≤ off → 0 ≤ len → len ≤ size buf → off + len ≤ size Output →
  MemUtils.Copy buf 0 Output off len
  = Ok (list_inserts (Z.to_nat off) (take (Z.to_nat len) buf) Output).
Proof.
intros Ho Hl Hb Hs. unfold MemUtils.Copy.
rewrite vec_range_Ok by lia. rewrite bind_ret.
change (Z.to_nat 0) with 0%nat. rewrite drop_0.
apply vec_write_Ok; [exact Ho|]. unfold size in *. rewrite length_take. lia.
Qed.

(** the loop of [GetBytes] stores the next [rmd] bytes of the stream *)
Lemma refill_spec (fuel : nat) : ∀ Output bufSize rmd s,
  0 < size (m_rngBuffer s) → size (m_rngBuffer s) < 2 ^ 64 →
  0 < rmd → rmd ≤ Z.of_nat fuel →
  0 ≤ bufSize → bufSize + rmd ≤ size Output → size Output < 2 ^ 64 →
  refill fuel Output bufSize rmd s
  = Ok (list_inserts (Z.to_nat bufSize) (nextn (Z.to_nat rmd) (used_up s)).1 Output,
        (nextn (Z.to_nat rmd) (used_up s)).2).
Proof.
induction fuel as [|fuel IH]; intros Output bufSize rmd s HL Hm Hr Hf Hb Hs Ho; [lia|].
cbn [refill]. replace (0 <? rmd) with true by (symmetry; apply Z.ltb_lt; lia).
pose proof (fill_buffer_size s) as HsL.
destruct (size (m_rngBuffer (fill_buffer s)) <? rmd) eqn:E.
- apply Z.ltb_lt in E.
  rewrite Copy_front by lia. rewrite bind_ret.
  rewrite !size_t_small by lia.
  rewrite IH; [|(rewrite ?HsL; unfold size in *; rewrite ?length_inserts; lia)..].
  rewrite !HsL.
  set (L := size (m_rngBuffer s)) in *.
  replace (Z.to_nat rmd) with (Z.to_nat L + Z.to_nat (rmd - L))%nat by lia.
  rewrite nextn_add.
  assert (H1 : nextn (Z.to_nat L) (used_up s)
               = (m_rngBuffer (fill_buffer s), used_up (fill_buffer s))).
  { rewrite nextn_refilled; [|reflexivity|lia|cbn; fold L; lia].
    unfold used_up. cbn [set_bufferIndex m_rngBuffer m_bufferIndex].
    f_equal.
    - apply take_ge. unfold size in *. fold L in HsL. lia.
    - change (fill_buffer (set_bufferIndex (size (m_rngBuffer s)) s))
        with (set_bufferIndex (size (m_rngBuffer s)) (fill_buffer s)).
      rewrite set_bufferIndex_twice. fold L. rewrite Z2Nat.id by lia.
      rewrite HsL. reflexivity. }
  rewrite H1. cbn [fst snd]. f_equal. f_equal.
  rewrite take_ge by (unfold size in *; lia).
  rewrite list_inserts_app_l. f_equal.
  unfold size in *. lia.
- apply Z.ltb_ge in E.
  rewrite Copy_front by lia. rewrite bind_ret, refill_done.
  rewrite nextn_refilled; [|reflexivity|lia|cbn; lia].
  unfold used_up. cbn [fst snd].
  change (fill_buffer (set_bufferIndex (size (m_rngBuffer s)) s))
    with (set_bufferIndex (size (m_rngBuffer s)) (fill_buffer s)).
  rewrite set_bufferIndex_twice. rewrite Z2Nat.id by lia. reflexivity.
Qed.


Lemma inserts_whole {A} (d v : list A) : length d = length v → list_inserts 0 d v = d.
Proof.
intros Hl. apply list_eq. intros j.
destruct (decide (j < length d)%nat) as [Hj|Hj].
- rewrite list_lookup_inserts by lia. f_equal. lia.
- rewrite list_lookup_inserts_ge by lia.
  rewrite !lookup_ge_None_2 by lia. reflexivity.
Qed.

Lemma Copy_range (buf Output : list byte) (index len : Z) :
  0 ≤ index → 0 ≤ len → index + len ≤ size buf → len ≤ size Output →
  MemUtils.Copy buf index Output 0 len
  = Ok (list_inserts 0 (take (Z.to_nat len) (drop (Z.to_nat index) buf)) Output).
Proof.
intros Hi Hl Hb Hs. unfold MemUtils.Copy.
rewrite vec_range_Ok by lia. rewrite bind_ret.
change 0%nat with (Z.to_nat 0) at 1.
apply vec_write_Ok; [lia|]. unfold size in *. rewrite length_take, length_drop. lia.
Qed.

(** [GetBytes] fills the whole of its array with the next bytes of the
  stream, whatever the array held *)
Lemma GetBytes_spec Output s :
  valid s → 0 < size Output → size Output < 2 ^ 64 →
  GetBytes Output s = Ok (Returns (nextn (Z.to_nat (size Output)) s)).
Proof.
intros (HL & Hi & Hm) Hn Ho. unfold GetBytes.
replace (size Output =? 0) with false by (symmetry; apply Z.eqb_neq; lia).
set (L := size (m_rngBuffer s)) in *. set (i := m_bufferIndex s) in *.
set (n := size Output) in *.
rewrite !(size_t_small (L - i)) by lia.
destruct (L - i <? n) eqn:E.
- apply Z.ltb_lt in E. cbv zeta.
  assert (H1 : (if negb (L - i =? 0)
                then MemUtils.Copy (m_rngBuffer s) i Output 0 (L - i)
                else Ok Output)
               = Ok (list_inserts 0 (take (Z.to_nat (L - i)) (drop (Z.to_nat i)
                                                                 (m_rngBuffer s))) Output)).
  { destruct (L - i =? 0) eqn:Ez; cbn [negb].
    - apply Z.eqb_eq in Ez. rewrite Ez. reflexivity.
    - apply Copy_range; fold L; fold n; lia. }
  rewrite H1, bind_ret.
  set (O1 := list_inserts 0 _ Output).
  assert (HO1 : size O1 = n) by (unfold O1, size; rewrite length_inserts; reflexivity).
  rewrite HO1. rewrite size_t_small by lia.
  rewrite refill_spec; fold L; try lia.
  rewrite bind_ret. do 2 f_equal.
  replace (Z.to_nat n) with (Z.to_nat (L - i) + Z.to_nat (n - (L - i)))%nat by lia.
  rewrite nextn_add.
  rewrite (nextn_inside (Z.to_nat (L - i)) s); fold L i; [|lia..].
  cbn [fst snd]. rewrite Z2Nat.id by lia.
  replace (i + (L - i)) with L by lia. fold (used_up s).
  f_equal. unfold O1.
  set (D1 := take (Z.to_nat (L - i)) (drop (Z.to_nat i) (m_rngBuffer s))).
  set (D2 := (nextn (Z.to_nat (n - (L - i))) (used_up s)).1).
  assert (LD1 : length D1 = Z.to_nat (L - i)).
  { unfold D1. rewrite length_take, length_drop. unfold L, i, size in *. lia. }
  assert (LD2 : length D2 = Z.to_nat (n - (L - i))) by apply nextn_length.
  replace (Z.to_nat (L - i)) with (length D1 + 0)%nat by lia.
  rewrite <- list_inserts_app_l. apply inserts_whole.
  rewrite length_app, nextn_length, LD1. unfold n, size in *. lia.
- apply Z.ltb_ge in E.
  rewrite Copy_range by (fold L; fold n; lia). rewrite !bind_ret.
  assert (Hsame : ∀ d : list byte, size (list_inserts 0 d Output) = n)
    by (intros d; unfold n, size; rewrite length_inserts; reflexivity).
  rewrite Hsame. rewrite size_t_small by lia.
  rewrite (nextn_inside (Z.to_nat n) s); fold L i; [|lia..].
  rewrite Z2Nat.id by lia. do 3 f_equal.
  apply inserts_whole. rewrite length_take, length_drop. unfold L, i, n, size in *. lia.
Qed.

(** X27. [GetBytes] hands out the stream of the generator without a
  gap and without a byte twice: on an instance with a buffer that is not
  empty, a call for [n] bytes and then a call for [m] bytes both
  complete, and together they return the bytes, and leave the instance,
  that one call for [n + m] bytes does; a call on an array returns the
  same bytes whatever the array held. *)
Theorem GetBytes_stream (n m : Z) (s : HCR) :
  valid s → 0 < n → 0 < m → n + m < 2 ^ 64 →
  ∃ d1 s1 d2 s2,
    GetBytes_Size n s = Ok (Returns (d1, s1))
    ∧ GetBytes_Size m s1 = Ok (Returns (d2, s2))
    ∧ GetBytes_Size (n + m) s = Ok (Returns (d1 ++ d2, s2))
    ∧ size d1 = n ∧ size d2 = m ∧ valid s2
    ∧ ∀ Output, size Output = n → GetBytes Output s = Ok (Returns (d1, s1)).
Proof.
intros Hv Hn Hm Hnm.
assert (Hsz : ∀ k, 0 ≤ k → size (replicate (Z.to_nat k) (0 : byte)) = k).
{ intros k Hk. unfold size. rewrite length_replicate. lia. }
exists (nextn (Z.to_nat n) s).1, (nextn (Z.to_nat n) s).2,
       (nextn (Z.to_nat m) (nextn (Z.to_nat n) s).2).1,
       (nextn (Z.to_nat m) (nextn (Z.to_nat n) s).2).2.
pose proof (nextn_valid (Z.to_nat n) s Hv) as Hv1.
unfold GetBytes_Size.
rewrite !GetBytes_spec; rewrite ?Hsz; try lia; try assumption.
split; [destruct (nextn (Z.to_nat n) s); reflexivity|].
split; [destruct (nextn (Z.to_nat m) _); reflexivity|].
split; [rewrite Z2Nat.inj_add, nextn_add by lia; reflexivity|].
split; [unfold size; rewrite nextn_length; lia|].
split; [unfold size; rewrite nextn_length; lia|].
split; [apply nextn_valid; exact Hv1|].
intros Output Ho. rewrite GetBytes_spec; rewrite ?Ho; try lia; try assumption.
destruct (nextn (Z.to_nat n) s); reflexivity.
Qed.

(** *** Numbers up to a maximum *)

(** every byte of the buffer is a byte *)
Definition bytes (s : HCR) : Prop := Forall (λ b, 0 ≤ b < 256) (m_rngBuffer s).

Lemma next1_bytes s :
  valid s → bytes s → 0 ≤ (next1 s).1 < 256 ∧ bytes (next1 s).2.
Proof.
intros (HL & Hi & Hm) Hb. unfold next1.
destruct (m_bufferIndex s <? size (m_rngBuffer s)) eqn:E; cbn [fst snd].
- apply Z.ltb_lt in E. split; [|exact Hb].
  destruct (lookup_lt_is_Some_2 (m_rngBuffer s) (Z.to_nat (m_bufferIndex s))) as [x Hx];
    [unfold size in *; lia|].
  rewrite Hx. cbn [default]. exact (proj1 (Forall_lookup _ _) Hb _ _ Hx).
- assert (Hg : bytes (fill_buffer s)) by apply Generate_bytes.
  split; [|exact Hg].
  pose proof (fill_buffer_size s) as Hs.
  destruct (lookup_lt_is_Some_2 (m_rngBuffer (fill_buffer s)) 0) as [x Hx];
    [unfold size in *; lia|].
  rewrite Hx. cbn [default]. exact (proj1 (Forall_lookup _ _) Hg _ _ Hx).
Qed.

Lemma nextn_bytes n : ∀ s,
  valid s → bytes s →
  Forall (λ b, 0 ≤ b < 256) (nextn n s).1 ∧ bytes (nextn n s).2.
Proof.
induction n as [|n IH]; intros s Hv Hb; [split; [constructor | exact Hb]|].
cbn [nextn fst snd].
destruct (next1_bytes s Hv Hb) as [H1 H2].
destruct (IH _ (next1_valid s Hv) H2) as [H3 H4].
split; [constructor; assumption | exact H4].
Qed.

Lemma le_value_bound (d : list byte) :
  Forall (λ b, 0 ≤ b < 256) d → 0 ≤ IntUtils.le_value d < 256 ^ Z.of_nat (length d).
Proof.
induction 1 as [|b d Hb Hd IH]; [simpl; lia|].
cbn [IntUtils.le_value length]. rewrite Nat2Z.inj_succ, Z.pow_succ_r by lia. lia.
Qed.

(** the loop of [GetBits] ends at or below the maximum *)
Lemma shift_down_bound (bits : nat) : ∀ val Maximum,
  0 ≤ val < 2 ^ Z.of_nat bits → 0 ≤ Maximum →
  0 ≤ shift_down bits val Maximum ≤ Maximum.
Proof.
induction bits as [|bits IH]; intros val Maximum Hv HM.
- simpl in *. lia.
- cbn [shift_down]. destruct (Maximum <? val) eqn:E.
  + apply IH; [|exact HM]. rewrite Z.shiftr_div_pow2 by lia.
    rewrite Nat2Z.inj_succ, Z.pow_succ_r in Hv by lia.
    change (2 ^ 1) with 2. split; [apply Z.div_pos; lia|].
    apply Z.div_lt_upper_bound; lia.
  + apply Z.ltb_ge in E. lia.
Qed.

(** the bytes [GetByteRange] draws for a maximum *)
Definition width (Maximum : Z) : Z :=
if Maximum <? 256 then 1
else if Maximum <? 65536 then 2
else if Maximum <? 16777216 then 3
else if Maximum <? 4294967296 then 4
else if Maximum <? 1099511627776 then 5
else if Maximum <? 281474976710656 then 6
else if Maximum <? 72057594037927936 then 7
else 8.

(** the number [GetBits] makes of the bytes drawn *)
Definition cut (d : list byte) (Maximum : Z) : Z :=
shift_down (Z.to_nat (8 * size d)) (IntUtils.le_value d) Maximum.

Lemma width_range Maximum : 1 ≤ width Maximum ≤ 8.
Proof.
unfold width.
repeat (match goal with |- context [if ?c then _ else _] => destruct c end); lia.
Qed.

Lemma GetByteRange_width Maximum s :
  GetByteRange Maximum s
  = and_then (GetBytes_Size (width Maximum) s)
      (λ '(data, s), Ok (Returns (GetBits data Maximum, s))).
Proof.
unfold GetByteRange, width.
repeat (match goal with |- context [if ?c then _ else _] => destruct c end); reflexivity.
Qed.

Lemma GetByteRange_spec Maximum s :
  valid s → bytes s → 0 ≤ Maximum →
  ∃ d s',
    GetBytes_Size (width Maximum) s = Ok (Returns (d, s'))
    ∧ size d = width Maximum
    ∧ GetByteRange Maximum s = Ok (Returns (IntUtils.le_bytes 8 (cut d Maximum), s'))
    ∧ 0 ≤ cut d Maximum ≤ Maximum
    ∧ valid s' ∧ bytes s'.
Proof.
intros Hv Hb HM. pose proof (width_range Maximum) as Hw.
set (k := Z.to_nat (width Maximum)).
exists (nextn k s).1, (nextn k s).2.
assert (HG : GetBytes_Size (width Maximum) s = Ok (Returns ((nextn k s).1, (nextn k s).2))).
{ unfold GetBytes_Size. rewrite GetBytes_spec; try assumption;
    unfold size; rewrite length_replicate; [|lia..].
  rewrite Nat2Z.id. fold k. destruct (nextn k s); reflexivity. }
destruct (nextn_bytes k s Hv Hb) as [Hd Hb'].
pose proof (nextn_length k s) as Hl.
pose proof (le_value_bound _ Hd) as Hval. rewrite Hl in Hval.
assert (Hsz : size (nextn k s).1 = width Maximum) by (unfold size; rewrite Hl; unfold k; lia).
assert (Hpow : 256 ^ Z.of_nat k = 2 ^ (8 * width Maximum)).
{ unfold k. rewrite Z2Nat.id by lia. change 256 with (2 ^ 8).
  rewrite <- Z.pow_mul_r by lia. reflexivity. }
assert (Hle : 2 ^ (8 * width Maximum) ≤ 2 ^ 64) by (apply Z.pow_le_mono_r; lia).
split; [exact HG|]. split; [exact Hsz|].
split.
{ rewrite GetByteRange_width, HG. unfold and_then. rewrite bind_ret.
  unfold GetBits, cut, ulong. rewrite Hsz.
  rewrite (Z.mod_small (IntUtils.le_value _)) by lia.
  rewrite (Z.mod_small (width Maximum * 8)) by lia.
  replace (width Maximum * 8) with (8 * width Maximum) by lia. reflexivity. }
split.
{ unfold cut. rewrite Hsz. apply shift_down_bound; [|exact HM].
  rewrite Z2Nat.id by lia. lia. }
split; [apply nextn_valid; exact Hv | exact Hb'].
Qed.

Section Next.

Variable bld : build.

(** X28. [Next(Maximum)] and [NextULong(Maximum)] never pass the
  maximum and never draw twice: from an instance with a buffer that is
  not empty they draw as many bytes as the maximum has (1 to 4, or 1 to
  8), halve their little-endian value until it is at most the maximum,
  and return that number; the stream is that many bytes further on. The
  loop around the draw does not run a second time, whatever the
  generator gives. *)
Theorem Next_bounded (fuel : nat) (Maximum : Z) (s : HCR) :
  valid s → bytes s → 0 < Maximum →
  ∃ d s',
    GetBytes_Size (width Maximum) s = Ok (Returns (d, s'))
    ∧ 0 ≤ cut d Maximum ≤ Maximum
    ∧ (Maximum < 2 ^ 32 →
       Next bld (S fuel) Maximum s = Ok (Returns (cut d Maximum, s')))
    ∧ (Maximum < 2 ^ 64 →
       NextULong bld (S fuel) Maximum s = Ok (Returns (cut d Maximum, s'))).
Proof.
intros Hv Hb HM.
destruct (GetByteRange_spec Maximum s Hv Hb ltac:(lia))
  as (d & s' & HG & Hsz & HR & Hc & _).
exists d, s'. split; [exact HG|]. split; [exact Hc|].
assert (Ha : CEXASSERT bld (negb (Maximum =? 0)) "maximum can not be zero" = Ok ()).
{ replace (Maximum =? 0) with false by (symmetry; apply Z.eqb_neq; lia).
  destruct bld; reflexivity. }
assert (L8 : size (IntUtils.le_bytes 8 (cut d Maximum)) = 8)
  by (unfold size; rewrite le_bytes_length; reflexivity).
split.
- intros H32. unfold Next. rewrite Ha, bind_ret. cbn [Next_draw].
  rewrite HR. unfold and_then. rewrite bind_ret. cbv beta iota.
  unfold IntUtils.LeBytesTo32. rewrite vec_range_Ok by lia. rewrite bind_ret.
  change (take (Z.to_nat 4) (drop (Z.to_nat 0) (IntUtils.le_bytes 8 (cut d Maximum))))
    with (IntUtils.le_bytes 4 (cut d Maximum)).
  rewrite le_value_le_bytes by lia. change (256 ^ Z.of_nat 4) with (2 ^ 32).
  rewrite bind_ret. unfold uint. rewrite Zmod_mod. rewrite Z.mod_small by lia.
  replace (Maximum <? cut d Maximum) with false by (symmetry; apply Z.ltb_ge; lia).
  reflexivity.
- intros H64. unfold NextULong. rewrite Ha, bind_ret. cbn [NextULong_draw].
  rewrite HR. unfold and_then. rewrite bind_ret. cbv beta iota.
  unfold LeBytesTo64. rewrite vec_range_Ok by lia. rewrite bind_ret.
  change (take (Z.to_nat 8) (drop (Z.to_nat 0) (IntUtils.le_bytes 8 (cut d Maximum))))
    with (IntUtils.le_bytes 8 (cut d Maximum)).
  rewrite le_value_le_bytes by lia. change (256 ^ Z.of_nat 8) with (2 ^ 64).
  rewrite bind_ret. unfold ulong. rewrite Zmod_mod. rewrite Z.mod_small by lia.
  replace (Maximum <? cut d Maximum) with false by (symmetry; apply Z.ltb_ge; lia).
  reflexivity.
Qed.

End Next.

End Stream.

End HCR_Stream.
(** ** HCR on a stand-in generator: the theorems at concrete inputs *)
Module HCR_Runs.

Import HCR HCR_Stream.

(** A stand-in for the generator: a counter, and bytes that depend on it
  and on their position. It has the shape of [HCG], not its strength. *)
Definition toy_generate (g : Z) (n : Z) : Z * list byte :=
(g + 1, (λ i : nat, (7 * Z.of_nat i + 13 * g) mod 256) <$> seq 0 (Z.to_nat n)).

Lemma toy_generate_size g n : 0 ≤ n → size (toy_generate g n).2 = n.
Proof.
intros Hn. unfold toy_generate, size. cbn [snd].
rewrite length_fmap, length_seq. lia.
Qed.

Lemma toy_generate_bytes g n : Forall (λ b, 0 ≤ b < 256) (toy_generate g n).2.
Proof.
unfold toy_generate. cbn [snd]. apply Forall_fmap, Forall_forall.
intros i _. cbn. apply Z.mod_pos_bound. lia.
Qed.

#[global] Instance toy_drbg : IDrbg := {|
  drbg := Z;
  Generate := toy_generate;
  Generate_size := toy_generate_size;
  Generate_bytes := toy_generate_bytes
|}.

(** an instance with a buffer of eight bytes, five of them used *)
Definition half_used : HCR :=
{| m_bufferIndex := 5;
   m_bufferSize := 8;
   m_isDestroyed := false;
   m_rngBuffer := [10; 20; 30; 40; 50; 60; 70; 80];
   m_rngGenerator := 3 |}.

Lemma half_used_valid : valid half_used.
Proof. vm_compute. repeat split; discriminate. Qed.

Lemma half_used_bytes : bytes half_used.
Proof. unfold bytes, half_used. cbn [m_rngBuffer]. repeat constructor; lia. Qed.

Lemma GetBytes_stream_witness :
  ∃ d1 s1 d2 s2,
    GetBytes_Size 10 half_used = Ok (Returns (d1, s1))
    ∧ GetBytes_Size 7 s1 = Ok (Returns (d2, s2))
    ∧ GetBytes_Size (10 + 7) half_used = Ok (Returns (d1 ++ d2, s2))
    ∧ size d1 = 10 ∧ size d2 = 7 ∧ valid s2
    ∧ ∀ Output, size Output = 10 → GetBytes Output half_used = Ok (Returns (d1, s1)).
Proof.
apply (GetBytes_stream 10 7 half_used); [exact half_used_valid | lia..].
Defined.

Lemma Next_bounded_witness :
  ∃ d s',
    GetBytes_Size (width 1000) half_used = Ok (Returns (d, s'))
    ∧ 0 ≤ cut d 1000 ≤ 1000
    ∧ (1000 < 2 ^ 32 → Next Debug 1 1000 half_used = Ok (Returns (cut d 1000, s')))
    ∧ (1000 < 2 ^ 64 → NextULong Debug 1 1000 half_used = Ok (Returns (cut d 1000, s'))).
Proof.
apply (Next_bounded Debug 0 1000 half_used);
  [exact half_used_valid | exact half_used_bytes | lia].
Defined.

End HCR_Runs.

(** ** Loops *)

(** an invariant carried through a loop that came back [Ok] *)
Lemma for_loop_ind {S} (P : nat → S → Prop) (n : nat) (body : Z → S → result S) (s s' : S) :
  P 0%nat s →
  (∀ i a a', (i < n)%nat → P i a → body (Z.of_nat i) a = Ok a' → P (Datatypes.S i) a') →
  for_loop n body s = Ok s' → P n s'.
Proof.
intros H0 Hstep. revert s'. induction n as [|n IH]; intros s' Hrun.
- simpl in Hrun. injection Hrun as <-. exact H0.
- simpl in Hrun. apply bind_Ok in Hrun as (a & Ha & Hb).
  apply (Hstep n a s'); [lia | | exact Hb].
  apply IH; [|exact Ha]. intros i b b' Hi. apply Hstep. lia.
Qed.

(** a loop whose passes all come back [Ok] comes back [Ok] *)
Lemma for_loop_total {S} (P : nat → S → Prop) (n : nat) (body : Z → S → result S) (s : S) :
  P 0%nat s →
  (∀ i a, (i < n)%nat → P i a → ∃ a', body (Z.of_nat i) a = Ok a' ∧ P (Datatypes.S i) a') →
  ∃ s', for_loop n body s = Ok s' ∧ P n s'.
Proof.
intros H0 Hstep. induction n as [|n IH].
- exists s. split; [reflexivity | exact H0].
- destruct IH as (a & Ha & HP); [intros i b Hi; apply Hstep; lia|].
  destruct (Hstep n a ltac:(lia) HP) as (a' & Ha' & HP').
  exists a'. split; [|exact HP']. simpl. rewrite Ha, bind_ret. exact Ha'.
Qed.

(** ** Keccak512: what [Update] and [Finalize] leave alone *)
Module Keccak512_Frame.

Import Keccak512.

Section Frame.

Context {KP : KeccakPrimitives}.
Variable bld : build.

(** the number of lanes of each leaf *)
Definition leaf_shape (ds : list Keccak512State) : list nat :=
(λ st, length (H st)) <$> ds.

(** the parts of an instance that only constructors and setters decide:
  tree parameters, profile, and the sizes of buffer and leaves *)
Definition frame (s : Keccak512)
  : KeccakParams * ParallelOptions.ParallelOptions * bool * nat * list nat :=
(m_treeParams s, m_parallelProfile s, m_isDestroyed s, length (m_msgBuffer s),
 leaf_shape (m_dgtState s)).

Lemma Compress_lanes Input InOffset st st' :
  Compress Input InOffset st = Ok st' → length (H st') = length (H st).
Proof.
unfold Compress. intros Hc. bind_inv Hc. injection Hc as <-. simpl.
apply Permute_length.
Qed.

Lemma leaf_shape_insert ds i st st' :
  ds !! i = Some st → length (H st') = length (H st) →
  leaf_shape (<[i := st']> ds) = leaf_shape ds.
Proof.
intros Hi Hl. unfold leaf_shape. rewrite list_fmap_insert.
apply list_insert_id. rewrite list_lookup_fmap, Hi. simpl. rewrite Hl. reflexivity.
Qed.

(** an update of leaf [i] that keeps its number of lanes *)
Lemma leaf_update_frame (s : Keccak512) (i : Z) st st' ds' :
  vec_get (m_dgtState s) i = Ok st → length (H st') = length (H st) →
  vec_set (m_dgtState s) i st' = Ok ds' →
  frame (set_dgtState ds' s) = frame s.
Proof.
intros Hg Hl Hs. apply vec_get_inv in Hg as (_ & Hg).
apply vec_set_inv in Hs as (_ & ->).
unfold frame. simpl. erewrite leaf_shape_insert by eassumption. reflexivity.
Qed.

Lemma Compress_leaf_frame Input InOffset i s s' :
  Compress_leaf Input InOffset i s = Ok s' →
  frame s' = frame s ∧ m_msgBuffer s' = m_msgBuffer s ∧ m_msgLength s' = m_msgLength s.
Proof.
unfold Compress_leaf. intros Hc. bind_inv Hc. injection Hc as <-.
split; [|split; reflexivity].
eapply leaf_update_frame; [exact Ha | eapply Compress_lanes; exact Ha0 | exact Ha1].
Qed.

Lemma HashFinal_sizes Input InOffset Length st Input' st' :
  HashFinal Input InOffset Length st = Ok (Input', st') →
  length Input' = length Input ∧ length (H st') = length (H st).
Proof.
unfold HashFinal. intros Hf. bind_inv Hf. injection Hf as <- <-.
apply vec_set_length in Ha, Ha1. apply Compress_lanes in Ha2.
split; [congruence|]. simpl. rewrite !length_alter. exact Ha2.
Qed.

Lemma ProcessLeaf_loop_lanes fuel step Input InOffset st Length st' :
  ProcessLeaf_loop fuel step Input InOffset st Length = Ok st' →
  length (H st') = length (H st).
Proof.
revert InOffset st Length. induction fuel as [|fuel IH]; intros InOffset st Length Hl.
- discriminate.
- simpl in Hl. apply bind_Ok in Hl as (st1 & Hc & Hl). apply Compress_lanes in Hc.
  destruct (0 <? ulong (Length - step)).
  + apply IH in Hl. congruence.
  + injection Hl as <-. exact Hc.
Qed.

Lemma ProcessLeaf_frame Input InOffset i Length s s' :
  ProcessLeaf Input InOffset i Length s = Ok s' →
  frame s' = frame s ∧ m_msgBuffer s' = m_msgBuffer s ∧ m_msgLength s' = m_msgLength s.
Proof.
unfold ProcessLeaf. intros Hc. bind_inv Hc. injection Hc as <-.
split; [|split; reflexivity].
eapply leaf_update_frame; [exact Ha | eapply ProcessLeaf_loop_lanes; exact Ha0 | exact Ha1].
Qed.

(** a loop over leaves keeps what each of its passes keeps *)
Lemma leaves_loop_frame n (body : Z → Keccak512 → result Keccak512) s s' :
  (∀ i a a', body i a = Ok a' →
     frame a' = frame a ∧ m_msgBuffer a' = m_msgBuffer a ∧ m_msgLength a' = m_msgLength a) →
  for_loop n body s = Ok s' →
  frame s' = frame s ∧ m_msgBuffer s' = m_msgBuffer s ∧ m_msgLength s' = m_msgLength s.
Proof.
intros Hbody Hrun.
apply (for_loop_ind (λ _ a, frame a = frame s ∧ m_msgBuffer a = m_msgBuffer s
                             ∧ m_msgLength a = m_msgLength s) n body s s');
  [auto | | exact Hrun].
intros i a a' _ (A1 & A2 & A3) Hb. apply Hbody in Hb as (B1 & B2 & B3).
repeat split; congruence.
Qed.

Lemma frame_set_msgBuffer buf s :
  length buf = length (m_msgBuffer s) → frame (set_msgBuffer buf s) = frame s.
Proof. intros Hl. unfold frame. simpl. rewrite Hl. reflexivity. Qed.

Lemma frame_set_msgLength n s : frame (set_msgLength n s) = frame s.
Proof. reflexivity. Qed.

Lemma Copy_length {A} (Input : list A) InOffset Output OutOffset Length r :
  MemUtils.Copy Input InOffset Output OutOffset Length = Ok r → length r = length Output.
Proof.
unfold MemUtils.Copy. intros Hc. bind_inv Hc. eapply vec_write_length; eauto.
Qed.

Lemma Clear_length Output Offset Length r :
  MemUtils.Clear Output Offset Length = Ok r → length r = length Output.
Proof.
unfold MemUtils.Clear. case_bool_decide; [|discriminate]. apply vec_write_length.
Qed.

Lemma LeULL512ToBlock_length Input InOffset Output OutOffset r :
  IntUtils.LeULL512ToBlock Input InOffset Output OutOffset = Ok r →
  length r = length Output.
Proof.
unfold IntUtils.LeULL512ToBlock. intros Hc. bind_inv Hc. eapply vec_write_length; eauto.
Qed.

Lemma Update_blocks_frame fuel Input InOffset Length s off' len' s' :
  Update_blocks fuel Input InOffset Length s = Ok (off', len', s') →
  frame s' = frame s ∧ m_msgBuffer s' = m_msgBuffer s ∧ m_msgLength s' = m_msgLength s.
Proof.
revert InOffset Length s. induction fuel as [|fuel IH]; intros InOffset Length s Hu;
  simpl in Hu; destruct (Length <? BLOCK_SIZE).
- injection Hu as <- <- <-. auto.
- discriminate.
- injection Hu as <- <- <-. auto.
- apply bind_Ok in Hu as (s1 & Hc & Hu). apply Compress_leaf_frame in Hc as (C1 & C2 & C3).
  apply IH in Hu as (U1 & U2 & U3). repeat split; congruence.
Qed.

Lemma Update_sequential_frame Input InOffset Length s off' len' s' :
  Update_sequential Input InOffset Length s = Ok (off', len', s') →
  frame s' = frame s ∧ length (m_msgBuffer s') = length (m_msgBuffer s).
Proof.
unfold Update_sequential. intros Hu. apply bind_Ok in Hu as ([[off1 len1] s1] & Hfill & Hu).
apply Update_blocks_frame in Hu as (U1 & U2 & U3).
rewrite U1, U2. clear U1 U2 U3.
destruct (negb (m_msgLength s =? 0) && (BLOCK_SIZE <=? size_t (m_msgLength s + Length))).
- bind_inv Hfill. injection Hfill as <- <- <-.
  assert (Hbuf : length a = length (m_msgBuffer s)).
  { destruct (negb (size_t (BLOCK_SIZE - m_msgLength s) =? 0)).
    - eapply Copy_length; eauto.
    - injection Ha as <-. reflexivity. }
  apply Compress_leaf_frame in Ha0 as (C1 & C2 & C3).
  rewrite frame_set_msgLength, C1, frame_set_msgBuffer by exact Hbuf.
  split; [reflexivity|]. simpl. rewrite C2. exact Hbuf.
- injection Hfill as <- <- <-. auto.
Qed.

Lemma Update_leaves_frame unit Input InOffset Length s off' len' s' :
  Update_leaves unit Input InOffset Length s = Ok (off', len', s') →
  frame s' = frame s ∧ m_msgBuffer s' = m_msgBuffer s ∧ m_msgLength s' = m_msgLength s.
Proof.
unfold Update_leaves. destruct (unit <=? Length).
- intros Hu. bind_inv Hu. injection Hu as <- <- <-.
  eapply leaves_loop_frame; [|exact Ha0].
  intros i b b'. apply ProcessLeaf_frame.
- intros [= <- <- <-]. auto.
Qed.

Lemma Update_parallel_frame Input InOffset Length s off' len' s' :
  Update_parallel Input InOffset Length s = Ok (off', len', s') →
  frame s' = frame s ∧ length (m_msgBuffer s') = length (m_msgBuffer s).
Proof.
unfold Update_parallel. intros Hu.
apply bind_Ok in Hu as ([[off1 len1] s1] & Hfill & Hu).
apply bind_Ok in Hu as ([[off2 len2] s2] & Hblk & Hu).
apply Update_leaves_frame in Hblk as (B1 & B2 & B3).
apply Update_leaves_frame in Hu as (M1 & M2 & M3).
rewrite M1, M2, B1, B2. clear - Hfill.
destruct (negb (m_msgLength s =? 0)
          && (size (m_msgBuffer s) <=? size_t (Length + m_msgLength s))).
- bind_inv Hfill. injection Hfill as <- <- <-.
  assert (Hbuf : length a = length (m_msgBuffer s)).
  { destruct (negb (size_t (size (m_msgBuffer s) - m_msgLength s) =? 0)).
    - eapply Copy_length; eauto.
    - injection Ha as <-. reflexivity. }
  apply leaves_loop_frame in Ha0 as (C1 & C2 & C3);
    [|intros i b b'; apply Compress_leaf_frame].
  rewrite frame_set_msgLength, C1, frame_set_msgBuffer by exact Hbuf.
  split; [reflexivity|]. simpl. rewrite C2. exact Hbuf.
- injection Hfill as <- <- <-. auto.
Qed.

(** [Update] changes the message buffer, its fill and the lanes of the
  leaves, and nothing else. *)
Lemma Update_frame Input InOffset Length s s' :
  Update bld Input InOffset Length s = Ok s' → frame s' = frame s.
Proof.
unfold Update. intros Hu. apply bind_Ok in Hu as (_ & _ & Hu).
destruct (Length =? 0); [injection Hu as <-; reflexivity|].
apply bind_Ok in Hu as ([[off1 len1] s1] & Hrun & Hu).
assert (Hs1 : frame s1 = frame s ∧ length (m_msgBuffer s1) = length (m_msgBuffer s)).
{ destruct (ParallelOptions.IsParallel (m_parallelProfile s)).
  - eapply Update_parallel_frame; eauto.
  - eapply Update_sequential_frame; eauto. }
destruct Hs1 as (F1 & F2).
destruct (negb (len1 =? 0)).
- bind_inv Hu. injection Hu as <-. apply Copy_length in Ha.
  rewrite frame_set_msgLength, frame_set_msgBuffer by exact Ha. exact F1.
- injection Hu as <-. exact F1.
Qed.

Lemma Finalize_leaves_frame fuel blkCtr s s' :
  Finalize_leaves fuel blkCtr s = Ok s' → frame s' = frame s.
Proof.
revert blkCtr s. induction fuel as [|fuel IH]; intros blkCtr s Hf;
  simpl in Hf; destruct (m_msgLength s =? 0).
- injection Hf as <-. reflexivity.
- discriminate.
- injection Hf as <-. reflexivity.
- apply bind_Ok in Hf as (st & Hg & Hf).
  apply bind_Ok in Hf as ([buf st'] & Hh & Hf).
  apply bind_Ok in Hf as (ds & Hs & Hf).
  apply IH in Hf. rewrite Hf, frame_set_msgLength.
  apply HashFinal_sizes in Hh as (Hbuf & Hl).
  rewrite (leaf_update_frame (set_msgBuffer buf s) blkCtr st st' ds Hg Hl Hs).
  apply frame_set_msgBuffer. exact Hbuf.
Qed.

Lemma Finalize_sequential_frame Output OutOffset s Output' s' :
  Finalize_sequential Output OutOffset s = Ok (Output', s') → frame s' = frame s.
Proof.
unfold Finalize_sequential. intros Hf.
apply bind_Ok in Hf as (buf & Hclr & Hf).
apply bind_Ok in Hf as (st & Hg & Hf).
apply bind_Ok in Hf as ([buf' st'] & Hh & Hf).
apply bind_Ok in Hf as (ds & Hs & Hf).
apply bind_Ok in Hf as (out & _ & Hf). injection Hf as <- <-.
assert (Hbuf : length buf = length (m_msgBuffer s)).
{ destruct (negb (m_msgLength s =? size (m_msgBuffer s))).
  - eapply Clear_length; eauto.
  - injection Hclr as <-. reflexivity. }
apply HashFinal_sizes in Hh as (Hbuf' & Hl). simpl in Hbuf'.
rewrite (leaf_update_frame (set_msgBuffer buf' (set_msgBuffer buf s)) 0 st st' ds Hg Hl Hs).
rewrite frame_set_msgBuffer by exact Hbuf'.
apply frame_set_msgBuffer. exact Hbuf.
Qed.

Lemma Finalize_parallel_frame Output OutOffset s Output' s' :
  Finalize_parallel Output OutOffset s = Ok (Output', s') → frame s' = frame s.
Proof.
unfold Finalize_parallel. intros Hf.
apply bind_Ok in Hf as (buf & Hclr & Hf).
apply bind_Ok in Hf as (s1 & Hleaves & Hf).
apply bind_Ok in Hf as (s2 & Hcat & Hf).
apply bind_Ok in Hf as ([[blkOff root] s3] & Hroot & Hf).
apply bind_Ok in Hf as ([buf' root'] & Hh & Hf).
apply bind_Ok in Hf as (out & _ & Hf). injection Hf as <- <-.
assert (Hbuf : length buf = length (m_msgBuffer s)).
{ destruct (m_msgLength s <? size (m_msgBuffer s)).
  - eapply Clear_length; eauto.
  - injection Hclr as <-. reflexivity. }
assert (F1 : frame s1 = frame s).
{ rewrite <- (frame_set_msgBuffer buf s Hbuf).
  destruct (negb (m_msgLength (set_msgBuffer buf s) =? 0)).
  - eapply Finalize_leaves_frame; eauto.
  - injection Hleaves as <-. reflexivity. }
assert (F2 : frame s2 = frame s1).
{ eapply (for_loop_ind (λ _ a, frame a = frame s1)); [reflexivity | | exact Hcat].
  intros i a a' _ Fa Hb. cbv beta in Hb.
  apply bind_Ok in Hb as (st & _ & Hb). apply bind_Ok in Hb as (b & Hw & Hb).
  injection Hb as <-. apply LeULL512ToBlock_length in Hw.
  rewrite frame_set_msgLength, frame_set_msgBuffer by exact Hw. exact Fa. }
assert (F3 : frame s3 = frame s2).
{ destruct (BLOCK_SIZE <? m_msgLength s2).
  - bind_inv Hroot. injection Hroot as <- <- <-. apply frame_set_msgLength.
  - injection Hroot as <- <- <-. reflexivity. }
apply HashFinal_sizes in Hh as (Hbuf' & _).
rewrite frame_set_msgBuffer by exact Hbuf'. congruence.
Qed.

End Frame.

End Keccak512_Frame.

(** ** Keccak512: what [Reset] leaves behind *)
Module Keccak512_Reset.

Import Keccak512 Keccak512_Frame.

Section Reset.

Context {KP : KeccakPrimitives}.
Variable bld : build.

(** the lanes of a leaf after [Keccak512State::Reset()] depend on their
  number alone *)
Lemma State_Reset_lanes a b : length (H a) = length (H b) → State_Reset a = State_Reset b.
Proof.
intros Hl. unfold State_Reset.
rewrite (const_fmap (λ _, 0) (H a) 0), (const_fmap (λ _, 0) (H b) 0), Hl by reflexivity.
reflexivity.
Qed.

Lemma State_Reset_length st : length (H (State_Reset st)) = length (H st).
Proof. unfold State_Reset. simpl. rewrite !length_insert, length_fmap. reflexivity. Qed.

(** leaf [j] as [Reset] leaves it: the initial lanes, and in parallel
  mode the tree parameters with [NodeOffset = j] absorbed into them *)
Definition leaf_reset (par : bool) (tp : KeccakParams) (j : nat) (st0 : Keccak512State)
  : result Keccak512State :=
if par
then Compress (ToBytes (set_NodeOffset (uint (Z.of_nat j)) tp)) 0 (State_Reset st0)
else Ok (State_Reset st0).

(** the tree parameters after [Reset] went over [n] leaves *)
Definition reset_params (par : bool) (n : nat) (tp : KeccakParams) : KeccakParams :=
if par
then match n with
     | O => tp
     | S k => set_NodeOffset (uint (Z.of_nat k)) tp
     end
else tp.

Definition is_reset_of (s s' : Keccak512) : Prop :=
  let par := ParallelOptions.IsParallel (m_parallelProfile s) in
  m_parallelProfile s' = m_parallelProfile s
  ∧ m_isDestroyed s' = m_isDestroyed s
  ∧ m_msgBuffer s' = replicate (length (m_msgBuffer s)) 0
  ∧ m_msgLength s' = 0
  ∧ m_treeParams s' = reset_params par (length (m_dgtState s)) (m_treeParams s)
  ∧ length (m_dgtState s') = length (m_dgtState s)
  ∧ ∀ j st0, m_dgtState s !! j = Some st0 →
      ∃ st', m_dgtState s' !! j = Some st' ∧ leaf_reset par (m_treeParams s) j st0 = Ok st'.

Lemma set_NodeOffset_reset_params x par n tp :
  set_NodeOffset x (reset_params par n tp) = set_NodeOffset x tp.
Proof. destruct par, n; reflexivity. Qed.

Lemma Clear_all (v : list byte) :
  MemUtils.Clear v 0 (size v) = Ok (replicate (length v) 0).
Proof.
unfold MemUtils.Clear. pose proof (size_nonneg v).
rewrite bool_decide_eq_true_2 by lia.
rewrite vec_write_Ok by (rewrite ?size_replicate; unfold size in *; lia).
f_equal. unfold size. rewrite Nat2Z.id. simpl.
apply list_eq. intros i.
destruct (decide (i < length v)%nat) as [Hi|Hi].
- rewrite list_lookup_inserts by (rewrite ?length_replicate; lia).
  rewrite Nat.sub_0_r. reflexivity.
- rewrite !lookup_ge_None_2; [reflexivity | rewrite length_replicate; lia
                             | rewrite length_inserts; lia].
Qed.

Lemma Reset_spec s s' : Reset s = Ok s' → is_reset_of s s'.
Proof.
unfold Reset. rewrite Clear_all, bind_ret. cbv zeta. intros Hrun.
set (par := ParallelOptions.IsParallel (m_parallelProfile s)).
set (s1 := set_msgLength 0 (set_msgBuffer (replicate (length (m_msgBuffer s)) 0) s)) in *.
change (length (m_dgtState s1)) with (length (m_dgtState s)) in Hrun.
pose (P := λ (i : nat) (a : Keccak512),
  m_parallelProfile a = m_parallelProfile s
  ∧ m_isDestroyed a = m_isDestroyed s
  ∧ m_msgBuffer a = replicate (length (m_msgBuffer s)) 0
  ∧ m_msgLength a = 0
  ∧ m_treeParams a = reset_params par i (m_treeParams s)
  ∧ length (m_dgtState a) = length (m_dgtState s)
  ∧ (∀ j, (i ≤ j)%nat → m_dgtState a !! j = m_dgtState s !! j)
  ∧ ∀ j st0, (j < i)%nat → m_dgtState s !! j = Some st0 →
      ∃ st', m_dgtState a !! j = Some st'
             ∧ leaf_reset par (m_treeParams s) j st0 = Ok st').
assert (HP : P (length (m_dgtState s)) s').
{ eapply (for_loop_ind P); [| | exact Hrun].
  - unfold P, reset_params. simpl. destruct par; repeat split; auto; intros; lia.
  - clear Hrun. intros i a a' Hi (P1 & P2 & P3 & P4 & P5 & P6 & P7 & P8) Hb.
    cbv beta zeta in Hb.
    apply bind_Ok in Hb as (st & Hg & Hb).
    apply vec_get_inv in Hg as (_ & Hg). rewrite Nat2Z.id in Hg.
    assert (Hsi : m_dgtState s !! i = Some st) by (rewrite <- P7 by lia; exact Hg).
    assert (Hnew : ∃ st1 tp1,
              a' = set_dgtState (<[i := st1]> (m_dgtState a)) (set_treeParams tp1 a)
              ∧ tp1 = reset_params par (S i) (m_treeParams s)
              ∧ leaf_reset par (m_treeParams s) i st = Ok st1).
    { rewrite P1 in Hb. fold par in Hb. destruct par eqn:Hpar.
      - apply bind_Ok in Hb as (st1 & Hc & Hb).
        apply bind_Ok in Hb as (ds & Hs & Hb). injection Hb as <-.
        apply vec_set_inv in Hs as (_ & ->). rewrite Nat2Z.id.
        simpl in Hc. rewrite P5, set_NodeOffset_reset_params in Hc.
        eexists _, _. split; [reflexivity|].
        split; [rewrite P5; apply set_NodeOffset_reset_params | exact Hc].
      - apply bind_Ok in Hb as (ds & Hs & Hb). injection Hb as <-.
        apply vec_set_inv in Hs as (_ & ->). rewrite Nat2Z.id.
        exists (State_Reset st), (m_treeParams a).
        split; [destruct a; reflexivity|]. split; [exact P5 | reflexivity]. }
    destruct Hnew as (st1 & tp1 & -> & Htp & Hleaf).
    unfold P. simpl. rewrite length_insert.
    repeat split; auto.
    + intros j Hj. rewrite list_lookup_insert_ne by lia. apply P7. lia.
    + intros j st0 Hj Hs0. destruct (decide (j = i)) as [->|Hne].
      * rewrite Hsi in Hs0. injection Hs0 as <-. exists st1.
        split; [|exact Hleaf]. apply list_lookup_insert_eq.
        apply lookup_lt_Some in Hg. exact Hg.
      * rewrite list_lookup_insert_ne by lia. apply P8; [lia | exact Hs0]. }
destruct HP as (P1 & P2 & P3 & P4 & P5 & P6 & _ & P8).
unfold is_reset_of. fold par. repeat split; auto.
intros j st0 Hj. apply P8; [|exact Hj]. apply lookup_lt_Some in Hj. exact Hj.
Qed.

(** [Reset] keeps the number of lanes of every leaf *)
Lemma is_reset_of_shape s s' :
  is_reset_of s s' → leaf_shape (m_dgtState s') = leaf_shape (m_dgtState s).
Proof.
intros (_ & _ & _ & _ & _ & Hlen & Hleaf). unfold leaf_shape.
apply list_eq. intros j. rewrite !list_lookup_fmap.
destruct (m_dgtState s !! j) as [st0|] eqn:Hj.
- destruct (Hleaf j st0 Hj) as (st' & -> & Hr). simpl. f_equal.
  unfold leaf_reset in Hr.
  destruct (ParallelOptions.IsParallel (m_parallelProfile s)).
  + apply Compress_lanes in Hr. rewrite Hr. apply State_Reset_length.
  + injection Hr as <-. apply State_Reset_length.
- apply lookup_ge_None in Hj. rewrite lookup_ge_None_2 by lia. reflexivity.
Qed.

(** two instances of one shape, with tree parameters that agree up to
  [NodeOffset], have one and the same reset *)
Lemma reset_unique s1 s2 a b :
  m_parallelProfile s1 = m_parallelProfile s2 →
  m_isDestroyed s1 = m_isDestroyed s2 →
  length (m_msgBuffer s1) = length (m_msgBuffer s2) →
  leaf_shape (m_dgtState s1) = leaf_shape (m_dgtState s2) →
  (∀ x, set_NodeOffset x (m_treeParams s1) = set_NodeOffset x (m_treeParams s2)) →
  reset_params (ParallelOptions.IsParallel (m_parallelProfile s1))
    (length (m_dgtState s1)) (m_treeParams s1)
  = reset_params (ParallelOptions.IsParallel (m_parallelProfile s1))
      (length (m_dgtState s1)) (m_treeParams s2) →
  is_reset_of s1 a → is_reset_of s2 b → a = b.
Proof.
intros Hp Hd Hbuf Hshape Htp Hrp (A1 & A2 & A3 & A4 & A5 & A6 & A7)
  (B1 & B2 & B3 & B4 & B5 & B6 & B7).
assert (Hlen : length (m_dgtState s1) = length (m_dgtState s2)).
{ apply (f_equal length) in Hshape. unfold leaf_shape in Hshape.
  rewrite !length_fmap in Hshape. exact Hshape. }
assert (Hds : m_dgtState a = m_dgtState b).
{ apply list_eq. intros j.
  destruct (m_dgtState s1 !! j) as [x|] eqn:H1.
  - assert (∃ y, m_dgtState s2 !! j = Some y) as (y & H2).
    { apply lookup_lt_is_Some_2. apply lookup_lt_Some in H1. lia. }
    destruct (A7 j x H1) as (x' & -> & Hx). destruct (B7 j y H2) as (y' & -> & Hy).
    assert (Hxy : length (H x) = length (H y)).
    { apply (f_equal (λ l, l !! j)) in Hshape. unfold leaf_shape in Hshape.
      rewrite !list_lookup_fmap, H1, H2 in Hshape. simpl in Hshape.
      injection Hshape as Hshape. exact Hshape. }
    rewrite <- Hp in Hy. unfold leaf_reset in Hx, Hy.
    rewrite (State_Reset_lanes x y Hxy) in Hx.
    destruct (ParallelOptions.IsParallel (m_parallelProfile s1)).
    + rewrite Htp in Hx. congruence.
    + congruence.
  - apply lookup_ge_None in H1.
    rewrite !lookup_ge_None_2 by lia. reflexivity. }
destruct a, b. simpl in *. subst.
rewrite <- Hp, <- Hlen, Hrp, Hbuf, Hd. reflexivity.
Qed.

(** whatever has the frame of a reset instance resets to that instance *)
Lemma Reset_of_same_frame s_init s0 s' r :
  Reset s_init = Ok s0 → frame s' = frame s0 → Reset s' = Ok r → r = s0.
Proof.
intros Hinit Hf Hr. apply Reset_spec in Hinit as R0. apply Reset_spec in Hr as Rr.
pose proof (is_reset_of_shape _ _ R0) as Hshape0.
pose proof R0 as (A1 & A2 & A3 & A4 & A5 & A6 & A7).
unfold frame in Hf. injection Hf as Ftp Fp Fd Fb Fs.
assert (Hn : length (m_dgtState s') = length (m_dgtState s_init)).
{ apply (f_equal length) in Fs. unfold leaf_shape in Fs.
  rewrite !length_fmap in Fs. lia. }
apply (reset_unique s' s_init r s0).
- congruence.
- congruence.
- rewrite Fb, A3, length_replicate. reflexivity.
- congruence.
- intros x. rewrite Ftp, A5. apply set_NodeOffset_reset_params.
- rewrite Ftp, A5, Fp, A1, Hn.
  destruct (ParallelOptions.IsParallel (m_parallelProfile s_init)),
    (length (m_dgtState s_init)); reflexivity.
- exact Rr.
- exact R0.
Qed.

(** a reset instance is its own reset: [Reset] twice is [Reset] once *)
Lemma Reset_idempotent s_init s0 : Reset s_init = Ok s0 → ∀ r, Reset s0 = Ok r → r = s0.
Proof. intros Hinit r Hr. exact (Reset_of_same_frame s_init s0 s0 r Hinit eq_refl Hr). Qed.

End Reset.

End Keccak512_Reset.

(** ** Keccak512: the degree setter, and the state after [Finalize] *)
Module Keccak512_Claims.

Import Keccak512 Keccak512_Frame Keccak512_Reset.

Section Claims.

Context {KP : KeccakPrimitives}.
Variable bld : build.

(** [Reset] comes back whenever the parameter block fills a block of the
  sponge (it is only read in parallel mode) *)
Lemma Reset_total (s : Keccak512) :
  (∀ p, BLOCK_SIZE ≤ size (ToBytes p)) →
  ∃ s', Reset s = Ok s' ∧ m_parallelProfile s' = m_parallelProfile s.
Proof.
intros Hblk. unfold Reset. rewrite Clear_all, bind_ret. cbv zeta.
set (s1 := set_msgLength 0 (set_msgBuffer (replicate (length (m_msgBuffer s)) 0) s)).
destruct (for_loop_total
            (λ _ a, length (m_dgtState a) = length (m_dgtState s1)
                    ∧ m_parallelProfile a = m_parallelProfile s)
            (length (m_dgtState s1))
            (λ i s,
               st ← vec_get (m_dgtState s) i;
               let st := State_Reset st in
               if ParallelOptions.IsParallel (m_parallelProfile s) then
                 let s := set_treeParams (set_NodeOffset (uint i) (m_treeParams s)) s in
                 st ← Compress (ToBytes (m_treeParams s)) 0 st;
                 ds ← vec_set (m_dgtState s) i st;
                 Ok (set_dgtState ds s)
               else
                 ds ← vec_set (m_dgtState s) i st;
                 Ok (set_dgtState ds s))
            s1) as (s' & Hrun & _ & Hp).
- split; reflexivity.
- intros i a Hi (Hlen & Hp). cbv beta zeta.
  assert (Hin : 0 ≤ Z.of_nat i < size (m_dgtState a)) by (unfold size; lia).
  destruct (vec_get_Ok (m_dgtState a) (Z.of_nat i) Hin) as (st & -> & _).
  rewrite bind_ret.
  destruct (ParallelOptions.IsParallel (m_parallelProfile a)).
  + unfold Compress. rewrite vec_range_Ok;
      [| lia | unfold BLOCK_SIZE; lia | apply Hblk].
    rewrite !bind_ret. cbn [m_dgtState set_treeParams].
    rewrite vec_set_Ok by exact Hin. rewrite bind_ret. eexists. split; [reflexivity|].
    simpl. rewrite length_insert. auto.
  + rewrite vec_set_Ok by exact Hin. rewrite bind_ret. eexists. split; [reflexivity|].
    simpl. rewrite length_insert. auto.
- exists s'. split; [exact Hrun | exact Hp].
Qed.

Lemma Reset_profile s s' : Reset s = Ok s' → m_parallelProfile s' = m_parallelProfile s.
Proof. intros Hr. apply Reset_spec in Hr as (Hp & _). exact Hp. Qed.

(** C7: the setter succeeds only for even, nonzero degrees that do not
  exceed the number of processor cores, and throws for every other
  degree. Zero, odd degrees and degrees above 254 are refused by the
  setter's own tests, with a CryptoDigestException; an even degree
  above the number of cores is refused by [ParallelOptions::SetMaxDegree],
  which the tests hand the degree to. A degree that is even, not zero,
  at most 254 and at most the number of cores is accepted and stored.
  (The parameter block is taken to fill a block of the sponge, which
  the reset at the end of the setter reads from.) *)
Theorem ParallelMaxDegree_accepts (Degree : Z) (s : Keccak512) :
  (∀ p, BLOCK_SIZE ≤ size (ToBytes p)) →
  (∀ s', ParallelMaxDegree Degree s = Ok s' →
     Degree ≠ 0 ∧ Degree mod 2 = 0
     ∧ Degree ≤ ParallelOptions.ProcessorCount (m_parallelProfile s))
  ∧ (¬ (Degree ≠ 0 ∧ Degree mod 2 = 0
        ∧ Degree ≤ ParallelOptions.ProcessorCount (m_parallelProfile s)) →
     ∃ e, ParallelMaxDegree Degree s = Throw e)
  ∧ (Degree = 0 ∨ Degree mod 2 ≠ 0 ∨ 254 < Degree →
     ∃ message, ParallelMaxDegree Degree s
                = Throw (CryptoDigestException "Skein256:ParallelMaxDegree" message))
  ∧ (Degree ≠ 0 ∧ Degree mod 2 = 0 ∧ Degree ≤ 254
     ∧ Degree ≤ ParallelOptions.ProcessorCount (m_parallelProfile s) →
     ∃ s', ParallelMaxDegree Degree s = Ok s'
           ∧ ParallelOptions.ParallelMaxDegree (m_parallelProfile s') = Degree
           ∧ ParallelOptions.ProcessorCount (m_parallelProfile s')
             = ParallelOptions.ProcessorCount (m_parallelProfile s)).
Proof.
intros Hblk. unfold ParallelMaxDegree, ParallelOptions.SetMaxDegree.
destruct (Degree =? 0) eqn:H0.
{ apply Z.eqb_eq in H0. cbn [throw_if mbind result_mbind result_bind].
  split; [intros s' Hs; discriminate Hs|].
  split; [intros _; eexists; reflexivity|].
  split; [intros _; eexists; reflexivity|].
  intros (Hn & _). contradiction. }
apply Z.eqb_neq in H0. cbn [throw_if]. rewrite bind_ret.
destruct (254 <? Degree) eqn:H254.
{ apply Z.ltb_lt in H254. cbn [throw_if mbind result_mbind result_bind].
  split; [intros s' Hs; discriminate Hs|].
  split; [intros _; eexists; reflexivity|].
  split; [intros _; eexists; reflexivity|].
  intros (_ & _ & Hle & _). lia. }
apply Z.ltb_ge in H254. cbn [throw_if]. rewrite bind_ret.
destruct (Degree mod 2 =? 0) eqn:Heven.
2:{ apply Z.eqb_neq in Heven. cbn [negb throw_if mbind result_mbind result_bind].
    split; [intros s' Hs; discriminate Hs|].
    split; [intros _; eexists; reflexivity|].
    split; [intros _; eexists; reflexivity|].
    intros (_ & He & _). contradiction. }
apply Z.eqb_eq in Heven. cbn [negb throw_if orb]. rewrite bind_ret.
destruct (ParallelOptions.ProcessorCount (m_parallelProfile s) <? Degree) eqn:Hc.
{ apply Z.ltb_lt in Hc. cbn [throw_if mbind result_mbind result_bind].
  split; [intros s' Hs; discriminate Hs|].
  split; [intros _; eexists; reflexivity|].
  split; [intros [Hz | [Ho | Hb]]; [contradiction | contradiction | lia]|].
  intros (_ & _ & _ & Hle). lia. }
apply Z.ltb_ge in Hc. cbn [throw_if]. rewrite !bind_ret.
match goal with
| |- context [Reset ?x] => destruct (Reset_total x Hblk) as (s' & Hr & Hp)
end.
rewrite Hr.
split; [intros _ _; auto|].
split; [intros Hbad; exfalso; apply Hbad; auto|].
split; [intros [Hz | [Ho | Hb]]; [contradiction | contradiction | lia]|].
intros _. exists s'. split; [reflexivity|]. rewrite Hp. split; reflexivity.
Qed.

(** [Finalize] ends in [Reset], run on an instance with the frame of the
  one it was called on *)
Lemma Finalize_ends_in_Reset Output OutOffset s n d s' :
  Finalize bld Output OutOffset s = Ok (n, d, s') →
  n = DIGEST_SIZE ∧ ∃ s1, frame s1 = frame s ∧ Reset s1 = Ok s'.
Proof.
unfold Finalize. intros Hf. apply bind_Ok in Hf as (_ & _ & Hf).
apply bind_Ok in Hf as ([out s1] & Hd & Hf).
apply bind_Ok in Hf as (s2 & Hr & Hf). injection Hf as <- <- <-.
split; [reflexivity|]. exists s1. split; [|exact Hr].
destruct (ParallelOptions.IsParallel (m_parallelProfile s)).
- eapply Finalize_parallel_frame; eauto.
- eapply Finalize_sequential_frame; eauto.
Qed.

(** a freshly reset instance: what a constructor, [ParallelMaxDegree],
  [Reset] or [Finalize] hands back *)
Definition fresh (s0 : Keccak512) : Prop := ∃ s_init, Reset s_init = Ok s0.

Lemma Keccak512_new_fresh profile Parallel s0 :
  Keccak512_new profile Parallel = Ok s0 → fresh s0.
Proof. unfold Keccak512_new. intros Hn. eexists. exact Hn. Qed.

(** [Finalize] on any instance with the frame of a fresh one hands that
  fresh instance back *)
Lemma Finalize_restores s0 s1 Output OutOffset n d s2 :
  fresh s0 → frame s1 = frame s0 →
  Finalize bld Output OutOffset s1 = Ok (n, d, s2) → s2 = s0.
Proof.
intros (s_init & Hinit) Hf Hfin.
apply Finalize_ends_in_Reset in Hfin as (_ & s1' & Hf' & Hr).
apply (Reset_of_same_frame s_init s0 s1' s2 Hinit); [congruence | exact Hr].
Qed.

(** C10: [Finalize] leaves the instance in the freshly reset state. For
  a fresh instance [s0] and inputs [x] and [y]: when [Update(x)] and
  [Finalize] have completed, the instance is [s0] again, with the
  message buffer zeroed, the message length 0 and every leaf the reset
  of a leaf (in parallel mode with the tree parameters of its node
  offset absorbed again); so [Update(y); Finalize] from there is what it
  is from the fresh instance, digest and all. *)
Theorem Finalize_leaves_fresh_state (s0 : Keccak512) (x Output : list byte) (OutOffset : Z)
  (s1 : Keccak512) (n : Z) (d : list byte) (s2 : Keccak512) :
  fresh s0 →
  Update bld x 0 (size x) s0 = Ok s1 →
  Finalize bld Output OutOffset s1 = Ok (n, d, s2) →
  s2 = s0
  ∧ m_msgLength s2 = 0
  ∧ m_msgBuffer s2 = replicate (length (m_msgBuffer s1)) 0
  ∧ (∃ s1', frame s1' = frame s1 ∧ is_reset_of s1' s2)
  ∧ ∀ (y Output' : list byte) (OutOffset' : Z),
      (Update bld y 0 (size y) s2 ≫= Finalize bld Output' OutOffset')
      = (Update bld y 0 (size y) s0 ≫= Finalize bld Output' OutOffset').
Proof.
intros Hfresh Hup Hfin.
pose proof (Update_frame bld _ _ _ _ _ Hup) as Hf.
pose proof (Finalize_restores s0 s1 _ _ _ _ _ Hfresh Hf Hfin) as ->.
apply Finalize_ends_in_Reset in Hfin as (_ & s1' & Hf' & Hr).
apply Reset_spec in Hr as Hspec.
pose proof Hspec as (_ & _ & Hbuf & Hlen & _).
split; [reflexivity|]. split; [exact Hlen|]. split.
- rewrite Hbuf. f_equal. unfold frame in Hf'. injection Hf' as _ _ _ Hb _. exact Hb.
- split; [exists s1'; auto | reflexivity].
Qed.

End Claims.

(** the sequential digest of a machine with four cores *)
Definition plain_digest : result Keccak512 :=
Keccak512_new Instances.sequential_profile false.

(** the tree digest of degree 8 *)
Definition tree_digest : result Keccak512 :=
Keccak512_new Instances.tree_profile true.

Lemma toy_params_block_size p : BLOCK_SIZE ≤ size (Instances.toy_params_block p).
Proof. vm_compute. discriminate. Qed.

Lemma ParallelMaxDegree_accepts_witness :
  ∃ s0, plain_digest = Ok s0
  ∧ (∀ p, BLOCK_SIZE ≤ size (ToBytes p))
  ∧ ParallelOptions.ProcessorCount (m_parallelProfile s0) = 4
  ∧ (∃ s', ParallelMaxDegree 2 s0 = Ok s'
           ∧ ParallelOptions.ParallelMaxDegree (m_parallelProfile s') = 2
           ∧ ParallelOptions.ProcessorCount (m_parallelProfile s')
             = ParallelOptions.ProcessorCount (m_parallelProfile s0))
  ∧ (∃ e, ParallelMaxDegree 8 s0 = Throw e)
  ∧ (∃ message, ParallelMaxDegree 3 s0
                = Throw (CryptoDigestException "Skein256:ParallelMaxDegree" message)).
Proof.
destruct plain_digest as [s0| | |] eqn:H0; try (vm_compute in H0; discriminate H0).
assert (Hc : ParallelOptions.ProcessorCount (m_parallelProfile s0) = 4).
{ vm_compute in H0. injection H0 as <-. reflexivity. }
exists s0. split; [reflexivity|]. split; [exact toy_params_block_size|].
split; [exact Hc|].
split; [|split].
- apply (ParallelMaxDegree_accepts (KP := Instances.toy_keccak) 2 s0 toy_params_block_size).
  rewrite Hc. repeat split; [discriminate | discriminate | discriminate].
- apply (ParallelMaxDegree_accepts (KP := Instances.toy_keccak) 8 s0 toy_params_block_size).
  rewrite Hc. intros (_ & _ & Hle). apply Hle. reflexivity.
- apply (ParallelMaxDegree_accepts (KP := Instances.toy_keccak) 3 s0 toy_params_block_size).
  right. left. discriminate.
Defined.

(** a run of the tree digest: construction, three bytes of input, the
  digest *)
Definition blank : Keccak512 :=
{| m_treeParams := KeccakParams_new 0 0 0; m_dgtState := [];
   m_isDestroyed := false; m_msgBuffer := []; m_msgLength := 0;
   m_parallelProfile := Instances.tree_profile |}.

Definition run_fresh : Keccak512 :=
result_get blank (Keccak512_new Instances.tree_profile true).

Definition run_updated : Keccak512 :=
result_get blank (Update Release [1; 2; 3] 0 (size [1; 2; 3]) run_fresh).

Definition run_finalized : Z * list byte * Keccak512 :=
result_get (0, [], blank) (Finalize Release (replicate 64 0) 0 run_updated).

Lemma run_fresh_Ok : Keccak512_new Instances.tree_profile true = Ok run_fresh.
Proof. vm_compute. reflexivity. Qed.

Lemma run_updated_Ok : Update Release [1; 2; 3] 0 (size [1; 2; 3]) run_fresh = Ok run_updated.
Proof. vm_compute. reflexivity. Qed.

Lemma run_finalized_Ok :
  Finalize Release (replicate 64 0) 0 run_updated
  = Ok (run_finalized.1.1, run_finalized.1.2, run_finalized.2).
Proof. vm_compute. reflexivity. Qed.

Lemma Finalize_leaves_fresh_state_witness :
  run_finalized.2 = run_fresh
  ∧ m_msgLength run_finalized.2 = 0
  ∧ m_msgBuffer run_finalized.2 = replicate (length (m_msgBuffer run_updated)) 0
  ∧ (∃ s1', Keccak512_Frame.frame s1' = Keccak512_Frame.frame run_updated
            ∧ is_reset_of s1' run_finalized.2)
  ∧ ∀ (y Output' : list byte) (OutOffset' : Z),
      (Update Release y 0 (size y) run_finalized.2 ≫= Finalize Release Output' OutOffset')
      = (Update Release y 0 (size y) run_fresh ≫= Finalize Release Output' OutOffset').
Proof.
exact (Finalize_leaves_fresh_state Release run_fresh [1; 2; 3] (replicate 64 0) 0
         run_updated run_finalized.1.1 run_finalized.1.2 run_finalized.2
         (Keccak512_new_fresh Instances.tree_profile true run_fresh run_fresh_Ok)
         run_updated_Ok run_finalized_Ok).
Defined.

End Keccak512_Claims.

(** ** Keccak512: the sequential sponge, block by block *)
Module Keccak512_Sequential.

Import Keccak512 Keccak512_Frame Keccak512_Reset Keccak512_Claims.

(** [len] elements of [v] from [off] on *)
Definition seg {A} (v : list A) (off len : Z) : list A :=
take (Z.to_nat len) (drop (Z.to_nat off) v).

Lemma seg_length {A} (v : list A) off len :
  0 ≤ off → 0 ≤ len → off + len ≤ size v → length (seg v off len) = Z.to_nat len.
Proof.
intros H1 H2 H3. unfold seg, size in *. rewrite length_take, length_drop. lia.
Qed.

Lemma seg_drop {A} (v : list A) off len k :
  0 ≤ off → 0 ≤ k ≤ len →
  drop (Z.to_nat k) (seg v off len) = seg v (off + k) (len - k).
Proof.
intros H1 H2. unfold seg. rewrite skipn_firstn_comm, drop_drop. f_equal; [lia|].
f_equal. lia.
Qed.

Lemma seg_take {A} (v : list A) off len k :
  0 ≤ k ≤ len → take (Z.to_nat k) (seg v off len) = seg v off k.
Proof.
intros H1. unfold seg. rewrite take_take. f_equal. lia.
Qed.

Lemma seg_all {A} (v : list A) : seg v 0 (size v) = v.
Proof.
unfold seg, size. rewrite Nat2Z.id. change (Z.to_nat 0) with 0%nat.
rewrite drop_0. apply firstn_all.
Qed.

Lemma vec_range_seg {A} (v : list A) off len :
  0 ≤ off → 0 ≤ len → off + len ≤ size v → vec_range v off len = Ok (seg v off len).
Proof. apply vec_range_Ok. Qed.

(** a store of [d] at [i] takes the list apart in three *)
Lemma inserts_decompose {A} (i : nat) (d v : list A) :
  (i + length d ≤ length v)%nat →
  list_inserts i d v = take i v ++ d ++ drop (i + length d) v.
Proof.
intros Hlen. apply list_eq. intros j.
destruct (decide (j < i)%nat) as [Hj|Hj].
- rewrite list_lookup_inserts_lt by exact Hj.
  rewrite lookup_app_l by (rewrite length_take; lia).
  rewrite lookup_take_lt by exact Hj. reflexivity.
- rewrite lookup_app_r by (rewrite length_take; lia). rewrite length_take.
  replace (i `min` length v)%nat with i by lia.
  destruct (decide (j < i + length d)%nat) as [Hd|Hd].
  + rewrite list_lookup_inserts by lia. rewrite lookup_app_l by lia. reflexivity.
  + rewrite list_lookup_inserts_ge by lia. rewrite lookup_app_r by lia.
    rewrite lookup_drop. f_equal. lia.
Qed.

Lemma take_inserts {A} (i : nat) (d v : list A) :
  (i + length d ≤ length v)%nat →
  take (i + length d) (list_inserts i d v) = take i v ++ d.
Proof.
intros Hlen. rewrite inserts_decompose by exact Hlen.
rewrite app_assoc. rewrite take_app_length'; [reflexivity|].
rewrite length_app, length_take. lia.
Qed.

Section Sequential.

Context {KP : KeccakPrimitives}.
Variable bld : build.

(** the lanes after the first [n] blocks of [data] *)
Fixpoint absorb (n : nat) (h : list Z) (data : list byte) : list Z :=
match n with
| O => h
| S n' => absorb n' (Permute (take 72 data) h) (drop 72 data)
end.

(** the whole blocks of a run of bytes, and what is left behind them *)
Definition blocks_in (data : list byte) : nat := (length data / 72)%nat.
Definition tail_of (data : list byte) : list byte := drop (72 * blocks_in data) data.

Lemma absorb_length n h data : length (absorb n h data) = length h.
Proof.
revert h data. induction n as [|n IH]; intros h data; simpl; [reflexivity|].
rewrite IH. apply Permute_length.
Qed.

Lemma absorb_prefix n h t b :
  (72 * n ≤ length t)%nat → absorb n h (t ++ b) = absorb n h t.
Proof.
revert h t. induction n as [|n IH]; intros h t Hn; simpl; [reflexivity|].
rewrite take_app_le by lia. rewrite drop_app_le by lia.
apply IH. rewrite length_drop. lia.
Qed.

Lemma absorb_add n m h t :
  absorb (n + m) h t = absorb m (absorb n h t) (drop (72 * n) t).
Proof.
revert h t. induction n as [|n IH]; intros h t; simpl.
- rewrite drop_0. reflexivity.
- rewrite IH, drop_drop. do 2 f_equal. lia.
Qed.

Lemma blocks_in_bound t : (72 * blocks_in t ≤ length t)%nat.
Proof. unfold blocks_in. apply Nat.Div0.mul_div_le. Qed.

Lemma tail_of_length t : length (tail_of t) = (length t mod 72)%nat.
Proof.
unfold tail_of, blocks_in. rewrite length_drop.
pose proof (Nat.div_mod_eq (length t) 72). lia.
Qed.

Lemma tail_of_short t : (length t < 72)%nat → blocks_in t = 0%nat ∧ tail_of t = t.
Proof.
intros Ht. unfold tail_of, blocks_in. rewrite Nat.div_small by exact Ht.
split; reflexivity.
Qed.

Lemma blocks_in_app t b :
  blocks_in (t ++ b) = (blocks_in t + blocks_in (tail_of t ++ b))%nat.
Proof.
unfold blocks_in. rewrite !length_app, tail_of_length.
pose proof (Nat.div_mod_eq (length t) 72) as Ht.
rewrite Ht at 1.
replace (72 * (length t / 72) + length t mod 72 + length b)%nat
  with ((length t mod 72 + length b) + (length t / 72) * 72)%nat by lia.
rewrite Nat.div_add by lia. lia.
Qed.

Lemma tail_of_app t b : tail_of (t ++ b) = tail_of (tail_of t ++ b).
Proof.
unfold tail_of at 1. rewrite blocks_in_app.
replace (72 * (blocks_in t + blocks_in (tail_of t ++ b)))%nat
  with (72 * blocks_in t + 72 * blocks_in (tail_of t ++ b))%nat by lia.
rewrite <- drop_drop. rewrite drop_app_le by apply blocks_in_bound. reflexivity.
Qed.

(** absorbing a message in two parts: the blocks of the first part, then
  the blocks of what that left together with the second part *)
Lemma absorb_app h t b :
  absorb (blocks_in (t ++ b)) h (t ++ b)
  = absorb (blocks_in (tail_of t ++ b)) (absorb (blocks_in t) h t) (tail_of t ++ b).
Proof.
rewrite blocks_in_app, absorb_add.
rewrite absorb_prefix by apply blocks_in_bound.
rewrite drop_app_le by apply blocks_in_bound. reflexivity.
Qed.

(** *** Update *)

(** the bytes taken in and not yet compressed *)
Definition pending (s : Keccak512) : list byte :=
take (Z.to_nat (m_msgLength s)) (m_msgBuffer s).

(** an instance on the sequential path, between two calls *)
Definition sequential (s : Keccak512) : Prop :=
ParallelOptions.IsParallel (m_parallelProfile s) = false
∧ 72 ≤ size (m_msgBuffer s) < 2 ^ 64
∧ 0 ≤ m_msgLength s < 72
∧ m_dgtState s ≠ [].

(** [s'] is [s] after the bytes [total] (what was pending and what came
  in) went through the sponge: every whole block compressed into the
  first state, the rest pending *)
Definition after (s : Keccak512) (total : list byte) (s' : Keccak512) : Prop :=
m_treeParams s' = m_treeParams s
∧ m_isDestroyed s' = m_isDestroyed s
∧ m_parallelProfile s' = m_parallelProfile s
∧ length (m_msgBuffer s') = length (m_msgBuffer s)
∧ m_msgLength s' = size (tail_of total)
∧ pending s' = tail_of total
∧ ∃ st rest,
    m_dgtState s = st :: rest
    ∧ m_dgtState s'
      = {| H := absorb (blocks_in total) (H st) total; T := T st |} :: rest.

Lemma set_dgtState_same s st rest :
  m_dgtState s = st :: rest → set_dgtState ({| H := H st; T := T st |} :: rest) s = s.
Proof. destruct s, st. simpl. intros ->. reflexivity. Qed.

Lemma Compress_leaf0 Input off s st rest :
  m_dgtState s = st :: rest → 0 ≤ off → off + 72 ≤ size Input →
  Compress_leaf Input off 0 s
  = Ok (set_dgtState ({| H := Permute (seg Input off 72) (H st); T := T st |} :: rest) s).
Proof.
intros Hd H0 Hs. unfold Compress_leaf, Compress. rewrite Hd.
change (vec_get (st :: rest) 0) with (Ok st : result Keccak512State). rewrite bind_ret.
unfold BLOCK_SIZE. rewrite vec_range_seg by lia. rewrite !bind_ret.
rewrite vec_set_Ok by (unfold size; simpl; lia). reflexivity.
Qed.

Lemma blocks_of_Z len : 0 ≤ len → Z.to_nat (len / 72) = (Z.to_nat len / 72)%nat.
Proof. intros Hl. rewrite Z2Nat.inj_div by lia. reflexivity. Qed.

Lemma Update_blocks_spec fuel Input off len s st rest :
  m_dgtState s = st :: rest →
  0 ≤ off → 0 ≤ len → off + len ≤ size Input → size Input < 2 ^ 64 →
  (Z.to_nat (len / 72) ≤ fuel)%nat →
  Update_blocks fuel Input off len s
  = Ok (off + 72 * (len / 72), len mod 72,
        set_dgtState
          ({| H := absorb (Z.to_nat (len / 72)) (H st) (seg Input off len);
              T := T st |} :: rest) s).
Proof.
revert off len s st. induction fuel as [|fuel IH]; intros off len s st Hd H0 Hl Hs H64 Hf.
- assert (Hlt : len < 72).
  { destruct (Z_lt_ge_dec len 72) as [?|Hge]; [assumption|].
    assert (1 ≤ len / 72) by (apply Z.div_le_lower_bound; lia). lia. }
  simpl. unfold BLOCK_SIZE. replace (len <? 72) with true by (symmetry; apply Z.ltb_lt; lia).
  rewrite Z.div_small, Z.mod_small by lia. simpl absorb.
  rewrite set_dgtState_same by exact Hd. do 3 f_equal. lia.
- simpl. unfold BLOCK_SIZE. destruct (len <? 72) eqn:Hlt.
  + apply Z.ltb_lt in Hlt. rewrite Z.div_small, Z.mod_small by lia. simpl absorb.
    rewrite set_dgtState_same by exact Hd. do 3 f_equal. lia.
  + apply Z.ltb_ge in Hlt.
    rewrite (Compress_leaf0 Input off s st rest Hd H0) by lia. rewrite bind_ret.
    rewrite !size_t_small by lia.
    assert (Hk : len / 72 = (len - 72) / 72 + 1).
    { replace len with ((len - 72) + 1 * 72) at 1 by lia. rewrite Z.div_add by lia. lia. }
    assert (Hm : len mod 72 = (len - 72) mod 72).
    { replace len with ((len - 72) + 1 * 72) at 1 by lia. apply Z.mod_add. lia. }
    assert (Hk0 : 0 ≤ (len - 72) / 72) by (apply Z.div_pos; lia).
    rewrite (IH (off + 72) (len - 72) _
               {| H := Permute (seg Input off 72) (H st); T := T st |});
      [| reflexivity | lia | lia | lia | exact H64 | lia].
    rewrite Hk, Hm. replace (Z.to_nat ((len - 72) / 72 + 1)) with (S (Z.to_nat ((len - 72) / 72)))
      by lia.
    simpl absorb. cbn [H T].
    change 72%nat with (Z.to_nat 72).
    rewrite seg_take, seg_drop by lia.
    replace (off + 72 + 72 * ((len - 72) / 72)) with (off + 72 * ((len - 72) / 72 + 1))
      by lia.
    reflexivity.
Qed.

(** the end of [Update]: what is left of the input goes to the buffer *)
Definition store_rest (Input : list byte) (x : Z * Z * Keccak512) : result Keccak512 :=
let '(InOffset, Length, s) := x in
if negb (Length =? 0) then
  buf ← MemUtils.Copy Input InOffset (m_msgBuffer s) (m_msgLength s) Length;
  Ok (set_msgLength (size_t (m_msgLength s + Length)) (set_msgBuffer buf s))
else Ok s.

Lemma Update_sequential_path Input InOffset Length s :
  ParallelOptions.IsParallel (m_parallelProfile s) = false →
  0 ≤ InOffset → 0 < Length → InOffset + Length ≤ size Input → size Input < 2 ^ 64 →
  Update bld Input InOffset Length s
  = (Update_sequential Input InOffset Length s ≫= store_rest Input).
Proof.
intros Hp H0 Hl Hs H64. unfold Update. rewrite Hp.
replace (Length <=? size_t (size Input - InOffset)) with true
  by (symmetry; apply Z.leb_le; rewrite size_t_small by lia; lia).
replace (CEXASSERT bld true "The Output buffer is too short!") with (Ok () : result unit)
  by (destruct bld; reflexivity).
rewrite bind_ret. replace (Length =? 0) with false by (symmetry; apply Z.eqb_neq; lia).
f_equal.
Qed.

Lemma store_rest_spec Input off r s :
  0 ≤ off → 0 ≤ r → off + r ≤ size Input →
  0 ≤ m_msgLength s → m_msgLength s + r ≤ size (m_msgBuffer s) →
  size (m_msgBuffer s) < 2 ^ 64 →
  ∃ s', store_rest Input (off, r, s) = Ok s'
        ∧ m_treeParams s' = m_treeParams s
        ∧ m_isDestroyed s' = m_isDestroyed s
        ∧ m_parallelProfile s' = m_parallelProfile s
        ∧ m_dgtState s' = m_dgtState s
        ∧ length (m_msgBuffer s') = length (m_msgBuffer s)
        ∧ m_msgLength s' = m_msgLength s + r
        ∧ pending s' = pending s ++ seg Input off r.
Proof.
intros H0 Hr Hs Hm Hb H64. unfold store_rest. destruct (r =? 0) eqn:Hr0; cbn [negb].
- apply Z.eqb_eq in Hr0. subst r. exists s. repeat split; try reflexivity; try lia.
  unfold seg. change (Z.to_nat 0) with 0%nat. rewrite take_0, app_nil_r. reflexivity.
- apply Z.eqb_neq in Hr0. unfold MemUtils.Copy.
  rewrite vec_range_seg, bind_ret by lia.
  pose proof (seg_length Input off r H0 Hr Hs) as Hlen.
  rewrite vec_write_Ok by (unfold size in *; lia). rewrite bind_ret.
  eexists. split; [reflexivity|]. cbn.
  repeat split; try reflexivity.
  + apply length_inserts.
  + apply size_t_small. lia.
  + unfold pending. cbn. rewrite size_t_small by lia.
    replace (Z.to_nat (m_msgLength s + r))
      with (Z.to_nat (m_msgLength s) + length (seg Input off r))%nat by lia.
    apply take_inserts. unfold size in *. lia.
Qed.

(** the block loop and the store behind it *)
Lemma blocks_then_store Input off len s st rest :
  m_dgtState s = st :: rest →
  0 ≤ off → 0 ≤ len → off + len ≤ size Input → size Input < 2 ^ 64 →
  0 ≤ m_msgLength s → m_msgLength s + len mod 72 ≤ size (m_msgBuffer s) →
  size (m_msgBuffer s) < 2 ^ 64 →
  ∃ s', (Update_blocks (Z.to_nat (len / 72)) Input off len s ≫= store_rest Input) = Ok s'
        ∧ m_treeParams s' = m_treeParams s
        ∧ m_isDestroyed s' = m_isDestroyed s
        ∧ m_parallelProfile s' = m_parallelProfile s
        ∧ length (m_msgBuffer s') = length (m_msgBuffer s)
        ∧ m_msgLength s' = m_msgLength s + len mod 72
        ∧ pending s' = pending s ++ seg Input (off + 72 * (len / 72)) (len mod 72)
        ∧ m_dgtState s'
          = {| H := absorb (Z.to_nat (len / 72)) (H st) (seg Input off len);
               T := T st |} :: rest.
Proof.
intros Hd H0 Hl Hs H64 Hm Hb Hb64.
rewrite (Update_blocks_spec _ Input off len s st rest Hd H0 Hl Hs H64) by lia.
rewrite bind_ret.
pose proof (Z.mod_pos_bound len 72 ltac:(lia)) as Hr.
pose proof (Z.div_mod len 72 ltac:(lia)) as Hdm.
assert (Hk : 0 ≤ len / 72) by (apply Z.div_pos; lia).
destruct (store_rest_spec Input (off + 72 * (len / 72)) (len mod 72)
            (set_dgtState
               ({| H := absorb (Z.to_nat (len / 72)) (H st) (seg Input off len);
                   T := T st |} :: rest) s))
  as (s' & Hst & F1 & F2 & F3 & F4 & F5 & F6 & F7); try (cbn; lia).
exists s'. split; [exact Hst|]. repeat split; assumption.
Qed.

Lemma after_sequential s total s' : sequential s → after s total s' → sequential s'.
Proof.
intros (Hp & Hb & Hm & Hd) (F1 & F2 & F3 & F4 & F5 & F6 & st & rest & Hs & Hs').
unfold sequential. rewrite F3, F5, Hs'. unfold size in *. rewrite F4, tail_of_length.
repeat split; try assumption; try lia; try discriminate.
pose proof (Nat.mod_upper_bound (length total) 72). lia.
Qed.

Lemma pending_length s :
  0 ≤ m_msgLength s ≤ size (m_msgBuffer s) → length (pending s) = Z.to_nat (m_msgLength s).
Proof. intros Hm. unfold pending, size in *. rewrite length_take. lia. Qed.

(** [Update] on the sequential path: it completes, and the bytes that
  were pending together with the bytes handed in have gone through the
  sponge *)
Lemma Update_spec Input InOffset Length s :
  sequential s →
  0 ≤ InOffset → 0 ≤ Length → InOffset + Length ≤ size Input →
  size Input + 72 ≤ 2 ^ 64 →
  ∃ s', Update bld Input InOffset Length s = Ok s'
        ∧ after s (pending s ++ seg Input InOffset Length) s'.
Proof.
intros Hseq H0 Hl Hs H64'. pose proof Hseq as (Hp & Hb & Hm & Hd).
assert (H64 : size Input < 2 ^ 64) by lia.
destruct (m_dgtState s) as [|st rest] eqn:Hds; [congruence|]. clear Hd.
pose proof (pending_length s ltac:(lia)) as Hpl.
pose proof (seg_length Input InOffset Length H0 Hl Hs) as Hdl.
destruct (Z.eq_dec Length 0) as [->|Hl0].
{ exists s. split.
  - unfold Update. replace (0 <=? size_t (size Input - InOffset)) with true
      by (symmetry; apply Z.leb_le; rewrite size_t_small by lia; lia).
    destruct bld; reflexivity.
  - unfold seg. change (Z.to_nat 0) with 0%nat. rewrite take_0, app_nil_r.
    destruct (tail_of_short (pending s)) as [Hb0 Ht0]; [lia|].
    unfold after. rewrite Hb0, Ht0. repeat split; try reflexivity.
    + unfold size. rewrite Hpl. lia.
    + exists st, rest. split; [exact Hds|]. rewrite Hds. destruct st; reflexivity. }
rewrite Update_sequential_path by (try assumption; lia).
unfold Update_sequential, BLOCK_SIZE.
set (data := seg Input InOffset Length) in *.
destruct (m_msgLength s =? 0) eqn:Hm0; cbn [negb andb].
- (* nothing pending *)
  apply Z.eqb_eq in Hm0. rewrite bind_ret. cbv beta iota.
  destruct (blocks_then_store Input InOffset Length s st rest Hds H0 Hl Hs H64)
    as (s' & Hrun & F1 & F2 & F3 & F4 & F5 & F6 & F7); try lia.
  { pose proof (Z.mod_pos_bound Length 72 ltac:(lia)). lia. }
  exists s'. split; [exact Hrun|].
  assert (Hpn : pending s = []).
  { unfold pending. rewrite Hm0. reflexivity. }
  rewrite Hpn in *. rewrite app_nil_l in *.
  assert (Hbi : blocks_in data = Z.to_nat (Length / 72)).
  { unfold blocks_in. rewrite Hdl. symmetry. apply blocks_of_Z. lia. }
  assert (Hk : 0 ≤ Length / 72) by (apply Z.div_pos; lia).
  pose proof (Z.div_mod Length 72 ltac:(lia)) as Hdm.
  pose proof (Z.mod_pos_bound Length 72 ltac:(lia)) as Hr.
  assert (Htl : tail_of data = seg Input (InOffset + 72 * (Length / 72)) (Length mod 72)).
  { unfold tail_of. rewrite Hbi.
    replace (72 * Z.to_nat (Length / 72))%nat with (Z.to_nat (72 * (Length / 72))) by lia.
    unfold data. rewrite seg_drop by lia. f_equal. lia. }
  unfold after. rewrite Htl, Hbi. repeat split; try assumption.
  + rewrite F5, Hm0. unfold size. rewrite seg_length by lia. lia.
  + exists st, rest. split; [exact Hds | exact F7].
- apply Z.eqb_neq in Hm0.
  destruct (72 <=? size_t (m_msgLength s + Length)) eqn:Hfill.
  + (* the buffer fills up *)
    apply Z.leb_le in Hfill. rewrite size_t_small in Hfill by lia.
    set (m := m_msgLength s) in *.
    rewrite (size_t_small (72 - m)) by lia. rewrite !size_t_small by lia.
    replace (72 - m =? 0) with false by (symmetry; apply Z.eqb_neq; lia).
    cbn [negb]. unfold MemUtils.Copy. rewrite vec_range_seg by lia. rewrite bind_ret.
    pose proof (seg_length Input InOffset (72 - m) H0 ltac:(lia) ltac:(lia)) as Hfl.
    rewrite vec_write_Ok by (unfold size in *; lia). rewrite bind_ret. cbv zeta.
    set (buf1 := list_inserts (Z.to_nat m) (seg Input InOffset (72 - m)) (m_msgBuffer s)).
    assert (Hb1 : length buf1 = length (m_msgBuffer s)) by apply length_inserts.
    assert (Hblk : seg buf1 0 72 = pending s ++ seg Input InOffset (72 - m)).
    { unfold seg at 1. change (Z.to_nat 0) with 0%nat. rewrite drop_0.
      replace (Z.to_nat 72) with (Z.to_nat m + length (seg Input InOffset (72 - m)))%nat
        by lia.
      unfold buf1. apply take_inserts. unfold size in *. lia. }
    change (m_msgBuffer (set_msgBuffer buf1 s)) with buf1.
    rewrite (Compress_leaf0 buf1 0 (set_msgBuffer buf1 s) st rest Hds)
      by (unfold size in *; cbn; lia).
    rewrite bind_ret. rewrite Hblk. rewrite bind_ret. cbv beta iota.
    set (st1 := {| H := Permute (pending s ++ seg Input InOffset (72 - m)) (H st);
                   T := T st |}).
    set (s2 := set_msgLength 0 (set_dgtState (st1 :: rest) (set_msgBuffer buf1 s))).
    assert (Hl2 : 0 ≤ Length - (72 - m)) by lia.
    destruct (blocks_then_store Input (InOffset + (72 - m)) (Length - (72 - m)) s2 st1 rest)
      as (s' & Hrun & F1 & F2 & F3 & F4 & F5 & F6 & F7);
      try reflexivity; try lia; try (cbn; unfold size in *; lia).
    { cbn. pose proof (Z.mod_pos_bound (Length - (72 - m)) 72 ltac:(lia)).
      unfold size in *. lia. }
    exists s'. split; [exact Hrun|].
    set (len2 := Length - (72 - m)) in *.
    assert (Hk : 0 ≤ len2 / 72) by (apply Z.div_pos; lia).
    pose proof (Z.div_mod len2 72 ltac:(lia)) as Hdm.
    pose proof (Z.mod_pos_bound len2 72 ltac:(lia)) as Hr.
    assert (Htake : take 72 (pending s ++ data) = pending s ++ seg Input InOffset (72 - m)).
    { rewrite take_app. rewrite take_ge by lia. f_equal.
      rewrite Hpl. replace (72 - Z.to_nat m)%nat with (Z.to_nat (72 - m)) by lia.
      unfold data. apply seg_take. lia. }
    assert (Hdrop : drop 72 (pending s ++ data) = seg Input (InOffset + (72 - m)) len2).
    { rewrite drop_app. rewrite drop_ge by lia. rewrite app_nil_l.
      rewrite Hpl. replace (72 - Z.to_nat m)%nat with (Z.to_nat (72 - m)) by lia.
      unfold data. rewrite seg_drop by lia. reflexivity. }
    assert (Hbi : blocks_in (pending s ++ data) = S (Z.to_nat (len2 / 72))).
    { unfold blocks_in. rewrite length_app, Hpl, Hdl.
      replace (Z.to_nat m + Z.to_nat Length)%nat with (Z.to_nat len2 + 1 * 72)%nat
        by (unfold len2; lia).
      rewrite Nat.div_add by lia. rewrite <- blocks_of_Z by lia. lia. }
    assert (Htl : tail_of (pending s ++ data)
                  = seg Input (InOffset + (72 - m) + 72 * (len2 / 72)) (len2 mod 72)).
    { unfold tail_of. rewrite Hbi.
      replace (72 * S (Z.to_nat (len2 / 72)))%nat
        with (72 + Z.to_nat (72 * (len2 / 72)))%nat by lia.
      rewrite <- drop_drop, Hdrop. rewrite seg_drop by lia. f_equal. lia. }
    unfold after. rewrite Htl, Hbi.
    split; [exact F1|]. split; [exact F2|]. split; [exact F3|].
    split; [rewrite F4; cbn; exact Hb1|].
    split.
    { rewrite F5. cbn. unfold size. rewrite seg_length; lia. }
    split.
    { rewrite F6. unfold pending at 1. cbn. reflexivity. }
    exists st, rest. split; [exact Hds|]. rewrite F7. simpl absorb.
    rewrite Htake, Hdrop. reflexivity.
  + (* the bytes fit behind the pending ones *)
    apply Z.leb_gt in Hfill. rewrite size_t_small in Hfill by lia.
    rewrite bind_ret. cbv beta iota.
    destruct (blocks_then_store Input InOffset Length s st rest Hds H0 Hl Hs H64)
      as (s' & Hrun & F1 & F2 & F3 & F4 & F5 & F6 & F7); try lia.
    { rewrite Z.mod_small by lia. lia. }
    exists s'. split; [exact Hrun|].
    rewrite Z.div_small in F6, F7 by lia. rewrite Z.mod_small in F5, F6 by lia.
    rewrite Z.mul_0_r, Z.add_0_r in F6. fold data in F6.
    destruct (tail_of_short (pending s ++ data)) as [Hb0 Ht0];
      [rewrite length_app, Hpl, Hdl; lia|].
    unfold after. rewrite Hb0, Ht0.
    repeat split; try assumption.
    * rewrite F5. unfold size. rewrite length_app, Hpl, Hdl. lia.
    * exists st, rest. split; [exact Hds | exact F7].
Qed.

(** two calls of [Update] are one call on the two inputs in a row *)
Lemma after_compose s t b s1 s2 :
  after s t s1 → after s1 (pending s1 ++ b) s2 → after s (t ++ b) s2.
Proof.
intros (F1 & F2 & F3 & F4 & F5 & F6 & st & rest & Hs & Hs1)
       (G1 & G2 & G3 & G4 & G5 & G6 & st1 & rest1 & Ht & Hs2).
rewrite Hs1 in Ht. injection Ht as <- <-. rewrite F6 in G5, G6, Hs2.
unfold after. rewrite tail_of_app.
repeat split; try congruence.
exists st, rest. split; [exact Hs|]. rewrite absorb_app. exact Hs2.
Qed.

(** *** Finalize *)

(** the last block: the pending bytes, the byte 1 behind them, zeros,
  and the top bit of the last byte set *)
Definition pad (p : list byte) : list byte :=
let x := <[length p := 1]> (p ++ replicate (72 - length p) 0) in
<[71%nat := Z.lor (default 0 (x !! 71%nat)) 128]> x.

(** the digest: the first eight lanes, five of the lanes of the state
  inverted, as little-endian bytes *)
Definition squeeze (h : list Z) : list byte :=
concat (IntUtils.le_bytes 8 <$>
          take 8 (alter not64 17%nat (alter not64 12%nat (alter not64 8%nat
                 (alter not64 2%nat (alter not64 1%nat h)))))).

(** the sponge over a whole message, from the lanes [h] *)
Definition sponge (h : list Z) (message : list byte) : list byte :=
squeeze (Permute (pad (tail_of message)) (absorb (blocks_in message) h message)).

Lemma squeeze_length h : (8 ≤ length h)%nat → length (squeeze h) = 64%nat.
Proof.
intros Hh. unfold squeeze.
set (h' := alter not64 17%nat _).
assert (Hl : length (take 8 h') = 8%nat).
{ unfold h'. rewrite length_take, !length_alter. lia. }
revert Hl. generalize (take 8 h'). intros l Hl.
do 9 (destruct l as [|? l]; try discriminate Hl). reflexivity.
Qed.

Lemma Reset_total_sequential s :
  ParallelOptions.IsParallel (m_parallelProfile s) = false → ∃ s', Reset s = Ok s'.
Proof.
intros Hp. unfold Reset. rewrite Clear_all, bind_ret. cbv zeta.
set (s1 := set_msgLength 0 (set_msgBuffer (replicate (length (m_msgBuffer s)) 0) s)).
destruct (for_loop_total
            (λ _ a, length (m_dgtState a) = length (m_dgtState s1)
                    ∧ m_parallelProfile a = m_parallelProfile s)
            (length (m_dgtState s1))
            (λ i s,
               st ← vec_get (m_dgtState s) i;
               let st := State_Reset st in
               if ParallelOptions.IsParallel (m_parallelProfile s) then
                 let s := set_treeParams (set_NodeOffset (uint i) (m_treeParams s)) s in
                 st ← Compress (ToBytes (m_treeParams s)) 0 st;
                 ds ← vec_set (m_dgtState s) i st;
                 Ok (set_dgtState ds s)
               else
                 ds ← vec_set (m_dgtState s) i st;
                 Ok (set_dgtState ds s))
            s1) as (s' & Hrun & _).
- split; reflexivity.
- intros i a Hi (Hlen & Hpa). cbv beta zeta.
  assert (Hin : 0 ≤ Z.of_nat i < size (m_dgtState a)) by (unfold size; lia).
  destruct (vec_get_Ok (m_dgtState a) (Z.of_nat i) Hin) as (st & -> & _).
  rewrite bind_ret. rewrite Hpa, Hp.
  rewrite vec_set_Ok by exact Hin. rewrite bind_ret. eexists. split; [reflexivity|].
  simpl. rewrite length_insert. auto.
- exists s'. exact Hrun.
Qed.

Lemma Clear_tail (buf : list byte) (m : Z) :
  0 ≤ m ≤ size buf → size buf < 2 ^ 64 →
  MemUtils.Clear buf m (size_t (size buf - m))
  = Ok (take (Z.to_nat m) buf ++ replicate (length buf - Z.to_nat m) 0).
Proof.
intros Hm H64. rewrite size_t_small by lia. unfold MemUtils.Clear.
rewrite bool_decide_eq_true_2 by lia.
rewrite vec_write_Ok by (rewrite ?size_replicate; lia).
f_equal. rewrite inserts_decompose by (rewrite length_replicate; unfold size in *; lia).
rewrite length_replicate. rewrite drop_ge by (unfold size in *; lia).
rewrite app_nil_r. do 2 f_equal. unfold size. lia.
Qed.

Lemma take_pad (p : list byte) (n : nat) :
  (length p < 72)%nat → (72 ≤ length p + n)%nat →
  take 72
    (<[71%nat := Z.lor (default 0 (<[length p := 1]> (p ++ replicate n 0) !! 71%nat)) 128]>
       (<[length p := 1]> (p ++ replicate n 0)))
  = pad p.
Proof.
intros Hp Hn. unfold pad. cbv zeta.
assert (Ht : take 72 (<[length p := 1]> (p ++ replicate n 0))
             = <[length p := 1]> (p ++ replicate (72 - length p) 0)).
{ rewrite take_insert_lt by lia. f_equal.
  rewrite take_app. rewrite take_ge by lia. f_equal.
  rewrite take_replicate. f_equal. lia. }
rewrite take_insert_lt by lia. rewrite Ht. f_equal. f_equal. f_equal.
rewrite <- Ht. rewrite lookup_take_lt by lia. reflexivity.
Qed.

Lemma LeULL512ToBlock_squeezed (h : list Z) Output OutOffset :
  (8 ≤ length h)%nat → 0 ≤ OutOffset → OutOffset + 64 ≤ size Output →
  IntUtils.LeULL512ToBlock h 0 Output OutOffset
  = Ok (list_inserts (Z.to_nat OutOffset) (concat (IntUtils.le_bytes 8 <$> take 8 h)) Output).
Proof.
intros Hh H0 Hs. unfold IntUtils.LeULL512ToBlock.
rewrite vec_range_Ok by (unfold size; lia). rewrite bind_ret.
change (Z.to_nat 0) with 0%nat. change (Z.to_nat 8) with 8%nat. rewrite drop_0.
apply vec_write_Ok; [exact H0|].
assert (Hl : length (take 8 h) = 8%nat) by (rewrite length_take; lia).
revert Hl. generalize (take 8 h). intros l Hl.
do 9 (destruct l as [|? l]; try discriminate Hl).
change (size (concat (IntUtils.le_bytes 8 <$> [z; z0; z1; z2; z3; z4; z5; z6]))) with 64.
exact Hs.
Qed.

(** [Finalize] on the sequential path: the digest is the squeeze of the
  state after the padded block of the pending bytes *)
Lemma Finalize_spec Output OutOffset s st rest :
  sequential s → m_dgtState s = st :: rest → (8 ≤ length (H st))%nat →
  0 ≤ OutOffset → OutOffset + 64 ≤ size Output → size Output < 2 ^ 64 →
  ∃ sf, Finalize bld Output OutOffset s
        = Ok (DIGEST_SIZE,
              list_inserts (Z.to_nat OutOffset)
                (squeeze (Permute (pad (pending s)) (H st))) Output,
              sf).
Proof.
intros (Hp & Hb & Hm & _) Hd Hh H0 Hs H64. unfold Finalize, DIGEST_SIZE.
replace (64 <=? size_t (size Output - OutOffset)) with true
  by (symmetry; apply Z.leb_le; rewrite size_t_small by lia; lia).
replace (CEXASSERT bld true "The Output buffer is too short!") with (Ok () : result unit)
  by (destruct bld; reflexivity).
rewrite bind_ret, Hp. unfold Finalize_sequential.
replace (m_msgLength s =? size (m_msgBuffer s)) with false
  by (symmetry; apply Z.eqb_neq; lia).
cbn [negb]. rewrite Clear_tail by lia. rewrite bind_ret. cbv zeta.
fold (pending s). pose proof (pending_length s ltac:(lia)) as Hpl.
set (n := (length (m_msgBuffer s) - Z.to_nat (m_msgLength s))%nat).
set (buf0 := pending s ++ replicate n 0).
assert (Hb0 : length buf0 = length (m_msgBuffer s)).
{ unfold buf0, n. rewrite length_app, length_replicate, Hpl. unfold size in *. lia. }
cbn [m_dgtState set_msgBuffer m_msgBuffer m_msgLength]. rewrite Hd.
change (vec_get (st :: rest) 0) with (Ok st : result Keccak512State). rewrite bind_ret.
unfold HashFinal, BLOCK_SIZE. change (size_t (0 + 72 - 1)) with 71.
rewrite (Z.add_0_l (m_msgLength s)), (size_t_small (m_msgLength s)) by lia.
rewrite vec_set_Ok by (unfold size in *; lia). rewrite bind_ret.
set (buf1 := <[Z.to_nat (m_msgLength s) := 1]> buf0).
assert (Hb1 : length buf1 = length (m_msgBuffer s)).
{ unfold buf1. rewrite length_insert. exact Hb0. }
destruct (vec_get_Ok buf1 71) as (b & Hget & Hlook); [unfold size in *; lia|].
rewrite Hget, bind_ret. rewrite vec_set_Ok by (unfold size in *; lia). rewrite bind_ret.
unfold Compress, BLOCK_SIZE.
rewrite vec_range_Ok by (unfold size in *; rewrite ?length_insert; lia).
rewrite !bind_ret. cbv beta iota.
change (vec_set (st :: rest) 0 ?x) with (Ok (x :: rest) : result (list Keccak512State)).
rewrite bind_ret. cbn [H T].
change (Z.to_nat 0) with 0%nat. rewrite drop_0. change (Z.to_nat 71) with 71%nat in *.
change (Z.to_nat 72) with 72%nat.
assert (Hpad : take 72 (<[71%nat := Z.lor b 128]> buf1) = pad (pending s)).
{ unfold buf1, buf0. rewrite <- Hpl.
  rewrite <- (take_pad (pending s) n) by (unfold n, size in *; lia).
  do 3 f_equal. unfold buf1, buf0 in Hlook. rewrite <- Hpl in Hlook. rewrite Hlook.
  reflexivity. }
rewrite Hpad.
rewrite LeULL512ToBlock_squeezed;
  [| rewrite !length_alter, Permute_length; exact Hh | exact H0 | exact Hs].
rewrite bind_ret. fold (squeeze (Permute (pad (pending s)) (H st))).
rewrite bind_ret. cbv beta iota.
match goal with
| |- ∃ sf, (Reset ?x ≫= _) = _ =>
    destruct (Reset_total_sequential x Hp) as (sf & Hsf); rewrite Hsf
end.
exists sf. reflexivity.
Qed.

(** X15. On the sequential path the digest is the sponge over the bytes
  taken in, however they arrive: from an instance with nothing pending,
  [Update] of [a], [Update] of [b] and [Finalize] all complete, and the
  64 bytes written are the sponge of [a ++ b] from the lanes of the
  instance (whole 72-byte blocks absorbed in order, the rest padded
  with the byte 1, zeros and the top bit of byte 71, five lanes
  inverted, eight lanes written out little-endian). So they are for one
  [Update] of [a ++ b]. *)
Theorem Update_streams a b Output OutOffset s st rest :
  sequential s → m_msgLength s = 0 →
  m_dgtState s = st :: rest → (8 ≤ length (H st))%nat →
  size a + size b + 72 ≤ 2 ^ 64 →
  0 ≤ OutOffset → OutOffset + 64 ≤ size Output → size Output < 2 ^ 64 →
  ∃ s1 s2 sf s12 sf',
    Update bld a 0 (size a) s = Ok s1
    ∧ Update bld b 0 (size b) s1 = Ok s2
    ∧ Finalize bld Output OutOffset s2
      = Ok (DIGEST_SIZE,
            list_inserts (Z.to_nat OutOffset) (sponge (H st) (a ++ b)) Output, sf)
    ∧ Update bld (a ++ b) 0 (size a + size b) s = Ok s12
    ∧ Finalize bld Output OutOffset s12
      = Ok (DIGEST_SIZE,
            list_inserts (Z.to_nat OutOffset) (sponge (H st) (a ++ b)) Output, sf').
Proof.
intros Hseq Hm0 Hd Hh H64 H0 Hs Ho64.
pose proof (size_nonneg a) as Ha0. pose proof (size_nonneg b) as Hb0.
assert (Hpn : pending s = []) by (unfold pending; rewrite Hm0; reflexivity).
destruct (Update_spec a 0 (size a) s Hseq) as (s1 & Hu1 & Haf1); try lia.
rewrite seg_all, Hpn, app_nil_l in Haf1.
pose proof (after_sequential s a s1 Hseq Haf1) as Hseq1.
destruct (Update_spec b 0 (size b) s1 Hseq1) as (s2 & Hu2 & Haf2); try lia.
rewrite seg_all in Haf2.
pose proof (after_compose s a b s1 s2 Haf1 Haf2) as Haf12.
pose proof (after_sequential s (a ++ b) s2 Hseq Haf12) as Hseq2.
destruct (Update_spec (a ++ b) 0 (size a + size b) s Hseq) as (s12 & Hu12 & Haf);
  try (rewrite ?size_app; lia).
rewrite <- size_app, seg_all, Hpn, app_nil_l in Haf.
pose proof (after_sequential s (a ++ b) s12 Hseq Haf) as Hseq12.
assert (Hfin : ∀ x, sequential x → after s (a ++ b) x →
          ∃ sf, Finalize bld Output OutOffset x
                = Ok (DIGEST_SIZE,
                      list_inserts (Z.to_nat OutOffset) (sponge (H st) (a ++ b)) Output,
                      sf)).
{ intros x Hx (_ & _ & _ & _ & _ & Hpx & st' & rest' & Hs' & Hdx).
  rewrite Hd in Hs'. injection Hs' as <- <-.
  destruct (Finalize_spec Output OutOffset x _ _ Hx Hdx) as (sf & Hf);
    try assumption.
  { cbn [H]. rewrite absorb_length. exact Hh. }
  exists sf. rewrite Hf. cbn [H]. rewrite Hpx. reflexivity. }
destruct (Hfin s2 Hseq2 Haf12) as (sf & Hf2).
destruct (Hfin s12 Hseq12 Haf) as (sf' & Hf12).
exists s1, s2, sf, s12, sf'. rewrite <- size_app in *.
repeat split; assumption.
Qed.

(** *** Compute *)

(** written over a whole array of 64 bytes, the digest is all there is *)
Lemma LeULL512ToBlock_whole (h : list Z) (O O' r : list byte) :
  length O = 64%nat → length O' = 64%nat →
  IntUtils.LeULL512ToBlock h 0 O 0 = Ok r →
  IntUtils.LeULL512ToBlock h 0 O' 0 = Ok r ∧ length r = 64%nat.
Proof.
intros HO HO' Hr. unfold IntUtils.LeULL512ToBlock in *.
apply bind_Ok in Hr as (ws & Hws & Hw). rewrite Hws, bind_ret.
apply vec_range_length in Hws as Hlen.
assert (Hl : length ws = 8%nat) by (unfold size in Hlen; lia).
do 9 (destruct ws as [|? ws]; try discriminate Hl).
apply vec_write_inv in Hw as (_ & _ & ->).
rewrite vec_write_Ok by (unfold size; rewrite ?HO'; simpl; lia).
change (Z.to_nat 0) with 0%nat.
rewrite !inserts_decompose by (rewrite ?HO, ?HO'; simpl; lia).
rewrite !drop_ge by (rewrite ?HO, ?HO'; simpl; lia).
rewrite !take_0, !app_nil_r. split; reflexivity.
Qed.

Lemma Finalize_whole Output Output' s n d s' :
  length Output = 64%nat → length Output' = 64%nat →
  Finalize bld Output 0 s = Ok (n, d, s') →
  Finalize bld Output' 0 s = Ok (n, d, s') ∧ length d = 64%nat.
Proof.
intros HO HO' Hf. unfold Finalize in *. unfold size in *. rewrite HO in Hf. rewrite HO'.
apply bind_Ok in Hf as ([] & Ha & Hf). rewrite Ha, bind_ret.
apply bind_Ok in Hf as ([out s1] & Hd & Hf). cbv beta iota in Hf.
apply bind_Ok in Hf as (s2 & Hr & Hf). injection Hf as <- <- <-.
assert (Hd' : (if ParallelOptions.IsParallel (m_parallelProfile s)
               then Finalize_parallel Output' 0 s
               else Finalize_sequential Output' 0 s) = Ok (out, s1)
              ∧ length out = 64%nat).
{ destruct (ParallelOptions.IsParallel (m_parallelProfile s)).
  - unfold Finalize_parallel in *.
    apply bind_Ok in Hd as (buf & H1 & Hd). rewrite H1, bind_ret. cbv zeta in Hd |- *.
    apply bind_Ok in Hd as (sa & H2 & Hd). rewrite H2, bind_ret.
    apply bind_Ok in Hd as (sb & H3 & Hd). rewrite H3, bind_ret.
    apply bind_Ok in Hd as ([[blkOff root] sc] & H4 & Hd). rewrite H4, bind_ret.
    cbv beta iota in Hd |- *.
    apply bind_Ok in Hd as ([buf' root'] & H5 & Hd). rewrite H5, bind_ret.
    cbv beta iota zeta in Hd |- *.
    apply bind_Ok in Hd as (o & H6 & Hd). injection Hd as <- <-.
    destruct (LeULL512ToBlock_whole _ Output Output' o HO HO' H6) as [-> Hl].
    split; [reflexivity | exact Hl].
  - unfold Finalize_sequential in *.
    apply bind_Ok in Hd as (buf & H1 & Hd). rewrite H1, bind_ret. cbv zeta in Hd |- *.
    apply bind_Ok in Hd as (st & H2 & Hd). rewrite H2, bind_ret.
    apply bind_Ok in Hd as ([buf' st'] & H3 & Hd). rewrite H3, bind_ret.
    cbv beta iota in Hd |- *.
    apply bind_Ok in Hd as (ds & H4 & Hd). rewrite H4, bind_ret. cbv zeta in Hd |- *.
    apply bind_Ok in Hd as (o & H6 & Hd). injection Hd as <- <-.
    destruct (LeULL512ToBlock_whole _ Output Output' o HO HO' H6) as [-> Hl].
    split; [reflexivity | exact Hl]. }
destruct Hd' as [-> Hl]. rewrite bind_ret. cbv beta iota. rewrite Hr. split; [reflexivity|].
exact Hl.
Qed.

(** X16. [Compute] on a freshly reset instance, when it completes,
  returns 64 bytes that do not depend on what the output array held or
  how long it was, and hands the instance back as it was: the same call
  again, with any output array, gives the same digest again. *)
Theorem Compute_repeatable (x Output d : list byte) (s0 s1 : Keccak512) :
  fresh s0 →
  Keccak512.Compute bld x Output s0 = Ok (d, s1) →
  length d = 64%nat
  ∧ s1 = s0
  ∧ ∀ Output', Compute bld x Output' s1 = Ok (d, s1).
Proof.
intros Hfresh Hc. unfold Compute in Hc. cbv zeta in Hc.
apply bind_Ok in Hc as (su & Hu & Hc).
apply bind_Ok in Hc as ([[n o] sf] & Hf & Hc). injection Hc as <- <-.
pose proof (Update_frame bld _ _ _ _ _ Hu) as Hfr.
pose proof (Finalize_restores bld s0 su _ _ _ _ _ Hfresh Hfr Hf) as ->.
assert (Hr : ∀ O : list byte, length (resize (Z.to_nat DIGEST_SIZE) 0 O) = 64%nat)
  by (intros O; apply length_resize).
destruct (Finalize_whole _ (resize (Z.to_nat DIGEST_SIZE) 0 Output) su n o s0
            (Hr Output) (Hr Output) Hf) as [_ Hl].
split; [exact Hl|]. split; [reflexivity|].
intros Output'. unfold Compute. cbv zeta. rewrite Hu, bind_ret.
destruct (Finalize_whole _ (resize (Z.to_nat DIGEST_SIZE) 0 Output') su n o s0
            (Hr Output) (Hr Output') Hf) as [-> _].
reflexivity.
Qed.

End Sequential.

End Keccak512_Sequential.

(** ** Keccak512 on a stand-in permutation: the theorems at concrete inputs *)
Module Keccak512_Runs.

Import Keccak512 Keccak512_Frame Keccak512_Reset Keccak512_Claims Keccak512_Sequential.

Definition blank : Keccak512 :=
{| m_treeParams := KeccakParams_new 0 0 0;
   m_dgtState := [];
   m_isDestroyed := false;
   m_msgBuffer := [];
   m_msgLength := 0;
   m_parallelProfile := Instances.sequential_profile |}.

(** [Keccak512(false)] on a machine without parallel paths *)
Definition seq_fresh : Keccak512 :=
result_get blank (Keccak512_new Instances.sequential_profile false).

Definition seq_state : Keccak512State := State_new.

Definition part_a : list byte := [1; 2; 3].
Definition part_b : list byte := [4; 5].
Definition digest_room : list byte := replicate 64 0.

Lemma seq_fresh_Ok : Keccak512_new Instances.sequential_profile false = Ok seq_fresh.
Proof. vm_compute. reflexivity. Qed.

Lemma seq_fresh_fresh : fresh seq_fresh.
Proof. exact (Keccak512_new_fresh _ _ _ seq_fresh_Ok). Qed.

Lemma seq_fresh_sequential : sequential seq_fresh.
Proof.
unfold sequential. split; [reflexivity|].
split; [vm_compute; split; [discriminate | reflexivity]|].
split; [vm_compute; split; [discriminate | reflexivity]|]. vm_compute. discriminate.
Qed.

Lemma seq_fresh_empty : m_msgLength seq_fresh = 0.
Proof. reflexivity. Qed.

Lemma seq_fresh_state : m_dgtState seq_fresh = seq_state :: [].
Proof. vm_compute. reflexivity. Qed.

Lemma seq_state_lanes : (8 ≤ length (H seq_state))%nat.
Proof. vm_compute. lia. Qed.

Lemma parts_small : size part_a + size part_b + 72 ≤ 2 ^ 64.
Proof. vm_compute. discriminate. Qed.

Lemma digest_room_fits : 0 + 64 ≤ size digest_room.
Proof. vm_compute. discriminate. Qed.

Lemma digest_room_small : size digest_room < 2 ^ 64.
Proof. reflexivity. Qed.

Lemma Update_streams_witness :
  ∃ s1 s2 sf s12 sf',
    Update Release part_a 0 (size part_a) seq_fresh = Ok s1
    ∧ Update Release part_b 0 (size part_b) s1 = Ok s2
    ∧ Finalize Release digest_room 0 s2
      = Ok (DIGEST_SIZE,
            list_inserts (Z.to_nat 0) (sponge (H seq_state) (part_a ++ part_b)) digest_room,
            sf)
    ∧ Update Release (part_a ++ part_b) 0 (size part_a + size part_b) seq_fresh = Ok s12
    ∧ Finalize Release digest_room 0 s12
      = Ok (DIGEST_SIZE,
            list_inserts (Z.to_nat 0) (sponge (H seq_state) (part_a ++ part_b)) digest_room,
            sf').
Proof.
exact (Update_streams Release part_a part_b digest_room 0 seq_fresh seq_state []
         seq_fresh_sequential seq_fresh_empty seq_fresh_state seq_state_lanes
         parts_small (Z.le_refl 0) digest_room_fits digest_room_small).
Defined.

Definition seq_computed : list byte * Keccak512 :=
result_get ([], blank) (Compute Release part_a [] seq_fresh).

Lemma seq_computed_Ok :
  Keccak512.Compute Release part_a [] seq_fresh = Ok (seq_computed.1, seq_computed.2).
Proof. vm_compute. reflexivity. Qed.

Lemma Compute_repeatable_witness :
  length seq_computed.1 = 64%nat
  ∧ seq_computed.2 = seq_fresh
  ∧ ∀ Output', Compute Release part_a Output' seq_computed.2
               = Ok (seq_computed.1, seq_computed.2).
Proof.
exact (Compute_repeatable Release part_a [] seq_computed.1 seq_fresh seq_computed.2
         seq_fresh_fresh seq_computed_Ok).
Defined.

End Keccak512_Runs.

(** ** GCM: counter mode and the first counter block *)
Module GCM_Counter.

Import SymmetricKey GCM.

Lemma size_inserts {A} (i : nat) (k v : list A) : size (list_inserts i k v) = size v.
Proof. unfold size. rewrite length_inserts. reflexivity. Qed.

(** what was stored at an offset is what is read back from it *)
Lemma range_of_write {A} (v data : list A) (off : nat) :
  (off + length data ≤ length v)%nat →
  take (length data) (drop off (list_inserts off data v)) = data.
Proof.
intros Hlen. apply list_eq. intros i.
destruct (decide (i < length data)%nat) as [Hi|Hi].
- rewrite lookup_take_lt by exact Hi. rewrite lookup_drop.
  rewrite list_lookup_inserts by lia. f_equal. lia.
- rewrite lookup_take_ge by lia. rewrite lookup_ge_None_2 by lia. reflexivity.
Qed.

Lemma vec_range_of_write {A} (v data v' : list A) (off : Z) :
  vec_write v off data = Ok v' → vec_range v' off (size data) = Ok data.
Proof.
intros Hw. apply vec_write_inv in Hw as (H0 & Hlen & ->).
pose proof (size_nonneg data).
rewrite vec_range_Ok by (rewrite ?size_inserts; lia).
unfold size. rewrite Nat2Z.id. f_equal. apply range_of_write.
unfold size in Hlen. lia.
Qed.

(** a store over the whole of a vector replaces it *)
Lemma list_inserts_all {A} (data v : list A) :
  length data = length v → list_inserts 0 data v = data.
Proof.
intros Hlen. rewrite <- (range_of_write v data 0) at 2 by lia.
simpl. rewrite Hlen, <- (length_inserts v 0 data). symmetry. apply firstn_all.
Qed.

Lemma xor_bytes_zeros (ks : list byte) (n : nat) :
  n = length ks → MemUtils.xor_bytes (replicate n 0) ks = ks.
Proof.
intros ->. unfold MemUtils.xor_bytes. induction ks as [|k ks IH]; simpl; [reflexivity|].
rewrite IH. reflexivity.
Qed.

Section Counter.

Context {BC : IBlockCipher}.

Lemma keystream_length n key ctr : length (CTR.keystream n key ctr).1 = (16 * n)%nat.
Proof.
revert ctr. induction n as [|n IH]; intros ctr; simpl; [reflexivity|].
specialize (IH (IntUtils.BeIncrement8 ctr)).
destruct (CTR.keystream n key (IntUtils.BeIncrement8 ctr)) as [ks ctr'] eqn:Hk.
simpl in *. rewrite length_app, Engine_Transform_length, IH. lia.
Qed.

(** the key stream a transform of [Length] bytes draws, and the mode
  after it *)
Definition ctr_stream (Length : Z) (c : CTR.CTR) : list byte :=
(CTR.keystream (Z.to_nat ((Length + 15) / 16)) (CTR.m_engineKey c) (CTR.m_ctrVector c)).1.

Definition ctr_after (Length : Z) (c : CTR.CTR) : CTR.CTR :=
{| CTR.m_engineKey := CTR.m_engineKey c;
   CTR.m_ctrVector :=
     (CTR.keystream (Z.to_nat ((Length + 15) / 16)) (CTR.m_engineKey c)
        (CTR.m_ctrVector c)).2;
   CTR.m_isInitialized := CTR.m_isInitialized c |}.

Lemma ctr_stream_covers Length c : 0 ≤ Length → Length ≤ size (ctr_stream Length c).
Proof.
intros HL. unfold ctr_stream, size. rewrite keystream_length.
assert (0 ≤ (Length + 15) / 16) by (apply Z.div_pos; lia).
rewrite Nat2Z.inj_mul, Z2Nat.id by lia. simpl Z.of_nat.
pose proof (Z.mul_div_le (Length + 15) 16 ltac:(lia)).
pose proof (Z.mod_pos_bound (Length + 15) 16 ltac:(lia)).
pose proof (Z.div_mod (Length + 15) 16 ltac:(lia)). lia.
Qed.

(** the data of a transform: [Length] bytes of [v] from [off] on *)
Definition range_of (v : list byte) (off Length : Z) : list byte :=
take (Z.to_nat Length) (drop (Z.to_nat off) v).

Lemma range_of_size v off Length :
  0 ≤ off → 0 ≤ Length → off + Length ≤ size v → size (range_of v off Length) = Length.
Proof.
intros H1 H2 H3. unfold range_of, size in *. rewrite length_take, length_drop. lia.
Qed.

Lemma CTR_Transform_Ok Input InOffset Output OutOffset Length c :
  0 ≤ InOffset → 0 ≤ Length → InOffset + Length ≤ size Input →
  0 ≤ OutOffset → OutOffset + Length ≤ size Output →
  CTR.Transform Input InOffset Output OutOffset Length c
  = Ok (ctr_after Length c,
        list_inserts (Z.to_nat OutOffset)
          (MemUtils.xor_bytes (range_of Input InOffset Length) (ctr_stream Length c))
          Output).
Proof.
intros H1 H2 H3 H4 H5. unfold CTR.Transform.
rewrite vec_range_Ok, bind_ret by lia.
pose proof (ctr_stream_covers Length c H2) as Hcov.
unfold ctr_stream, ctr_after in *.
destruct (CTR.keystream _ _ _) as [ks ctr'] eqn:Hk. simpl in Hcov |- *.
fold (range_of Input InOffset Length).
rewrite vec_write_Ok; [reflexivity | lia |].
unfold size at 1. rewrite xor_bytes_length'.
- pose proof (range_of_size Input InOffset Length H1 H2 H3) as Hr.
  unfold size in Hr. lia.
- pose proof (range_of_size Input InOffset Length H1 H2 H3) as Hr.
  unfold size in Hr, Hcov. lia.
Qed.

(** the bytes a transform leaves at [OutOffset] *)
Lemma CTR_Transform_range Input InOffset Output OutOffset Length c :
  0 ≤ InOffset → 0 ≤ Length → InOffset + Length ≤ size Input →
  0 ≤ OutOffset → OutOffset + Length ≤ size Output →
  range_of (list_inserts (Z.to_nat OutOffset)
              (MemUtils.xor_bytes (range_of Input InOffset Length) (ctr_stream Length c))
              Output) OutOffset Length
  = MemUtils.xor_bytes (range_of Input InOffset Length) (ctr_stream Length c).
Proof.
intros H1 H2 H3 H4 H5.
pose proof (ctr_stream_covers Length c H2) as Hcov.
pose proof (range_of_size Input InOffset Length H1 H2 H3) as Hr.
set (x := MemUtils.xor_bytes _ _).
assert (Hx : length x = Z.to_nat Length).
{ unfold x. rewrite xor_bytes_length'; unfold size in *; lia. }
unfold range_of at 1. rewrite <- Hx. apply range_of_write.
unfold size in *. lia.
Qed.

End Counter.

End GCM_Counter.

(** ** GCM: Initialize *)
Module GCM_Initialize.

Import SymmetricKey GCM GCM_Counter.

Section Initialize.

Context {BC : IBlockCipher} {GH : GHASH.Impl}.

Definition ZEROES : list byte := replicate (Z.to_nat BLOCK_SIZE) 0.

(** the two words of H = E_K(0^128) the hash is keyed with *)
Definition hash_key (key : list byte) : list Z :=
let tmpH := Engine_Transform key ZEROES in
[IntUtils.be_value (take 8 tmpH); IntUtils.be_value (take 8 (drop 8 tmpH))].

(** GHASH_H of a nonce: the nonce absorbed into a zero block, then the
  block of the two lengths, 0 and the length of the nonce *)
Definition nonce_hash (nonce : list byte) (g : GHASH.t) : GHASH.t * list byte :=
GHASH.finalize_block (GHASH.segment_bytes nonce ZEROES g).2 0 (size nonce)
  (GHASH.segment_bytes nonce ZEROES g).1.

(** the hash and the first counter block J0 after the nonce is taken in *)
Definition first_counter (nonce : list byte) (g : GHASH.t) : GHASH.t * list byte :=
if size nonce =? 12 then (g, nonce ++ [0; 0; 0; 1]) else nonce_hash nonce g.

(** the instance [Initialize] leaves: keyed with [key], hash [g] before
  the nonce is taken in *)
Definition initialized (Encryption : bool) (key nonce : list byte) (g : GHASH.t)
  (s : GCM) : GCM :=
let J0 := (first_counter nonce g).2 in
{| m_aadData := m_aadData s;
   m_aadLoaded := m_aadLoaded s;
   m_aadPreserve := m_aadPreserve s;
   m_aadSize := m_aadSize s;
   m_autoIncrement := m_autoIncrement s;
   m_checkSum := m_checkSum s;
   m_cipherMode := {| CTR.m_engineKey := key;
                      CTR.m_ctrVector := IntUtils.BeIncrement8 J0;
                      CTR.m_isInitialized := true |};
   m_gcmHash := Some (first_counter nonce g).1;
   m_gcmKey := key;
   m_gcmNonce := nonce;
   m_gcmVector := Engine_Transform key J0;
   m_isEncryption := Encryption;
   m_isFinalized := false;
   m_isInitialized := true;
   m_legalKeySizes := m_legalKeySizes (Scope s);
   m_msgSize := m_msgSize s;
   m_msgTag := if m_isFinalized s then replicate (length (m_msgTag s)) 0 else m_msgTag s;
   m_parallelProfile := m_parallelProfile s |}.

Lemma ZEROES_length : length ZEROES = 16%nat.
Proof. reflexivity. Qed.

Lemma nonce_hash_length nonce g : length (nonce_hash nonce g).2 = 16%nat.
Proof.
unfold nonce_hash. apply GHASH.finalize_length, GHASH.segment_length, ZEROES_length.
Qed.

Lemma twelve_byte_counter (nonce : list byte) :
  size nonce = 12 → <[15%nat := 1]> (resize 16 0 nonce) = nonce ++ [0; 0; 0; 1].
Proof.
intros Hn. assert (Hl : length nonce = 12%nat) by (unfold size in Hn; lia).
rewrite resize_ge by lia. rewrite Hl. simpl replicate.
rewrite insert_app_r_alt by lia. rewrite Hl. reflexivity.
Qed.

Lemma first_counter_length nonce g : length (first_counter nonce g).2 = 16%nat.
Proof.
unfold first_counter. destruct (size nonce =? 12) eqn:Hn.
- apply Z.eqb_eq in Hn. simpl. rewrite length_app. unfold size in Hn. simpl. lia.
- apply nonce_hash_length.
Qed.

Lemma Initialize_vector_Some nonce g :
  Initialize_vector nonce (Some g)
  = Ok (Some (first_counter nonce g).1, (first_counter nonce g).2).
Proof.
unfold Initialize_vector, first_counter. destruct (size nonce =? 12) eqn:Hn.
- apply Z.eqb_eq in Hn. rewrite twelve_byte_counter by exact Hn. reflexivity.
- simpl deref. rewrite bind_ret. unfold GHASH.ProcessSegment.
  rewrite vec_range_all, bind_ret.
  fold ZEROES. unfold GHASH.FinalizeBlock, nonce_hash.
  destruct (GHASH.segment_bytes nonce ZEROES g) as [g1 n1]. simpl.
  destruct (GHASH.finalize_block n1 0 (size nonce) g1) as [g2 n2]. reflexivity.
Qed.

Lemma keystream_one key ctr :
  CTR.keystream 1 key ctr = (Engine_Transform key ctr ++ [], IntUtils.BeIncrement8 ctr).
Proof. reflexivity. Qed.

(** the one block [Initialize] has the counter mode encrypt: E_K(J0) *)
Lemma first_block key J0 :
  length J0 = 16%nat →
  CTR.Transform ZEROES 0 J0 0 BLOCK_SIZE
    {| CTR.m_engineKey := key; CTR.m_ctrVector := J0; CTR.m_isInitialized := true |}
  = Ok ({| CTR.m_engineKey := key;
           CTR.m_ctrVector := IntUtils.BeIncrement8 J0;
           CTR.m_isInitialized := true |},
        Engine_Transform key J0).
Proof.
intros HJ. rewrite CTR_Transform_Ok; unfold BLOCK_SIZE, size; rewrite ?ZEROES_length, ?HJ;
  try lia.
unfold ctr_after, ctr_stream. cbn [CTR.m_engineKey CTR.m_ctrVector CTR.m_isInitialized].
change (Z.to_nat ((16 + 15) / 16)) with 1%nat. rewrite keystream_one.
cbn [fst snd]. rewrite app_nil_r.
change (range_of ZEROES 0 16) with (replicate 16 0 : list byte).
rewrite xor_bytes_zeros by (rewrite Engine_Transform_length; reflexivity).
change (Z.to_nat 0) with 0%nat.
rewrite list_inserts_all by (rewrite Engine_Transform_length, HJ; reflexivity).
reflexivity.
Qed.

Lemma Clear_all_Ok (v : list byte) :
  MemUtils.Clear v 0 (size v) = Ok (replicate (length v) 0).
Proof.
unfold MemUtils.Clear. pose proof (size_nonneg v).
rewrite bool_decide_eq_true_2 by lia.
rewrite vec_write_Ok by (rewrite ?size_replicate; unfold size; lia).
unfold size. rewrite Nat2Z.id. change (Z.to_nat 0) with 0%nat.
rewrite list_inserts_all by (rewrite length_replicate; reflexivity). reflexivity.
Qed.

(** what [Initialize] does once the key branch has gone through *)
Lemma Initialize_tail Encryption kp s cm key g :
  8 ≤ size (Nonce kp) →
  check_profile "GCM:Initialize" (m_parallelProfile s) = Ok () →
  Initialize_key kp (Scope s) = Ok (cm, Some g, key) →
  Initialize Encryption kp s = Ok (initialized Encryption key (Nonce kp) g s).
Proof.
intros Hn Hp Hk. unfold Initialize. cbv zeta.
replace (size (Nonce kp) <? 8) with false by (symmetry; apply Z.ltb_ge; lia).
cbn [throw_if]. rewrite bind_ret.
change (m_parallelProfile (Scope s)) with (m_parallelProfile s). rewrite Hp, bind_ret.
rewrite Hk, bind_ret. cbv beta iota.
rewrite Initialize_vector_Some, bind_ret. cbv beta iota.
pose proof (first_counter_length (Nonce kp) g) as HJ.
set (J0 := (first_counter (Nonce kp) g).2) in *.
unfold SymmetricKey2.
replace (size J0 =? 0) with false by (unfold size; rewrite HJ; reflexivity).
rewrite andb_false_r. cbn [throw_if]. rewrite bind_ret, bind_ret.
unfold CTR.Initialize. cbn [Key Nonce m_key m_nonce].
fold ZEROES. rewrite first_block by exact HJ. rewrite bind_ret. cbv beta iota.
change (m_isFinalized (Scope s)) with (m_isFinalized s).
change (m_msgTag (Scope s)) with (m_msgTag s).
unfold initialized. fold J0.
destruct (m_isFinalized s).
- rewrite Clear_all_Ok, bind_ret. reflexivity.
- rewrite bind_ret. reflexivity.
Qed.

Lemma Initialize_key_keyed kp s :
  size (Key kp) ≠ 0 →
  Contains (m_legalKeySizes s) (size (Key kp)) = true →
  Initialize_key kp s
  = Ok (CTR.Engine_Initialize kp (m_cipherMode s),
        Some (GHASH.create (hash_key (Key kp))), Key kp).
Proof.
intros Hk Hl. unfold Initialize_key.
replace (size (Key kp) =? 0) with false by (symmetry; apply Z.eqb_neq; exact Hk).
rewrite Hl. cbn [negb throw_if]. rewrite bind_ret. cbv zeta.
cbn [CTR.Engine_Initialize CTR.m_engineKey]. fold ZEROES.
unfold IntUtils.BeBytesTo64.
pose proof (Engine_Transform_length (Key kp) ZEROES) as HE.
rewrite !vec_range_Ok by (unfold size; rewrite ?HE; lia).
rewrite !bind_ret. reflexivity.
Qed.

(** [Initialize] with a key *)
Lemma Initialize_keyed Encryption kp s :
  8 ≤ size (Nonce kp) →
  size (Key kp) ≠ 0 →
  Contains (m_legalKeySizes (Scope s)) (size (Key kp)) = true →
  check_profile "GCM:Initialize" (m_parallelProfile s) = Ok () →
  Initialize Encryption kp s
  = Ok (initialized Encryption (Key kp) (Nonce kp) (GHASH.create (hash_key (Key kp))) s).
Proof.
intros Hn Hk Hl Hp. eapply Initialize_tail; [exact Hn | exact Hp |].
apply Initialize_key_keyed; assumption.
Qed.

(** [Initialize] with an empty key and a new nonce, on an instance that
  has been keyed before *)
Lemma Initialize_rekeyed Encryption kp s g :
  8 ≤ size (Nonce kp) →
  size (Key kp) = 0 →
  Nonce kp ≠ m_gcmNonce s →
  CTR.m_isInitialized (m_cipherMode s) = true →
  m_gcmHash s = Some g →
  check_profile "GCM:Initialize" (m_parallelProfile s) = Ok () →
  Initialize Encryption kp s = Ok (initialized Encryption (m_gcmKey s) (Nonce kp) g s).
Proof.
intros Hn Hk Hne Hc Hg Hp. eapply Initialize_tail; [exact Hn | exact Hp |].
unfold Initialize_key. rewrite Hk. cbn [Z.eqb].
change (m_gcmNonce (Scope s)) with (m_gcmNonce s).
rewrite bool_decide_eq_false_2 by exact Hne. cbn [throw_if]. rewrite bind_ret.
unfold CTR.IsInitialized. change (m_cipherMode (Scope s)) with (m_cipherMode s).
rewrite Hc. cbn [negb throw_if]. rewrite bind_ret.
change (m_gcmHash (Scope s)) with (m_gcmHash s). rewrite Hg. reflexivity.
Qed.

(** X4. [Initialize] with a legal key and a nonce of eight bytes or more
  succeeds, whatever the length of the nonce. The first counter block J0
  it derives is [nonce || 00 00 00 01] for a nonce of exactly 12 bytes;
  for every other length it is GHASH under H = E_K(0) of the nonce,
  closed by the block of the lengths 0 and |nonce|. J0 is what the
  counter mode is started on: the instance keeps E_K(J0) for the tag and
  the counter stands at J0 + 1. *)
Theorem Initialize_first_counter_block Encryption kp s :
  8 ≤ size (Nonce kp) →
  size (Key kp) ≠ 0 →
  Contains (m_legalKeySizes (Scope s)) (size (Key kp)) = true →
  check_profile "GCM:Initialize" (m_parallelProfile s) = Ok () →
  let H := GHASH.create (hash_key (Key kp)) in
  ∃ s' g J0,
    Initialize Encryption kp s = Ok s'
    ∧ Initialize_vector (Nonce kp) (Some H) = Ok (Some g, J0)
    ∧ (size (Nonce kp) = 12 → J0 = Nonce kp ++ [0; 0; 0; 1])
    ∧ (size (Nonce kp) ≠ 12 →
       J0 = (GHASH.finalize_block (GHASH.segment_bytes (Nonce kp) ZEROES H).2
               0 (size (Nonce kp)) (GHASH.segment_bytes (Nonce kp) ZEROES H).1).2)
    ∧ m_gcmVector s' = Engine_Transform (Key kp) J0
    ∧ m_cipherMode s' = {| CTR.m_engineKey := Key kp;
                           CTR.m_ctrVector := IntUtils.BeIncrement8 J0;
                           CTR.m_isInitialized := true |}
    ∧ m_isInitialized s' = true.
Proof.
intros Hn Hk Hl Hp H.
exists (initialized Encryption (Key kp) (Nonce kp) H s),
  (first_counter (Nonce kp) H).1, (first_counter (Nonce kp) H).2.
split; [apply Initialize_keyed; assumption|].
split; [apply Initialize_vector_Some|].
split; [|split].
- intros H12. unfold first_counter. rewrite H12. reflexivity.
- intros H12. unfold first_counter.
  replace (size (Nonce kp) =? 12) with false by (symmetry; apply Z.eqb_neq; exact H12).
  reflexivity.
- repeat split.
Qed.

End Initialize.

End GCM_Initialize.

(** ** GCM: SetAssociatedData and Transform *)
Module GCM_Transform.

Import SymmetricKey GCM GCM_Counter GCM_Initialize.

Section Transform.

Context {BC : IBlockCipher} {GH : GHASH.Impl}.
Variable bld : build.

(** the instance [SetAssociatedData] leaves *)
Definition with_aad (aad : list byte) (g : GHASH.t) (s : GCM) : GCM :=
{| m_aadData := aad;
   m_aadLoaded := true;
   m_aadPreserve := m_aadPreserve s;
   m_aadSize := size aad;
   m_autoIncrement := m_autoIncrement s;
   m_checkSum := (GHASH.segment_bytes aad (m_checkSum s) g).2;
   m_cipherMode := m_cipherMode s;
   m_gcmHash := Some (GHASH.segment_bytes aad (m_checkSum s) g).1;
   m_gcmKey := m_gcmKey s;
   m_gcmNonce := m_gcmNonce s;
   m_gcmVector := m_gcmVector s;
   m_isEncryption := m_isEncryption s;
   m_isFinalized := m_isFinalized s;
   m_isInitialized := m_isInitialized s;
   m_legalKeySizes := m_legalKeySizes s;
   m_msgSize := m_msgSize s;
   m_msgTag := m_msgTag s;
   m_parallelProfile := m_parallelProfile s |}.

Lemma SetAssociatedData_Ok Input Offset Length s g :
  m_isInitialized s = true →
  m_aadLoaded s = false →
  m_gcmHash s = Some g →
  0 ≤ Offset → 0 ≤ Length → Offset + Length ≤ size Input →
  SetAssociatedData Input Offset Length s = Ok (with_aad (range_of Input Offset Length) g s).
Proof.
intros Hi Ha Hg H1 H2 H3. unfold SetAssociatedData.
rewrite Hi, Ha, Hg. cbn [negb throw_if deref]. rewrite !bind_ret.
unfold MemUtils.Copy, GHASH.ProcessSegment.
rewrite vec_range_Ok by lia. rewrite !bind_ret. fold (range_of Input Offset Length).
pose proof (range_of_size Input Offset Length H1 H2 H3) as Hr.
rewrite vec_write_Ok by (unfold size in *; rewrite ?length_resize; lia).
rewrite !bind_ret. change (Z.to_nat 0) with 0%nat.
rewrite list_inserts_all by (unfold size in Hr; rewrite length_resize; lia).
destruct (GHASH.segment_bytes (range_of Input Offset Length) (m_checkSum s) g) as [g' cs'] eqn:Hs.
cbv beta iota. unfold with_aad. rewrite Hs, Hr, Hi. reflexivity.
Qed.

(** the bounds [Transform] asserts *)
Lemma Transform_bounds io InOffset OutOffset Length :
  0 ≤ Length →
  0 ≤ InOffset → InOffset + Length ≤ size (Input_of io) →
  0 ≤ OutOffset → OutOffset + Length ≤ size (Output_of io) →
  size (Input_of io) < 2 ^ 64 → size (Output_of io) < 2 ^ 64 →
  (Length <=? IntUtils.Min (size_t (size (Input_of io) - InOffset))
                           (size_t (size (Output_of io) - OutOffset))) = true.
Proof.
intros H0 H1 H2 H3 H4 H5 H6. rewrite !size_t_small by lia.
unfold IntUtils.Min. destruct (_ <? _); apply Z.leb_le; lia.
Qed.

Lemma CEXASSERT_true msg : CEXASSERT bld true msg = Ok ().
Proof. destruct bld; reflexivity. Qed.

Lemma Output_of_with_Output out io : Output_of (with_Output out io) = out.
Proof. destruct io; reflexivity. Qed.

(** the bytes the hash absorbs in a transform: when encrypting, what the
  counter mode has left in the output; when decrypting, what the input
  holds before the counter mode runs *)
Definition absorbed (io : buffers) (InOffset OutOffset Length : Z) (s : GCM) : list byte :=
if m_isEncryption s
then MemUtils.xor_bytes (range_of (Input_of io) InOffset Length)
       (ctr_stream Length (m_cipherMode s))
else range_of (Input_of io) InOffset Length.

Lemma Transform_Ok io InOffset OutOffset Length s g :
  m_isInitialized s = true →
  m_gcmHash s = Some g →
  0 ≤ InOffset → 0 ≤ Length → InOffset + Length ≤ size (Input_of io) →
  0 ≤ OutOffset → OutOffset + Length ≤ size (Output_of io) →
  size (Input_of io) < 2 ^ 64 → size (Output_of io) < 2 ^ 64 →
  let out := list_inserts (Z.to_nat OutOffset)
               (MemUtils.xor_bytes (range_of (Input_of io) InOffset Length)
                  (ctr_stream Length (m_cipherMode s)))
               (Output_of io) in
  let data := absorbed io InOffset OutOffset Length s in
  Transform bld io InOffset OutOffset Length s
  = Ok (transformed (ctr_after Length (m_cipherMode s))
          (GHASH.update_bytes data (m_checkSum s) g).1
          (GHASH.update_bytes data (m_checkSum s) g).2 Length s,
        with_Output out io).
Proof.
intros Hi Hg H1 H2 H3 H4 H5 H6 H7 out data. unfold Transform.
rewrite Hi, CEXASSERT_true, bind_ret.
rewrite Transform_bounds, CEXASSERT_true, bind_ret by assumption.
rewrite CTR_Transform_Ok by assumption. fold out.
rewrite Hg. cbn [deref]. unfold data, absorbed.
destruct (m_isEncryption s).
- rewrite !bind_ret. cbv beta iota.
  unfold GHASH.Update. rewrite Output_of_with_Output.
  rewrite vec_range_Ok by (unfold out; rewrite ?size_inserts; lia).
  fold (range_of out OutOffset Length). unfold out.
  rewrite CTR_Transform_range by assumption.
  rewrite bind_ret. destruct (GHASH.update_bytes _ _ _) as [g' cs']. reflexivity.
- rewrite bind_ret. unfold GHASH.Update.
  rewrite vec_range_Ok by lia. fold (range_of (Input_of io) InOffset Length).
  rewrite !bind_ret. destruct (GHASH.update_bytes _ _ _) as [g' cs']. reflexivity.
Qed.

(** X3. [Transform] on an initialized instance, within the bounds of
  its two arrays. When encrypting, the counter mode runs first and the
  hash then absorbs the bytes the counter mode has left in the output
  array, the produced ciphertext. When decrypting, the hash absorbs the
  bytes of the input array as they are before the counter mode runs
  (also when input and output are one array), and the counter mode runs
  after. In both modes the message size grows by the transformed
  length: as a 64-bit counter, and exactly while it does not wrap. *)
Theorem Transform_order io InOffset OutOffset Length s g :
  m_isInitialized s = true →
  m_gcmHash s = Some g →
  0 ≤ InOffset → 0 ≤ Length → InOffset + Length ≤ size (Input_of io) →
  0 ≤ OutOffset → OutOffset + Length ≤ size (Output_of io) →
  size (Input_of io) < 2 ^ 64 → size (Output_of io) < 2 ^ 64 →
  ∃ cm out s',
    CTR.Transform (Input_of io) InOffset (Output_of io) OutOffset Length (m_cipherMode s)
    = Ok (cm, out)
    ∧ Transform bld io InOffset OutOffset Length s = Ok (s', with_Output out io)
    ∧ m_cipherMode s' = cm
    ∧ (m_isEncryption s = true →
       GHASH.Update out OutOffset (m_checkSum s) Length g
       = Ok (GHASH.update_bytes (range_of out OutOffset Length) (m_checkSum s) g)
       ∧ m_gcmHash s'
         = Some (GHASH.update_bytes (range_of out OutOffset Length) (m_checkSum s) g).1
       ∧ m_checkSum s'
         = (GHASH.update_bytes (range_of out OutOffset Length) (m_checkSum s) g).2)
    ∧ (m_isEncryption s = false →
       GHASH.Update (Input_of io) InOffset (m_checkSum s) Length g
       = Ok (GHASH.update_bytes (range_of (Input_of io) InOffset Length) (m_checkSum s) g)
       ∧ m_gcmHash s'
         = Some (GHASH.update_bytes (range_of (Input_of io) InOffset Length)
                   (m_checkSum s) g).1
       ∧ m_checkSum s'
         = (GHASH.update_bytes (range_of (Input_of io) InOffset Length)
              (m_checkSum s) g).2)
    ∧ m_msgSize s' = size_t (m_msgSize s + Length)
    ∧ (0 ≤ m_msgSize s → m_msgSize s + Length < 2 ^ 64 →
       m_msgSize s' = m_msgSize s + Length).
Proof.
intros Hi Hg H1 H2 H3 H4 H5 H6 H7.
pose proof (Transform_Ok io InOffset OutOffset Length s g Hi Hg H1 H2 H3 H4 H5 H6 H7) as HT.
cbv zeta in HT.
eexists _, _, _. split; [apply CTR_Transform_Ok; assumption|].
split; [exact HT|]. split; [reflexivity|].
cbn [transformed m_gcmHash m_checkSum m_msgSize]. unfold absorbed.
split; [|split; [|split]].
- intros He. rewrite He, CTR_Transform_range by assumption.
  split; [|split; reflexivity].
  unfold GHASH.Update. rewrite vec_range_Ok by (rewrite ?size_inserts; lia).
  rewrite bind_ret. f_equal. f_equal. apply CTR_Transform_range; assumption.
- intros He. rewrite He. split; [|split; reflexivity].
  unfold GHASH.Update. rewrite vec_range_Ok by lia. reflexivity.
- reflexivity.
- intros Hm Hs. apply size_t_small. lia.
Qed.

End Transform.

End GCM_Transform.

(** ** GCM: CalculateMac, Finalize and Verify *)
Module GCM_Mac.

Import SymmetricKey GCM GCM_Counter GCM_Initialize GCM_Transform.

Lemma le_increment_length bs : length (IntUtils.le_increment bs) = length bs.
Proof.
induction bs as [|b bs IH]; simpl; [reflexivity|].
destruct (uchar (b + 1) =? 0); simpl; [rewrite IH|]; reflexivity.
Qed.

Lemma le_increment_changes bs : bs ≠ [] → IntUtils.le_increment bs ≠ bs.
Proof.
destruct bs as [|b bs]; [congruence|]. intros _. simpl.
destruct (uchar (b + 1) =? 0) eqn:Hb; intros [= Heq].
- apply Z.eqb_eq in Hb. subst b. discriminate Hb.
- unfold uchar in Heq. pose proof (Z.mod_pos_bound (b + 1) (2 ^ 8) ltac:(lia)) as Hm.
  rewrite Heq in Hm. apply Z.eqb_neq in Hb. unfold uchar in Hb.
  destruct (decide (b + 1 < 2 ^ 8)) as [Hlt|Hge].
  + rewrite Z.mod_small in Heq by lia. lia.
  + assert (b = 2 ^ 8 - 1) as -> by lia. apply Hb. reflexivity.
Qed.

Lemma BeIncrement8_size bs : size (IntUtils.BeIncrement8 bs) = size bs.
Proof.
unfold IntUtils.BeIncrement8, size.
rewrite length_reverse, le_increment_length, length_reverse. reflexivity.
Qed.

Lemma BeIncrement8_changes bs : 0 < size bs → IntUtils.BeIncrement8 bs ≠ bs.
Proof.
intros Hs Heq. unfold IntUtils.BeIncrement8 in Heq.
apply (le_increment_changes (reverse bs)).
- intros Hnil. apply (f_equal length) in Hnil. rewrite length_reverse in Hnil.
  unfold size in Hs. simpl in Hnil. lia.
- rewrite <- Heq at 2. rewrite reverse_involutive. reflexivity.
Qed.

Lemma XorBlock_16 (gv cs : list byte) :
  length gv = 16%nat → length cs = 16%nat →
  MemUtils.XorBlock gv 0 cs 0 BLOCK_SIZE = Ok (MemUtils.xor_bytes cs gv).
Proof.
intros Hg Hc. unfold MemUtils.XorBlock, BLOCK_SIZE.
rewrite !vec_range_Ok by (unfold size; lia). rewrite !bind_ret.
change (Z.to_nat 0) with 0%nat. change (Z.to_nat 16) with 16%nat.
rewrite !drop_0, !take_ge by lia.
rewrite vec_write_Ok by (unfold size; rewrite ?xor_bytes_length' by lia; lia).
change (Z.to_nat 0) with 0%nat.
rewrite list_inserts_all by (rewrite xor_bytes_length' by lia; reflexivity).
reflexivity.
Qed.

Lemma Copy_16 (src dst : list byte) :
  length src = 16%nat → length dst = 16%nat →
  MemUtils.Copy src 0 dst 0 16 = Ok src.
Proof.
intros Hs Hd. unfold MemUtils.Copy.
rewrite vec_range_Ok by (unfold size; lia). rewrite bind_ret.
change (Z.to_nat 0) with 0%nat. change (Z.to_nat 16) with 16%nat.
rewrite drop_0, take_ge by lia.
rewrite vec_write_Ok by (unfold size; lia).
change (Z.to_nat 0) with 0%nat. rewrite list_inserts_all by lia. reflexivity.
Qed.

Section Mac.

Context {BC : IBlockCipher} {GH : GHASH.Impl}.
Variable bld : build.

(** the tag of an instance: the checksum closed by the block of the two
  lengths, XOR E_K(J0) *)
Definition mac_tag (g : GHASH.t) (s : GCM) : list byte :=
MemUtils.xor_bytes
  (GHASH.finalize_block (m_checkSum s) (m_aadSize s) (m_msgSize s) g).2 (m_gcmVector s).

Definition tagged (g : GHASH.t) (s : GCM) : GCM :=
{| m_aadData := m_aadData s;
   m_aadLoaded := m_aadLoaded s;
   m_aadPreserve := m_aadPreserve s;
   m_aadSize := m_aadSize s;
   m_autoIncrement := m_autoIncrement s;
   m_checkSum := mac_tag g s;
   m_cipherMode := m_cipherMode s;
   m_gcmHash :=
     Some (GHASH.finalize_block (m_checkSum s) (m_aadSize s) (m_msgSize s) g).1;
   m_gcmKey := m_gcmKey s;
   m_gcmNonce := m_gcmNonce s;
   m_gcmVector := m_gcmVector s;
   m_isEncryption := m_isEncryption s;
   m_isFinalized := m_isFinalized s;
   m_isInitialized := m_isInitialized s;
   m_legalKeySizes := m_legalKeySizes s;
   m_msgSize := m_msgSize s;
   m_msgTag := mac_tag g s;
   m_parallelProfile := m_parallelProfile s |}.

Lemma mac_tag_length g s :
  length (m_checkSum s) = 16%nat → length (m_gcmVector s) = 16%nat →
  length (mac_tag g s) = 16%nat.
Proof.
intros Hc Hv. unfold mac_tag.
pose proof (GHASH.finalize_length (m_checkSum s) (m_aadSize s) (m_msgSize s) g Hc) as Hf.
rewrite xor_bytes_length' by lia. exact Hf.
Qed.

Lemma CalculateMac_tag_Ok s g :
  m_gcmHash s = Some g →
  length (m_checkSum s) = 16%nat → length (m_gcmVector s) = 16%nat →
  length (m_msgTag s) = 16%nat →
  CalculateMac_tag s = Ok (tagged g s).
Proof.
intros Hg Hc Hv Ht. unfold CalculateMac_tag. rewrite Hg. cbn [deref]. rewrite bind_ret.
unfold GHASH.FinalizeBlock, tagged.
pose proof (mac_tag_length g s Hc Hv) as Hm. unfold mac_tag in *.
pose proof (GHASH.finalize_length (m_checkSum s) (m_aadSize s) (m_msgSize s) g Hc) as Hf.
destruct (GHASH.finalize_block (m_checkSum s) (m_aadSize s) (m_msgSize s) g) as [g' cs'].
cbn [fst snd] in *.
rewrite XorBlock_16, bind_ret by assumption.
rewrite Copy_16, bind_ret by assumption. reflexivity.
Qed.

(** the instance [Reset] leaves *)
Definition after_reset (g : GHASH.t) (s : GCM) : GCM :=
{| m_aadData := if negb (m_aadPreserve s) && negb (m_aadSize s =? 0)
                then replicate (length (m_aadData s)) 0 else m_aadData s;
   m_aadLoaded := if negb (m_aadPreserve s) then false else m_aadLoaded s;
   m_aadPreserve := m_aadPreserve s;
   m_aadSize := if negb (m_aadPreserve s) then 0 else m_aadSize s;
   m_autoIncrement := m_autoIncrement s;
   m_checkSum := replicate (length (m_checkSum s)) 0;
   m_cipherMode := m_cipherMode s;
   m_gcmHash := Some (GHASH.Reset g);
   m_gcmKey := m_gcmKey s;
   m_gcmNonce := m_gcmNonce s;
   m_gcmVector := replicate (length (m_gcmVector s)) 0;
   m_isEncryption := m_isEncryption s;
   m_isFinalized := m_isFinalized s;
   m_isInitialized := false;
   m_legalKeySizes := m_legalKeySizes s;
   m_msgSize := 0;
   m_msgTag := m_msgTag s;
   m_parallelProfile := m_parallelProfile s |}.

Lemma Reset_Ok s g : m_gcmHash s = Some g → Reset s = Ok (after_reset g s).
Proof.
intros Hg. unfold Reset, after_reset. rewrite Hg. cbn [deref].
rewrite !Clear_all_Ok.
destruct (negb (m_aadPreserve s) && negb (m_aadSize s =? 0)); rewrite !bind_ret;
  reflexivity.
Qed.

(** the instance [reabsorb_aad] leaves *)
Definition reabsorbed (g : GHASH.t) (s : GCM) : GCM :=
{| m_aadData := m_aadData s;
   m_aadLoaded := m_aadLoaded s;
   m_aadPreserve := m_aadPreserve s;
   m_aadSize := m_aadSize s;
   m_autoIncrement := m_autoIncrement s;
   m_checkSum := (GHASH.segment_bytes (m_aadData s) (m_checkSum s) g).2;
   m_cipherMode := m_cipherMode s;
   m_gcmHash := Some (GHASH.segment_bytes (m_aadData s) (m_checkSum s) g).1;
   m_gcmKey := m_gcmKey s;
   m_gcmNonce := m_gcmNonce s;
   m_gcmVector := m_gcmVector s;
   m_isEncryption := m_isEncryption s;
   m_isFinalized := m_isFinalized s;
   m_isInitialized := m_isInitialized s;
   m_legalKeySizes := m_legalKeySizes s;
   m_msgSize := m_msgSize s;
   m_msgTag := m_msgTag s;
   m_parallelProfile := m_parallelProfile s |}.

Lemma reabsorb_aad_Ok s g : m_gcmHash s = Some g → reabsorb_aad s = Ok (reabsorbed g s).
Proof.
intros Hg. unfold reabsorb_aad, reabsorbed, GHASH.ProcessSegment. rewrite Hg. cbn [deref].
rewrite vec_range_all, !bind_ret.
destruct (GHASH.segment_bytes (m_aadData s) (m_checkSum s) g) as [g' cs']. reflexivity.
Qed.

(** what an instance that went through [Initialize] keeps true *)
Definition ready (s : GCM) : Prop :=
is_Some (m_gcmHash s)
∧ length (m_checkSum s) = 16%nat
∧ length (m_gcmVector s) = 16%nat
∧ length (m_msgTag s) = 16%nat
∧ CTR.m_isInitialized (m_cipherMode s) = true
∧ 8 ≤ size (m_gcmNonce s)
∧ check_profile "GCM:Initialize" (m_parallelProfile s) = Ok ().

(** the hash of a ready instance *)
Definition hash_of (s : GCM) : GHASH.t :=
default (GHASH.create []) (m_gcmHash s).

Lemma ready_hash s : ready s → m_gcmHash s = Some (hash_of s).
Proof. intros ([g Hg] & _). unfold hash_of. rewrite Hg. reflexivity. Qed.

(** the next nonce of an auto-incrementing instance *)
Definition next_nonce (s : GCM) : SymmetricKey :=
{| SymmetricKey.m_info := [];
   SymmetricKey.m_isDestroyed := false;
   SymmetricKey.m_key := [];
   SymmetricKey.m_keySizes :=
     {| KeySize := size (@nil byte);
        NonceSize := size (IntUtils.BeIncrement8 (m_gcmNonce s));
        InfoSize := 0 |};
   SymmetricKey.m_nonce := IntUtils.BeIncrement8 (m_gcmNonce s) |}.

(** the instance [CalculateMac] leaves *)
Definition mac_done (s : GCM) : GCM :=
let g := hash_of s in
let s1 := tagged g s in
let s2 := after_reset (hash_of s1) s1 in
finalized
  (if m_autoIncrement s then
     let s3 := initialized (m_isEncryption s) (m_gcmKey s)
                 (IntUtils.BeIncrement8 (m_gcmNonce s)) (hash_of s2) s2 in
     if m_aadPreserve s then reabsorbed (hash_of s3) s3 else s3
   else s2).

Lemma CalculateMac_Ok s : ready s → CalculateMac s = Ok (mac_done s).
Proof.
intros Hr. pose proof (ready_hash s Hr) as Hg.
destruct Hr as (_ & Hc & Hv & Ht & Hctr & Hn & Hp).
unfold CalculateMac, mac_done. cbv zeta.
rewrite (CalculateMac_tag_Ok s (hash_of s)), bind_ret by assumption.
set (s1 := tagged (hash_of s) s).
rewrite (Reset_Ok s1 (hash_of s1)), bind_ret by reflexivity.
set (s2 := after_reset (hash_of s1) s1).
change (m_autoIncrement s2) with (m_autoIncrement s).
destruct (m_autoIncrement s); [|rewrite bind_ret; reflexivity].
cbv zeta. unfold SymmetricKey2.
replace (size (IntUtils.BeIncrement8 (m_gcmNonce s2)) =? 0) with false
  by (symmetry; apply Z.eqb_neq; rewrite BeIncrement8_size; simpl; lia).
rewrite andb_false_r. cbn [throw_if]. rewrite bind_ret, bind_ret.
change (m_gcmNonce s2) with (m_gcmNonce s).
fold (next_nonce s).
rewrite (Initialize_rekeyed _ (next_nonce s) s2 (hash_of s2)).
- rewrite bind_ret.
  change (m_isEncryption s2) with (m_isEncryption s).
  change (m_gcmKey s2) with (m_gcmKey s).
  change (Nonce (next_nonce s)) with (IntUtils.BeIncrement8 (m_gcmNonce s)).
  set (s3 := initialized _ _ _ _ s2).
  change (m_aadPreserve s3) with (m_aadPreserve s).
  destruct (m_aadPreserve s).
  + rewrite (reabsorb_aad_Ok s3 (hash_of s3)) by reflexivity. reflexivity.
  + reflexivity.
- cbn [Nonce next_nonce SymmetricKey.m_nonce]. rewrite BeIncrement8_size. exact Hn.
- reflexivity.
- cbn [Nonce next_nonce SymmetricKey.m_nonce]. change (m_gcmNonce s2) with (m_gcmNonce s).
  apply BeIncrement8_changes. lia.
- exact Hctr.
- reflexivity.
- exact Hp.
Qed.

Lemma first_counter_hash nonce g : is_Some (Some (first_counter nonce g).1).
Proof. eexists. reflexivity. Qed.

(** [CalculateMac] keeps an instance ready *)
Lemma mac_done_ready s : ready s → ready (mac_done s).
Proof.
intros (Hg & Hc & Hv & Ht & Hctr & Hn & Hp).
pose proof (mac_tag_length (hash_of s) s Hc Hv) as Hm.
unfold mac_done. cbv zeta.
destruct (m_autoIncrement s); [destruct (m_aadPreserve s)|].
- unfold ready. cbn.
  split; [eexists; reflexivity|].
  split; [apply GHASH.segment_length; rewrite length_replicate; exact Hm|].
  split; [apply Engine_Transform_length|].
  split; [destruct (m_isFinalized s); rewrite ?length_replicate; exact Hm|].
  split; [reflexivity|]. split; [rewrite BeIncrement8_size; exact Hn | exact Hp].
- unfold ready. cbn.
  split; [eexists; reflexivity|].
  split; [rewrite length_replicate; exact Hm|].
  split; [apply Engine_Transform_length|].
  split; [destruct (m_isFinalized s); rewrite ?length_replicate; exact Hm|].
  split; [reflexivity|]. split; [rewrite BeIncrement8_size; exact Hn | exact Hp].
- unfold ready. cbn.
  split; [eexists; reflexivity|].
  split; [rewrite length_replicate; exact Hm|].
  split; [rewrite length_replicate; exact Hv|].
  split; [exact Hm|]. split; [exact Hctr|]. split; [exact Hn | exact Hp].
Qed.

(** the tag [CalculateMac] leaves in [m_msgTag] *)
Lemma mac_done_tag s :
  m_isFinalized s = false ∨ m_autoIncrement s = false →
  m_msgTag (mac_done s) = mac_tag (hash_of s) s.
Proof.
intros Hf. unfold mac_done. cbv zeta.
destruct (m_autoIncrement s) eqn:Ha; [|reflexivity].
destruct Hf as [Hf|Hf]; [|discriminate].
destruct (m_aadPreserve s); cbn; rewrite Hf; reflexivity.
Qed.

Lemma mac_done_flags s :
  m_isFinalized (mac_done s) = true
  ∧ m_isInitialized (mac_done s) = m_autoIncrement s
  ∧ m_isEncryption (mac_done s) = m_isEncryption s
  ∧ m_autoIncrement (mac_done s) = m_autoIncrement s.
Proof.
unfold mac_done. cbv zeta.
destruct (m_autoIncrement s) eqn:Ha; [destruct (m_aadPreserve s)|]; cbn;
  rewrite ?Ha; repeat split; reflexivity.
Qed.

(** [Initialize] makes an instance ready *)
Lemma initialized_ready Encryption key nonce g s :
  8 ≤ size nonce →
  check_profile "GCM:Initialize" (m_parallelProfile s) = Ok () →
  length (m_checkSum s) = 16%nat → length (m_msgTag s) = 16%nat →
  ready (initialized Encryption key nonce g s).
Proof.
intros Hn Hp Hc Ht. unfold ready, initialized. cbn.
split; [eexists; reflexivity|]. split; [exact Hc|].
split; [apply Engine_Transform_length|].
split; [destruct (m_isFinalized s); rewrite ?length_replicate; exact Ht|].
repeat split; assumption.
Qed.

Lemma with_aad_ready aad g s : ready s → m_gcmHash s = Some g → ready (with_aad aad g s).
Proof.
intros (Hg & Hc & Hv & Ht & Hctr & Hn & Hp) _. unfold ready, with_aad. cbn.
split; [eexists; reflexivity|].
split; [apply GHASH.segment_length; exact Hc|]. repeat split; assumption.
Qed.

Lemma transformed_ready Length g data s :
  ready s →
  ready (transformed (ctr_after Length (m_cipherMode s))
           (GHASH.update_bytes data (m_checkSum s) g).1
           (GHASH.update_bytes data (m_checkSum s) g).2 Length s).
Proof.
intros (Hg & Hc & Hv & Ht & Hctr & Hn & Hp). unfold ready, transformed. cbn.
split; [eexists; reflexivity|].
split; [apply GHASH.update_length; exact Hc|]. repeat split; assumption.
Qed.

(** *** The comparison of the tag *)

Lemma lor_fold_zero (l : list Z) : foldr Z.lor 0 l = 0 ↔ Forall (λ x, x = 0) l.
Proof.
induction l as [|x l IH]; simpl.
- split; [constructor | reflexivity].
- rewrite Z.lor_eq_0_iff, IH. split.
  + intros [-> Hl]. constructor; [reflexivity | exact Hl].
  + intros Hl. inversion Hl; subst. split; [reflexivity | assumption].
Qed.

Lemma xor_all_zero (a b : list Z) :
  length a = length b → Forall (λ x, x = 0) (zip_with Z.lxor a b) ↔ a = b.
Proof.
revert b. induction a as [|x a IH]; intros [|y b] Hl; simpl in *; try discriminate.
- split; [reflexivity | constructor].
- injection Hl as Hl. split.
  + intros HF. inversion HF as [|? ? Hxy Hab]; subst.
    apply Z.lxor_eq in Hxy. apply IH in Hab; [|exact Hl]. congruence.
  + intros [= -> ->]. constructor; [apply Z.lxor_nilpotent|].
    apply IH; [exact Hl | reflexivity].
Qed.

Lemma Compare_Ok (A B : list byte) AOffset BOffset Length :
  0 ≤ AOffset → 0 ≤ BOffset → 0 ≤ Length →
  AOffset + Length ≤ size A → BOffset + Length ≤ size B →
  IntUtils.Compare A AOffset B BOffset Length
  = Ok (bool_decide (range_of A AOffset Length = range_of B BOffset Length)).
Proof.
intros H1 H2 H3 H4 H5. unfold IntUtils.Compare.
rewrite !vec_range_Ok, !bind_ret by lia.
fold (range_of A AOffset Length) (range_of B BOffset Length). f_equal.
pose proof (range_of_size A AOffset Length H1 H3 H4) as Ha.
pose proof (range_of_size B BOffset Length H2 H3 H5) as Hb.
assert (Hl : length (range_of A AOffset Length) = length (range_of B BOffset Length))
  by (unfold size in *; lia).
destruct (bool_decide_reflect (range_of A AOffset Length = range_of B BOffset Length))
  as [Heq|Hne].
- apply Z.eqb_eq, lor_fold_zero, xor_all_zero; assumption.
- apply Z.eqb_neq. intros Hz. apply Hne.
  apply lor_fold_zero, xor_all_zero in Hz; assumption.
Qed.

(** *** Finalize and Verify on a ready instance *)

Lemma Finalize_Ok Output Offset Length s :
  ready s → m_isInitialized s = true →
  12 ≤ Length ≤ 16 → 0 ≤ Offset → Offset + Length ≤ size Output →
  Finalize Output Offset Length s
  = Ok (mac_done s,
        list_inserts (Z.to_nat Offset) (range_of (m_msgTag (mac_done s)) 0 Length) Output).
Proof.
intros Hr Hi HL H1 H2. unfold Finalize. rewrite Hi. cbn [negb throw_if]. rewrite bind_ret.
unfold MIN_TAGSIZE, BLOCK_SIZE.
replace (Length <? 12) with false by (symmetry; apply Z.ltb_ge; lia).
replace (16 <? Length) with false by (symmetry; apply Z.ltb_ge; lia).
cbn [orb throw_if]. rewrite bind_ret.
rewrite CalculateMac_Ok, bind_ret by exact Hr.
destruct (mac_done_ready s Hr) as (_ & _ & _ & Ht & _).
unfold MemUtils.Copy. rewrite vec_range_Ok by (unfold size; lia).
rewrite bind_ret. fold (range_of (m_msgTag (mac_done s)) 0 Length).
rewrite vec_write_Ok; [reflexivity | lia |].
rewrite range_of_size by (unfold size; lia). lia.
Qed.

Lemma Verify_Ok Input Offset Length s :
  ready s → m_isEncryption s = false →
  m_isInitialized s = true ∨ m_isFinalized s = true →
  12 ≤ Length ≤ 16 → 0 ≤ Offset → Offset + Length ≤ size Input →
  let s' := if m_isFinalized s then s else mac_done s in
  Verify Input Offset Length s
  = Ok (s', bool_decide (range_of (m_msgTag s') 0 Length = range_of Input Offset Length)).
Proof.
intros Hr He Hi HL H1 H2 s'. unfold Verify. rewrite He. cbn [throw_if]. rewrite bind_ret.
replace (negb (m_isInitialized s) && negb (m_isFinalized s)) with false
  by (destruct Hi as [-> | ->]; rewrite ?andb_false_r; reflexivity).
cbn [throw_if]. rewrite bind_ret.
unfold MIN_TAGSIZE, BLOCK_SIZE.
replace (Length <? 12) with false by (symmetry; apply Z.ltb_ge; lia).
replace (16 <? Length) with false by (symmetry; apply Z.ltb_ge; lia).
cbn [orb throw_if]. rewrite bind_ret.
assert (Hs' : (if negb (m_isFinalized s) then CalculateMac s else Ok s) = Ok s'
              ∧ length (m_msgTag s') = 16%nat).
{ unfold s'. destruct (m_isFinalized s); cbn [negb].
  - split; [reflexivity|]. apply Hr.
  - split; [apply CalculateMac_Ok; exact Hr|]. apply (mac_done_ready s Hr). }
destruct Hs' as [-> Ht]. rewrite bind_ret.
rewrite Compare_Ok by (unfold size in *; lia). reflexivity.
Qed.

End Mac.

End GCM_Mac.

(** ** GCM: which calls throw what *)
Module GCM_Errors.

Import SymmetricKey GCM GCM_Counter GCM_Initialize GCM_Transform GCM_Mac.

(** an outcome that is a throw of an exception in [P] *)
Definition throws {A} (P : exn → bool) (r : result A) : bool :=
match r with
| Throw e => P e
| _ => false
end.

Definition any_exn (e : exn) : bool := true.

Definition CipherMode_exn (e : exn) : bool :=
match e with
| CryptoCipherModeException _ _ => true
| _ => false
end.

Lemma is_Throw_throws {A} (r : result A) : is_Throw r = throws any_exn r.
Proof. destruct r; reflexivity. Qed.

Lemma is_CipherMode_throws {A} (r : result A) : is_CipherMode r = throws CipherMode_exn r.
Proof. destruct r as [| [] | |]; reflexivity. Qed.

Create HintDb quiet.

Lemma throws_bind {A B} P (m : result A) (f : A → result B) :
  throws P m = false → (∀ a, throws P (f a) = false) → throws P (m ≫= f) = false.
Proof. destruct m; simpl; auto. Qed.

Lemma throws_throw_if P c e : P e = false → throws P (throw_if c e) = false.
Proof. destruct c; simpl; auto. Qed.

Lemma throws_vec_range {A} P (v : list A) off len : throws P (vec_range v off len) = false.
Proof. unfold vec_range. case_bool_decide; reflexivity. Qed.

Lemma throws_vec_write {A} P (v : list A) off data : throws P (vec_write v off data) = false.
Proof. unfold vec_write. case_bool_decide; reflexivity. Qed.

Lemma throws_deref {A} P (p : option A) : throws P (deref p) = false.
Proof. destruct p; reflexivity. Qed.

Lemma throws_CEXASSERT P bld c msg : throws P (CEXASSERT bld c msg) = false.
Proof. destruct bld, c; reflexivity. Qed.

#[export] Hint Resolve throws_vec_range throws_vec_write throws_deref throws_CEXASSERT
  : quiet.

(** one step through a call: a bind, a branch, a pair taken apart *)
Ltac quiet_step :=
  match goal with
  | |- throws _ (Ok _) = false => reflexivity
  | |- throws _ Fault = false => reflexivity
  | |- throws _ (_ ≫= _) = false => apply throws_bind; [|intros ?]
  | |- throws _ (throw_if _ _) = false => apply throws_throw_if; reflexivity
  | |- throws _ (if ?c then _ else _) = false => destruct c
  | |- throws _ (match ?p with (_, _) => _ end) = false => destruct p
  | |- _ => solve [auto with quiet]
  end.

Ltac quiet := cbv zeta; repeat quiet_step.

Lemma throws_Copy {A} P (Input : list A) InOffset Output OutOffset Length :
  throws P (MemUtils.Copy Input InOffset Output OutOffset Length) = false.
Proof. unfold MemUtils.Copy. quiet. Qed.

Lemma throws_Clear P Output Offset Length :
  throws P (MemUtils.Clear Output Offset Length) = false.
Proof. unfold MemUtils.Clear. case_bool_decide; quiet. Qed.

Lemma throws_XorBlock P Input InOffset Output OutOffset Length :
  throws P (MemUtils.XorBlock Input InOffset Output OutOffset Length) = false.
Proof. unfold MemUtils.XorBlock. quiet. Qed.

Lemma throws_Compare P (A B : list byte) AOffset BOffset Length :
  throws P (IntUtils.Compare A AOffset B BOffset Length) = false.
Proof. unfold IntUtils.Compare. quiet. Qed.

Lemma throws_BeBytesTo64 P Input InOffset :
  throws P (IntUtils.BeBytesTo64 Input InOffset) = false.
Proof. unfold IntUtils.BeBytesTo64. quiet. Qed.

#[export] Hint Resolve throws_Copy throws_Clear throws_XorBlock throws_Compare
  throws_BeBytesTo64 : quiet.

Lemma throws_check_profile origin p :
  throws CipherMode_exn (check_profile origin p) = false.
Proof. unfold check_profile, size_t_rem. quiet. Qed.

Lemma throws_SymmetricKey2 key nonce :
  throws CipherMode_exn (SymmetricKey2 key nonce) = false.
Proof. unfold SymmetricKey2. quiet. Qed.

#[export] Hint Resolve throws_check_profile throws_SymmetricKey2 : quiet.

Section Errors.

Context {BC : IBlockCipher} {GH : GHASH.Impl}.

Lemma throws_CTR_Transform P Input InOffset Output OutOffset Length c :
  throws P (CTR.Transform Input InOffset Output OutOffset Length c) = false.
Proof. unfold CTR.Transform. quiet. Qed.

Lemma throws_GHASH_Update P Input InOffset Output Length g :
  throws P (GHASH.Update Input InOffset Output Length g) = false.
Proof. unfold GHASH.Update. quiet. Qed.

Lemma throws_GHASH_ProcessSegment P Input InOffset Output Length g :
  throws P (GHASH.ProcessSegment Input InOffset Output Length g) = false.
Proof. unfold GHASH.ProcessSegment. quiet. Qed.

#[local] Hint Resolve throws_CTR_Transform throws_GHASH_Update throws_GHASH_ProcessSegment
  : quiet.


Lemma throws_Initialize Encryption kp s :
  throws CipherMode_exn (Initialize Encryption kp s) = false.
Proof.
unfold Initialize, Initialize_key, Initialize_vector, GHASH.FinalizeBlock. quiet.
Qed.

Lemma throws_Reset s : throws CipherMode_exn (Reset s) = false.
Proof. unfold Reset. quiet. Qed.

Lemma throws_CalculateMac_tag s : throws CipherMode_exn (CalculateMac_tag s) = false.
Proof. unfold CalculateMac_tag, GHASH.FinalizeBlock. quiet. Qed.

Lemma throws_reabsorb_aad s : throws CipherMode_exn (reabsorb_aad s) = false.
Proof. unfold reabsorb_aad. quiet. Qed.

#[local] Hint Resolve throws_Initialize throws_Reset throws_CalculateMac_tag
  throws_reabsorb_aad : quiet.

(** the exceptions of [CalculateMac] are those of the [Initialize] of an
  auto-incrementing instance: none is a cipher-mode exception *)
Lemma throws_CalculateMac s : throws CipherMode_exn (CalculateMac s) = false.
Proof. unfold CalculateMac. quiet. Qed.

#[local] Hint Resolve throws_CalculateMac : quiet.

(** the two guards [Finalize] and [Verify] share *)
Lemma length_guard Length :
  (Length <? MIN_TAGSIZE) || (BLOCK_SIZE <? Length) = true ↔ Length < 12 ∨ 16 < Length.
Proof.
unfold MIN_TAGSIZE, BLOCK_SIZE. rewrite orb_true_iff, !Z.ltb_lt. reflexivity.
Qed.

Lemma Verify_CipherMode Input Offset Length s :
  is_CipherMode (Verify Input Offset Length s) = true
  ↔ m_isEncryption s = true
    ∨ (m_isInitialized s = false ∧ m_isFinalized s = false)
    ∨ Length < 12 ∨ 16 < Length.
Proof.
rewrite is_CipherMode_throws. unfold Verify.
destruct (m_isEncryption s); [simpl; tauto|].
cbn [throw_if]. rewrite bind_ret.
destruct (m_isInitialized s) eqn:Hi, (m_isFinalized s) eqn:Hf; cbn [negb andb throw_if];
  try (simpl; tauto); rewrite bind_ret;
  (destruct ((Length <? MIN_TAGSIZE) || (BLOCK_SIZE <? Length)) eqn:HL;
   [ apply length_guard in HL; simpl; tauto
   | assert (HL' : ¬ (Length < 12 ∨ 16 < Length))
       by (rewrite <- length_guard, HL; discriminate);
     cbn [throw_if]; rewrite bind_ret;
     match goal with
     | |- throws _ ?r = true ↔ _ =>
         assert (Hq : throws CipherMode_exn r = false) by quiet; rewrite Hq
     end;
     split; [discriminate | intros [? | [[? ?] | ?]]; try discriminate; tauto] ]).
Qed.

Lemma Finalize_CipherMode Output Offset Length s :
  is_CipherMode (Finalize Output Offset Length s) = true
  ↔ m_isInitialized s = false ∨ Length < 12 ∨ 16 < Length.
Proof.
rewrite is_CipherMode_throws. unfold Finalize.
destruct (m_isInitialized s) eqn:Hi; cbn [negb throw_if]; [|simpl; tauto].
rewrite bind_ret.
destruct ((Length <? MIN_TAGSIZE) || (BLOCK_SIZE <? Length)) eqn:HL.
- apply length_guard in HL. simpl. tauto.
- assert (HL' : ¬ (Length < 12 ∨ 16 < Length))
    by (rewrite <- length_guard, HL; discriminate).
  cbn [throw_if]. rewrite bind_ret.
  match goal with
  | |- throws _ ?r = true ↔ _ =>
      assert (Hq : throws CipherMode_exn r = false) by quiet; rewrite Hq
  end.
  split; [discriminate | intros [? | ?]; [discriminate | tauto]].
Qed.

(** X5. [Verify] throws a cipher-mode exception exactly when the
  instance is set for encryption, or is neither initialized nor
  finalized, or the tag length is outside [12, 16]; [Finalize] throws
  one exactly when the instance is not initialized or the length is
  outside the same range. Past its guards, on a decrypting instance
  that went through [Initialize] and with the tag within its array,
  [Verify] returns: it gives back a boolean that is true when the first
  [Length] bytes of the computed tag equal the bytes handed in and
  false when they differ; a mismatch is not an exception. *)
Theorem Verify_outcomes Input Output Offset Length s :
  (is_CipherMode (Verify Input Offset Length s) = true
   ↔ m_isEncryption s = true
     ∨ (m_isInitialized s = false ∧ m_isFinalized s = false)
     ∨ Length < 12 ∨ 16 < Length)
  ∧ (is_CipherMode (Finalize Output Offset Length s) = true
     ↔ m_isInitialized s = false ∨ Length < 12 ∨ 16 < Length)
  ∧ (ready s → m_isEncryption s = false →
     m_isInitialized s = true ∨ m_isFinalized s = true →
     12 ≤ Length ≤ 16 → 0 ≤ Offset → Offset + Length ≤ size Input →
     let tag := if m_isFinalized s then m_msgTag s else mac_tag (hash_of s) s in
     ∃ s' b,
       Verify Input Offset Length s = Ok (s', b)
       ∧ (range_of tag 0 Length = range_of Input Offset Length → b = true)
       ∧ (range_of tag 0 Length ≠ range_of Input Offset Length → b = false)).
Proof.
split; [apply Verify_CipherMode|]. split; [apply Finalize_CipherMode|].
intros Hr He Hi HL H1 H2 tag.
pose proof (Verify_Ok Input Offset Length s Hr He Hi HL H1 H2) as HV. cbv zeta in HV.
assert (Htag : m_msgTag (if m_isFinalized s then s else mac_done s) = tag).
{ unfold tag. destruct (m_isFinalized s) eqn:Hf; [reflexivity|].
  apply mac_done_tag. left. exact Hf. }
rewrite Htag in HV. eexists _, _. split; [exact HV|]. split.
- intros Heq. apply bool_decide_eq_true_2. exact Heq.
- intros Hne. apply bool_decide_eq_false_2. exact Hne.
Qed.

(** *** After Finalize *)






End Errors.

#[export] Hint Resolve throws_CTR_Transform throws_GHASH_Update throws_GHASH_ProcessSegment
  throws_Initialize throws_Reset throws_CalculateMac_tag throws_reabsorb_aad
  throws_CalculateMac : quiet.

End GCM_Errors.

(** ** GCM: encrypt, decrypt, verify *)
Module GCM_RoundTrip.

Import SymmetricKey GCM GCM_Counter GCM_Initialize GCM_Transform GCM_Mac.

Section RoundTrip.

Context {BC : IBlockCipher} {GH : GHASH.Impl}.
Variable bld : build.

(** an instance with no message under way: as constructed, or as a
  completed cycle without preserved associated data leaves it *)
Definition clean (s : GCM) : Prop :=
m_aadLoaded s = false
∧ m_checkSum s = ZEROES
∧ m_msgSize s = 0
∧ length (m_msgTag s) = 16%nat.

Lemma GCM_new_clean profile auto preserve :
  clean (set_AutoIncrement auto (set_PreserveAD preserve (GCM_new profile))).
Proof. repeat split. Qed.

Lemma range_of_all (v : list byte) : range_of v 0 (size v) = v.
Proof.
unfold range_of, size. rewrite Nat2Z.id. change (Z.to_nat 0) with 0%nat.
rewrite drop_0. apply firstn_all.
Qed.

Lemma range_of_inserts (data v : list byte) :
  size data ≤ size v → range_of (list_inserts 0 data v) 0 (size data) = data.
Proof.
intros Hs. unfold range_of, size in *. rewrite Nat2Z.id. change (Z.to_nat 0) with 0%nat.
apply range_of_write. lia.
Qed.

(** the instance after [Initialize], [SetAssociatedData] of all of [a]
  and the [Transform] of a message under key stream [ks] that has the
  hash absorb [data] *)
Definition loaded (Encryption : bool) (kp : SymmetricKey) (a data : list byte)
  (Length : Z) (s0 : GCM) : GCM :=
let s1 := initialized Encryption (Key kp) (Nonce kp) (GHASH.create (hash_key (Key kp))) s0 in
let s2 := with_aad a (hash_of s1) s1 in
transformed (ctr_after Length (m_cipherMode s2))
  (GHASH.update_bytes data (m_checkSum s2) (hash_of s2)).1
  (GHASH.update_bytes data (m_checkSum s2) (hash_of s2)).2 Length s2.

(** the key stream of the first message after [Initialize] *)
Definition message_stream (kp : SymmetricKey) (Length : Z) : list byte :=
ctr_stream Length
  {| CTR.m_engineKey := Key kp;
     CTR.m_ctrVector :=
       IntUtils.BeIncrement8
         (first_counter (Nonce kp) (GHASH.create (hash_key (Key kp)))).2;
     CTR.m_isInitialized := true |}.

Lemma first_message Encryption kp a io Length s0 :
  clean s0 →
  8 ≤ size (Nonce kp) → size (Key kp) ≠ 0 →
  Contains (m_legalKeySizes (Scope s0)) (size (Key kp)) = true →
  check_profile "GCM:Initialize" (m_parallelProfile s0) = Ok () →
  0 ≤ Length → Length ≤ size (Input_of io) → Length ≤ size (Output_of io) →
  size (Input_of io) < 2 ^ 64 → size (Output_of io) < 2 ^ 64 →
  let s1 := initialized Encryption (Key kp) (Nonce kp)
              (GHASH.create (hash_key (Key kp))) s0 in
  let s2 := with_aad a (hash_of s1) s1 in
  let ct := MemUtils.xor_bytes (range_of (Input_of io) 0 Length)
              (message_stream kp Length) in
  let s3 := loaded Encryption kp a
              (if Encryption then ct else range_of (Input_of io) 0 Length) Length s0 in
  Initialize Encryption kp s0 = Ok s1
  ∧ SetAssociatedData a 0 (size a) s1 = Ok s2
  ∧ Transform bld io 0 0 Length s2
    = Ok (s3, with_Output (list_inserts 0 ct (Output_of io)) io)
  ∧ ready s3
  ∧ m_isInitialized s3 = true
  ∧ m_isFinalized s3 = false
  ∧ m_isEncryption s3 = Encryption.
Proof.
intros (Hal & Hcs & Hms & Htag) Hn Hk Hl Hp HL Hin Hout Hin64 Hout64 s1 s2 ct s3.
assert (Hr1 : ready s1).
{ apply initialized_ready; try assumption. rewrite Hcs. reflexivity. }
assert (Hr2 : ready s2) by (apply with_aad_ready; [exact Hr1 | reflexivity]).
split; [apply Initialize_keyed; assumption|].
split.
{ pose proof (SetAssociatedData_Ok a 0 (size a) s1 (hash_of s1) eq_refl Hal eq_refl
                 ltac:(lia) (size_nonneg a) ltac:(lia)) as Hs.
  rewrite range_of_all in Hs. exact Hs. }
split.
{ rewrite (Transform_Ok bld io 0 0 Length s2 (hash_of s2) eq_refl eq_refl
             ltac:(lia) HL ltac:(lia) ltac:(lia) ltac:(lia) Hin64 Hout64).
  cbv zeta. unfold s3, loaded, absorbed. cbv zeta. fold s1. fold s2.
  change (m_isEncryption s2) with Encryption.
  change (ctr_stream Length (m_cipherMode s2)) with (message_stream kp Length).
  fold ct. change (Z.to_nat 0) with 0%nat. reflexivity. }
split; [apply transformed_ready; exact Hr2|].
repeat split.
Qed.

(** X1. On two instances with no message under way (the same one
  after a cycle, or two), with a legal key, a nonce of eight bytes or
  more, any associated data [a], any plaintext [p] and a tag length [t]
  in [12, 16]: [Initialize] for encryption, [SetAssociatedData],
  [Transform] of [p] and [Finalize] all complete; so do [Initialize]
  for decryption with the same key and nonce, [SetAssociatedData] with
  [a] and [Transform] of the produced ciphertext, which gives [p] back;
  and [Verify] of the produced tag returns true. *)
Theorem encrypt_decrypt_verify kp a p t e0 d0 cbuf pbuf tbuf :
  clean e0 → clean d0 →
  8 ≤ size (Nonce kp) → size (Key kp) ≠ 0 →
  Contains (m_legalKeySizes (Scope e0)) (size (Key kp)) = true →
  Contains (m_legalKeySizes (Scope d0)) (size (Key kp)) = true →
  check_profile "GCM:Initialize" (m_parallelProfile e0) = Ok () →
  check_profile "GCM:Initialize" (m_parallelProfile d0) = Ok () →
  12 ≤ t ≤ 16 → t ≤ size tbuf →
  size p ≤ size cbuf → size p ≤ size pbuf →
  size cbuf < 2 ^ 64 → size pbuf < 2 ^ 64 →
  ∃ e1 e2 e3 e4 cbuf' tbuf' d1 d2 d3 d4 pbuf',
    Initialize true kp e0 = Ok e1
    ∧ SetAssociatedData a 0 (size a) e1 = Ok e2
    ∧ Transform bld (Distinct p cbuf) 0 0 (size p) e2 = Ok (e3, Distinct p cbuf')
    ∧ Finalize tbuf 0 t e3 = Ok (e4, tbuf')
    ∧ Initialize false kp d0 = Ok d1
    ∧ SetAssociatedData a 0 (size a) d1 = Ok d2
    ∧ Transform bld (Distinct cbuf' pbuf) 0 0 (size p) d2 = Ok (d3, Distinct cbuf' pbuf')
    ∧ range_of pbuf' 0 (size p) = p
    ∧ Verify tbuf' 0 t d3 = Ok (d4, true).
Proof.
intros He0 Hd0 Hn Hk Hle Hld Hpe Hpd Ht Htb Hc Hpb Hc64 Hp64.
pose proof (size_nonneg p) as Hp0.
set (ks := message_stream kp (size p)).
set (ct := MemUtils.xor_bytes p ks).
assert (Hks : (length p ≤ length ks)%nat).
{ pose proof (ctr_stream_covers (size p)
    {| CTR.m_engineKey := Key kp;
       CTR.m_ctrVector :=
         IntUtils.BeIncrement8
           (first_counter (Nonce kp) (GHASH.create (hash_key (Key kp)))).2;
       CTR.m_isInitialized := true |} Hp0) as Hcov.
  fold (message_stream kp (size p)) in Hcov. fold ks in Hcov. unfold size in Hcov. lia. }
assert (Hct : size ct = size p).
{ unfold ct, size. rewrite xor_bytes_length' by exact Hks. reflexivity. }
set (cbuf' := list_inserts 0 ct cbuf).
assert (Hcb : range_of cbuf' 0 (size p) = ct).
{ unfold cbuf'. rewrite <- Hct. apply range_of_inserts. lia. }
assert (Hcs : size cbuf' = size cbuf) by (unfold cbuf'; apply size_inserts).
pose proof (first_message true kp a (Distinct p cbuf) (size p) e0 He0 Hn Hk Hle Hpe Hp0)
  as He.
pose proof (first_message false kp a (Distinct cbuf' pbuf) (size p) d0 Hd0 Hn Hk Hld Hpd Hp0)
  as Hd.
cbn [Input_of Output_of with_Output] in He, Hd. cbv zeta in He, Hd.
destruct He as (He1 & He2 & He3 & Hre & Hie & Hfe & Hee); try lia.
destruct Hd as (Hd1 & Hd2 & Hd3 & Hrd & Hid & Hfd & Hed); try lia.
rewrite range_of_all in He3. fold ks in He3. fold ct in He3. fold cbuf' in He3.
rewrite Hcb in Hd3, Hrd, Hid, Hfd, Hed. fold ks in Hd3.
unfold ct in Hd3 at 2. rewrite xor_bytes_involutive in Hd3 by exact Hks.
rewrite range_of_all in Hre, Hie, Hfe, Hee. fold ks in Hre, Hie, Hfe, Hee.
fold ct in Hre, Hie, Hfe, Hee.
set (e3 := loaded true kp a ct (size p) e0) in *.
set (d3 := loaded false kp a ct (size p) d0) in *.
pose proof (Finalize_Ok tbuf 0 t e3 Hre Hie Ht ltac:(lia) ltac:(lia)) as HF.
pose proof (Verify_Ok
  (list_inserts (Z.to_nat 0) (range_of (m_msgTag (mac_done e3)) 0 t) tbuf)
  0 t d3 Hrd Hed (or_introl Hid) Ht ltac:(lia)) as HV.
rewrite size_inserts in HV. specialize (HV ltac:(lia)). cbv zeta in HV.
rewrite Hfd in HV.
eexists _, _, _, _, _, _, _, _, _, _, _.
split; [exact He1|]. split; [exact He2|]. split; [exact He3|]. split; [exact HF|].
split; [exact Hd1|]. split; [exact Hd2|]. split; [exact Hd3|].
split.
{ apply range_of_inserts. exact Hpb. }
rewrite HV. f_equal. f_equal. apply bool_decide_eq_true_2.
assert (Htag : ∀ s, ready s → size (range_of (m_msgTag (mac_done s)) 0 t) = t).
{ intros s Hs. apply range_of_size; try lia.
  destruct (mac_done_ready s Hs) as (_ & _ & _ & Hl & _). unfold size. lia. }
change (Z.to_nat 0) with 0%nat.
rewrite <- (Htag e3 Hre) at 3. rewrite range_of_inserts by (rewrite Htag by exact Hre; lia).
rewrite !mac_done_tag by (left; assumption).
destruct He0 as (_ & Hce & Hme & _). destruct Hd0 as (_ & Hcd & Hmd & _).
unfold mac_tag, hash_of, e3, d3, loaded. cbn.
rewrite Hce, Hcd, Hme, Hmd. reflexivity.
Qed.

End RoundTrip.

End GCM_RoundTrip.

(** ** GCM: what a finished message leaves, and the next one *)
Module GCM_Cycle.

Import SymmetricKey GCM GCM_Counter GCM_Initialize GCM_Transform GCM_Mac GCM_Errors
  GCM_RoundTrip.

Lemma range_of_inserts_at (data v : list byte) (off : Z) :
  0 ≤ off → off + size data ≤ size v →
  range_of (list_inserts (Z.to_nat off) data v) off (size data) = data.
Proof.
intros H0 Hs. unfold range_of, size in *. rewrite Nat2Z.id.
apply range_of_write. lia.
Qed.

Lemma range_of_replicate (n : nat) (L : Z) :
  0 ≤ L ≤ Z.of_nat n → range_of (replicate n 0) 0 L = replicate (Z.to_nat L) 0.
Proof.
intros HL. unfold range_of. change (Z.to_nat 0) with 0%nat. rewrite drop_0.
rewrite take_replicate. f_equal. lia.
Qed.

Section Cycle.

Context {BC : IBlockCipher} {GH : GHASH.Impl}.
Variable bld : build.

Lemma ready_transformed cm g cs Length s :
  ready s → CTR.m_isInitialized cm = true → length cs = 16%nat →
  ready (transformed cm g cs Length s).
Proof.
intros (Hg & Hc & Hv & Ht & Hctr & Hn & Hp) Hcm Hcs. unfold ready, transformed. cbn.
split; [eexists; reflexivity|]. repeat split; assumption.
Qed.

(** the second [CalculateMac] of an auto-incrementing instance: the tag
  does not outlive the [Initialize] of the next nonce *)
Lemma mac_done_tag_cleared s :
  m_autoIncrement s = true → m_isFinalized s = true →
  length (m_checkSum s) = 16%nat → length (m_gcmVector s) = 16%nat →
  m_msgTag (mac_done s) = replicate 16 0.
Proof.
intros Ha Hf Hc Hv. pose proof (mac_tag_length (hash_of s) s Hc Hv) as Hm.
unfold mac_done. cbv zeta. rewrite Ha.
transitivity (if m_isFinalized s then replicate (length (mac_tag (hash_of s) s)) 0
              else mac_tag (hash_of s) s).
{ destruct (m_aadPreserve s); reflexivity. }
rewrite Hf, Hm. reflexivity.
Qed.

(** [Finalize] on a ready, initialized instance, in full *)
Lemma Finalize_done Output Offset Length s :
  ready s → m_isInitialized s = true →
  12 ≤ Length ≤ 16 → 0 ≤ Offset → Offset + Length ≤ size Output →
  Finalize Output Offset Length s
  = Ok (mac_done s,
        list_inserts (Z.to_nat Offset) (range_of (m_msgTag (mac_done s)) 0 Length) Output)
  ∧ ready (mac_done s)
  ∧ size (range_of (m_msgTag (mac_done s)) 0 Length) = Length.
Proof.
intros Hr Hi HL H0 Hs. split; [apply Finalize_Ok; assumption|].
pose proof (mac_done_ready s Hr) as Hr'. split; [exact Hr'|].
apply range_of_size; try lia. destruct Hr' as (_ & _ & _ & Ht & _). unfold size. lia.
Qed.

(** X6. [Finalize] on an initialized instance that does not preserve its
  associated data completes and leaves no message under way: the
  checksum is zero again, the message size is 0 and no associated data
  is loaded, with the profile and the legal key sizes as before; the
  instance can take the next message from [Initialize] on. *)
Theorem Finalize_leaves_clean Output Offset Length s :
  ready s → m_isInitialized s = true → m_aadPreserve s = false →
  12 ≤ Length ≤ 16 → 0 ≤ Offset → Offset + Length ≤ size Output →
  ∃ s' out,
    Finalize Output Offset Length s = Ok (s', out)
    ∧ clean s'
    ∧ m_aadSize s' = 0
    ∧ m_parallelProfile s' = m_parallelProfile s
    ∧ m_legalKeySizes (Scope s') = m_legalKeySizes (Scope s).
Proof.
intros Hr Hi Hp HL H0 Hs.
destruct (Finalize_done Output Offset Length s Hr Hi HL H0 Hs) as (HF & Hr' & _).
eexists _, _. split; [exact HF|].
destruct Hr as (_ & Hc & Hv & Ht & _).
pose proof (mac_tag_length (hash_of s) s Hc Hv) as Hm.
unfold clean, mac_done. cbv zeta. rewrite Hp.
destruct (m_autoIncrement s); cbn; rewrite ?Hp; cbn; rewrite ?Hm;
  repeat split; try reflexivity;
  try (destruct (size (m_legalKeySizes s) =? 0) eqn:Hl;
       [destruct (size Engine_LegalKeySizes =? 0) | rewrite ?Hl]; reflexivity);
  try (destruct (m_isFinalized s)); rewrite ?length_replicate, ?Hm; reflexivity.
Qed.

(** X7. [Finalize] on an initialized instance with auto-increment on
  completes and leaves the instance initialized for the next message:
  same key and direction, the nonce advanced by one (as a big-endian
  number, so it differs from the one before), the counter mode started
  on the first counter block of the new nonce, of which the instance
  keeps the encryption for the next tag. *)
Theorem Finalize_auto_increment Output Offset Length s :
  ready s → m_isInitialized s = true → m_autoIncrement s = true →
  12 ≤ Length ≤ 16 → 0 ≤ Offset → Offset + Length ≤ size Output →
  ∃ s' out g,
    Finalize Output Offset Length s = Ok (s', out)
    ∧ m_isInitialized s' = true
    ∧ m_isEncryption s' = m_isEncryption s
    ∧ m_gcmKey s' = m_gcmKey s
    ∧ m_gcmNonce s' = IntUtils.BeIncrement8 (m_gcmNonce s)
    ∧ m_gcmNonce s' ≠ m_gcmNonce s
    ∧ m_cipherMode s'
      = {| CTR.m_engineKey := m_gcmKey s;
           CTR.m_ctrVector :=
             IntUtils.BeIncrement8 (first_counter (m_gcmNonce s') g).2;
           CTR.m_isInitialized := true |}
    ∧ m_gcmVector s' = Engine_Transform (m_gcmKey s) (first_counter (m_gcmNonce s') g).2
    ∧ m_msgSize s' = 0.
Proof.
intros Hr Hi Ha HL H0 Hs.
destruct (Finalize_done Output Offset Length s Hr Hi HL H0 Hs) as (HF & _ & _).
destruct Hr as (_ & _ & _ & _ & _ & Hn & _).
eexists _, _, _. split; [exact HF|].
unfold mac_done. cbv zeta. rewrite Ha.
destruct (m_aadPreserve s); cbn;
  (repeat split; try reflexivity; apply BeIncrement8_changes; lia).
Qed.

(** X8. With auto-increment on, the tag of the second message is
  lost: the first [Finalize] leaves the instance initialized and marked
  finalized, and the second [Finalize], after a [Transform] of the next
  message, has [Initialize] clear the tag it has just computed before
  it is copied out. What the second [Finalize] writes is [Length] zero
  bytes, whatever the message. *)
Theorem auto_increment_second_tag Out1 Off1 Len1 io InOffset OutOffset Length
  Out2 Off2 Len2 s :
  ready s → m_isInitialized s = true → m_autoIncrement s = true →
  12 ≤ Len1 ≤ 16 → 0 ≤ Off1 → Off1 + Len1 ≤ size Out1 →
  0 ≤ InOffset → 0 ≤ Length → InOffset + Length ≤ size (Input_of io) →
  0 ≤ OutOffset → OutOffset + Length ≤ size (Output_of io) →
  size (Input_of io) < 2 ^ 64 → size (Output_of io) < 2 ^ 64 →
  12 ≤ Len2 ≤ 16 → 0 ≤ Off2 → Off2 + Len2 ≤ size Out2 →
  ∃ s1 tag1 s2 io' s3,
    Finalize Out1 Off1 Len1 s = Ok (s1, tag1)
    ∧ Transform bld io InOffset OutOffset Length s1 = Ok (s2, io')
    ∧ Finalize Out2 Off2 Len2 s2
      = Ok (s3, list_inserts (Z.to_nat Off2) (replicate (Z.to_nat Len2) 0) Out2).
Proof.
intros Hr Hi Ha HL1 H01 Hs1 Hi0 HL Hin Ho0 Hout Hin64 Hout64 HL2 H02 Hs2.
destruct (Finalize_done Out1 Off1 Len1 s Hr Hi HL1 H01 Hs1) as (HF1 & Hr1 & _).
destruct (mac_done_flags s) as (Hf1 & Hi1 & _ & Ha1). rewrite Ha in Hi1, Ha1.
pose proof (ready_hash _ Hr1) as Hg1.
pose proof (Transform_Ok bld io InOffset OutOffset Length (mac_done s) _ Hi1 Hg1
              Hi0 HL Hin Ho0 Hout Hin64 Hout64) as HT. cbv zeta in HT.
set (s2 := transformed _ _ _ Length (mac_done s)) in HT.
assert (Hr2 : ready s2) by (apply transformed_ready; exact Hr1).
destruct (Finalize_done Out2 Off2 Len2 s2 Hr2 Hi1 HL2 H02 Hs2) as (HF2 & Hr3 & _).
eexists _, _, _, _, _. split; [exact HF1|]. split; [exact HT|].
rewrite HF2. f_equal. f_equal. f_equal.
assert (Htag : m_msgTag (mac_done s2) = replicate 16 0).
{ destruct Hr2 as (_ & Hc & Hv & _).
  apply mac_done_tag_cleared; [exact Ha1 | exact Hf1 | exact Hc | exact Hv]. }
rewrite Htag. apply range_of_replicate. lia.
Qed.

(** X9. On a decrypting instance, [Finalize] followed by [Verify] of
  the bytes [Finalize] wrote returns true and leaves the instance as
  [Finalize] left it: on a finalized instance [Verify] compares with the
  stored tag. *)
Theorem Finalize_then_Verify Output Offset Length s :
  ready s → m_isInitialized s = true → m_isEncryption s = false →
  12 ≤ Length ≤ 16 → 0 ≤ Offset → Offset + Length ≤ size Output →
  ∃ s' out,
    Finalize Output Offset Length s = Ok (s', out)
    ∧ Verify out Offset Length s' = Ok (s', true).
Proof.
intros Hr Hi He HL H0 Hs.
destruct (Finalize_done Output Offset Length s Hr Hi HL H0 Hs) as (HF & Hr' & Hsz).
destruct (mac_done_flags s) as (Hf' & _ & He' & _). rewrite He in He'.
eexists _, _. split; [exact HF|].
pose proof (Verify_Ok
  (list_inserts (Z.to_nat Offset) (range_of (m_msgTag (mac_done s)) 0 Length) Output)
  Offset Length (mac_done s) Hr' He' (or_intror Hf') HL H0) as HV.
rewrite size_inserts in HV. specialize (HV Hs). cbv zeta in HV. rewrite Hf' in HV.
rewrite HV. f_equal. f_equal. apply bool_decide_eq_true_2.
rewrite <- Hsz at 3. rewrite range_of_inserts_at by (rewrite ?Hsz; lia). reflexivity.
Qed.

(** X10. On an instance marked finalized, [Verify] computes no tag: after
  a further [Transform] (the second message of an auto-incrementing
  instance, say) its answer is still the comparison with the tag the
  message before has stored, and the instance is left as it is. *)
Theorem Verify_after_finalized io InOffset OutOffset Length Input Offset Len s :
  ready s → m_isInitialized s = true → m_isFinalized s = true →
  m_isEncryption s = false →
  0 ≤ InOffset → 0 ≤ Length → InOffset + Length ≤ size (Input_of io) →
  0 ≤ OutOffset → OutOffset + Length ≤ size (Output_of io) →
  size (Input_of io) < 2 ^ 64 → size (Output_of io) < 2 ^ 64 →
  12 ≤ Len ≤ 16 → 0 ≤ Offset → Offset + Len ≤ size Input →
  ∃ s2 io',
    Transform bld io InOffset OutOffset Length s = Ok (s2, io')
    ∧ Verify Input Offset Len s2
      = Ok (s2, bool_decide (range_of (m_msgTag s) 0 Len = range_of Input Offset Len)).
Proof.
intros Hr Hi Hf He Hi0 HL Hin Ho0 Hout Hin64 Hout64 HLen H0 Hs.
pose proof (ready_hash _ Hr) as Hg.
pose proof (Transform_Ok bld io InOffset OutOffset Length s _ Hi Hg
              Hi0 HL Hin Ho0 Hout Hin64 Hout64) as HT. cbv zeta in HT.
set (s2 := transformed _ _ _ Length s) in HT.
assert (Hr2 : ready s2) by (apply transformed_ready; exact Hr).
eexists _, _. split; [exact HT|].
pose proof (Verify_Ok Input Offset Len s2 Hr2 He (or_introl Hi) HLen H0 Hs) as HV.
cbv zeta in HV. change (m_isFinalized s2) with (m_isFinalized s) in HV.
rewrite Hf in HV. exact HV.
Qed.

(** X11. [Tag()] throws a cipher-mode exception exactly while the
  instance is not marked finalized; so it does after every completed
  [Initialize]. After [Finalize] it returns the 16 bytes of the tag, of
  which [Finalize] has written the first [Length] to its output. *)
Theorem Tag_after_Finalize Output Offset Length s :
  (is_CipherMode (Tag s) = true ↔ m_isFinalized s = false)
  ∧ (∀ Encryption kp s', Initialize Encryption kp s = Ok s' →
       is_CipherMode (Tag s') = true)
  ∧ (ready s → m_isInitialized s = true →
     12 ≤ Length ≤ 16 → 0 ≤ Offset → Offset + Length ≤ size Output →
     ∃ s' out tag,
       Finalize Output Offset Length s = Ok (s', out)
       ∧ Tag s' = Ok tag
       ∧ length tag = 16%nat
       ∧ range_of out Offset Length = range_of tag 0 Length).
Proof.
split; [|split].
- unfold Tag. destruct (m_isFinalized s); simpl; split; congruence.
- intros Encryption kp s' HI. unfold Tag.
  assert (Hf : m_isFinalized s' = false).
  { unfold Initialize in HI. cbv zeta in HI.
    apply bind_Ok in HI as (? & _ & HI). apply bind_Ok in HI as (? & _ & HI).
    apply bind_Ok in HI as ([[cm gcmHash] gcmKey] & _ & HI). cbv beta iota in HI.
    apply bind_Ok in HI as ([gcmHash' gcmVector] & _ & HI). cbv beta iota in HI.
    apply bind_Ok in HI as (ctrKey & _ & HI).
    apply bind_Ok in HI as ([cm' gcmVector'] & _ & HI). cbv beta iota in HI.
    apply bind_Ok in HI as (msgTag & _ & HI). injection HI as <-. reflexivity. }
  rewrite Hf. reflexivity.
- intros Hr Hi HL H0 Hs.
  destruct (Finalize_done Output Offset Length s Hr Hi HL H0 Hs) as (HF & Hr' & Hsz).
  destruct (mac_done_flags s) as (Hf' & _).
  eexists _, _, _. split; [exact HF|]. unfold Tag. rewrite Hf'. cbn [negb throw_if].
  rewrite bind_ret. split; [reflexivity|]. split; [apply Hr'|].
  rewrite <- Hsz at 2. apply range_of_inserts_at; rewrite ?Hsz; lia.
Qed.

(** X12. [SetAssociatedData] throws exactly when the instance is not
  initialized or associated data is loaded already. A call that
  completes stores the [Length] bytes at [Offset] and marks them
  loaded: every further call throws, whatever it is given, until the
  instance is reset. *)
Theorem SetAssociatedData_once Input Offset Length s :
  (is_Throw (SetAssociatedData Input Offset Length s) = true
   ↔ m_isInitialized s = false ∨ m_aadLoaded s = true)
  ∧ (∀ s', SetAssociatedData Input Offset Length s = Ok s' →
       m_aadData s' = range_of Input Offset Length
       ∧ m_aadSize s' = Length
       ∧ ∀ Input2 Offset2 Length2,
           is_Throw (SetAssociatedData Input2 Offset2 Length2 s') = true).
Proof.
split.
- rewrite is_Throw_throws. unfold SetAssociatedData.
  destruct (m_isInitialized s); cbn [negb throw_if]; [|simpl; intuition].
  rewrite bind_ret.
  destruct (m_aadLoaded s); cbn [throw_if]; [simpl; intuition|].
  rewrite bind_ret.
  match goal with
  | |- throws _ ?r = true ↔ _ =>
      assert (Hq : throws any_exn r = false) by quiet; rewrite Hq
  end.
  split; [discriminate | intros [?|?]; discriminate].
- intros s' HS. unfold SetAssociatedData in HS.
  apply bind_Ok in HS as (? & _ & HS). apply bind_Ok in HS as (? & _ & HS).
  apply bind_Ok in HS as (aad & Haad & HS). apply bind_Ok in HS as (g & _ & HS).
  apply bind_Ok in HS as ([g' cs'] & _ & HS). cbv beta iota in HS.
  injection HS as <-. cbn.
  unfold MemUtils.Copy in Haad. apply bind_Ok in Haad as (data & Hd & Hw).
  pose proof (vec_range_length _ _ _ _ Hd) as Hlen.
  apply vec_range_inv in Hd as (H1 & H2 & H3 & ->).
  apply vec_write_inv in Hw as (_ & Hsz & ->).
  fold (range_of Input Offset Length) in *.
  split; [|split; [reflexivity|]].
  + change (Z.to_nat 0) with 0%nat. apply list_inserts_all.
    rewrite length_resize. unfold size in Hlen. lia.
  + intros Input2 Offset2 Length2. unfold SetAssociatedData. cbn.
    destruct (m_isInitialized s); reflexivity.
Qed.

Lemma Initialize_vector_length nonce gh gh' v :
  Initialize_vector nonce gh = Ok (gh', v) → length v = 16%nat.
Proof.
unfold Initialize_vector. destruct (size nonce =? 12).
- intros [= _ <-]. rewrite length_insert, length_resize. reflexivity.
- intros Hv. apply bind_Ok in Hv as (g & _ & Hv).
  apply bind_Ok in Hv as ([g1 n1] & Hseg & Hv). cbv beta iota in Hv.
  unfold GHASH.ProcessSegment in Hseg. apply bind_Ok in Hseg as (data & _ & Hseg).
  injection Hseg as Hseg.
  unfold GHASH.FinalizeBlock in Hv.
  destruct (GHASH.finalize_block n1 0 (size nonce) g1) as [g2 n2] eqn:Hf.
  injection Hv as _ <-.
  change n2 with (g2, n2).2. rewrite <- Hf. apply GHASH.finalize_length.
  change n1 with (g1, n1).2. rewrite <- Hseg. apply GHASH.segment_length. reflexivity.
Qed.

(** the guards of the key branch of [Initialize] *)
Definition key_refused (kp : SymmetricKey) (s : GCM) : Prop :=
(size (Key kp) = 0
 ∧ (Nonce kp = m_gcmNonce s ∨ CTR.m_isInitialized (m_cipherMode s) = false))
∨ (size (Key kp) ≠ 0 ∧ Contains (m_legalKeySizes (Scope s)) (size (Key kp)) = false).

Lemma Initialize_key_throws kp s :
  is_Throw (Initialize_key kp (Scope s)) = true ↔ key_refused kp s.
Proof.
rewrite is_Throw_throws. unfold Initialize_key, key_refused.
change (m_gcmNonce (Scope s)) with (m_gcmNonce s).
change (m_cipherMode (Scope s)) with (m_cipherMode s).
destruct (size (Key kp) =? 0) eqn:Hk.
- apply Z.eqb_eq in Hk. unfold CTR.IsInitialized.
  destruct (bool_decide_reflect (Nonce kp = m_gcmNonce s)) as [Hn|Hn]; cbn [throw_if].
  + simpl. split; [intros _; left; auto | reflexivity].
  + rewrite bind_ret. destruct (CTR.m_isInitialized (m_cipherMode s)); simpl.
    * split; [discriminate|]. intros [[_ [?|?]] | [? _]]; congruence.
    * split; [intros _; left; auto | reflexivity].
- apply Z.eqb_neq in Hk.
  destruct (Contains (m_legalKeySizes (Scope s)) (size (Key kp))) eqn:Hc;
    cbn [negb throw_if].
  + rewrite bind_ret.
    match goal with
    | |- throws _ ?r = true ↔ _ =>
        assert (Hq : throws any_exn r = false) by quiet; rewrite Hq
    end.
    split; [discriminate|]. intros [[? _] | [_ ?]]; congruence.
  + simpl. split; [intros _; right; auto | reflexivity].
Qed.

(** X13. [Initialize] throws exactly when the nonce is shorter than 8
  bytes, or the parallel profile is refused, or, the profile being
  accepted, the key is empty and the nonce is the one in use or the
  cipher has never been keyed, or the key is not empty and not of a
  legal size. A nonce in use is refused with an empty key only: with a
  key, the same nonce is taken again. No exception of [Initialize] is a
  cipher-mode exception. *)
Theorem Initialize_throws Encryption kp s :
  (is_Throw (Initialize Encryption kp s) = true
   ↔ size (Nonce kp) < 8
     ∨ is_Throw (check_profile "GCM:Initialize" (m_parallelProfile s)) = true
     ∨ (check_profile "GCM:Initialize" (m_parallelProfile s) = Ok ()
        ∧ key_refused kp s))
  ∧ is_CipherMode (Initialize Encryption kp s) = false.
Proof.
split; [|rewrite is_CipherMode_throws; apply throws_Initialize].
pose proof (Initialize_key_throws kp s) as HK.
rewrite !is_Throw_throws in *. unfold Initialize. cbv zeta.
change (m_parallelProfile (Scope s)) with (m_parallelProfile s).
destruct (size (Nonce kp) <? 8) eqn:Hn; cbn [throw_if].
{ apply Z.ltb_lt in Hn. simpl. split; [intros _; left; exact Hn | reflexivity]. }
apply Z.ltb_ge in Hn. rewrite bind_ret.
destruct (check_profile "GCM:Initialize" (m_parallelProfile s)) as [[]|e|msg|] eqn:Hp;
  cbn [mbind result_mbind result_bind throws any_exn].
2: { split; [intros _; right; left; reflexivity | reflexivity]. }
2: { split; [discriminate|]. intros [?|[?|[? _]]]; [lia | discriminate | discriminate]. }
2: { split; [discriminate|]. intros [?|[?|[? _]]]; [lia | discriminate | discriminate]. }
destruct (Initialize_key kp (Scope s)) as [[[cm gh] gk]|e|msg|] eqn:Hkey;
  cbn [mbind result_mbind result_bind throws any_exn] in *.
2: { split; [intros _; right; right; split; [reflexivity | apply HK; reflexivity]
            | reflexivity]. }
2: { split; [discriminate|]. intros [?|[?|[_ HR]]]; [lia | discriminate |].
     apply HK in HR. discriminate. }
2: { split; [discriminate|]. intros [?|[?|[_ HR]]]; [lia | discriminate |].
     apply HK in HR. discriminate. }
match goal with
| |- throws _ ?r = true ↔ _ => assert (Hq : throws any_exn r = false)
end.
{ destruct (Initialize_vector (Nonce kp) gh) as [[gh' v]|e|msg|] eqn:Hv;
    try reflexivity.
  - apply Initialize_vector_length in Hv.
    cbn [mbind result_mbind result_bind]. unfold SymmetricKey2.
    replace (size v =? 0) with false by (unfold size; rewrite Hv; reflexivity).
    rewrite andb_false_r. cbn [throw_if]. rewrite bind_ret. quiet.
  - exfalso. unfold Initialize_vector, GHASH.ProcessSegment, GHASH.FinalizeBlock in Hv.
    destruct (size (Nonce kp) =? 12); [discriminate|].
    destruct gh as [g|]; cbn in Hv; [|discriminate].
    rewrite vec_range_all in Hv. cbn in Hv.
    destruct (GHASH.segment_bytes _ _ g) as [g1 n1]. cbn in Hv.
    destruct (GHASH.finalize_block n1 0 _ g1). discriminate. }
rewrite Hq. split; [discriminate|].
intros [?|[?|[_ HR]]]; [lia | discriminate | apply HK in HR; discriminate].
Qed.

(** X14. [Encrypt128], the block form of encryption, runs the counter
  mode and then has the hash absorb the block of its input array, not
  the block the counter mode has written: with two arrays the hash takes
  in the plaintext, where [Transform] over the same block takes in the
  ciphertext. *)
Theorem Encrypt128_absorbs_input Input Output InOffset OutOffset s g :
  m_isInitialized s = true → m_isEncryption s = true →
  m_gcmHash s = Some g →
  0 ≤ InOffset → InOffset + 16 ≤ size Input →
  0 ≤ OutOffset → OutOffset + 16 ≤ size Output →
  size Input < 2 ^ 64 → size Output < 2 ^ 64 →
  ∃ cm out s1 s2,
    CTR.EncryptBlock Input InOffset Output OutOffset (m_cipherMode s) = Ok (cm, out)
    ∧ Encrypt128 bld (Distinct Input Output) InOffset OutOffset s
      = Ok (s1, Distinct Input out)
    ∧ m_checkSum s1 = (GHASH.update_bytes (range_of Input InOffset 16) (m_checkSum s) g).2
    ∧ Transform bld (Distinct Input Output) InOffset OutOffset 16 s
      = Ok (s2, Distinct Input out)
    ∧ m_checkSum s2 = (GHASH.update_bytes (range_of out OutOffset 16) (m_checkSum s) g).2
    ∧ m_cipherMode s1 = m_cipherMode s2.
Proof.
intros Hi He Hg H1 H2 H3 H4 H5 H6.
pose proof (Transform_Ok bld (Distinct Input Output) InOffset OutOffset 16 s g Hi Hg
              H1 ltac:(lia) H2 H3 H4 H5 H6) as HT.
cbv zeta in HT. unfold absorbed in HT. rewrite He in HT.
cbn [Input_of Output_of with_Output] in HT.
pose proof (CTR_Transform_Ok Input InOffset Output OutOffset 16 (m_cipherMode s)
              H1 ltac:(lia) H2 H3 H4) as HC.
exists (ctr_after 16 (m_cipherMode s)),
  (list_inserts (Z.to_nat OutOffset)
     (MemUtils.xor_bytes (range_of Input InOffset 16) (ctr_stream 16 (m_cipherMode s)))
     Output),
  (transformed (ctr_after 16 (m_cipherMode s))
     (GHASH.update_bytes (range_of Input InOffset 16) (m_checkSum s) g).1
     (GHASH.update_bytes (range_of Input InOffset 16) (m_checkSum s) g).2 16 s).
eexists. split; [exact HC|]. split; [|split; [|split; [exact HT|split]]].
- unfold Encrypt128. rewrite Hi, CEXASSERT_true, bind_ret.
  pose proof (Transform_bounds (Distinct Input Output) InOffset OutOffset 16
                ltac:(lia) H1 H2 H3 H4 H5 H6) as Hb.
  cbn [Input_of Output_of] in Hb |- *. unfold BLOCK_SIZE. rewrite Hb.
  rewrite CEXASSERT_true, bind_ret. unfold CTR.EncryptBlock.
  rewrite HC, bind_ret. cbv beta iota zeta.
  cbn [Input_of with_Output]. rewrite Hg. cbn [deref]. rewrite bind_ret.
  unfold GHASH.Update. rewrite vec_range_Ok by lia. rewrite bind_ret.
  fold (range_of Input InOffset 16).
  destruct (GHASH.update_bytes (range_of Input InOffset 16) (m_checkSum s) g)
    as [g' cs'] eqn:Hu.
  cbv beta iota. reflexivity.
- reflexivity.
- cbn [m_checkSum transformed]. rewrite CTR_Transform_range by (try assumption; lia).
  reflexivity.
- reflexivity.
Qed.

End Cycle.

End GCM_Cycle.

(** ** GCM: the end of an instance *)
Module GCM_End.

Import GCM GCM_Destroy.

Section End_of_life.

Context `{BC : IBlockCipher} `{GH : GHASH.Impl} `{W : Wipe}.

Lemma try_catch_Throw {A} (body : result A) (e e' : exn) :
  try_catch body e = Throw e' → e' = e.
Proof. destruct body; simpl; intros Ht; try discriminate Ht. congruence. Qed.

Lemma try_catch_Ok {A} (body : result A) (e : exn) (a : A) :
  try_catch body e = Ok a → body = Ok a.
Proof. destruct body; simpl; intros Ht; try discriminate Ht. exact Ht. Qed.

(** X29. [Destroy], which the destructor calls, goes through the hash
  pointer without a test, and the handler around it catches exceptions
  only: once the profile is reset, an instance that has never been given
  a key, one fresh from the constructor say, dereferences a null
  pointer. Whatever is thrown while the members are wiped comes out as
  the CryptoCipherModeException of the handler. When [Destroy]
  completes, the instance had a hash, it is marked destroyed, is neither
  initialized nor finalized, so that [SetAssociatedData] and [Finalize]
  throw, and the copy of the key is as it was: [Destroy] wipes nonce,
  counter block, tag, checksum and associated data, not [m_gcmKey]. *)
Theorem Destroy_needs_key (s : GCM) (l : Lifetime) :
  (∀ p, ParallelOptions_Reset (m_parallelProfile s) = Ok p →
        m_gcmHash s = None → Destroy s l = Fault)
  ∧ (∀ profile p, ParallelOptions_Reset profile = Ok p →
                  Destroy (GCM_new profile) l = Fault)
  ∧ (∀ p e, ParallelOptions_Reset (m_parallelProfile s) = Ok p →
            Destroy s l = Throw e →
            e = CryptoCipherModeException "GCM:Destroy" "Could not clear all variables!")
  ∧ (∀ p g e, ParallelOptions_Reset (m_parallelProfile s) = Ok p →
              m_gcmHash s = Some g → ClearVector (m_aadData s) = Throw e →
              Destroy s l
              = Throw (CryptoCipherModeException "GCM:Destroy"
                         "Could not clear all variables!"))
  ∧ ∀ s' l', Destroy s l = Ok (s', l') →
      is_Some (m_gcmHash s)
      ∧ m_isDestroyed l' = true
      ∧ m_isInitialized s' = false ∧ m_isFinalized s' = false ∧ m_aadLoaded s' = false
      ∧ m_gcmKey s' = m_gcmKey s
      ∧ (∀ Input Offset Length,
           is_Throw (SetAssociatedData Input Offset Length s') = true)
      ∧ (∀ Output Offset Length,
           is_CipherMode (Finalize Output Offset Length s') = true).
Proof.
split; [|split; [|split; [|split]]].
- intros p Hp Hg. unfold Destroy. rewrite Hp, bind_ret, Hg. reflexivity.
- intros profile p Hp. unfold Destroy.
  change (m_parallelProfile (GCM_new profile)) with profile.
  rewrite Hp, bind_ret. reflexivity.
- intros p e Hp Hd. unfold Destroy in Hd. rewrite Hp, bind_ret in Hd.
  exact (try_catch_Throw _ _ _ Hd).
- intros p g e Hp Hg Hc. unfold Destroy. rewrite Hp, bind_ret, Hg.
  cbn [deref]. rewrite bind_ret. cbv zeta. rewrite Hc. reflexivity.
- intros s' l' Hd. unfold Destroy in Hd.
  apply bind_Ok in Hd as (p & Hp & Hd). apply try_catch_Ok in Hd.
  destruct (m_gcmHash s) as [g|]; [|discriminate Hd].
  cbn [deref] in Hd. rewrite bind_ret in Hd. cbv zeta in Hd.
  apply bind_Ok in Hd as (a1 & _ & Hd). apply bind_Ok in Hd as (a2 & _ & Hd).
  apply bind_Ok in Hd as (a3 & _ & Hd). apply bind_Ok in Hd as (a4 & _ & Hd).
  apply bind_Ok in Hd as (a5 & _ & Hd). apply bind_Ok in Hd as (a6 & _ & Hd).
  apply bind_Ok in Hd as (a7 & _ & Hd). injection Hd as <- <-.
  split; [eexists; reflexivity|]. repeat split.
Qed.

End End_of_life.

End GCM_End.

(** ** Salsa20: the key stream and the transform *)
Module Salsa20_Stream.

Import Salsa20 Salsa20_Process Keccak512_Sequential.

(** what [Output[off + i] ^= Input[inoff + i]] for [i < n] leaves *)
Definition xor_range (Input : list byte) (inoff : Z) (Output : list byte) (off n : Z)
  : list byte :=
list_inserts (Z.to_nat off)
  (MemUtils.xor_bytes (seg Output off n) (seg Input inoff n)) Output.

Lemma seg_nil {A} (v : list A) off : seg v off 0 = [].
Proof. unfold seg. change (Z.to_nat 0) with 0%nat. apply take_0. Qed.

Lemma seg_snoc {A} (v : list A) off n x :
  0 ≤ off → 0 ≤ n → v !! Z.to_nat (off + n) = Some x →
  seg v off (n + 1) = seg v off n ++ [x].
Proof.
intros H0 Hn Hx. unfold seg. replace (Z.to_nat (n + 1)) with (S (Z.to_nat n)) by lia.
apply take_S_r. rewrite lookup_drop. rewrite <- Hx. f_equal. lia.
Qed.

Lemma seg_app {A} (v : list A) off a b :
  0 ≤ off → 0 ≤ a → 0 ≤ b → seg v off (a + b) = seg v off a ++ seg v (off + a) b.
Proof.
intros H0 Ha Hb. unfold seg. rewrite Z2Nat.inj_add by lia.
rewrite <- take_take_drop. f_equal. rewrite drop_drop. do 2 f_equal. lia.
Qed.

Lemma seg_inserts {A} (d v : list A) off :
  0 ≤ off → off + size d ≤ size v →
  seg (list_inserts (Z.to_nat off) d v) off (size d) = d.
Proof.
intros H0 Hs. unfold seg, size in *. rewrite Nat2Z.id.
rewrite inserts_decompose by lia. rewrite drop_app_length'; [|rewrite length_take; lia].
apply take_app_length.
Qed.

Lemma seg_inserts_len {A} (d v : list A) off n :
  size d = n → 0 ≤ off → off + n ≤ size v →
  seg (list_inserts (Z.to_nat off) d v) off n = d.
Proof. intros <- H0 Hs. apply seg_inserts; assumption. Qed.

(** a range behind a store is what it was *)
Lemma seg_behind_inserts {A} (d v : list A) off p n :
  0 ≤ off → off + size d ≤ p → 0 ≤ n →
  off + size d ≤ size v →
  seg (list_inserts (Z.to_nat off) d v) p n = seg v p n.
Proof.
intros H0 Hp Hn Hs. unfold seg, size in *. rewrite inserts_decompose by lia.
rewrite app_assoc. rewrite drop_app_ge; [|rewrite length_app, length_take; lia].
rewrite length_app, length_take.
f_equal. rewrite drop_drop. f_equal. lia.
Qed.

Lemma inserts_overwrite {A} (d d' v : list A) (p : nat) :
  length d = length d' → (p + length d ≤ length v)%nat →
  list_inserts p d (list_inserts p d' v) = list_inserts p d v.
Proof.
intros Hl Hv. apply list_eq. intros j.
destruct (decide (p ≤ j < p + length d)%nat) as [Hj|Hj].
- rewrite !list_lookup_inserts by (rewrite ?length_inserts; lia). reflexivity.
- destruct (decide (j < p)%nat).
  + rewrite !list_lookup_inserts_lt by lia. reflexivity.
  + rewrite !list_lookup_inserts_ge by lia. reflexivity.
Qed.

Lemma inserts_inserts_app {A} (d1 d2 v : list A) (p : nat) :
  list_inserts (p + length d1) d2 (list_inserts p d1 v) = list_inserts p (d1 ++ d2) v.
Proof. rewrite list_inserts_app_l. f_equal. lia. Qed.

Lemma xor_bytes_app a1 a2 b1 b2 :
  length a1 = length b1 →
  MemUtils.xor_bytes (a1 ++ a2) (b1 ++ b2)
  = MemUtils.xor_bytes a1 b1 ++ MemUtils.xor_bytes a2 b2.
Proof. intros Hl. unfold MemUtils.xor_bytes. apply zip_with_app. exact Hl. Qed.



Lemma xor_range_nil Input inoff Output off : xor_range Input inoff Output off 0 = Output.
Proof. unfold xor_range. rewrite !seg_nil. reflexivity. Qed.

Lemma xor_range_length Input inoff Output off n :
  length (xor_range Input inoff Output off n) = length Output.
Proof. unfold xor_range. apply length_inserts. Qed.

(** two ranges in a row are one range *)
Lemma xor_range_split Input inoff Output off a b :
  0 ≤ inoff → 0 ≤ off → 0 ≤ a → 0 ≤ b →
  inoff + a + b ≤ size Input → off + a + b ≤ size Output →
  xor_range Input (inoff + a) (xor_range Input inoff Output off a) (off + a) b
  = xor_range Input inoff Output off (a + b).
Proof.
intros Hi Ho Ha Hb Hin Hout. unfold xor_range.
pose proof (seg_length Output off a Ho Ha ltac:(lia)) as L1.
pose proof (seg_length Input inoff a Hi Ha ltac:(lia)) as L2.
set (x1 := MemUtils.xor_bytes (seg Output off a) (seg Input inoff a)).
assert (Hx1 : size x1 = a).
{ unfold x1, size. rewrite xor_bytes_length by lia. lia. }
rewrite (seg_behind_inserts x1 Output off (off + a) b) by lia.
rewrite !(seg_app _ _ a b) by lia. rewrite xor_bytes_app by lia. fold x1.
rewrite <- inserts_inserts_app. f_equal. unfold size in Hx1. lia.
Qed.

Lemma XorBlock_range Input InOffset Output OutOffset Length :
  0 ≤ InOffset → 0 ≤ OutOffset → 0 ≤ Length →
  InOffset + Length ≤ size Input → OutOffset + Length ≤ size Output →
  MemUtils.XorBlock Input InOffset Output OutOffset Length
  = Ok (xor_range Input InOffset Output OutOffset Length).
Proof.
intros Hi Ho Hl Hin Hout. unfold MemUtils.XorBlock.
rewrite !vec_range_seg, !bind_ret by lia.
pose proof (seg_length Output OutOffset Length Ho Hl Hout) as L1.
pose proof (seg_length Input InOffset Length Hi Hl Hin) as L2.
apply vec_write_Ok; [exact Ho|].
unfold size in *. rewrite xor_bytes_length by lia. lia.
Qed.


Section Stream.

Context `{SalsaCore}.

(** the key stream of [n] blocks from counter [c] on, and the counter
  after them *)
Fixpoint stream (n : nat) (c wrk : list Z) (rnd : Z) : list byte :=
match n with
| O => []
| S n' => SalsaBlock c wrk rnd ++ stream n' (LeIncrement32 c) wrk rnd
end.

Fixpoint advance (n : nat) (c : list Z) : list Z :=
match n with
| O => c
| S n' => advance n' (LeIncrement32 c)
end.

(** the blocks that [Length] bytes of key stream take *)
Definition blocks_for (Length : Z) : nat := Z.to_nat ((Length + 63) / 64).

(** the first [Length] bytes of the key stream of instance [s] *)
Definition key_stream (Length : Z) (s : Salsa20) : list byte :=
take (Z.to_nat Length)
  (stream (blocks_for Length) (m_ctrVector s) (m_wrkState s) (m_rndCount s)).

Lemma stream_length n c wrk rnd : length (stream n c wrk rnd) = (64 * n)%nat.
Proof.
revert c. induction n as [|n IH]; intros c; simpl; [reflexivity|].
rewrite length_app, SalsaBlock_length, IH. lia.
Qed.

Lemma advance_succ n c : advance (S n) c = LeIncrement32 (advance n c).
Proof. revert c. induction n as [|n IH]; intros c; [reflexivity|]. simpl. apply (IH _). Qed.

Lemma stream_succ n c wrk rnd :
  stream (S n) c wrk rnd = stream n c wrk rnd ++ SalsaBlock (advance n c) wrk rnd.
Proof.
revert c. induction n as [|n IH]; intros c.
- simpl. rewrite app_nil_r. reflexivity.
- change (stream (S (S n)) c wrk rnd)
    with (SalsaBlock c wrk rnd ++ stream (S n) (LeIncrement32 c) wrk rnd).
  rewrite IH. simpl. rewrite app_assoc. reflexivity.
Qed.

Lemma key_stream_length Length s : 0 ≤ Length → length (key_stream Length s) = Z.to_nat Length.
Proof.
intros Hl. unfold key_stream, blocks_for. rewrite length_take, stream_length.
assert (Length ≤ 64 * ((Length + 63) / 64)).
{ pose proof (Z.mul_div_le (Length + 63) 64 ltac:(lia)).
  pose proof (Z.mod_pos_bound (Length + 63) 64 ltac:(lia)).
  pose proof (Z.div_mod (Length + 63) 64 ltac:(lia)). lia. }
lia.
Qed.

Lemma Generate_blocks_spec k : ∀ fuel Output OutOffset c ctr s,
  (k ≤ fuel)%nat → 0 ≤ OutOffset → 0 ≤ ctr →
  OutOffset + ctr + 64 * Z.of_nat k ≤ size Output → size Output < 2 ^ 64 →
  Generate_blocks fuel Output OutOffset c ctr (ctr + 64 * Z.of_nat k) s
  = Ok (list_inserts (Z.to_nat (OutOffset + ctr))
          (stream k c (m_wrkState s) (m_rndCount s)) Output,
        advance k c, ctr + 64 * Z.of_nat k).
Proof.
induction k as [|k IH]; intros fuel Output OutOffset c ctr s Hf Ho Hc Hs Hm.
- destruct fuel; simpl; rewrite Z.add_0_r, Z.eqb_refl; reflexivity.
- destruct fuel as [|fuel]; [lia|].
  cbn [Generate_blocks].
  replace (ctr =? ctr + 64 * Z.of_nat (S k)) with false by (symmetry; apply Z.eqb_neq; lia).
  unfold SalsaTransform512, BLOCK_SIZE.
  rewrite !size_t_small by lia.
  rewrite vec_write_Ok; [|lia|unfold size in *; rewrite SalsaBlock_length; lia].
  rewrite bind_ret.
  replace (ctr + 64 * Z.of_nat (S k)) with (ctr + 64 + 64 * Z.of_nat k) by lia.
  rewrite IH; try lia; [|unfold size in *; rewrite length_inserts; lia..].
  do 3 f_equal. simpl.
  rewrite <- inserts_inserts_app. rewrite SalsaBlock_length. f_equal. lia.
Qed.

(** [Generate] stores the first [Length] bytes of the key stream at
  [OutOffset] and moves the counter on by one per block drawn, the last
  one whole even when only a part of it is used *)
Lemma Generate_spec Output OutOffset c Length s :
  0 ≤ OutOffset → 0 ≤ Length → OutOffset + Length ≤ size Output → size Output < 2 ^ 64 →
  Generate Output OutOffset c Length s
  = Ok (list_inserts (Z.to_nat OutOffset)
          (take (Z.to_nat Length)
             (stream (blocks_for Length) c (m_wrkState s) (m_rndCount s))) Output,
        advance (blocks_for Length) c).
Proof.
intros Ho Hl Hs Hm. unfold Generate, BLOCK_SIZE.
pose proof (Z.div_mod Length 64 ltac:(lia)) as Hdm.
pose proof (Z.mod_pos_bound Length 64 ltac:(lia)) as Hr.
assert (Hq : 0 ≤ Length / 64) by (apply Z.div_pos; lia).
set (q := Length / 64) in *. set (r := Length mod 64) in *.
replace (Length - r) with (64 * q) by lia.
rewrite !(size_t_small (64 * q)) by lia.
replace (64 * q / 64) with q by (symmetry; rewrite Z.mul_comm; apply Z.div_mul; lia).
pose proof (Generate_blocks_spec (Z.to_nat q) (Z.to_nat q) Output OutOffset c 0 s) as G.
rewrite Z2Nat.id, Z.add_0_l, Z.add_0_r in G by lia.
rewrite G by lia. clear G. rewrite bind_ret. cbv beta iota zeta.
destruct (64 * q =? Length) eqn:He; cbn [negb].
- apply Z.eqb_eq in He. assert (r = 0) by lia.
  assert (Hb : blocks_for Length = Z.to_nat q).
  { unfold blocks_for. f_equal. rewrite <- He.
    replace (64 * q + 63) with (63 + q * 64) by lia.
    rewrite Z.div_add by lia. reflexivity. }
  rewrite Hb. rewrite take_ge by (rewrite stream_length; lia). reflexivity.
- apply Z.eqb_neq in He. assert (0 < r) by lia.
  assert (Hb : blocks_for Length = S (Z.to_nat q)).
  { unfold blocks_for. rewrite <- Z2Nat.inj_succ by lia. f_equal.
    replace (Length + 63) with (r + 63 + q * 64) by lia.
    rewrite Z.div_add by lia.
    replace ((r + 63) / 64) with 1; [lia|].
    apply Z.div_unique with (r := r - 1); [left; lia | lia]. }
  rewrite Hb, stream_succ, advance_succ.
  set (blk := SalsaBlock (advance (Z.to_nat q) c) (m_wrkState s) (m_rndCount s)).
  set (ks := stream (Z.to_nat q) c (m_wrkState s) (m_rndCount s)).
  assert (Lb : length blk = 64%nat) by apply SalsaBlock_length.
  assert (Lk : length ks = Z.to_nat (64 * q)).
  { unfold ks. rewrite stream_length. lia. }
  unfold SalsaTransform512. fold blk.
  rewrite vec_write_Ok;
    [|lia|unfold size; rewrite Lb, length_replicate; lia].
  rewrite bind_ret. change (Z.to_nat 0) with 0%nat.
  assert (Hw : list_inserts 0 blk (replicate (Z.to_nat 64) 0) = blk).
  { rewrite inserts_decompose by (rewrite length_replicate; lia).
    rewrite take_0, drop_ge by (rewrite length_replicate; lia).
    rewrite app_nil_r. reflexivity. }
  rewrite Hw. unfold MemUtils.Copy.
  rewrite vec_range_Ok by (unfold size; lia). rewrite bind_ret.
  change (Z.to_nat 0) with 0%nat. rewrite drop_0.
  rewrite !size_t_small by lia.
  rewrite vec_write_Ok;
    [|lia|unfold size in *; rewrite length_inserts, length_take; lia].
  rewrite bind_ret. do 2 f_equal.
  rewrite take_app_ge by lia. rewrite Lk.
  replace (Z.to_nat Length - Z.to_nat (64 * q))%nat with (Z.to_nat r) by lia.
  rewrite <- inserts_inserts_app. f_equal. lia.
Qed.

(** the body of the tail loop of [Process] *)
Definition tail_step (InOffset OutOffset ALNSZE : Z) (j : Z) (io : GCM.buffers)
  : result GCM.buffers :=
let i := size_t (ALNSZE + j) in
a ← vec_get (GCM.Input_of io) (size_t (i + InOffset));
b ← vec_get (GCM.Output_of io) (size_t (i + OutOffset));
out ← vec_set (GCM.Output_of io) (size_t (i + OutOffset)) (Z.lxor b a);
Ok (GCM.with_Output out io).

Lemma xor_tail_steps io InOffset OutOffset ALNSZE PRCSZE :
  xor_tail io InOffset OutOffset ALNSZE PRCSZE
  = for_loop (Z.to_nat (PRCSZE - ALNSZE)) (tail_step InOffset OutOffset ALNSZE) io.
Proof. reflexivity. Qed.

Lemma vec_get_lookup {A} (v : list A) i x :
  0 ≤ i → v !! Z.to_nat i = Some x → vec_get v i = Ok x.
Proof.
intros Hi Hx. unfold vec_get. rewrite bool_decide_eq_true_2 by exact Hi.
rewrite Hx. reflexivity.
Qed.

(** the tail loop on two arrays is a XOR of the range it walks *)
Lemma tail_loop_range Input Output InOffset OutOffset A (n : nat) :
  0 ≤ InOffset → 0 ≤ OutOffset → 0 ≤ A →
  InOffset + A + Z.of_nat n ≤ size Input → OutOffset + A + Z.of_nat n ≤ size Output →
  size Input < 2 ^ 64 → size Output < 2 ^ 64 →
  for_loop n (tail_step InOffset OutOffset A) (GCM.Distinct Input Output)
  = Ok (GCM.Distinct Input
          (xor_range Input (InOffset + A) Output (OutOffset + A) (Z.of_nat n))).
Proof.
intros Hi Ho Ha. induction n as [|n IH]; intros Hin Hout Hmi Hmo.
- simpl. rewrite xor_range_nil. reflexivity.
- cbn [for_loop]. rewrite IH by lia. rewrite bind_ret.
  unfold tail_step. cbn [GCM.Input_of GCM.Output_of GCM.with_Output]. cbv zeta.
  rewrite !(size_t_small (A + Z.of_nat n)) by lia.
  rewrite !size_t_small by lia.
  destruct (lookup_lt_is_Some_2 Input (Z.to_nat (A + Z.of_nat n + InOffset))) as [x Hx];
    [unfold size in *; lia|].
  destruct (lookup_lt_is_Some_2 Output (Z.to_nat (A + Z.of_nat n + OutOffset))) as [y Hy];
    [unfold size in *; lia|].
  pose proof (seg_length Output (OutOffset + A) (Z.of_nat n) ltac:(lia) ltac:(lia)
                ltac:(lia)) as L1.
  pose proof (seg_length Input (InOffset + A) (Z.of_nat n) ltac:(lia) ltac:(lia)
                ltac:(lia)) as L2.
  rewrite (vec_get_lookup Input _ x) by (lia || exact Hx). rewrite bind_ret.
  rewrite (vec_get_lookup _ _ y); [|lia|].
  2:{ unfold xor_range. rewrite list_lookup_inserts_ge; [exact Hy|].
      rewrite xor_bytes_length by lia. lia. }
  rewrite bind_ret.
  rewrite vec_set_Ok by (unfold size; rewrite xor_range_length; unfold size in *; lia).
  rewrite bind_ret. do 2 f_equal.
  unfold xor_range. replace (Z.of_nat (S n)) with (Z.of_nat n + 1) by lia.
  rewrite (seg_snoc Output (OutOffset + A) (Z.of_nat n) y); [|lia|lia|].
  2:{ rewrite <- Hy. f_equal. lia. }
  rewrite (seg_snoc Input (InOffset + A) (Z.of_nat n) x); [|lia|lia|].
  2:{ rewrite <- Hx. f_equal. lia. }
  rewrite xor_bytes_app by lia.
  rewrite <- inserts_inserts_app. rewrite xor_bytes_length by lia.
  cbn [MemUtils.xor_bytes zip_with list_inserts]. f_equal. lia.
Qed.




(** the length [Process] works on *)
Definition clamped (io : GCM.buffers) (InOffset OutOffset Length : Z) : Z :=
let inRoom := size_t (size (GCM.Input_of io) - InOffset) in
let outRoom := size_t (size (GCM.Output_of io) - OutOffset) in
if (inRoom <=? Length) && (outRoom <=? Length)
then IntUtils.Min inRoom outRoom else Length.

Lemma clamped_fits io InOffset OutOffset Length :
  0 ≤ InOffset → 0 ≤ OutOffset →
  InOffset + Length ≤ size (GCM.Input_of io) → OutOffset + Length ≤ size (GCM.Output_of io) →
  size (GCM.Input_of io) < 2 ^ 64 → size (GCM.Output_of io) < 2 ^ 64 →
  0 ≤ Length →
  clamped io InOffset OutOffset Length = Length.
Proof.
intros Hi Ho Hin Hout Hmi Hmo Hl. unfold clamped. cbv zeta.
rewrite !size_t_small by lia. unfold IntUtils.Min.
destruct (_ <=? Length) eqn:E1; [|reflexivity].
destruct (size (GCM.Output_of io) - OutOffset <=? Length) eqn:E2; [|reflexivity].
cbn [andb]. destruct (_ <? _) eqn:E3; lia.
Qed.

(** whether [Process] takes its sequential branch for [n] bytes *)
Definition sequential_for (n : Z) (s : Salsa20) : Prop :=
ParallelOptions.IsParallel (m_parallelProfile s) = false
∨ n < ParallelOptions.ParallelMinimumSize (m_parallelProfile s).

Lemma sequential_branch n s :
  sequential_for n s →
  negb (ParallelOptions.IsParallel (m_parallelProfile s))
  || (n <? ParallelOptions.ParallelMinimumSize (m_parallelProfile s)) = true.
Proof.
intros [Hp | Hp]; [rewrite Hp; reflexivity|].
apply orb_true_iff. right. apply Z.ltb_lt. exact Hp.
Qed.

(** the instance after [Length] bytes *)
Definition moved_on (Length : Z) (s : Salsa20) : Salsa20 :=
set_ctrVector (advance (blocks_for Length) (m_ctrVector s)) s.

Lemma aligned_part Length :
  0 ≤ Length < 2 ^ 64 →
  size_t (Length - Length mod BLOCK_SIZE) = Length - Length mod 64
  ∧ 0 ≤ Length - Length mod 64 ≤ Length.
Proof.
intros Hl. unfold BLOCK_SIZE.
pose proof (Z.mod_pos_bound Length 64 ltac:(lia)).
pose proof (Z.mod_le Length 64 ltac:(lia) ltac:(lia)).
rewrite size_t_small by lia. lia.
Qed.

(** the sequential branch on two arrays: the output range is the input
  range XOR the key stream *)
Lemma Process_distinct Input Output InOffset OutOffset Length s :
  sequential_for Length s →
  0 ≤ InOffset → 0 ≤ OutOffset → 0 ≤ Length →
  InOffset + Length ≤ size Input → OutOffset + Length ≤ size Output →
  size Input < 2 ^ 64 → size Output < 2 ^ 64 →
  Process (GCM.Distinct Input Output) InOffset OutOffset Length s
  = Ok (moved_on Length s,
        GCM.Distinct Input
          (list_inserts (Z.to_nat OutOffset)
             (MemUtils.xor_bytes (key_stream Length s) (seg Input InOffset Length))
             Output)).
Proof.
intros Hseq Hi Ho Hl Hin Hout Hmi Hmo.
pose proof (clamped_fits (GCM.Distinct Input Output) InOffset OutOffset Length
              Hi Ho Hin Hout Hmi Hmo Hl) as Hc.
unfold clamped in Hc. cbv zeta in Hc. unfold Process. cbv zeta. rewrite Hc.
rewrite (sequential_branch _ _ Hseq).
cbn [GCM.Input_of GCM.Output_of GCM.with_Output].
rewrite Generate_spec by lia. rewrite bind_ret. cbv beta iota zeta.
fold (key_stream Length s). fold (moved_on Length s).
destruct (aligned_part Length ltac:(lia)) as [-> Ha].
set (A := Length - Length mod 64) in *.
pose proof (key_stream_length Length s Hl) as Lk.
set (K := list_inserts (Z.to_nat OutOffset) (key_stream Length s) Output).
assert (LK : size K = size Output) by (unfold K, size; rewrite length_inserts; reflexivity).
assert (Hfirst : (if negb (A =? 0)
                  then MemUtils.XorBlock Input InOffset K OutOffset A
                  else Ok K) = Ok (xor_range Input InOffset K OutOffset A)).
{ destruct (A =? 0) eqn:E; cbn [negb].
  - apply Z.eqb_eq in E. rewrite E, xor_range_nil. reflexivity.
  - apply XorBlock_range; lia. }
rewrite Hfirst, bind_ret.
assert (Hrest : (if negb (A =? Length)
                 then xor_tail (GCM.Distinct Input (xor_range Input InOffset K OutOffset A))
                        InOffset OutOffset A Length
                 else Ok (GCM.Distinct Input (xor_range Input InOffset K OutOffset A)))
                = Ok (GCM.Distinct Input
                        (xor_range Input InOffset K OutOffset Length))).
{ destruct (A =? Length) eqn:E; cbn [negb].
  - apply Z.eqb_eq in E. rewrite E. reflexivity.
  - rewrite xor_tail_steps.
    rewrite tail_loop_range; rewrite ?Z2Nat.id; unfold size in *;
      rewrite ?xor_range_length; try lia.
    rewrite xor_range_split by (unfold size in *; lia).
    replace (A + (Length - A)) with Length by lia. reflexivity. }
rewrite Hrest, bind_ret. do 3 f_equal.
assert (Hseg : seg K OutOffset Length = key_stream Length s).
{ apply seg_inserts_len; [unfold size; lia | exact Ho | exact Hout]. }
unfold xor_range. rewrite Hseg.
unfold K. apply inserts_overwrite.
- rewrite xor_bytes_length; rewrite ?seg_length by lia; lia.
- rewrite xor_bytes_length; rewrite ?seg_length by lia; unfold size in *; lia.
Qed.








(** X17. [Salsa20::Transform] on two arrays, on the sequential branch:
  [Length] bytes at [OutOffset] of the output become the bytes at
  [InOffset] of the input XOR the first [Length] bytes of the key stream
  that starts at the instance's counter; nothing else in the output
  changes, and the counter moves on by one for every 64-byte block
  begun, a last partial block counting as a whole one. *)
Theorem Transform_key_stream Input Output InOffset OutOffset Length s :
  sequential_for Length s →
  0 ≤ InOffset → 0 ≤ OutOffset → 0 ≤ Length →
  InOffset + Length ≤ size Input → OutOffset + Length ≤ size Output →
  size Input < 2 ^ 64 → size Output < 2 ^ 64 →
  ∃ s' out,
    Transform (GCM.Distinct Input Output) InOffset OutOffset Length s
    = Ok (s', GCM.Distinct Input out)
    ∧ seg out OutOffset Length
      = MemUtils.xor_bytes (key_stream Length s) (seg Input InOffset Length)
    ∧ take (Z.to_nat OutOffset) out = take (Z.to_nat OutOffset) Output
    ∧ drop (Z.to_nat (OutOffset + Length)) out = drop (Z.to_nat (OutOffset + Length)) Output
    ∧ m_ctrVector s' = advance (Z.to_nat ((Length + 63) / 64)) (m_ctrVector s)
    ∧ m_wrkState s' = m_wrkState s.
Proof.
intros Hseq Hi Ho Hl Hin Hout Hmi Hmo. unfold Transform.
rewrite Process_distinct by assumption.
pose proof (key_stream_length Length s Hl) as Lk.
pose proof (seg_length Input InOffset Length Hi Hl Hin) as Ls.
set (x := MemUtils.xor_bytes (key_stream Length s) (seg Input InOffset Length)).
assert (Lx : size x = Length).
{ unfold x, size. rewrite xor_bytes_length by lia. lia. }
exists (moved_on Length s), (list_inserts (Z.to_nat OutOffset) x Output).
split; [reflexivity|]. split.
{ apply seg_inserts_len; assumption. }
unfold size in *. rewrite inserts_decompose by lia.
split.
{ rewrite take_app_le by (rewrite length_take; lia). rewrite take_take. f_equal. lia. }
split.
{ rewrite app_assoc. rewrite drop_app_ge by (rewrite length_app, length_take; lia).
  rewrite length_app, length_take, drop_drop. f_equal. lia. }
split; reflexivity.
Qed.








End Stream.

(** *** The constructor and a second [Initialize] *)

Lemma LeIncrement32_length c : length (LeIncrement32 c) = length c.
Proof.
induction c as [|w c IH]; [reflexivity|]. simpl.
destruct (uint (w + 1) =? 0); simpl; [rewrite IH|]; reflexivity.
Qed.

(** X23. The constructor takes exactly the numbers of rounds that
  [LegalRounds] lists: the even numbers from 8 to 30. Every other number
  is refused with a [CryptoSymmetricCipherException]. *)
Theorem Salsa20_new_legal_rounds profile (Rounds : Z) (s0 : Salsa20) :
  0 ≤ Rounds →
  (Rounds ∈ m_legalRounds (Scope s0) →
   ∃ s, Salsa20_new profile Rounds = Ok s ∧ m_rndCount s = Rounds
        ∧ Rounds ∈ m_legalRounds s)
  ∧ (Rounds ∉ m_legalRounds (Scope s0) →
     ∃ o m, Salsa20_new profile Rounds
            = Throw (CryptoSymmetricCipherException o m)).
Proof.
intros H0. cbn [Scope m_legalRounds]. split.
- intros Hin. rewrite !elem_of_cons in Hin. rewrite elem_of_nil in Hin.
  assert (Hcases : Rounds = 8 ∨ Rounds = 10 ∨ Rounds = 12 ∨ Rounds = 14 ∨ Rounds = 16
                   ∨ Rounds = 18 ∨ Rounds = 20 ∨ Rounds = 22 ∨ Rounds = 24
                   ∨ Rounds = 26 ∨ Rounds = 28 ∨ Rounds = 30) by tauto.
  clear Hin.
  repeat (destruct Hcases as [-> | Hcases]); try subst Rounds;
    (eexists; split; [reflexivity|]; split; [reflexivity|];
     cbn [Scope m_legalRounds]; rewrite !elem_of_cons; tauto).
- intros Hout. rewrite !elem_of_cons in Hout. rewrite elem_of_nil in Hout.
  unfold Salsa20_new.
  destruct ((Rounds =? 0) || negb (Z.land Rounds 1 =? 0)) eqn:E1;
    [cbn [throw_if]; eauto|].
  cbn [throw_if]. rewrite bind_ret.
  destruct ((Rounds <? MIN_ROUNDS) || (MAX_ROUNDS <? Rounds)) eqn:E2;
    [cbn [throw_if]; eauto|].
  exfalso. apply orb_false_iff in E1 as [_ E1], E2 as [E2 E3].
  apply negb_false_iff, Z.eqb_eq in E1.
  unfold MIN_ROUNDS, MAX_ROUNDS in *. apply Z.ltb_ge in E2, E3.
  assert (Hcases : Rounds = 8 ∨ Rounds = 9 ∨ Rounds = 10 ∨ Rounds = 11 ∨ Rounds = 12
                   ∨ Rounds = 13 ∨ Rounds = 14 ∨ Rounds = 15 ∨ Rounds = 16
                   ∨ Rounds = 17 ∨ Rounds = 18 ∨ Rounds = 19 ∨ Rounds = 20
                   ∨ Rounds = 21 ∨ Rounds = 22 ∨ Rounds = 23 ∨ Rounds = 24
                   ∨ Rounds = 25 ∨ Rounds = 26 ∨ Rounds = 27 ∨ Rounds = 28
                   ∨ Rounds = 29 ∨ Rounds = 30) by lia.
  repeat (destruct Hcases as [-> | Hcases]); try subst Rounds;
    first [discriminate E1 | tauto].
Qed.

Lemma two_words (c : list Z) : size c = 2 → ∃ a b, c = [a; b].
Proof.
unfold size. destruct c as [|a [|b [|x c]]]; simpl; intros Hc; try lia. eauto.
Qed.

Lemma fourteen_words (w : list Z) :
  size w = 14 →
  ∃ w0 w1 w2 w3 w4 w5 w6 w7 w8 w9 w10 w11 w12 w13,
    w = [w0; w1; w2; w3; w4; w5; w6; w7; w8; w9; w10; w11; w12; w13].
Proof.
unfold size. intros Hw.
do 14 (destruct w as [|? w]; [simpl in Hw; lia|]).
destruct w; [|simpl in Hw; lia]. repeat eexists.
Qed.

Lemma load32_store (i : Z) (Input : list byte) (off : Z) (w : list Z) :
  0 ≤ i < size w →
  load32 i Input off w = (x ← IntUtils.LeBytesTo32 Input off; Ok (<[Z.to_nat i := x]> w)).
Proof.
intros Hi. unfold load32. destruct (IntUtils.LeBytesTo32 Input off); try reflexivity.
rewrite !bind_ret. apply vec_set_Ok. exact Hi.
Qed.

(** the last step of [Initialize] *)
Definition keyed (s : Salsa20) : Salsa20 :=
{| m_ctrVector := m_ctrVector s;
   m_dstCode := m_dstCode s;
   m_isDestroyed := m_isDestroyed s;
   m_isInitialized := true;
   m_legalKeySizes := m_legalKeySizes s;
   m_legalRounds := m_legalRounds s;
   m_parallelProfile := m_parallelProfile s;
   m_rndCount := m_rndCount s;
   m_wrkState := m_wrkState s |}.

Ltac load_word :=
  rewrite !load32_store by (unfold size; simpl; lia);
  match goal with
  | |- context [IntUtils.LeBytesTo32 ?a ?b ≫= _] =>
      destruct (IntUtils.LeBytesTo32 a b); [rewrite !bind_ret | reflexivity..]
  end.

(** [Expand] writes all fourteen words of the working state *)
Lemma Expand_forgets Key Iv s s' :
  m_dstCode s' = m_dstCode s → m_ctrVector s' = m_ctrVector s →
  m_isDestroyed s' = m_isDestroyed s →
  m_legalKeySizes s' = m_legalKeySizes s → m_legalRounds s' = m_legalRounds s →
  m_parallelProfile s' = m_parallelProfile s → m_rndCount s' = m_rndCount s →
  size (m_wrkState s) = 14 → size (m_wrkState s') = 14 →
  (s1 ← Expand Key Iv s'; Ok (keyed s1)) = (s1 ← Expand Key Iv s; Ok (keyed s1)).
Proof.
intros E1 E2 E3 E5 E6 E7 E8 Hw Hw'. unfold Expand, keyed. cbv zeta.
rewrite E1, E2, E3, E5, E6, E7, E8.
destruct (fourteen_words _ Hw) as (a0&a1&a2&a3&a4&a5&a6&a7&a8&a9&a10&a11&a12&a13&->).
destruct (fourteen_words _ Hw') as (b0&b1&b2&b3&b4&b5&b6&b7&b8&b9&b10&b11&b12&b13&->).
destruct (size Key =? 32); do 14 load_word; reflexivity.
Qed.

(** X24. [Initialize] starts over: whatever counter, working state and
  distribution code an instance holds from earlier use, [Initialize]
  with a key container leaves the same instance, or fails the same way,
  as it does on any other instance of the same rounds and profile. So a
  second [Initialize] with the same key and nonce restarts the same key
  stream. *)
Theorem Initialize_starts_over KeyParams s s' :
  m_rndCount s' = m_rndCount s → m_parallelProfile s' = m_parallelProfile s →
  m_isDestroyed s' = m_isDestroyed s →
  size (m_ctrVector s) = 2 → size (m_ctrVector s') = 2 →
  size (m_wrkState s) = 14 → size (m_wrkState s') = 14 →
  Initialize KeyParams s' = Initialize KeyParams s.
Proof.
intros Hr Hp Hd Hc Hc' Hw Hw'. unfold Initialize. cbv zeta.
destruct (throw_if (negb (size (SymmetricKey.Nonce KeyParams) =? 8)) _); try reflexivity.
rewrite !bind_ret.
destruct (throw_if _ _); try reflexivity. rewrite !bind_ret.
cbn [Scope m_parallelProfile]. rewrite Hp.
destruct (check_profile _ _); try reflexivity. rewrite !bind_ret.
unfold Reset. cbn [Scope m_ctrVector m_dstCode m_wrkState m_isDestroyed m_isInitialized
                   m_legalKeySizes m_legalRounds m_parallelProfile m_rndCount].
destruct (two_words _ Hc) as (c0 & c1 & ->).
destruct (two_words _ Hc') as (c0' & c1' & ->).
rewrite !vec_set_Ok by (unfold size; simpl; lia). rewrite !bind_ret.
rewrite !vec_set_Ok by (unfold size; simpl; lia). rewrite !bind_ret.
change (<[Z.to_nat 1:=0]> (<[Z.to_nat 0:=0]> [c0'; c1'])) with [0; 0].
change (<[Z.to_nat 1:=0]> (<[Z.to_nat 0:=0]> [c0; c1])) with [0; 0].
rewrite Hr, Hd.
match goal with
| |- (Expand ?K ?N ?x ≫= _) = (Expand _ _ ?y ≫= _) =>
    exact (Expand_forgets K N y x eq_refl eq_refl eq_refl eq_refl eq_refl eq_refl
             eq_refl Hw Hw')
end.
Qed.

End Salsa20_Stream.
(** ** Salsa20 on a stand-in block function: the theorems at concrete inputs *)
Module Salsa20_Runs.

Import Salsa20 Salsa20_Process Salsa20_Stream Keccak512_Sequential.

(** A stand-in for the block function: 64 bytes that depend on the
  position, the counter, the working state and the rounds. It has the
  shape of [SalsaTransform512], not its strength. *)
Definition toy_salsa_block (Counter State : list Z) (Rounds : Z) : list byte :=
map (λ i : nat, (Z.of_nat i + 7 * hd 0 Counter + hd 0 (tail State) + Rounds) mod 256)
  (seq 0 64).

Lemma toy_salsa_block_length Counter State Rounds :
  length (toy_salsa_block Counter State Rounds) = 64%nat.
Proof. unfold toy_salsa_block. rewrite length_map, length_seq. reflexivity. Qed.

#[global] Instance toy_core : SalsaCore := {|
  SalsaBlock := toy_salsa_block;
  SalsaBlock_length := toy_salsa_block_length;
  Process_parallel := λ _ _ _ _ _, Fault
|}.

(** the 20-round cipher after [Initialize] with a 32-byte key *)
Definition keyed20 : Salsa20 :=
result_get Salsa20_Info.salsa20
  (Initialize Salsa20_Info.key_with_long_info Salsa20_Info.salsa20).

(** the same cipher after 70 bytes of key stream *)
Definition used20 : Salsa20 := moved_on 70 keyed20.

Definition text : list byte := map Z.of_nat (seq 1 100).
Definition room100 : list byte := replicate 100 255.

Lemma keyed20_sequential n : sequential_for n keyed20.
Proof. left. reflexivity. Qed.

Lemma text_size : size text = 100.
Proof. reflexivity. Qed.

Lemma room100_size : size room100 = 100.
Proof. reflexivity. Qed.


Lemma Transform_key_stream_witness :
  ∃ s' out,
    Transform (GCM.Distinct text room100) 3 5 70 keyed20 = Ok (s', GCM.Distinct text out)
    ∧ seg out 5 70 = MemUtils.xor_bytes (key_stream 70 keyed20) (seg text 3 70)
    ∧ take (Z.to_nat 5) out = take (Z.to_nat 5) room100
    ∧ drop (Z.to_nat (5 + 70)) out = drop (Z.to_nat (5 + 70)) room100
    ∧ m_ctrVector s' = advance (Z.to_nat ((70 + 63) / 64)) (m_ctrVector keyed20)
    ∧ m_wrkState s' = m_wrkState keyed20.
Proof.
apply (Transform_key_stream text room100 3 5 70 keyed20);
  [apply keyed20_sequential | rewrite ?text_size, ?room100_size; lia..].
Defined.






Lemma Salsa20_new_legal_rounds_witness :
  (20 ∈ m_legalRounds (Scope keyed20) →
   ∃ s, Salsa20_new Instances.sequential_profile 20 = Ok s ∧ m_rndCount s = 20
        ∧ 20 ∈ m_legalRounds s)
  ∧ (20 ∉ m_legalRounds (Scope keyed20) →
     ∃ o m, Salsa20_new Instances.sequential_profile 20
            = Throw (CryptoSymmetricCipherException o m)).
Proof.
apply (Salsa20_new_legal_rounds Instances.sequential_profile 20 keyed20). lia.
Defined.

Lemma Initialize_starts_over_witness :
  Initialize Salsa20_Info.key_with_long_info used20
  = Initialize Salsa20_Info.key_with_long_info Salsa20_Info.salsa20.
Proof.
apply (Initialize_starts_over Salsa20_Info.key_with_long_info Salsa20_Info.salsa20 used20);
  reflexivity.
Defined.

End Salsa20_Runs.

(** ** GCM on a stand-in cipher: the theorems at concrete inputs *)
Module GCM_Runs.

Import SymmetricKey GCM GCM_Destroy GCM_Counter GCM_Initialize GCM_Transform GCM_Mac
  GCM_Errors GCM_RoundTrip GCM_Cycle GCM_End.

Definition key16 : list byte := [1; 2; 3; 4; 5; 6; 7; 8; 9; 10; 11; 12; 13; 14; 15; 16].
Definition nonce12 : list byte := [21; 22; 23; 24; 25; 26; 27; 28; 29; 30; 31; 32].
Definition nonce13 : list byte := nonce12 ++ [33].

Definition key_params (nonce : list byte) : SymmetricKey :=
{| SymmetricKey.m_info := [];
   SymmetricKey.m_isDestroyed := false;
   SymmetricKey.m_key := key16;
   SymmetricKey.m_keySizes := {| KeySize := 16; NonceSize := size nonce; InfoSize := 0 |};
   SymmetricKey.m_nonce := nonce |}.

Definition fresh : GCM := GCM_new Instances.sequential_profile.

Definition H16 : GHASH.t := GHASH.create (hash_key key16).

(** a decrypting and an encrypting instance after [Initialize] *)
Definition decrypting : GCM := initialized false key16 nonce12 H16 fresh.
Definition encrypting : GCM := initialized true key16 nonce12 H16 fresh.

Definition message : list byte :=
[72; 101; 108; 108; 111; 44; 32; 119; 111; 114; 108; 100; 33; 0; 1; 2; 3; 4; 5; 6].
Definition header : list byte := [9; 8; 7].
Definition zeros (n : nat) : list byte := replicate n 0.

Lemma fresh_legal : Contains (m_legalKeySizes (Scope fresh)) (size (Key (key_params nonce12))) = true.
Proof. reflexivity. Qed.

Lemma fresh_profile : check_profile "GCM:Initialize" (m_parallelProfile fresh) = Ok ().
Proof. reflexivity. Qed.

Lemma fresh_clean : clean fresh.
Proof. repeat split. Qed.

Lemma encrypting_ready : ready encrypting.
Proof. apply initialized_ready; [vm_compute; discriminate | reflexivity..]. Qed.

Lemma decrypting_ready : ready decrypting.
Proof. apply initialized_ready; [vm_compute; discriminate | reflexivity..]. Qed.

Lemma Initialize_first_counter_block_witness :
  (∃ s' g J0,
     Initialize true (key_params nonce12) fresh = Ok s'
     ∧ Initialize_vector nonce12 (Some H16) = Ok (Some g, J0)
     ∧ J0 = nonce12 ++ [0; 0; 0; 1]
     ∧ m_gcmVector s' = Engine_Transform key16 J0)
  ∧ (∃ s' g J0,
       Initialize false (key_params nonce13) fresh = Ok s'
       ∧ Initialize_vector nonce13 (Some H16) = Ok (Some g, J0)
       ∧ J0 = (GHASH.finalize_block (GHASH.segment_bytes nonce13 ZEROES H16).2 0 13
                 (GHASH.segment_bytes nonce13 ZEROES H16).1).2
       ∧ m_gcmVector s' = Engine_Transform key16 J0).
Proof.
split.
- destruct (Initialize_first_counter_block true (key_params nonce12) fresh)
    as (s' & g & J0 & HI & HV & H12 & _ & Hv & _);
    [vm_compute; discriminate | vm_compute; discriminate | reflexivity | reflexivity |].
  exists s', g, J0. repeat split; [exact HI | exact HV | apply H12; reflexivity | exact Hv].
- destruct (Initialize_first_counter_block false (key_params nonce13) fresh)
    as (s' & g & J0 & HI & HV & _ & H13 & Hv & _);
    [vm_compute; discriminate | vm_compute; discriminate | reflexivity | reflexivity |].
  exists s', g, J0. repeat split; [exact HI | exact HV | | exact Hv].
  apply H13. vm_compute. discriminate.
Defined.

Lemma Transform_order_witness :
  ∃ cm out s',
    CTR.Transform message 2 message 2 16 (m_cipherMode decrypting) = Ok (cm, out)
    ∧ Transform Debug (InPlace message) 2 2 16 decrypting = Ok (s', InPlace out)
    ∧ m_checkSum s'
      = (GHASH.update_bytes (range_of message 2 16) (m_checkSum decrypting)
           (first_counter nonce12 H16).1).2
    ∧ m_msgSize s' = 16.
Proof.
destruct (Transform_order Debug (InPlace message) 2 2 16 decrypting
            (first_counter nonce12 H16).1)
  as (cm & out & s' & HC & HT & _ & _ & Hd & _ & Hm);
  [reflexivity | reflexivity | lia | lia | vm_compute; discriminate | lia
  | vm_compute; discriminate | reflexivity | reflexivity |].
exists cm, out, s'. split; [exact HC|]. split; [exact HT|]. split.
- apply Hd. reflexivity.
- apply Hm; [vm_compute; discriminate | reflexivity].
Defined.


Lemma Verify_outcomes_witness :
  ∃ s' b,
    Verify (zeros 16) 0 12 decrypting = Ok (s', b)
    ∧ (range_of (mac_tag (hash_of decrypting) decrypting) 0 12 = range_of (zeros 16) 0 12
       → b = true)
    ∧ (range_of (mac_tag (hash_of decrypting) decrypting) 0 12 ≠ range_of (zeros 16) 0 12
       → b = false).
Proof.
destruct (Verify_outcomes (zeros 16) (zeros 16) 0 12 decrypting) as (_ & _ & HV).
apply HV; [exact decrypting_ready | reflexivity | left; reflexivity | lia | lia
          | vm_compute; discriminate].
Defined.

Lemma encrypt_decrypt_verify_witness :
  ∃ e1 e2 e3 e4 cbuf' tbuf' d1 d2 d3 d4 pbuf',
    Initialize true (key_params nonce13) fresh = Ok e1
    ∧ SetAssociatedData header 0 (size header) e1 = Ok e2
    ∧ Transform Release (Distinct message (zeros 20)) 0 0 (size message) e2
      = Ok (e3, Distinct message cbuf')
    ∧ Finalize (zeros 16) 0 12 e3 = Ok (e4, tbuf')
    ∧ Initialize false (key_params nonce13) fresh = Ok d1
    ∧ SetAssociatedData header 0 (size header) d1 = Ok d2
    ∧ Transform Release (Distinct cbuf' (zeros 20)) 0 0 (size message) d2
      = Ok (d3, Distinct cbuf' pbuf')
    ∧ range_of pbuf' 0 (size message) = message
    ∧ Verify tbuf' 0 12 d3 = Ok (d4, true).
Proof.
apply (encrypt_decrypt_verify Release (key_params nonce13) header message 12 fresh fresh
         (zeros 20) (zeros 20) (zeros 16));
  first [ exact fresh_clean | reflexivity | lia | (vm_compute; discriminate) ].
Defined.

(** instances with auto-increment on, and the decrypting one as its
  first [Finalize] leaves it *)
Definition counting : GCM := set_AutoIncrement true fresh.
Definition auto_encrypting : GCM := initialized true key16 nonce12 H16 counting.
Definition auto_decrypting : GCM := initialized false key16 nonce12 H16 counting.
Definition second_message : GCM := mac_done auto_decrypting.

Lemma auto_encrypting_ready : ready auto_encrypting.
Proof. apply initialized_ready; [vm_compute; discriminate | reflexivity..]. Qed.

Lemma auto_decrypting_ready : ready auto_decrypting.
Proof. apply initialized_ready; [vm_compute; discriminate | reflexivity..]. Qed.

Lemma second_message_ready : ready second_message.
Proof. apply mac_done_ready. exact auto_decrypting_ready. Qed.

Lemma Finalize_leaves_clean_witness :
  ∃ s' out,
    Finalize (zeros 16) 0 12 encrypting = Ok (s', out)
    ∧ clean s'
    ∧ m_aadSize s' = 0
    ∧ m_parallelProfile s' = m_parallelProfile encrypting
    ∧ m_legalKeySizes (Scope s') = m_legalKeySizes (Scope encrypting).
Proof.
apply (Finalize_leaves_clean (zeros 16) 0 12 encrypting);
  first [ exact encrypting_ready | reflexivity | lia | (vm_compute; discriminate) ].
Defined.

Lemma Finalize_auto_increment_witness :
  ∃ s' out g,
    Finalize (zeros 16) 0 12 auto_encrypting = Ok (s', out)
    ∧ m_isInitialized s' = true
    ∧ m_isEncryption s' = m_isEncryption auto_encrypting
    ∧ m_gcmKey s' = m_gcmKey auto_encrypting
    ∧ m_gcmNonce s' = IntUtils.BeIncrement8 (m_gcmNonce auto_encrypting)
    ∧ m_gcmNonce s' ≠ m_gcmNonce auto_encrypting
    ∧ m_cipherMode s'
      = {| CTR.m_engineKey := m_gcmKey auto_encrypting;
           CTR.m_ctrVector :=
             IntUtils.BeIncrement8 (first_counter (m_gcmNonce s') g).2;
           CTR.m_isInitialized := true |}
    ∧ m_gcmVector s'
      = Engine_Transform (m_gcmKey auto_encrypting) (first_counter (m_gcmNonce s') g).2
    ∧ m_msgSize s' = 0.
Proof.
apply (Finalize_auto_increment (zeros 16) 0 12 auto_encrypting);
  first [ exact auto_encrypting_ready | reflexivity | lia | (vm_compute; discriminate) ].
Defined.

Lemma auto_increment_second_tag_witness :
  ∃ s1 tag1 s2 io' s3,
    Finalize (zeros 16) 0 16 auto_encrypting = Ok (s1, tag1)
    ∧ Transform Release (Distinct message (zeros 20)) 0 0 20 s1 = Ok (s2, io')
    ∧ Finalize (zeros 16) 0 16 s2
      = Ok (s3, list_inserts (Z.to_nat 0) (replicate (Z.to_nat 16) 0) (zeros 16)).
Proof.
apply (auto_increment_second_tag Release (zeros 16) 0 16 (Distinct message (zeros 20))
         0 0 20 (zeros 16) 0 16 auto_encrypting);
  first [ exact auto_encrypting_ready | reflexivity | lia | (vm_compute; discriminate) ].
Defined.

Lemma Finalize_then_Verify_witness :
  ∃ s' out,
    Finalize (zeros 16) 0 12 decrypting = Ok (s', out)
    ∧ Verify out 0 12 s' = Ok (s', true).
Proof.
apply (Finalize_then_Verify (zeros 16) 0 12 decrypting);
  first [ exact decrypting_ready | reflexivity | lia | (vm_compute; discriminate) ].
Defined.

Lemma Verify_after_finalized_witness :
  ∃ s2 io',
    Transform Release (Distinct message (zeros 20)) 0 0 20 second_message = Ok (s2, io')
    ∧ Verify (zeros 16) 0 12 s2
      = Ok (s2, bool_decide (range_of (m_msgTag second_message) 0 12
                             = range_of (zeros 16) 0 12)).
Proof.
apply (Verify_after_finalized Release (Distinct message (zeros 20)) 0 0 20 (zeros 16) 0 12
         second_message);
  first [ exact second_message_ready | reflexivity | lia | (vm_compute; discriminate) ].
Defined.

Lemma Encrypt128_absorbs_input_witness :
  ∃ cm out s1 s2,
    CTR.EncryptBlock message 2 (zeros 20) 1 (m_cipherMode encrypting) = Ok (cm, out)
    ∧ Encrypt128 Release (Distinct message (zeros 20)) 2 1 encrypting
      = Ok (s1, Distinct message out)
    ∧ m_checkSum s1
      = (GHASH.update_bytes (range_of message 2 16) (m_checkSum encrypting)
           (first_counter nonce12 H16).1).2
    ∧ Transform Release (Distinct message (zeros 20)) 2 1 16 encrypting
      = Ok (s2, Distinct message out)
    ∧ m_checkSum s2
      = (GHASH.update_bytes (range_of out 1 16) (m_checkSum encrypting)
           (first_counter nonce12 H16).1).2
    ∧ m_cipherMode s1 = m_cipherMode s2.
Proof.
apply (Encrypt128_absorbs_input Release message (zeros 20) 2 1 encrypting
         (first_counter nonce12 H16).1);
  first [ reflexivity | lia | (vm_compute; discriminate) ].
Defined.

Lemma Tag_after_Finalize_witness :
  ∃ s' out tag,
    Finalize (zeros 16) 0 12 encrypting = Ok (s', out)
    ∧ Tag s' = Ok tag
    ∧ length tag = 16%nat
    ∧ range_of out 0 12 = range_of tag 0 12.
Proof.
apply (proj2 (proj2 (Tag_after_Finalize (zeros 16) 0 12 encrypting)));
  first [ exact encrypting_ready | reflexivity | lia | (vm_compute; discriminate) ].
Defined.

(** the encrypting instance with its header loaded *)
Definition with_header : GCM :=
with_aad (range_of header 0 3) (first_counter nonce12 H16).1 encrypting.

Lemma with_header_Ok : SetAssociatedData header 0 3 encrypting = Ok with_header.
Proof.
apply SetAssociatedData_Ok;
  first [ reflexivity | lia | (vm_compute; discriminate) ].
Qed.

Lemma SetAssociatedData_once_witness :
  is_Throw (SetAssociatedData header 0 3 fresh) = true
  ∧ m_aadData with_header = range_of header 0 3
  ∧ m_aadSize with_header = 3
  ∧ is_Throw (SetAssociatedData header 0 3 with_header) = true.
Proof.
split.
- apply (proj2 (proj1 (SetAssociatedData_once header 0 3 fresh))). left. reflexivity.
- destruct (proj2 (SetAssociatedData_once header 0 3 encrypting) with_header with_header_Ok)
    as (Hd & Hs & Ht).
  split; [exact Hd|]. split; [exact Hs|]. apply Ht.
Defined.

(** stand-ins for what [Destroy] calls: a wiped vector is empty, a wiped
  counter mode is the one of a new instance; and a second set of them,
  with a [ClearVector] that throws *)
#[global] Instance toy_wipe : Wipe := {|
  ParallelOptions_Reset := λ p, Ok p;
  ClearVector := λ A _, Ok [];
  CTR_Destroy := λ _, Ok CTR.CTR_new
|}.

Definition failing_wipe : Wipe := {|
  ParallelOptions_Reset := λ p, Ok p;
  ClearVector := λ A _,
    Throw (CryptoProcessingException "IntUtils:ClearVector" "stand-in failure");
  CTR_Destroy := λ _, Ok CTR.CTR_new
|}.

Definition owned : Lifetime :=
{| m_cipherType := BlockCiphers_Other 1; m_destroyEngine := true; m_isDestroyed := false |}.

Lemma Destroy_needs_key_witness :
  Destroy fresh owned = Fault
  ∧ (∃ s' l',
       Destroy encrypting owned = Ok (s', l')
       ∧ m_isDestroyed l' = true
       ∧ m_isInitialized s' = false
       ∧ m_gcmKey s' = m_gcmKey encrypting)
  ∧ Destroy (W := failing_wipe) encrypting owned
    = Throw (CryptoCipherModeException "GCM:Destroy" "Could not clear all variables!").
Proof.
split; [|split].
- apply (proj1 (Destroy_needs_key fresh owned) (m_parallelProfile fresh)); reflexivity.
- destruct (Destroy encrypting owned) as [[s' l']| | |] eqn:E.
  + destruct (proj2 (proj2 (proj2 (proj2 (Destroy_needs_key encrypting owned)))) s' l' E)
      as (_ & Hd & Hi & _ & _ & Hk & _).
    exists s', l'. split; [reflexivity|]. split; [exact Hd|]. split; [exact Hi | exact Hk].
  + discriminate E.
  + discriminate E.
  + discriminate E.
- apply (proj1 (proj2 (proj2 (proj2 (Destroy_needs_key (W := failing_wipe)
                                        encrypting owned))))
           (m_parallelProfile encrypting) (first_counter nonce12 H16).1
           (CryptoProcessingException "IntUtils:ClearVector" "stand-in failure"));
    reflexivity.
Defined.

End GCM_Runs.

